(** * Assembly and grid-transfer machinery of MFEM

    A shallow embedding of [fem/transfer.cpp] and of the inline members of
    [fem/bilinearform.hpp], with the properties that the design document
    states about them.

    Conventions.
    - A C++ [int] that counts or indexes a loop is a [nat]; an [int] that
      carries the sign encoding of a degree of freedom is a [Z].
    - A [double] that takes part in linear algebra is an element of a
      commutative ring ([Scalar]): the algebraic identities below hold in
      exact arithmetic, rounding is outside the model.  A [double] that is
      only stored (the solver tolerances) is a binary64 [float].
    - [Vector] and [Array<T>] are lists, read with [nth] and written with
      [upd]; a [DenseMatrix] keeps its column-major storage.
    - [MFEM_VERIFY] and [MFEM_ABORT] end the program: a fallible member
      returns [Result], whose [Abort] carries the diagnostic text. *)

From Stdlib Require Import String DecimalString.
From Stdlib Require Import ZArith List Lia Bool Ring Floats.
From Stdlib Require Import Permutation.
Import ListNotations.

Set Implicit Arguments.
Set Warnings "-inexact-float".

(* ------------------------------------------------------------------ *)
(** ** Scalars *)
(* ------------------------------------------------------------------ *)

(** The arithmetic of [double] as far as the linear algebra of the
    transfer operators uses it: a commutative ring. *)
Class Scalar (R : Type) : Type := {
  rO : R;
  rI : R;
  radd : R -> R -> R;
  rmul : R -> R -> R;
  rsub : R -> R -> R;
  ropp : R -> R;
  scalar_ring : ring_theory rO rI radd rmul rsub ropp (@eq R)
}.

Declare Scope scalar_scope.
Delimit Scope scalar_scope with S.
Infix "+" := radd : scalar_scope.
Infix "*" := rmul : scalar_scope.
Infix "-" := rsub : scalar_scope.
Notation "- x" := (ropp x) : scalar_scope.

#[export] Instance Scalar_Z : Scalar Z := {
  rO := 0%Z; rI := 1%Z;
  radd := Z.add; rmul := Z.mul; rsub := Z.sub; ropp := Z.opp;
  scalar_ring := Zth
}.

(* ------------------------------------------------------------------ *)
(** ** Failure *)
(* ------------------------------------------------------------------ *)

(** [MFEM_ABORT(msg)] and a failed [MFEM_VERIFY(cond, msg)]. *)
Inductive Result (A : Type) : Type :=
| Ok (a : A)
| Abort (msg : string).

Arguments Ok {A} a.
Arguments Abort {A} msg.

Definition bind {A B : Type} (r : Result A) (k : A -> Result B) : Result B :=
  match r with
  | Ok a => k a
  | Abort msg => Abort msg
  end.

Definition MFEM_VERIFY (cond : bool) (msg : string) : Result unit :=
  if cond then Ok tt else Abort msg.

Notation "x <- c ;; k" := (bind c (fun x => k))
  (at level 61, c at next level, right associativity).
Notation "c ;;; k" := (bind c (fun _ => k))
  (at level 61, right associativity).

(* ------------------------------------------------------------------ *)
(** ** Arrays and vectors *)
(* ------------------------------------------------------------------ *)

(** [a[i] = v]; a write past the end is dropped. *)
Fixpoint upd {A : Type} (i : nat) (v : A) (a : list A) : list A :=
  match a, i with
  | [], _ => []
  | _ :: t, O => v :: t
  | h :: t, S j => h :: upd j v t
  end.

(** [Array<T>::SetSize(n, v)], and a fresh [Vector] after [= 0.0]. *)
Definition filled {A : Type} (n : nat) (v : A) : list A := repeat v n.

(** [FiniteElementSpace::DecodeDof]: a negative index [-1-j] names the
    degree of freedom [j] with its sign flipped. *)
Definition DecodeDof (dof : Z) : Z :=
  if (0 <=? dof)%Z then dof else (-1 - dof)%Z.

Definition dof_index (dof : Z) : nat := Z.to_nat (DecodeDof dof).

Section LinearAlgebra.
Context {R : Type} {SR : Scalar R}.

Definition Vector : Type := list R.

Definition sum_list (l : list R) : R := fold_right radd rO l.

(** The sum of [f 0 .. f (n-1)]. *)
Definition sumn (n : nat) (f : nat -> R) : R := sum_list (map f (seq 0 n)).

(** Multiplication by the sign that the encoding of [dof] carries. *)
Definition signed (dof : Z) (v : R) : R :=
  if (0 <=? dof)%Z then v else (- v)%S.

(** Modelled from the spec: [Vector::GetSubVector(dofs, elemvect)] of
    linalg/vector.cpp, the gather through a signed index list. *)
Definition GetSubVector (dofs : list Z) (x : Vector) : Vector :=
  map (fun j => signed j (nth (dof_index j) x rO)) dofs.

(** Modelled from the spec: [Vector::SetSubVector(dofs, elemvect)], the
    overwriting scatter, entry by entry in the order of [dofs]. *)
Definition SetSubVector (dofs : list Z) (elemvect : Vector) (y : Vector)
  : Vector :=
  fold_left
    (fun y i =>
       let j := nth i dofs 0%Z in
       upd (dof_index j) (signed j (nth i elemvect rO)) y)
    (seq 0 (length dofs)) y.

(** Modelled from the spec: [Vector::AddElementVector(dofs, elemvect)],
    the accumulating scatter. *)
Definition AddElementVector (dofs : list Z) (elemvect : Vector) (y : Vector)
  : Vector :=
  fold_left
    (fun y i =>
       let j := nth i dofs 0%Z in
       upd (dof_index j)
           (nth (dof_index j) y rO + signed j (nth i elemvect rO))%S y)
    (seq 0 (length dofs)) y.

(** [DenseMatrix]: [Height] by [Width], stored column by column. *)
Record DenseMatrix : Type := {
  Height : nat;
  Width : nat;
  Data : list R
}.

(** [A(i, j)] is [data[i + j*height]]. *)
Definition Elem (A : DenseMatrix) (i j : nat) : R :=
  nth (i + j * Height A) (Data A) rO.

(** The matrix of the given size whose entry [(i, j)] is [f i j]. *)
Definition DenseMatrix_of (h w : nat) (f : nat -> nat -> R) : DenseMatrix :=
  {| Height := h; Width := w;
     Data := flat_map (fun j => map (fun i => f i j) (seq 0 h)) (seq 0 w) |}.

(** [DenseMatrix A(h, w)] followed by [A = 0.0]. *)
Definition DenseMatrix_zero (h w : nat) : DenseMatrix :=
  {| Height := h; Width := w; Data := filled (h * w) rO |}.

(** Modelled from the spec: [DenseMatrix::Mult(x, y)], [y = A x]. *)
Definition DenseMatrix_Mult (A : DenseMatrix) (x : Vector) : Vector :=
  map (fun i => sumn (Width A) (fun j => Elem A i j * nth j x rO)%S)
      (seq 0 (Height A)).

(** Modelled from the spec: [DenseMatrix::MultTranspose(x, y)]. *)
Definition DenseMatrix_MultTranspose (A : DenseMatrix) (x : Vector) : Vector :=
  map (fun j => sumn (Height A) (fun i => Elem A i j * nth i x rO)%S)
      (seq 0 (Width A)).

(** Modelled from the spec: [DenseMatrix::Transpose()]. *)
Definition DenseMatrix_Transpose (A : DenseMatrix) : DenseMatrix :=
  DenseMatrix_of (Width A) (Height A) (fun i j => Elem A j i).

(** Modelled from the spec: [mfem::Mult(b, c, a)], [a = b c]. *)
Definition MatMult (B C : DenseMatrix) : DenseMatrix :=
  DenseMatrix_of (Height B) (Width C)
    (fun i j => sumn (Width B) (fun k => Elem B i k * Elem C k j)%S).

(** Modelled from the spec: [mfem::MultAtB(A, B, AtB)]. *)
Definition MultAtB (A B : DenseMatrix) : DenseMatrix :=
  DenseMatrix_of (Width A) (Width B)
    (fun i j => sumn (Height A) (fun k => Elem A k i * Elem B k j)%S).

(** Modelled from the spec: [DenseMatrix::CopyMN(A, row_offset,
    col_offset)], which copies [A] into a block of [this]. *)
Definition CopyMN (A : DenseMatrix) (row_offset col_offset : nat)
  (M : DenseMatrix) : DenseMatrix :=
  {| Height := Height M; Width := Width M;
     Data :=
       fold_left
         (fun d j =>
            fold_left
              (fun d i =>
                 upd ((row_offset + i) + (col_offset + j) * Height M)
                     (Elem A i j) d)
              (seq 0 (Height A)) d)
         (seq 0 (Width A)) (Data M) |}.

(** Modelled from the spec: [AddMultVWt(v, w, VWt)], [VWt += v w^t]. *)
Definition AddMultVWt (v w : Vector) (VWt : DenseMatrix) : DenseMatrix :=
  {| Height := Height VWt; Width := Width VWt;
     Data :=
       fold_left
         (fun d j =>
            let wj := nth j w rO in
            fold_left
              (fun d i =>
                 upd (i + j * Height VWt)
                     (nth (i + j * Height VWt) d rO + nth i v rO * wj)%S d)
              (seq 0 (length v)) d)
         (seq 0 (length w)) (Data VWt) |}.

(** [v *= a]. *)
Definition scale (a : R) (v : Vector) : Vector := map (fun c => (c * a)%S) v.

(** The data that a view [DenseMatrix(&v[off], h, w)] writes back. *)
Definition write_at (off : nat) (blk : list R) (v : Vector) : Vector :=
  fold_left (fun v k => upd (off + k) (nth k blk rO) v)
            (seq 0 (length blk)) v.

(** An [Operator] whose action is all that the transfer code uses: a
    conforming prolongation or restriction matrix.  [op_Mult x y] is the
    new value of the output argument [y]. *)
Record Operator : Type := {
  op_Height : nat;
  op_Width : nat;
  op_Mult : Vector -> Vector -> Vector;
  op_MultTranspose : Vector -> Vector -> Vector
}.

End LinearAlgebra.

Arguments Vector R : clear implicits.
Arguments DenseMatrix R : clear implicits.
Arguments Operator R : clear implicits.

(* ------------------------------------------------------------------ *)
(** ** Meshes, elements and spaces (external collaborators) *)
(* ------------------------------------------------------------------ *)

(** [Geometry::Type]. *)
Inductive Geometry : Type :=
| INVALID | POINT | SEGMENT | TRIANGLE | SQUARE
| TETRAHEDRON | CUBE | PRISM | PYRAMID.

Definition Geometry_eqb (a b : Geometry) : bool :=
  match a, b with
  | INVALID, INVALID | POINT, POINT | SEGMENT, SEGMENT
  | TRIANGLE, TRIANGLE | SQUARE, SQUARE | TETRAHEDRON, TETRAHEDRON
  | CUBE, CUBE | PRISM, PRISM | PYRAMID, PYRAMID => true
  | _, _ => false
  end.

(** [FiniteElementCollection::GetContType()]. *)
Inductive ContType : Type :=
| CONTINUOUS | TANGENTIAL | NORMAL | DISCONTINUOUS.

Definition ContType_eqb (a b : ContType) : bool :=
  match a, b with
  | CONTINUOUS, CONTINUOUS | TANGENTIAL, TANGENTIAL
  | NORMAL, NORMAL | DISCONTINUOUS, DISCONTINUOUS => true
  | _, _ => false
  end.

(** [Ordering::Type]. *)
Inductive Ordering : Type := byNODES | byVDIM.

(** One entry of [CoarseFineTransformations::embeddings]. *)
Record Embedding : Type := {
  parent : nat;
  matrix : nat
}.

Section Spaces.
Context {R : Type} {SR : Scalar R}.

Record IntegrationPoint : Type := {
  ip_x : R;
  ip_y : R;
  ip_z : R;
  weight : R
}.

(** What the transfer code asks of a [FiniteElement]. *)
Record FiniteElement : Type := {
  GetOrder : nat;
  GetDof : nat;
  CalcShape : IntegrationPoint -> Vector R;
  IsTensorBasisElement : bool
}.

(** An [ElementTransformation]; [Weight ip] is [Weight()] after
    [SetIntPoint(&ip)]. *)
Record ElementTransformation : Type := {
  OrderW : nat;
  Weight : IntegrationPoint -> R
}.

(** [IntegrationPointTransformation::Transform(ip_in, ip_out)]. *)
Record IntegrationPointTransformation : Type := {
  Transform : IntegrationPoint -> IntegrationPoint
}.

(** [DofTransformation], returned by [GetElementDofs] when the element
    needs one. *)
Record DofTransformation : Type := {
  TransformPrimal : Vector R -> Vector R;
  InvTransformPrimal : Vector R -> Vector R;
  TransformDual : Vector R -> Vector R;
  InvTransformDual : Vector R -> Vector R
}.

(** [CoarseFineTransformations]: the embedding of every fine element and,
    per geometry, the point matrices the embeddings refer to. *)
Record CoarseFineTransformations : Type := {
  embeddings : list Embedding;
  point_matrices : Geometry -> list (DenseMatrix R)
}.

Record Mesh : Type := {
  mesh_GetNE : nat;
  Dimension : nat;
  GetElementBaseGeometry : nat -> Geometry;
  GetRefinementTransforms : CoarseFineTransformations
}.

(** What the transfer code consumes from a [FiniteElementSpace]. *)
Record FiniteElementSpace : Type := {
  GetMesh : Mesh;
  GetVDim : nat;
  GetNDofs : nat;
  GetOrdering : Ordering;
  GetTrueVSize : nat;
  IsVariableOrder : bool;
  GetContType : ContType;
  GetFE : nat -> FiniteElement;
  GetElementDofs : nat -> list Z * option DofTransformation;
  GetElementTransformation : nat -> ElementTransformation;
  GetProlongationMatrix : option (Operator R);
  GetRestrictionMatrix : option (Operator R);
  GetHpRestrictionMatrix : option (Operator R);
  GetRestrictionOperator : option (Operator R);
  RestrictionBooleanMult : list Z -> list Z
}.

Definition GetNE (fes : FiniteElementSpace) : nat := mesh_GetNE (GetMesh fes).

Definition GetVSize (fes : FiniteElementSpace) : nat :=
  (GetVDim fes * GetNDofs fes)%nat.

(** The place of component [vd] of the scalar degree of freedom [dof]. *)
Definition DofToVDof (fes : FiniteElementSpace) (dof vd : nat) : nat :=
  match GetOrdering fes with
  | byNODES => (dof + vd * GetNDofs fes)%nat
  | byVDIM => (dof * GetVDim fes + vd)%nat
  end.

(** Modelled from the spec: [FiniteElementSpace::DofsToVDofs(vd, dofs)] of
    fem/fespace.cpp, which maps scalar indices to those of component [vd]
    and keeps the sign encoding. *)
Definition DofsToVDofs (fes : FiniteElementSpace) (vd : nat) (dofs : list Z)
  : list Z :=
  map (fun dof =>
         if (0 <=? dof)%Z
         then Z.of_nat (DofToVDof fes (Z.to_nat dof) vd)
         else (-1 - Z.of_nat (DofToVDof fes (Z.to_nat (-1 - dof)) vd))%Z)
      dofs.

(** Modelled from the spec: [GetElementVDofs(i, vdofs)], the indices of all
    components of element [i], component after component. *)
Definition GetElementVDofs (fes : FiniteElementSpace) (i : nat) : list Z :=
  flat_map (fun vd => DofsToVDofs fes vd (fst (GetElementDofs fes i)))
           (seq 0 (GetVDim fes)).

(** Modelled from the spec: [GetVDofs(vd, dofs)], every index of component
    [vd]. *)
Definition GetVDofs (fes : FiniteElementSpace) (vd : nat) : list Z :=
  map (fun dof => Z.of_nat (DofToVDof fes dof vd)) (seq 0 (GetNDofs fes)).

End Spaces.

Arguments IntegrationPoint R : clear implicits.
Arguments FiniteElement R : clear implicits.
Arguments ElementTransformation R : clear implicits.
Arguments IntegrationPointTransformation R : clear implicits.
Arguments DofTransformation R : clear implicits.
Arguments CoarseFineTransformations R : clear implicits.
Arguments Mesh R : clear implicits.
Arguments FiniteElementSpace R : clear implicits.

(* ------------------------------------------------------------------ *)
(** ** L2 projection: the mixed mass matrix and the discontinuous
       strategy *)
(* ------------------------------------------------------------------ *)

Section L2Projection.
Context {R : Type} {SR : Scalar R}.

(** The quadrature table [IntRules.Get(geom, order)]. *)
Variable IntRules_Get : Geometry -> nat -> list (IntegrationPoint R).

(** [MassIntegrator::AssembleElementMatrix(fe, el_tr, elmat)]. *)
Variable AssembleElementMatrix :
  FiniteElement R -> ElementTransformation R -> DenseMatrix R.

(** [DenseMatrixInverse]: [Factor()] followed by [GetInverseMatrix] or by
    [Mult]. *)
Variable Inverse : DenseMatrix R -> DenseMatrix R.

(** The reference-space embedding that [emb_tr] holds after
    [SetIdentityTransformation(geom)] and [SetPointMat(pm)]. *)
Variable EmbeddingTransformation :
  Geometry -> DenseMatrix R -> IntegrationPointTransformation R.

(** [L2ProjectionGridTransfer::L2Projection::BuildHo2Lor]: row [iho] of
    [ho2lor] lists, in increasing order, the fine elements whose parent is
    [iho]. *)
Definition BuildHo2Lor (nel_ho nel_lor : nat)
  (cf_tr : CoarseFineTransformations R) : list (list nat) :=
  map (fun iho =>
         filter (fun ilor =>
                   Nat.eqb (parent (nth ilor (embeddings cf_tr)
                                        {| parent := 0; matrix := 0 |}))
                           iho)
                (seq 0 nel_lor))
      (seq 0 nel_ho).

(** [L2ProjectionGridTransfer::L2Projection::ElemMixedMass]. *)
Definition ElemMixedMass (geom : Geometry) (fe_ho fe_lor : FiniteElement R)
  (el_tr : ElementTransformation R) (ip_tr : IntegrationPointTransformation R)
  (M_mixed_el : DenseMatrix R) : DenseMatrix R :=
  let order := (GetOrder fe_lor + GetOrder fe_ho + OrderW el_tr)%nat in
  let ir := IntRules_Get geom order in
  fold_left
    (fun M ip_lor =>
       let ip_ho := Transform ip_tr ip_lor in
       let shape_lor := CalcShape fe_lor ip_lor in
       let shape_ho := CalcShape fe_ho ip_ho in
       let w := (Weight el_tr ip_lor * weight ip_lor)%S in
       let shape_lor := scale w shape_lor in
       AddMultVWt shape_lor shape_ho M)
    ir (DenseMatrix_zero (Height M_mixed_el) (Width M_mixed_el)).

(** The members of [L2ProjectionL2Space]. *)
Record L2ProjectionL2Space : Type := {
  l2_fes_ho : FiniteElementSpace R;
  l2_fes_lor : FiniteElementSpace R;
  l2_ho2lor : list (list nat);
  l2_offsets : list nat;
  l2_R : Vector R;
  l2_P : Vector R
}.

(** [offsets[iho+1] = offsets[iho] + ndof_ho*ndof_lor*nref]. *)
Definition L2_offsets (fes_ho fes_lor : FiniteElementSpace R)
  (ho2lor : list (list nat)) (nel_ho : nat) : list nat :=
  fold_left
    (fun offsets iho =>
       let row := nth iho ho2lor [] in
       let nref := length row in
       let fe_ho := GetFE fes_ho iho in
       let fe_lor := GetFE fes_lor (nth 0 row 0%nat) in
       upd (S iho)
           (nth iho offsets 0 + GetDof fe_ho * GetDof fe_lor * nref)%nat
           offsets)
    (seq 0 nel_ho) (filled (S nel_ho) 0%nat).

(** The body of the loop over the coarse elements in the constructor: the
    patch restriction [R_iho] and, when asked for, the patch prolongation
    [P_iho], written into [R] and [P] at [offsets[iho]]. *)
Definition L2_patch (fes_ho fes_lor : FiniteElementSpace R)
  (ho2lor : list (list nat)) (offsets : list nat) (build_P : bool)
  (RP : Vector R * Vector R) (iho : nat) : Vector R * Vector R :=
  let mesh_ho := GetMesh fes_ho in
  let cf_tr := GetRefinementTransforms (GetMesh fes_lor) in
  let lor_els := nth iho ho2lor [] in
  let nref := length lor_els in
  let geom := GetElementBaseGeometry mesh_ho iho in
  let fe_ho := GetFE fes_ho iho in
  let fe_lor := GetFE fes_lor (nth 0 lor_els 0%nat) in
  let ndof_ho := GetDof fe_ho in
  let ndof_lor := GetDof fe_lor in
  let pmats := point_matrices cf_tr geom in
  let blocks :=
    fold_left
      (fun (st : DenseMatrix R * DenseMatrix R * DenseMatrix R) iref =>
         let '(Minv_lor, M_lor, M_mixed) := st in
         let ilor := nth iref lor_els 0%nat in
         let el_tr := GetElementTransformation fes_lor ilor in
         let M_lor_el := AssembleElementMatrix fe_lor el_tr in
         let M_lor := CopyMN M_lor_el (iref * ndof_lor) (iref * ndof_lor)
                             M_lor in
         let Minv_lor := CopyMN (Inverse M_lor_el) (iref * ndof_lor)
                                (iref * ndof_lor) Minv_lor in
         let emb := nth ilor (embeddings cf_tr)
                        {| parent := 0; matrix := 0 |} in
         let ip_tr := EmbeddingTransformation geom
                        (nth (matrix emb) pmats (DenseMatrix_zero 0 0)) in
         let M_mixed_el := ElemMixedMass geom fe_ho fe_lor el_tr ip_tr
                             (DenseMatrix_zero ndof_lor ndof_ho) in
         let M_mixed := CopyMN M_mixed_el (iref * ndof_lor) 0 M_mixed in
         (Minv_lor, M_lor, M_mixed))
      (seq 0 nref)
      (DenseMatrix_zero (ndof_lor * nref) (ndof_lor * nref),
       DenseMatrix_zero (ndof_lor * nref) (ndof_lor * nref),
       DenseMatrix_zero (ndof_lor * nref) ndof_ho) in
  let '(Minv_lor, M_lor, M_mixed) := blocks in
  let R_iho := MatMult Minv_lor M_mixed in
  let Rv := write_at (nth iho offsets 0%nat) (Data R_iho) (fst RP) in
  if build_P then
    let RtMlor := MultAtB R_iho M_lor in
    let RtMlorR := MatMult RtMlor R_iho in
    let P_iho := MatMult (Inverse RtMlorR) RtMlor in
    (Rv, write_at (nth iho offsets 0%nat) (Data P_iho) (snd RP))
  else (Rv, snd RP).

(** [L2ProjectionL2Space::L2ProjectionL2Space(fes_ho, fes_lor)]. *)
Definition L2ProjectionL2Space_new (fes_ho fes_lor : FiniteElementSpace R)
  : L2ProjectionL2Space :=
  let mesh_ho := GetMesh fes_ho in
  let mesh_lor := GetMesh fes_lor in
  let nel_ho := mesh_GetNE mesh_ho in
  let nel_lor := mesh_GetNE mesh_lor in
  let build_P := Nat.leb (GetTrueVSize fes_ho) (GetTrueVSize fes_lor) in
  if Nat.eqb nel_ho 0 then
    {| l2_fes_ho := fes_ho; l2_fes_lor := fes_lor; l2_ho2lor := [];
       l2_offsets := []; l2_R := []; l2_P := [] |}
  else
    let cf_tr := GetRefinementTransforms mesh_lor in
    let ho2lor := BuildHo2Lor nel_ho nel_lor cf_tr in
    let offsets := L2_offsets fes_ho fes_lor ho2lor nel_ho in
    let R0 := filled (nth nel_ho offsets 0%nat) rO in
    let P0 := if build_P then filled (nth nel_ho offsets 0%nat) rO else [] in
    let RP := fold_left (L2_patch fes_ho fes_lor ho2lor offsets build_P)
                        (seq 0 nel_ho) (R0, P0) in
    {| l2_fes_ho := fes_ho; l2_fes_lor := fes_lor; l2_ho2lor := ho2lor;
       l2_offsets := offsets; l2_R := fst RP; l2_P := snd RP |}.

(** The columns of [xel_mat] gathered from the fine vector: the loop
    "Extract the LOR DOFs" of [Prolongate] and [MultTranspose]. *)
Definition L2_extract_lor (fes_lor : FiniteElementSpace R) (vdim : nat)
  (lor_els : list nat) (ndof_lor : nat) (x : Vector R)
  (xel_mat : DenseMatrix R) : DenseMatrix R :=
  fold_left
    (fun xel iref =>
       let ilor := nth iref lor_els 0%nat in
       fold_left
         (fun xel vd =>
            let vdofs := DofsToVDofs fes_lor vd
                           (fst (GetElementDofs fes_lor ilor)) in
            {| Height := Height xel; Width := Width xel;
               Data := write_at (iref * ndof_lor + vd * Height xel)
                                (GetSubVector vdofs x) (Data xel) |})
         (seq 0 vdim) xel)
    (seq 0 (length lor_els)) xel_mat.

(** The loop "Place result correctly into the low-order vector". *)
Definition L2_place_lor (fes_lor : FiniteElementSpace R) (vdim : nat)
  (lor_els : list nat) (ndof_lor : nat) (yel_mat : DenseMatrix R)
  (y : Vector R) : Vector R :=
  fold_left
    (fun y iref =>
       let ilor := nth iref lor_els 0%nat in
       fold_left
         (fun y vd =>
            let vdofs := DofsToVDofs fes_lor vd
                           (fst (GetElementDofs fes_lor ilor)) in
            SetSubVector vdofs
              (skipn (iref * ndof_lor + vd * Height yel_mat) (Data yel_mat))
              y)
         (seq 0 vdim) y)
    (seq 0 (length lor_els)) y.

(** The view [DenseMatrix(&v[off], h, w)] read from a vector. *)
Definition view (v : Vector R) (off h w : nat) : DenseMatrix R :=
  {| Height := h; Width := w; Data := firstn (h * w) (skipn off v) |}.

(** [L2ProjectionL2Space::Prolongate(x, y)]. *)
Definition L2ProjectionL2Space_Prolongate (this : L2ProjectionL2Space)
  (x y : Vector R) : Result (Vector R) :=
  let fes_ho := l2_fes_ho this in
  let fes_lor := l2_fes_lor this in
  if Nat.eqb (GetNE fes_ho) 0 then Ok y
  else
    MFEM_VERIFY (Nat.ltb 0 (length (l2_P this)))
                "Prolongation not supported for these spaces." ;;;
    let vdim := GetVDim fes_ho in
    Ok (fold_left
          (fun y iho =>
             let lor_els := nth iho (l2_ho2lor this) [] in
             let nref := length lor_els in
             let ndof_ho := GetDof (GetFE fes_ho iho) in
             let ndof_lor := GetDof (GetFE fes_lor (nth 0 lor_els 0%nat)) in
             let P_iho := view (l2_P this) (nth iho (l2_offsets this) 0%nat)
                               ndof_ho (ndof_lor * nref) in
             let xel_mat := L2_extract_lor fes_lor vdim lor_els ndof_lor x
                              (DenseMatrix_zero (ndof_lor * nref) vdim) in
             let yel_mat := MatMult P_iho xel_mat in
             AddElementVector (GetElementVDofs fes_ho iho) (Data yel_mat) y)
          (seq 0 (GetNE fes_ho)) (map (fun _ => rO) y)).

(** [L2ProjectionL2Space::ProlongateTranspose(x, y)]. *)
Definition L2ProjectionL2Space_ProlongateTranspose
  (this : L2ProjectionL2Space) (x y : Vector R) : Result (Vector R) :=
  let fes_ho := l2_fes_ho this in
  let fes_lor := l2_fes_lor this in
  if Nat.eqb (GetNE fes_ho) 0 then Ok y
  else
    MFEM_VERIFY (Nat.ltb 0 (length (l2_P this)))
                "Prolongation not supported for these spaces." ;;;
    let vdim := GetVDim fes_ho in
    Ok (fold_left
          (fun y iho =>
             let lor_els := nth iho (l2_ho2lor this) [] in
             let nref := length lor_els in
             let ndof_ho := GetDof (GetFE fes_ho iho) in
             let ndof_lor := GetDof (GetFE fes_lor (nth 0 lor_els 0%nat)) in
             let P_iho := view (l2_P this) (nth iho (l2_offsets this) 0%nat)
                               ndof_ho (ndof_lor * nref) in
             let xel_mat :=
               {| Height := ndof_ho; Width := vdim;
                  Data := GetSubVector (GetElementVDofs fes_ho iho) x |} in
             let yel_mat := MultAtB P_iho xel_mat in
             L2_place_lor fes_lor vdim lor_els ndof_lor yel_mat y)
          (seq 0 (GetNE fes_ho)) y).

End L2Projection.

(* ------------------------------------------------------------------ *)
(** ** L2 projection: the continuous strategy and its PCG solver *)
(* ------------------------------------------------------------------ *)

Section L2ProjectionH1.
Context {R : Type} {SR : Scalar R}.

(** The settings of the [CGSolver] member [pcg]. *)
Record CGSolver : Type := {
  print_level : Z;
  max_iter : Z;
  rel_tol : float;
  abs_tol : float;
  prec : option (Operator R);
  oper : option (Operator R)
}.

(** [CGSolver::Mult(b, x)]: the iterate left in [x], and the value of the
    solver's [converged] flag. *)
Variable CGSolver_Mult : CGSolver -> Vector R -> Vector R -> Vector R * bool.

(** [ComputeSparseRAndM_LH()], the sparse products [mfem::Mult], [RAP] and
    [TransposeMult], the [DSmoother] of a matrix, and the conforming
    prolongation of the scalar copy of a space. *)
Variable ComputeSparseRAndM_LH :
  FiniteElementSpace R -> FiniteElementSpace R -> Operator R * Operator R.
Variable SparseMult : Operator R -> Operator R -> Operator R.
Variable RAP : Operator R -> Operator R -> Operator R -> Operator R.
Variable TransposeMult : Operator R -> Operator R -> Operator R.
Variable DSmoother : Operator R -> Operator R.
Variable ScalarConformingProlongation :
  FiniteElementSpace R -> option (Operator R).

Definition SetPrintLevel (v : Z) (pcg : CGSolver) : CGSolver :=
  {| print_level := v; max_iter := max_iter pcg; rel_tol := rel_tol pcg;
     abs_tol := abs_tol pcg; prec := prec pcg; oper := oper pcg |}.

Definition SetMaxIter (v : Z) (pcg : CGSolver) : CGSolver :=
  {| print_level := print_level pcg; max_iter := v; rel_tol := rel_tol pcg;
     abs_tol := abs_tol pcg; prec := prec pcg; oper := oper pcg |}.

Definition SetRelTol (v : float) (pcg : CGSolver) : CGSolver :=
  {| print_level := print_level pcg; max_iter := max_iter pcg; rel_tol := v;
     abs_tol := abs_tol pcg; prec := prec pcg; oper := oper pcg |}.

Definition SetAbsTol (v : float) (pcg : CGSolver) : CGSolver :=
  {| print_level := print_level pcg; max_iter := max_iter pcg;
     rel_tol := rel_tol pcg; abs_tol := v; prec := prec pcg;
     oper := oper pcg |}.

Definition SetPreconditioner (p : Operator R) (pcg : CGSolver) : CGSolver :=
  {| print_level := print_level pcg; max_iter := max_iter pcg;
     rel_tol := rel_tol pcg; abs_tol := abs_tol pcg; prec := Some p;
     oper := oper pcg |}.

Definition SetOperator (a : Operator R) (pcg : CGSolver) : CGSolver :=
  {| print_level := print_level pcg; max_iter := max_iter pcg;
     rel_tol := rel_tol pcg; abs_tol := abs_tol pcg; prec := prec pcg;
     oper := Some a |}.

Definition pcg_Height (pcg : CGSolver) : nat :=
  match oper pcg with Some a => op_Height a | None => 0%nat end.

Definition pcg_Width (pcg : CGSolver) : nat :=
  match oper pcg with Some a => op_Width a | None => 0%nat end.

(** The members of [L2ProjectionH1Space]. *)
Record L2ProjectionH1Space : Type := {
  h1_fes_ho : FiniteElementSpace R;
  h1_fes_lor : FiniteElementSpace R;
  h1_R : Operator R;
  h1_M_LH : Operator R;
  h1_RTxM_LH : Operator R;
  h1_precon : Operator R;
  h1_pcg : CGSolver
}.

(** [L2ProjectionH1Space::SetupPCG()]. *)
Definition SetupPCG (this : L2ProjectionH1Space) : L2ProjectionH1Space :=
  let pcg := h1_pcg this in
  let pcg := SetPrintLevel 0 pcg in
  let pcg := SetMaxIter 1000 pcg in
  let pcg := SetRelTol 1e-13%float pcg in
  let pcg := SetAbsTol 1e-13%float pcg in
  let pcg := SetPreconditioner (h1_precon this) pcg in
  let pcg := SetOperator (h1_RTxM_LH this) pcg in
  {| h1_fes_ho := h1_fes_ho this; h1_fes_lor := h1_fes_lor this;
     h1_R := h1_R this; h1_M_LH := h1_M_LH this;
     h1_RTxM_LH := h1_RTxM_LH this; h1_precon := h1_precon this;
     h1_pcg := pcg |}.

(** [L2ProjectionH1Space::L2ProjectionH1Space(fes_ho, fes_lor)], the serial
    constructor; [pcg0] is the default-constructed member [pcg]. *)
Definition L2ProjectionH1Space_new (pcg0 : CGSolver)
  (fes_ho fes_lor : FiniteElementSpace R) : L2ProjectionH1Space :=
  let '(R_mat, M_LH_mat) := ComputeSparseRAndM_LH fes_ho fes_lor in
  let P_ho := ScalarConformingProlongation fes_ho in
  let P_lor := ScalarConformingProlongation fes_lor in
  let '(R_mat, M_LH_mat) :=
    match P_ho, P_lor with
    | Some p_ho, Some p_lor => (RAP p_lor R_mat p_ho, RAP p_lor M_LH_mat p_ho)
    | Some p_ho, None => (SparseMult R_mat p_ho, SparseMult M_LH_mat p_ho)
    | None, Some p_lor => (SparseMult p_lor R_mat, SparseMult p_lor M_LH_mat)
    | None, None => (R_mat, M_LH_mat)
    end in
  let RTxM_LH_mat := TransposeMult R_mat M_LH_mat in
  SetupPCG
    {| h1_fes_ho := fes_ho; h1_fes_lor := fes_lor; h1_R := R_mat;
       h1_M_LH := M_LH_mat; h1_RTxM_LH := RTxM_LH_mat;
       h1_precon := DSmoother RTxM_LH_mat; h1_pcg := pcg0 |}.

(** [L2ProjectionH1Space::SetRelTol(p_rtol_)]. *)
Definition L2ProjectionH1Space_SetRelTol (p_rtol_ : float)
  (this : L2ProjectionH1Space) : L2ProjectionH1Space :=
  {| h1_fes_ho := h1_fes_ho this; h1_fes_lor := h1_fes_lor this;
     h1_R := h1_R this; h1_M_LH := h1_M_LH this;
     h1_RTxM_LH := h1_RTxM_LH this; h1_precon := h1_precon this;
     h1_pcg := SetRelTol p_rtol_ (h1_pcg this) |}.

(** [L2ProjectionH1Space::SetAbsTol(p_atol_)]. *)
Definition L2ProjectionH1Space_SetAbsTol (p_atol_ : float)
  (this : L2ProjectionH1Space) : L2ProjectionH1Space :=
  {| h1_fes_ho := h1_fes_ho this; h1_fes_lor := h1_fes_lor this;
     h1_R := h1_R this; h1_M_LH := h1_M_LH this;
     h1_RTxM_LH := h1_RTxM_LH this; h1_precon := h1_precon this;
     h1_pcg := SetAbsTol p_atol_ (h1_pcg this) |}.

(** [L2ProjectionH1Space::GetTDofs(fes, x, X)]. *)
Definition GetTDofs (fes : FiniteElementSpace R) (x X : Vector R) : Vector R :=
  match GetRestrictionOperator fes with
  | Some res => op_Mult res x X
  | None => x
  end.

(** [L2ProjectionH1Space::SetFromTDofs(fes, X, x)]. *)
Definition SetFromTDofs (fes : FiniteElementSpace R) (X x : Vector R)
  : Vector R :=
  match GetProlongationMatrix fes with
  | Some P => op_Mult P X x
  | None => X
  end.

(** [L2ProjectionH1Space::GetTDofsTranspose(fes, x, X)]. *)
Definition GetTDofsTranspose (fes : FiniteElementSpace R) (x X : Vector R)
  : Vector R :=
  match GetProlongationMatrix fes with
  | Some P => op_MultTranspose P x X
  | None => x
  end.

(** [L2ProjectionH1Space::SetFromTDofsTranspose(fes, X, x)]. *)
Definition SetFromTDofsTranspose (fes : FiniteElementSpace R)
  (X x : Vector R) : Vector R :=
  match GetRestrictionOperator fes with
  | Some R_op => op_MultTranspose R_op X x
  | None => X
  end.

(** Modelled from the spec: [FiniteElementSpace::ListToMarker(list, size,
    marker)] marks the listed entries with -1. *)
Definition ListToMarker (list_ : list Z) (marker_size : nat) : list Z :=
  fold_left (fun m j => upd (Z.to_nat j) (-1)%Z m) list_
            (filled marker_size 0%Z).

(** Modelled from the spec: [FiniteElementSpace::MarkerToList(marker,
    list)] lists the marked entries in increasing order. *)
Definition MarkerToList (marker : list Z) : list Z :=
  map Z.of_nat
      (filter (fun i => negb (Z.eqb (nth i marker 0%Z) 0))
              (seq 0 (length marker))).

(** [L2ProjectionH1Space::TDofsListByVDim(fes, vdim, vdofs_list)]. *)
Definition TDofsListByVDim (fes : FiniteElementSpace R) (vdim : nat)
  : list Z :=
  match GetRestrictionMatrix fes with
  | Some R_mat =>
      let x_vdofs_list := GetVDofs fes vdim in
      let x_vdofs_marker := ListToMarker x_vdofs_list (GetVSize fes) in
      let X_vdofs_marker := RestrictionBooleanMult fes x_vdofs_marker in
      MarkerToList X_vdofs_marker
  | None => GetVDofs fes vdim
  end.

(** [L2ProjectionH1Space::Prolongate(x, y)]. *)
Definition L2ProjectionH1Space_Prolongate (this : L2ProjectionH1Space)
  (x y : Vector R) : Vector R :=
  let fes_ho := h1_fes_ho this in
  let fes_lor := h1_fes_lor this in
  let pcg := h1_pcg this in
  let X := GetTDofs fes_lor x (filled (GetTrueVSize fes_lor) rO) in
  let Y :=
    fold_left
      (fun Y d =>
         let X_dim := GetSubVector (TDofsListByVDim fes_lor d) X in
         let Xbar := op_MultTranspose (h1_M_LH this) X_dim
                       (filled (pcg_Width pcg) rO) in
         let Y_dim := filled (pcg_Height pcg) rO in
         let Y_dim := fst (CGSolver_Mult pcg Xbar Y_dim) in
         SetSubVector (TDofsListByVDim fes_ho d) Y_dim Y)
      (seq 0 (GetVDim fes_ho)) (filled (GetTrueVSize fes_ho) rO) in
  SetFromTDofs fes_ho Y y.

(** [L2ProjectionH1Space::ProlongateTranspose(x, y)]. *)
Definition L2ProjectionH1Space_ProlongateTranspose
  (this : L2ProjectionH1Space) (x y : Vector R) : Vector R :=
  let fes_ho := h1_fes_ho this in
  let fes_lor := h1_fes_lor this in
  let pcg := h1_pcg this in
  let X := GetTDofsTranspose fes_ho x (filled (GetTrueVSize fes_ho) rO) in
  let Y :=
    fold_left
      (fun Y d =>
         let X_dim := GetSubVector (TDofsListByVDim fes_ho d) X in
         let Xbar := filled (pcg_Height pcg) rO in
         let Xbar := fst (CGSolver_Mult pcg X_dim Xbar) in
         let Y_dim := op_Mult (h1_M_LH this) Xbar
                        (filled (op_Height (h1_M_LH this)) rO) in
         SetSubVector (TDofsListByVDim fes_lor d) Y_dim Y)
      (seq 0 (GetVDim fes_ho)) (filled (GetTrueVSize fes_lor) rO) in
  SetFromTDofsTranspose fes_lor Y y.

End L2ProjectionH1.

Arguments CGSolver R : clear implicits.
Arguments L2ProjectionH1Space R : clear implicits.
Arguments L2ProjectionL2Space R : clear implicits.

(* ------------------------------------------------------------------ *)
(** ** L2ProjectionGridTransfer *)
(* ------------------------------------------------------------------ *)

Section GridTransfer.
Context {R : Type} {SR : Scalar R}.

(** Whether the library is built with [MFEM_USE_MPI]. *)
Variable MFEM_USE_MPI : bool.

Variable IntRules_Get : Geometry -> nat -> list (IntegrationPoint R).
Variable AssembleElementMatrix :
  FiniteElement R -> ElementTransformation R -> DenseMatrix R.
Variable Inverse : DenseMatrix R -> DenseMatrix R.
Variable EmbeddingTransformation :
  Geometry -> DenseMatrix R -> IntegrationPointTransformation R.

(** The serial and the parallel constructor of [L2ProjectionH1Space]. *)
Variable H1Space_new :
  FiniteElementSpace R -> FiniteElementSpace R -> L2ProjectionH1Space R.
Variable ParH1Space_new :
  FiniteElementSpace R -> FiniteElementSpace R -> L2ProjectionH1Space R.

(** The strategy object that [F] points to. *)
Inductive L2Projection : Type :=
| H1Space (serial : bool) (f : L2ProjectionH1Space R)
| L2Space (f : L2ProjectionL2Space R).

Record L2ProjectionGridTransfer : Type := {
  dom_fes : FiniteElementSpace R;
  ran_fes : FiniteElementSpace R;
  parallel : bool;
  force_l2_space : bool;
  F : option L2Projection
}.

(** Modelled from the spec: [GridTransfer::Parallel()] of fem/transfer.hpp;
    the member [parallel] is set by the constructor only in a build with
    MPI, and the spaces are serial otherwise. *)
Definition Parallel (this : L2ProjectionGridTransfer) : bool :=
  MFEM_USE_MPI && parallel this.

Definition set_F (this : L2ProjectionGridTransfer) (f : option L2Projection)
  : L2ProjectionGridTransfer :=
  {| dom_fes := dom_fes this; ran_fes := ran_fes this;
     parallel := parallel this; force_l2_space := force_l2_space this;
     F := f |}.

(** [L2ProjectionGridTransfer::BuildF()]. *)
Definition BuildF (this : L2ProjectionGridTransfer)
  : L2ProjectionGridTransfer :=
  if negb (force_l2_space this)
     && ContType_eqb (GetContType (dom_fes this)) CONTINUOUS
  then
    if negb (Parallel this)
    then set_F this
           (Some (H1Space true (H1Space_new (dom_fes this) (ran_fes this))))
    else
      if MFEM_USE_MPI
      then set_F this
             (Some (H1Space false
                      (ParH1Space_new (dom_fes this) (ran_fes this))))
      else this
  else
    set_F this
      (Some (L2Space
               (L2ProjectionL2Space_new IntRules_Get AssembleElementMatrix
                  Inverse EmbeddingTransformation
                  (dom_fes this) (ran_fes this)))).

(** [L2ProjectionGridTransfer::SupportsBackwardsOperator()]. *)
Definition SupportsBackwardsOperator (this : L2ProjectionGridTransfer) : bool :=
  Nat.leb (GetTrueVSize (dom_fes this)) (GetTrueVSize (ran_fes this)).

End GridTransfer.

Arguments L2Projection R : clear implicits.
Arguments L2ProjectionGridTransfer R : clear implicits.

(* ------------------------------------------------------------------ *)
(** ** p-refinement transfer, element by element *)
(* ------------------------------------------------------------------ *)

(** The dereference of a pointer that may be null. *)
Definition deref {A : Type} (p : option A) : Result A :=
  match p with
  | Some a => Ok a
  | None => Abort "null pointer dereference"
  end.

Section PRefinement.
Context {R : Type} {SR : Scalar R}.

(** [h_fe->GetTransferMatrix(l_fe, T, loc_prol)], with [T] the identity
    transformation of the geometry of [h_fe]. *)
Variable GetTransferMatrix :
  FiniteElement R -> FiniteElement R -> DenseMatrix R.

Record PRefinementTransferOperator : Type := {
  pr_lFESpace : FiniteElementSpace R;
  pr_hFESpace : FiniteElementSpace R;
  pr_isvar_order : bool
}.

(** [PRefinementTransferOperator::PRefinementTransferOperator]. *)
Definition PRefinementTransferOperator_new
  (lFESpace_ hFESpace_ : FiniteElementSpace R) : PRefinementTransferOperator :=
  {| pr_lFESpace := lFESpace_; pr_hFESpace := hFESpace_;
     pr_isvar_order := IsVariableOrder lFESpace_ || IsVariableOrder hFESpace_ |}.

(** [if (doftrans) { doftrans->f(v); }]. *)
Definition with_doftrans (doftrans : option (DofTransformation R))
  (f : DofTransformation R -> Vector R -> Vector R) (v : Vector R) : Vector R :=
  match doftrans with
  | Some t => f t v
  | None => v
  end.

(** The update of [cached_geom] and [loc_prol] at element [i]; [post] is
    what the member does to the matrix it has just fetched. *)
Definition load_loc_prol (this : PRefinementTransferOperator)
  (post : DenseMatrix R -> DenseMatrix R) (i : nat)
  (cache : Geometry * DenseMatrix R) : Geometry * DenseMatrix R :=
  let geom := GetElementBaseGeometry (GetMesh (pr_hFESpace this)) i in
  if negb (Geometry_eqb geom (fst cache)) || pr_isvar_order this
  then (geom, post (GetTransferMatrix (GetFE (pr_hFESpace this) i)
                                      (GetFE (pr_lFESpace this) i)))
  else cache.

(** The body of the loop over the elements in [Mult]. *)
Definition PRef_Mult_element (this : PRefinementTransferOperator)
  (x : Vector R) (st : Geometry * DenseMatrix R * Vector R) (i : nat)
  : Geometry * DenseMatrix R * Vector R :=
  let lFESpace := pr_lFESpace this in
  let hFESpace := pr_hFESpace this in
  let '(cache, y) := st in
  let '(h_dofs, doftrans_h) := GetElementDofs hFESpace i in
  let '(l_dofs, doftrans_l) := GetElementDofs lFESpace i in
  let cache := load_loc_prol this (fun m => m) i cache in
  let loc_prol := snd cache in
  (cache,
   fold_left
     (fun y vd =>
        let l_vdofs := DofsToVDofs lFESpace vd l_dofs in
        let h_vdofs := DofsToVDofs hFESpace vd h_dofs in
        let subX := GetSubVector l_vdofs x in
        let subX := with_doftrans doftrans_l (@InvTransformPrimal R) subX in
        let subY := DenseMatrix_Mult loc_prol subX in
        let subY := with_doftrans doftrans_h (@TransformPrimal R) subY in
        SetSubVector h_vdofs subY y)
     (seq 0 (GetVDim lFESpace)) y).

(** [PRefinementTransferOperator::Mult(x, y)]. *)
Definition PRefinementTransferOperator_Mult
  (this : PRefinementTransferOperator) (x y : Vector R) : Vector R :=
  snd (fold_left (PRef_Mult_element this x)
                 (seq 0 (mesh_GetNE (GetMesh (pr_hFESpace this))))
                 ((INVALID, DenseMatrix_zero 0 0), y)).

(** [subX[p] = 0.0] wherever the degree of freedom is already marked. *)
Definition zero_processed (h_dofs : list Z) (processed : list bool)
  (subX : Vector R) : Vector R :=
  fold_left
    (fun subX p =>
       if nth (dof_index (nth p h_dofs 0%Z)) processed false
       then upd p rO subX
       else subX)
    (seq 0 (length h_dofs)) subX.

(** [processed[DecodeDof(h_dofs[p])] = 1] for every [p]. *)
Definition mark_processed (h_dofs : list Z) (processed : list bool)
  : list bool :=
  fold_left (fun pr p => upd (dof_index (nth p h_dofs 0%Z)) true pr)
            (seq 0 (length h_dofs)) processed.

(** The body of the loop over the elements in [MultTranspose]. *)
Definition PRef_MultTranspose_element (this : PRefinementTransferOperator)
  (x : Vector R) (st : Geometry * DenseMatrix R * Vector R * list bool)
  (i : nat) : Geometry * DenseMatrix R * Vector R * list bool :=
  let lFESpace := pr_lFESpace this in
  let hFESpace := pr_hFESpace this in
  let '(cache, y, processed) := st in
  let '(h_dofs, doftrans_h) := GetElementDofs hFESpace i in
  let '(l_dofs, doftrans_l) := GetElementDofs lFESpace i in
  let cache := load_loc_prol this (@DenseMatrix_Transpose R SR) i cache in
  let loc_prol := snd cache in
  let y :=
    fold_left
      (fun y vd =>
         let l_vdofs := DofsToVDofs lFESpace vd l_dofs in
         let h_vdofs := DofsToVDofs hFESpace vd h_dofs in
         let subX := GetSubVector h_vdofs x in
         let subX := with_doftrans doftrans_h (@InvTransformDual R) subX in
         let subX := zero_processed h_dofs processed subX in
         let subY := DenseMatrix_Mult loc_prol subX in
         let subY := with_doftrans doftrans_l (@TransformDual R) subY in
         AddElementVector l_vdofs subY y)
      (seq 0 (GetVDim lFESpace)) y in
  (cache, y, mark_processed h_dofs processed).

(** [PRefinementTransferOperator::MultTranspose(x, y)]. *)
Definition PRefinementTransferOperator_MultTranspose
  (this : PRefinementTransferOperator) (x y : Vector R) : Vector R :=
  snd (fst (fold_left (PRef_MultTranspose_element this x)
              (seq 0 (mesh_GetNE (GetMesh (pr_hFESpace this))))
              ((INVALID, DenseMatrix_zero 0 0), map (fun _ => rO) y,
               filled (GetVSize (pr_hFESpace this)) false))).

(** The dense global transfer matrix that [Mult] produces: column [j] is
    the image of the [j]-th unit vector of the coarse space. *)
Definition unit_vector (n j : nat) : Vector R :=
  map (fun k => if Nat.eqb k j then rI else rO) (seq 0 n).

Definition GlobalTransferMatrix (this : PRefinementTransferOperator)
  : DenseMatrix R :=
  let nl := GetVSize (pr_lFESpace this) in
  let nh := GetVSize (pr_hFESpace this) in
  DenseMatrix_of nh nl
    (fun d j =>
       nth d (PRefinementTransferOperator_Mult this (unit_vector nl j)
                (filled nh rO)) rO).

(** The matrix that [loc_prol] holds while the loop of [Mult] works on
    element [i]. *)
Definition loc_prol_at (this : PRefinementTransferOperator) (i : nat)
  : DenseMatrix R :=
  snd (fold_left (fun cache e => load_loc_prol this (fun m => m) e cache)
                 (seq 0 (S i)) (INVALID, DenseMatrix_zero 0 0)).

(** The indices of component [vd] of element [e] in the fine and in the
    coarse space. *)
Definition h_vdofs (this : PRefinementTransferOperator) (e vd : nat)
  : list Z :=
  DofsToVDofs (pr_hFESpace this) vd (fst (GetElementDofs (pr_hFESpace this) e)).

Definition l_vdofs (this : PRefinementTransferOperator) (e vd : nat)
  : list Z :=
  DofsToVDofs (pr_lFESpace this) vd (fst (GetElementDofs (pr_lFESpace this) e)).

(** The sign that the encoding of [dof] carries. *)
Definition sg (dof : Z) : R := if (0 <=? dof)%Z then rI else (- rI)%S.

(** The coefficient of the coarse index [j] in the fine value that
    element [e] computes for position [p] of component [vd]: row [p] of
    the block of the element, scattered with the signs of both index
    lists. *)
Definition scattered_row (this : PRefinementTransferOperator)
  (e vd p j : nat) : R :=
  (sg (nth p (h_vdofs this e vd) 0%Z)
   * sumn (length (l_vdofs this e vd))
       (fun k =>
          Elem (loc_prol_at this e) p k
          * (sg (nth k (l_vdofs this e vd) 0%Z)
             * (if Nat.eqb (dof_index (nth k (l_vdofs this e vd) 0%Z)) j
                then rI else rO))))%S.

(** The element tables of the two spaces fit the operator: no element
    carries a [DofTransformation], the indices are those of the spaces, no
    element lists a degree of freedom twice, and the local matrix has one
    row per fine and one column per coarse index. *)
Record PRef_well_formed (this : PRefinementTransferOperator) : Prop := {
  wf_vdim : GetVDim (pr_hFESpace this) = GetVDim (pr_lFESpace this);
  wf_vdim_pos : (0 < GetVDim (pr_lFESpace this))%nat;
  wf_doftrans : forall e,
    (e < mesh_GetNE (GetMesh (pr_hFESpace this)))%nat ->
    snd (GetElementDofs (pr_hFESpace this) e) = None
    /\ snd (GetElementDofs (pr_lFESpace this) e) = None;
  wf_h_range : forall e p,
    (e < mesh_GetNE (GetMesh (pr_hFESpace this)))%nat ->
    (p < length (fst (GetElementDofs (pr_hFESpace this) e)))%nat ->
    (dof_index (nth p (fst (GetElementDofs (pr_hFESpace this) e)) 0%Z)
     < GetNDofs (pr_hFESpace this))%nat;
  wf_l_range : forall e k,
    (e < mesh_GetNE (GetMesh (pr_hFESpace this)))%nat ->
    (k < length (fst (GetElementDofs (pr_lFESpace this) e)))%nat ->
    (dof_index (nth k (fst (GetElementDofs (pr_lFESpace this) e)) 0%Z)
     < GetNDofs (pr_lFESpace this))%nat;
  wf_nodup : forall e,
    (e < mesh_GetNE (GetMesh (pr_hFESpace this)))%nat ->
    NoDup (map dof_index (fst (GetElementDofs (pr_hFESpace this) e)));
  wf_shape : forall e,
    (e < mesh_GetNE (GetMesh (pr_hFESpace this)))%nat ->
    Height (loc_prol_at this e)
    = length (fst (GetElementDofs (pr_hFESpace this) e))
    /\ Width (loc_prol_at this e)
       = length (fst (GetElementDofs (pr_lFESpace this) e))
}.

(** Two elements that share a fine degree of freedom compute it from the
    coarse vector in the same way. *)
Definition consistent (this : PRefinementTransferOperator) : Prop :=
  forall e e' vd vd' p p' j,
    (e < mesh_GetNE (GetMesh (pr_hFESpace this)))%nat ->
    (e' < mesh_GetNE (GetMesh (pr_hFESpace this)))%nat ->
    (vd < GetVDim (pr_lFESpace this))%nat ->
    (vd' < GetVDim (pr_lFESpace this))%nat ->
    (p < length (h_vdofs this e vd))%nat ->
    (p' < length (h_vdofs this e' vd'))%nat ->
    (j < GetVSize (pr_lFESpace this))%nat ->
    dof_index (nth p (h_vdofs this e vd) 0%Z)
    = dof_index (nth p' (h_vdofs this e' vd') 0%Z) ->
    scattered_row this e vd p j = scattered_row this e' vd' p' j.

(** The loops once more, for elements without [DofTransformation] and
    with the matrix of every element named by [loc_prol_at]: one component
    of one element in [Mult] and in [MultTranspose], the vector after the
    first [n] elements, and after [m] more components of element [n]. *)
Definition Mult_step (this : PRefinementTransferOperator) (x : Vector R)
  (e : nat) (y : Vector R) (vd : nat) : Vector R :=
  SetSubVector (h_vdofs this e vd)
    (DenseMatrix_Mult (loc_prol_at this e) (GetSubVector (l_vdofs this e vd) x))
    y.

Definition Mult_state (this : PRefinementTransferOperator) (x : Vector R)
  (n : nat) (y : Vector R) : Vector R :=
  fold_left
    (fun y e =>
       fold_left (Mult_step this x e) (seq 0 (GetVDim (pr_lFESpace this))) y)
    (seq 0 n) y.

Definition Mult_part (this : PRefinementTransferOperator) (x : Vector R)
  (n m : nat) (y : Vector R) : Vector R :=
  fold_left (Mult_step this x n) (seq 0 m) (Mult_state this x n y).

Definition processed_at (this : PRefinementTransferOperator) (n : nat)
  : list bool :=
  fold_left
    (fun pr e => mark_processed (fst (GetElementDofs (pr_hFESpace this) e)) pr)
    (seq 0 n) (filled (GetVSize (pr_hFESpace this)) false).

Definition MultTranspose_step (this : PRefinementTransferOperator)
  (x : Vector R) (e : nat) (y : Vector R) (vd : nat) : Vector R :=
  AddElementVector (l_vdofs this e vd)
    (DenseMatrix_Mult (DenseMatrix_Transpose (loc_prol_at this e))
       (zero_processed (fst (GetElementDofs (pr_hFESpace this) e))
          (processed_at this e) (GetSubVector (h_vdofs this e vd) x)))
    y.

Definition MultTranspose_state (this : PRefinementTransferOperator)
  (x : Vector R) (n : nat) (y : Vector R) : Vector R :=
  fold_left
    (fun y e =>
       fold_left (MultTranspose_step this x e)
                 (seq 0 (GetVDim (pr_lFESpace this))) y)
    (seq 0 n) y.

Definition MultTranspose_part (this : PRefinementTransferOperator)
  (x : Vector R) (n m : nat) (y : Vector R) : Vector R :=
  fold_left (MultTranspose_step this x n) (seq 0 m)
            (MultTranspose_state this x n y).

(** The fine value that element [e] computes for position [p] of
    component [vd] from the coarse vector [x]. *)
Definition local_value (this : PRefinementTransferOperator) (x : Vector R)
  (e vd p : nat) : R :=
  (sg (nth p (h_vdofs this e vd) 0%Z)
   * nth p (DenseMatrix_Mult (loc_prol_at this e)
              (GetSubVector (l_vdofs this e vd) x)) rO)%S.

(** Component [vd] of element [e] comes before component [m] of element
    [n] in the loops. *)
Definition earlier (this : PRefinementTransferOperator) (e vd n m : nat)
  : Prop :=
  ((e < n)%nat /\ (vd < GetVDim (pr_lFESpace this))%nat)
  \/ (e = n /\ (vd < m)%nat).

(** What holds of the vector of [Mult] after the first [n] elements and
    [m] more components of element [n]: every entry that has been written
    holds the value of any of its writers, and every other entry is as it
    was. *)
Definition Mult_invariant (this : PRefinementTransferOperator)
  (x y0 : Vector R) (n m : nat) : Prop :=
  length (Mult_part this x n m y0) = length y0
  /\ (forall e vd p,
        earlier this e vd n m ->
        (p < length (fst (GetElementDofs (pr_hFESpace this) e)))%nat ->
        nth (dof_index (nth p (h_vdofs this e vd) 0%Z))
            (Mult_part this x n m y0) rO
        = local_value this x e vd p)
  /\ (forall d,
        (forall e vd p,
           earlier this e vd n m ->
           (p < length (fst (GetElementDofs (pr_hFESpace this) e)))%nat ->
           dof_index (nth p (h_vdofs this e vd) 0%Z) <> d) ->
        nth d (Mult_part this x n m y0) rO = nth d y0 rO).

End PRefinement.

Arguments PRefinementTransferOperator R : clear implicits.

(* ------------------------------------------------------------------ *)
(** ** Tensor-product p-refinement transfer *)
(* ------------------------------------------------------------------ *)

Section TensorProduct.
Context {R : Type} {SR : Scalar R}.

(** [DofQuadLimits::MAX_D1D] and [DofQuadLimits::MAX_Q1D], the capacities
    of the scratch arrays of the kernels (general/forall.hpp). *)
Variable MAX_D1D : nat.
Variable MAX_Q1D : nat.

(** The indeterminate content of a scratch array before it is written. *)
Variable uninit : nat -> R.

Definition scratch (n : nat) : list R := map uninit (seq 0 n).

(** Modelled from the spec: the [ElementRestriction] of a scalar space
    (fem/restriction.cpp).  Slot [s = d + dof*e] of the element vector
    belongs to the degree of freedom [gather_map[s]]. *)
Record ElementRestriction : Type := {
  er_ne : nat;
  er_dof : nat;
  er_ndofs : nat;
  er_gather_map : list nat;
  er_is_ElementRestriction : bool
}.

Definition er_Height (er : ElementRestriction) : nat :=
  (er_ne er * er_dof er)%nat.

(** Modelled from the spec: [ElementRestriction::Mult(x, y)] gathers the
    element vector. *)
Definition ElementRestriction_Mult (er : ElementRestriction) (x : Vector R)
  : Vector R :=
  map (fun s => nth (nth s (er_gather_map er) 0%nat) x rO)
      (seq 0 (er_Height er)).

(** The slots of the degree of freedom [i], in increasing order. *)
Definition er_slots (er : ElementRestriction) (i : nat) : list nat :=
  filter (fun s => Nat.eqb (nth s (er_gather_map er) 0%nat) i)
         (seq 0 (er_Height er)).

(** Modelled from the spec: [ElementRestriction::MultTranspose(x, y)] sums
    the slots of every degree of freedom. *)
Definition ElementRestriction_MultTranspose (er : ElementRestriction)
  (x : Vector R) : Vector R :=
  map (fun i => sum_list (map (fun s => nth s x rO) (er_slots er i)))
      (seq 0 (er_ndofs er)).

(** Modelled from the spec: [ElementRestriction::BooleanMask(y)] sets the
    first slot of every degree of freedom to one and its other slots to
    zero, so that the slots which duplicate a true degree of freedom drop
    out. *)
Definition BooleanMask (er : ElementRestriction) : Vector R :=
  map (fun s =>
         if forallb
              (fun s' => negb (Nat.eqb (nth s' (er_gather_map er) 0%nat)
                                       (nth s (er_gather_map er) 0%nat)))
              (seq 0 s)
         then rI else rO)
      (seq 0 (er_Height er)).

(** The part of [DofToQuad] that the operator keeps. *)
Record DofToQuad : Type := {
  ndof : nat;
  nqpt : nat;
  dq_B : list R;
  dq_Bt : list R
}.

(** [el.GetDofToQuad(irLex, DofToQuad::TENSOR)], where [irLex] holds the
    nodes of the fine element in lexicographic order. *)
Variable GetDofToQuad : FiniteElement R -> FiniteElement R -> DofToQuad.

(** [fes.GetElementRestriction(ElementDofOrdering::LEXICOGRAPHIC)]. *)
Variable GetElementRestriction :
  FiniteElementSpace R -> option ElementRestriction.

Record TensorProductPRefinementTransferOperator : Type := {
  tp_lFESpace : FiniteElementSpace R;
  tp_hFESpace : FiniteElementSpace R;
  tp_dim : nat;
  tp_NE : nat;
  tp_D1D : nat;
  tp_Q1D : nat;
  tp_B : list R;
  tp_Bt : list R;
  elem_restrict_lex_l : option ElementRestriction;
  elem_restrict_lex_h : option ElementRestriction;
  tp_localL : Vector R;
  tp_localH : Vector R;
  tp_mask : Vector R
}.

(** [TensorProductPRefinementTransferOperator::
    TensorProductPRefinementTransferOperator]. *)
Definition TensorProductPRefinementTransferOperator_new
  (lFESpace_ hFESpace_ : FiniteElementSpace R)
  : Result TensorProductPRefinementTransferOperator :=
  let mesh := GetMesh lFESpace_ in
  let dim := Dimension mesh in
  if Nat.eqb (mesh_GetNE mesh) 0 then
    Ok {| tp_lFESpace := lFESpace_; tp_hFESpace := hFESpace_; tp_dim := dim;
          tp_NE := 0; tp_D1D := 0; tp_Q1D := 0; tp_B := []; tp_Bt := [];
          elem_restrict_lex_l := None; elem_restrict_lex_h := None;
          tp_localL := []; tp_localH := []; tp_mask := [] |}
  else
    let el := GetFE lFESpace_ 0 in
    MFEM_VERIFY (IsTensorBasisElement el)
                "Low order FE space must be tensor product space" ;;;
    MFEM_VERIFY (IsTensorBasisElement (GetFE hFESpace_ 0))
                "High order FE space must be tensor product space" ;;;
    let maps := GetDofToQuad el (GetFE hFESpace_ 0) in
    let erl := GetElementRestriction lFESpace_ in
    MFEM_VERIFY (match erl with Some _ => true | None => false end)
                "Low order ElementRestriction not available" ;;;
    let erh := GetElementRestriction hFESpace_ in
    MFEM_VERIFY (match erh with Some _ => true | None => false end)
                "High order ElementRestriction not available" ;;;
    MFEM_VERIFY (match erh with
                 | Some er => er_is_ElementRestriction er
                 | None => false
                 end)
                "High order element restriction is of unsupported type" ;;;
    Ok {| tp_lFESpace := lFESpace_; tp_hFESpace := hFESpace_; tp_dim := dim;
          tp_NE := GetNE lFESpace_; tp_D1D := ndof maps; tp_Q1D := nqpt maps;
          tp_B := dq_B maps; tp_Bt := dq_Bt maps;
          elem_restrict_lex_l := erl; elem_restrict_lex_h := erh;
          tp_localL := match erl with
                       | Some er => scratch (er_Height er)
                       | None => []
                       end;
          tp_localH := match erh with
                       | Some er => scratch (er_Height er)
                       | None => []
                       end;
          tp_mask := match erh with
                     | Some er => BooleanMask er
                     | None => []
                     end |}.

(** [a[i] += v]. *)
Definition add_at (i : nat) (v : R) (a : list R) : list R :=
  upd i (nth i a rO + v)%S a.

(** [a[i] *= v]. *)
Definition mul_at (i : nat) (v : R) (a : list R) : list R :=
  upd i (nth i a rO * v)%S a.

(** How a loop of [+=] and a loop of [*=] act on an array of length [n]:
    the first adds [g k] to the entry [k], the second multiplies the
    entries that it reaches by [val k]. *)
Definition additive (n : nat) (f : list R -> list R) (g : nat -> R)
  : Prop :=
  forall a, length a = n ->
    length (f a) = n
    /\ forall k, nth k (f a) rO = (nth k a rO + g k)%S.

Definition scaling (f : list R -> list R) (hit : nat -> bool)
  (val : nat -> R) : Prop :=
  forall a,
    length (f a) = length a
    /\ forall k, nth k (f a) rO
                 = if hit k then (nth k a rO * val k)%S else nth k a rO.

(** [TransferKernels::Prolongation2D]. *)
Definition Prolongation2D (NE D1D Q1D : nat) (localL localH : Vector R)
  (B : list R) (mask : Vector R) : Vector R :=
  let x_ dx dy e := nth (dx + D1D * (dy + D1D * e)) localL rO in
  let y_ qx qy e := (qx + Q1D * (qy + Q1D * e))%nat in
  let B_ q d := nth (q + Q1D * d) B rO in
  let m_ qx qy e := nth (qx + Q1D * (qy + Q1D * e)) mask rO in
  fold_left
    (fun localH e =>
       let localH :=
         fold_left
           (fun localH dy =>
              let sol_x :=
                fold_left (fun sol_x qy => upd qy rO sol_x) (seq 0 Q1D)
                          (scratch MAX_Q1D) in
              let sol_x :=
                fold_left
                  (fun sol_x dx =>
                     let s := x_ dx dy e in
                     fold_left
                       (fun sol_x qx => add_at qx (B_ qx dx * s)%S sol_x)
                       (seq 0 Q1D) sol_x)
                  (seq 0 D1D) sol_x in
              fold_left
                (fun localH qy =>
                   let d2q := B_ qy dy in
                   fold_left
                     (fun localH qx =>
                        add_at (y_ qx qy e) (d2q * nth qx sol_x rO)%S localH)
                     (seq 0 Q1D) localH)
                (seq 0 Q1D) localH)
           (seq 0 D1D) localH in
       fold_left
         (fun localH qy =>
            fold_left
              (fun localH qx => mul_at (y_ qx qy e) (m_ qx qy e) localH)
              (seq 0 Q1D) localH)
         (seq 0 Q1D) localH)
    (seq 0 NE) (map (fun _ => rO) localH).

(** [TransferKernels::Prolongation3D]; [sol_xy[qy][qx]] is entry
    [qy*MAX_Q1D + qx] of the scratch array. *)
Definition Prolongation3D (NE D1D Q1D : nat) (localL localH : Vector R)
  (B : list R) (mask : Vector R) : Vector R :=
  let x_ dx dy dz e := nth (dx + D1D * (dy + D1D * (dz + D1D * e))) localL rO in
  let y_ qx qy qz e := (qx + Q1D * (qy + Q1D * (qz + Q1D * e)))%nat in
  let B_ q d := nth (q + Q1D * d) B rO in
  let m_ qx qy qz e :=
    nth (qx + Q1D * (qy + Q1D * (qz + Q1D * e))) mask rO in
  fold_left
    (fun localH e =>
       let localH :=
         fold_left
           (fun localH dz =>
              let sol_xy :=
                fold_left
                  (fun sol_xy qy =>
                     fold_left
                       (fun sol_xy qx => upd (qy * MAX_Q1D + qx) rO sol_xy)
                       (seq 0 Q1D) sol_xy)
                  (seq 0 Q1D) (scratch (MAX_Q1D * MAX_Q1D)) in
              let sol_xy :=
                fold_left
                  (fun sol_xy dy =>
                     let sol_x :=
                       fold_left (fun sol_x qx => upd qx rO sol_x) (seq 0 Q1D)
                                 (scratch MAX_Q1D) in
                     let sol_x :=
                       fold_left
                         (fun sol_x dx =>
                            let s := x_ dx dy dz e in
                            fold_left
                              (fun sol_x qx =>
                                 add_at qx (B_ qx dx * s)%S sol_x)
                              (seq 0 Q1D) sol_x)
                         (seq 0 D1D) sol_x in
                     fold_left
                       (fun sol_xy qy =>
                          let wy := B_ qy dy in
                          fold_left
                            (fun sol_xy qx =>
                               add_at (qy * MAX_Q1D + qx)
                                      (wy * nth qx sol_x rO)%S sol_xy)
                            (seq 0 Q1D) sol_xy)
                       (seq 0 Q1D) sol_xy)
                  (seq 0 D1D) sol_xy in
              fold_left
                (fun localH qz =>
                   let wz := B_ qz dz in
                   fold_left
                     (fun localH qy =>
                        fold_left
                          (fun localH qx =>
                             add_at (y_ qx qy qz e)
                                    (wz * nth (qy * MAX_Q1D + qx) sol_xy rO)%S
                                    localH)
                          (seq 0 Q1D) localH)
                     (seq 0 Q1D) localH)
                (seq 0 Q1D) localH)
           (seq 0 D1D) localH in
       fold_left
         (fun localH qz =>
            fold_left
              (fun localH qy =>
                 fold_left
                   (fun localH qx =>
                      mul_at (y_ qx qy qz e) (m_ qx qy qz e) localH)
                   (seq 0 Q1D) localH)
              (seq 0 Q1D) localH)
         (seq 0 Q1D) localH)
    (seq 0 NE) (map (fun _ => rO) localH).

(** The loops of the prolongation kernels, named: [B_(q, d)]; the array
    [sol_x] of a line of points, for the coarse values [X dx] along the
    line; what the kernels add to the fine slots of element [e]; and the
    multiplication of these slots by the mask. *)
Definition B_at (Q1D : nat) (B : list R) (q d : nat) : R :=
  nth (q + Q1D * d) B rO.

Definition line_values (D1D Q1D : nat) (B : list R) (X : nat -> R)
  : list R :=
  fold_left
    (fun sol_x dx =>
       fold_left (fun sol_x qx => add_at qx (B_at Q1D B qx dx * X dx)%S sol_x)
                 (seq 0 Q1D) sol_x)
    (seq 0 D1D)
    (fold_left (fun sol_x q => upd q rO sol_x) (seq 0 Q1D)
               (scratch MAX_Q1D)).

Definition element2D_add (D1D Q1D : nat) (localL : Vector R) (B : list R)
  (e : nat) (localH : Vector R) : Vector R :=
  fold_left
    (fun localH dy =>
       fold_left
         (fun localH qy =>
            fold_left
              (fun localH qx =>
                 add_at (qx + Q1D * (qy + Q1D * e))
                   (B_at Q1D B qy dy
                    * nth qx
                        (line_values D1D Q1D B
                           (fun dx =>
                              nth (dx + D1D * (dy + D1D * e)) localL rO))
                        rO)%S
                   localH)
              (seq 0 Q1D) localH)
         (seq 0 Q1D) localH)
    (seq 0 D1D) localH.

Definition element2D_mask (Q1D : nat) (mask : Vector R) (e : nat)
  (localH : Vector R) : Vector R :=
  fold_left
    (fun localH qy =>
       fold_left
         (fun localH qx =>
            mul_at (qx + Q1D * (qy + Q1D * e))
                   (nth (qx + Q1D * (qy + Q1D * e)) mask rO) localH)
         (seq 0 Q1D) localH)
    (seq 0 Q1D) localH.

(** [sol_xy] of the three-dimensional kernel, for the plane [dz] of
    element [e]. *)
Definition plane_values (D1D Q1D : nat) (localL : Vector R) (B : list R)
  (e dz : nat) : list R :=
  fold_left
    (fun sol_xy dy =>
       fold_left
         (fun sol_xy qy =>
            fold_left
              (fun sol_xy qx =>
                 add_at (qy * MAX_Q1D + qx)
                   (B_at Q1D B qy dy
                    * nth qx
                        (line_values D1D Q1D B
                           (fun dx =>
                              nth (dx + D1D * (dy + D1D * (dz + D1D * e)))
                                  localL rO))
                        rO)%S
                   sol_xy)
              (seq 0 Q1D) sol_xy)
         (seq 0 Q1D) sol_xy)
    (seq 0 D1D)
    (fold_left
       (fun sol_xy qy =>
          fold_left (fun sol_xy qx => upd (qy * MAX_Q1D + qx) rO sol_xy)
                    (seq 0 Q1D) sol_xy)
       (seq 0 Q1D) (scratch (MAX_Q1D * MAX_Q1D))).

Definition element3D_add (D1D Q1D : nat) (localL : Vector R) (B : list R)
  (e : nat) (localH : Vector R) : Vector R :=
  fold_left
    (fun localH dz =>
       fold_left
         (fun localH qz =>
            fold_left
              (fun localH qy =>
                 fold_left
                   (fun localH qx =>
                      add_at (qx + Q1D * (qy + Q1D * (qz + Q1D * e)))
                        (B_at Q1D B qz dz
                         * nth (qy * MAX_Q1D + qx)
                               (plane_values D1D Q1D localL B e dz) rO)%S
                        localH)
                   (seq 0 Q1D) localH)
              (seq 0 Q1D) localH)
         (seq 0 Q1D) localH)
    (seq 0 D1D) localH.

Definition element3D_mask (Q1D : nat) (mask : Vector R) (e : nat)
  (localH : Vector R) : Vector R :=
  fold_left
    (fun localH qz =>
       fold_left
         (fun localH qy =>
            fold_left
              (fun localH qx =>
                 mul_at (qx + Q1D * (qy + Q1D * (qz + Q1D * e)))
                        (nth (qx + Q1D * (qy + Q1D * (qz + Q1D * e)))
                             mask rO)
                        localH)
              (seq 0 Q1D) localH)
         (seq 0 Q1D) localH)
    (seq 0 Q1D) localH.

(** [TransferKernels::Restriction2D]. *)
Definition Restriction2D (NE D1D Q1D : nat) (localH localL : Vector R)
  (Bt : list R) (mask : Vector R) : Vector R :=
  let x_ qx qy e := nth (qx + Q1D * (qy + Q1D * e)) localH rO in
  let y_ dx dy e := (dx + D1D * (dy + D1D * e))%nat in
  let Bt_ d q := nth (d + D1D * q) Bt rO in
  let m_ qx qy e := nth (qx + Q1D * (qy + Q1D * e)) mask rO in
  fold_left
    (fun localL e =>
       fold_left
         (fun localL qy =>
            let sol_x :=
              fold_left (fun sol_x dx => upd dx rO sol_x) (seq 0 D1D)
                        (scratch MAX_D1D) in
            let sol_x :=
              fold_left
                (fun sol_x qx =>
                   let s := (m_ qx qy e * x_ qx qy e)%S in
                   fold_left
                     (fun sol_x dx => add_at dx (Bt_ dx qx * s)%S sol_x)
                     (seq 0 D1D) sol_x)
                (seq 0 Q1D) sol_x in
            fold_left
              (fun localL dy =>
                 let q2d := Bt_ dy qy in
                 fold_left
                   (fun localL dx =>
                      add_at (y_ dx dy e) (q2d * nth dx sol_x rO)%S localL)
                   (seq 0 D1D) localL)
              (seq 0 D1D) localL)
         (seq 0 Q1D) localL)
    (seq 0 NE) (map (fun _ => rO) localL).

(** [TransferKernels::Restriction3D]. *)
Definition Restriction3D (NE D1D Q1D : nat) (localH localL : Vector R)
  (Bt : list R) (mask : Vector R) : Vector R :=
  let x_ qx qy qz e := nth (qx + Q1D * (qy + Q1D * (qz + Q1D * e))) localH rO in
  let y_ dx dy dz e := (dx + D1D * (dy + D1D * (dz + D1D * e)))%nat in
  let Bt_ d q := nth (d + D1D * q) Bt rO in
  let m_ qx qy qz e :=
    nth (qx + Q1D * (qy + Q1D * (qz + Q1D * e))) mask rO in
  fold_left
    (fun localL e =>
       fold_left
         (fun localL qz =>
            let sol_xy :=
              fold_left
                (fun sol_xy dy =>
                   fold_left
                     (fun sol_xy dx => upd (dy * MAX_D1D + dx) rO sol_xy)
                     (seq 0 D1D) sol_xy)
                (seq 0 D1D) (scratch (MAX_D1D * MAX_D1D)) in
            let sol_xy :=
              fold_left
                (fun sol_xy qy =>
                   let sol_x :=
                     fold_left (fun sol_x dx => upd dx rO sol_x) (seq 0 D1D)
                               (scratch MAX_D1D) in
                   let sol_x :=
                     fold_left
                       (fun sol_x qx =>
                          let s := (m_ qx qy qz e * x_ qx qy qz e)%S in
                          fold_left
                            (fun sol_x dx => add_at dx (Bt_ dx qx * s)%S sol_x)
                            (seq 0 D1D) sol_x)
                       (seq 0 Q1D) sol_x in
                   fold_left
                     (fun sol_xy dy =>
                        let wy := Bt_ dy qy in
                        fold_left
                          (fun sol_xy dx =>
                             add_at (dy * MAX_D1D + dx)
                                    (wy * nth dx sol_x rO)%S sol_xy)
                          (seq 0 D1D) sol_xy)
                     (seq 0 D1D) sol_xy)
                (seq 0 Q1D) sol_xy in
            fold_left
              (fun localL dz =>
                 let wz := Bt_ dz qz in
                 fold_left
                   (fun localL dy =>
                      fold_left
                        (fun localL dx =>
                           add_at (y_ dx dy dz e)
                                  (wz * nth (dy * MAX_D1D + dx) sol_xy rO)%S
                                  localL)
                        (seq 0 D1D) localL)
                   (seq 0 D1D) localL)
              (seq 0 D1D) localL)
         (seq 0 Q1D) localL)
    (seq 0 NE) (map (fun _ => rO) localL).

(** The text that [MFEM_ABORT] prints for the dimension [dim]. *)
Definition dim_message (member : string) (dim : nat) : string :=
  ("TensorProductPRefinementTransferOperator::" ++ member
   ++ " not implemented for dim = "
   ++ NilEmpty.string_of_uint (Nat.to_uint dim))%string.

(** [TensorProductPRefinementTransferOperator::Mult(x, y)]; the members
    [localL] and [localH] are scratch, overwritten by every call. *)
Definition TensorProductPRefinementTransferOperator_Mult
  (this : TensorProductPRefinementTransferOperator) (x y : Vector R)
  : Result (Vector R) :=
  if Nat.eqb (mesh_GetNE (GetMesh (tp_lFESpace this))) 0 then Ok y
  else
    erl <- deref (elem_restrict_lex_l this) ;;
    let localL := ElementRestriction_Mult erl x in
    localH <-
      (if Nat.eqb (tp_dim this) 2 then
         Ok (Prolongation2D (tp_NE this) (tp_D1D this) (tp_Q1D this)
               localL (tp_localH this) (tp_B this) (tp_mask this))
       else if Nat.eqb (tp_dim this) 3 then
         Ok (Prolongation3D (tp_NE this) (tp_D1D this) (tp_Q1D this)
               localL (tp_localH this) (tp_B this) (tp_mask this))
       else Abort (dim_message "Mult" (tp_dim this))) ;;
    erh <- deref (elem_restrict_lex_h this) ;;
    Ok (ElementRestriction_MultTranspose erh localH).

(** [TensorProductPRefinementTransferOperator::MultTranspose(x, y)]. *)
Definition TensorProductPRefinementTransferOperator_MultTranspose
  (this : TensorProductPRefinementTransferOperator) (x y : Vector R)
  : Result (Vector R) :=
  if Nat.eqb (mesh_GetNE (GetMesh (tp_lFESpace this))) 0 then Ok y
  else
    erh <- deref (elem_restrict_lex_h this) ;;
    let localH := ElementRestriction_Mult erh x in
    localL <-
      (if Nat.eqb (tp_dim this) 2 then
         Ok (Restriction2D (tp_NE this) (tp_D1D this) (tp_Q1D this)
               localH (tp_localL this) (tp_Bt this) (tp_mask this))
       else if Nat.eqb (tp_dim this) 3 then
         Ok (Restriction3D (tp_NE this) (tp_D1D this) (tp_Q1D this)
               localH (tp_localL this) (tp_Bt this) (tp_mask this))
       else Abort (dim_message "MultTranspose" (tp_dim this))) ;;
    erl <- deref (elem_restrict_lex_l this) ;;
    Ok (ElementRestriction_MultTranspose erl localL).

End TensorProduct.

Arguments ElementRestriction : clear implicits.
Arguments DofToQuad R : clear implicits.
Arguments TensorProductPRefinementTransferOperator R : clear implicits.

(* ------------------------------------------------------------------ *)
(** ** TransferOperator and TrueTransferOperator *)
(* ------------------------------------------------------------------ *)

Section Transfer.
Context {R : Type} {SR : Scalar R}.

Variable MAX_D1D : nat.
Variable MAX_Q1D : nat.
Variable uninit : nat -> R.
Variable GetTransferMatrix :
  FiniteElement R -> FiniteElement R -> DenseMatrix R.
Variable GetDofToQuad : FiniteElement R -> FiniteElement R -> DofToQuad R.
Variable GetElementRestriction :
  FiniteElementSpace R -> option ElementRestriction.

(** [lFESpace_.FEColl() == hFESpace_.FEColl()], and the operator that
    [hFESpace_.GetTransferOperator(lFESpace_, P)] leaves in [P]. *)
Variable same_FEColl : FiniteElementSpace R -> FiniteElementSpace R -> bool.
Variable GetTransferOperator :
  FiniteElementSpace R -> FiniteElementSpace R -> Operator R.

(** The operator that [opr] points to. *)
Inductive TransferOperator : Type :=
| SpaceTransfer (opr : Operator R)
| TensorProductTransfer (opr : TensorProductPRefinementTransferOperator R)
| PRefinementTransfer (opr : PRefinementTransferOperator R).

(** [TransferOperator::TransferOperator(lFESpace_, hFESpace_)]. *)
Definition TransferOperator_new (lFESpace_ hFESpace_ : FiniteElementSpace R)
  : Result TransferOperator :=
  let isvar_order := IsVariableOrder lFESpace_ || IsVariableOrder hFESpace_ in
  if same_FEColl lFESpace_ hFESpace_ && negb isvar_order then
    Ok (SpaceTransfer (GetTransferOperator hFESpace_ lFESpace_))
  else if Nat.ltb 0 (mesh_GetNE (GetMesh lFESpace_))
          && Nat.ltb 0 (mesh_GetNE (GetMesh hFESpace_))
          && Nat.eqb (GetVDim lFESpace_) 1
          && Nat.eqb (GetVDim hFESpace_) 1
          && IsTensorBasisElement (GetFE lFESpace_ 0)
          && IsTensorBasisElement (GetFE hFESpace_ 0)
          && negb isvar_order
          && (ContType_eqb (GetContType hFESpace_) CONTINUOUS
              || ContType_eqb (GetContType hFESpace_) DISCONTINUOUS)
  then
    opr <- TensorProductPRefinementTransferOperator_new uninit GetDofToQuad
             GetElementRestriction lFESpace_ hFESpace_ ;;
    Ok (TensorProductTransfer opr)
  else
    Ok (PRefinementTransfer
          (PRefinementTransferOperator_new lFESpace_ hFESpace_)).

(** [TransferOperator::Mult(x, y)]. *)
Definition TransferOperator_Mult (this : TransferOperator) (x y : Vector R)
  : Result (Vector R) :=
  match this with
  | SpaceTransfer opr => Ok (op_Mult opr x y)
  | TensorProductTransfer opr =>
      TensorProductPRefinementTransferOperator_Mult MAX_Q1D uninit opr x y
  | PRefinementTransfer opr =>
      Ok (PRefinementTransferOperator_Mult GetTransferMatrix opr x y)
  end.

(** [TransferOperator::MultTranspose(x, y)]. *)
Definition TransferOperator_MultTranspose (this : TransferOperator)
  (x y : Vector R) : Result (Vector R) :=
  match this with
  | SpaceTransfer opr => Ok (op_MultTranspose opr x y)
  | TensorProductTransfer opr =>
      TensorProductPRefinementTransferOperator_MultTranspose MAX_D1D uninit
        opr x y
  | PRefinementTransfer opr =>
      Ok (PRefinementTransferOperator_MultTranspose GetTransferMatrix opr x y)
  end.

(** The members of [TrueTransferOperator]; [tmpL] and [tmpH] are the
    mutable work vectors. *)
Record TrueTransferOperator : Type := {
  tt_lFESpace : FiniteElementSpace R;
  tt_hFESpace : FiniteElementSpace R;
  localTransferOperator : TransferOperator;
  tt_P : option (Operator R);
  tt_R : option (Operator R);
  tmpL : Vector R;
  tmpH : Vector R
}.

(** [TrueTransferOperator::TrueTransferOperator(lFESpace_, hFESpace_)]. *)
Definition TrueTransferOperator_new (lFESpace_ hFESpace_ : FiniteElementSpace R)
  : Result TrueTransferOperator :=
  local <- TransferOperator_new lFESpace_ hFESpace_ ;;
  let P := GetProlongationMatrix lFESpace_ in
  let R_ := if IsVariableOrder hFESpace_
            then GetHpRestrictionMatrix hFESpace_
            else GetRestrictionMatrix hFESpace_ in
  (match P with
   | Some _ =>
       MFEM_VERIFY (match R_ with Some _ => true | None => false end)
                   "Both P and R have to be not NULL"
   | None => Ok tt
   end) ;;;
  let '(tL, tH) :=
    match P, R_ with
    | Some _, _ =>
        (scratch uninit (GetVSize lFESpace_),
         scratch uninit (GetVSize hFESpace_))
    | None, Some _ => ([], scratch uninit (GetVSize hFESpace_))
    | None, None => ([], [])
    end in
  Ok {| tt_lFESpace := lFESpace_; tt_hFESpace := hFESpace_;
        localTransferOperator := local; tt_P := P; tt_R := R_;
        tmpL := tL; tmpH := tH |}.

Definition set_tmp (this : TrueTransferOperator) (tL tH : Vector R)
  : TrueTransferOperator :=
  {| tt_lFESpace := tt_lFESpace this; tt_hFESpace := tt_hFESpace this;
     localTransferOperator := localTransferOperator this;
     tt_P := tt_P this; tt_R := tt_R this; tmpL := tL; tmpH := tH |}.

(** [TrueTransferOperator::Mult(x, y)]: the new [y], and the object with
    its work vectors as the call leaves them. *)
Definition TrueTransferOperator_Mult (this : TrueTransferOperator)
  (x y : Vector R) : Result (Vector R * TrueTransferOperator) :=
  match tt_P this with
  | Some P =>
      let tL := op_Mult P x (tmpL this) in
      tH <- TransferOperator_Mult (localTransferOperator this) tL
              (tmpH this) ;;
      R_ <- deref (tt_R this) ;;
      Ok (op_Mult R_ tH y, set_tmp this tL tH)
  | None =>
      match tt_R this with
      | Some R_ =>
          tH <- TransferOperator_Mult (localTransferOperator this) x
                  (tmpH this) ;;
          Ok (op_Mult R_ tH y, set_tmp this (tmpL this) tH)
      | None =>
          y' <- TransferOperator_Mult (localTransferOperator this) x y ;;
          Ok (y', this)
      end
  end.

(** [TrueTransferOperator::MultTranspose(x, y)]. *)
Definition TrueTransferOperator_MultTranspose (this : TrueTransferOperator)
  (x y : Vector R) : Result (Vector R * TrueTransferOperator) :=
  match tt_P this with
  | Some P =>
      R_ <- deref (tt_R this) ;;
      let tH := op_MultTranspose R_ x (tmpH this) in
      tL <- TransferOperator_MultTranspose (localTransferOperator this) tH
              (tmpL this) ;;
      Ok (op_MultTranspose P tL y, set_tmp this tL tH)
  | None =>
      match tt_R this with
      | Some R_ =>
          let tH := op_MultTranspose R_ x (tmpH this) in
          y' <- TransferOperator_MultTranspose (localTransferOperator this)
                  tH y ;;
          Ok (y', set_tmp this (tmpL this) tH)
      | None =>
          y' <- TransferOperator_MultTranspose (localTransferOperator this)
                  x y ;;
          Ok (y', this)
      end
  end.

End Transfer.

Arguments TransferOperator R : clear implicits.
Arguments TrueTransferOperator R : clear implicits.

(* ------------------------------------------------------------------ *)
(** ** The tensor-product transfer against the dense one *)
(* ------------------------------------------------------------------ *)

Section TensorAgainstDense.
Context {R : Type} {SR : Scalar R}.
Variable GetTransferMatrix :
  FiniteElement R -> FiniteElement R -> DenseMatrix R.

(** The coefficient of the coarse index [j] in the value that the
    Kronecker product of [B] with itself gives at the point [(qx, qy)] of
    element [e]: the sum of [B(qy,dy) B(qx,dx)] over the coarse positions
    [(dx, dy)] of the element that the restriction [erl] maps to [j]. *)
Definition tensor_row2D (this : TensorProductPRefinementTransferOperator R)
  (erl : ElementRestriction) (e qx qy j : nat) : R :=
  let D1D := tp_D1D this in
  let Q1D := tp_Q1D this in
  let B_ q d := nth (q + Q1D * d) (tp_B this) rO in
  sumn D1D
    (fun dy =>
       B_ qy dy
       * sumn D1D
           (fun dx =>
              B_ qx dx
              * (if Nat.eqb (nth (dx + D1D * (dy + D1D * e))
                                 (er_gather_map erl) 0%nat) j
                 then rI else rO)))%S.

Definition tensor_row3D (this : TensorProductPRefinementTransferOperator R)
  (erl : ElementRestriction) (e qx qy qz j : nat) : R :=
  let D1D := tp_D1D this in
  let Q1D := tp_Q1D this in
  let B_ q d := nth (q + Q1D * d) (tp_B this) rO in
  sumn D1D
    (fun dz =>
       B_ qz dz
       * sumn D1D
           (fun dy =>
              B_ qy dy
              * sumn D1D
                  (fun dx =>
                     B_ qx dx
                     * (if Nat.eqb
                             (nth (dx + D1D * (dy + D1D * (dz + D1D * e)))
                                  (er_gather_map erl) 0%nat) j
                        then rI else rO))))%S.

(** The restrictions fit the operator: one block of [D1D^dim] coarse and
    of [Q1D^dim] fine slots per element, coarse slots that point into the
    coarse vector, and scratch arrays that hold a line of points. *)
Record Tensor_well_formed (MAX_Q1D : nat)
  (this : TensorProductPRefinementTransferOperator R)
  (erl erh : ElementRestriction) : Prop := {
  twf_dim : tp_dim this = 2%nat \/ tp_dim this = 3%nat;
  twf_Q1D : (tp_Q1D this <= MAX_Q1D)%nat;
  twf_mesh : mesh_GetNE (GetMesh (tp_hFESpace this)) = tp_NE this;
  twf_vdim : GetVDim (tp_lFESpace this) = 1%nat;
  twf_l_ne : er_ne erl = tp_NE this;
  twf_l_dof : er_dof erl = (tp_D1D this ^ tp_dim this)%nat;
  twf_h_ne : er_ne erh = tp_NE this;
  twf_h_dof : er_dof erh = (tp_Q1D this ^ tp_dim this)%nat;
  twf_h_ndofs : er_ndofs erh = GetVSize (tp_hFESpace this);
  twf_l_range : forall s,
    (s < er_Height erl)%nat ->
    (nth s (er_gather_map erl) 0%nat < GetVSize (tp_lFESpace this))%nat
}.

(** Every fine degree of freedom has a slot in the fine restriction and a
    position in the table of some element. *)
Definition covered (pr : PRefinementTransferOperator R)
  (erh : ElementRestriction) : Prop :=
  forall d, (d < GetVSize (pr_hFESpace pr))%nat ->
    (exists s, (s < er_Height erh)%nat
               /\ nth s (er_gather_map erh) 0%nat = d)
    /\ (exists e p,
          (e < mesh_GetNE (GetMesh (pr_hFESpace pr)))%nat
          /\ (p < length (fst (GetElementDofs (pr_hFESpace pr) e)))%nat
          /\ dof_index (nth p (fst (GetElementDofs (pr_hFESpace pr) e)) 0%Z)
             = d).

(** The one-dimensional matrix [B] factors the dense local matrices: a
    slot of the fine restriction and a position of an element table that
    name the same fine degree of freedom have the same row. *)
Definition agreement (this : TensorProductPRefinementTransferOperator R)
  (erl erh : ElementRestriction) (pr : PRefinementTransferOperator R)
  : Prop :=
  (tp_dim this = 2%nat ->
   forall e qx qy e' p j,
     (e < tp_NE this)%nat -> (qx < tp_Q1D this)%nat ->
     (qy < tp_Q1D this)%nat ->
     (e' < mesh_GetNE (GetMesh (pr_hFESpace pr)))%nat ->
     (p < length (fst (GetElementDofs (pr_hFESpace pr) e')))%nat ->
     (j < GetVSize (pr_lFESpace pr))%nat ->
     nth (qx + tp_Q1D this * (qy + tp_Q1D this * e))
         (er_gather_map erh) 0%nat
     = dof_index (nth p (fst (GetElementDofs (pr_hFESpace pr) e')) 0%Z) ->
     tensor_row2D this erl e qx qy j
     = scattered_row GetTransferMatrix pr e' 0 p j)
  /\ (tp_dim this = 3%nat ->
      forall e qx qy qz e' p j,
        (e < tp_NE this)%nat -> (qx < tp_Q1D this)%nat ->
        (qy < tp_Q1D this)%nat -> (qz < tp_Q1D this)%nat ->
        (e' < mesh_GetNE (GetMesh (pr_hFESpace pr)))%nat ->
        (p < length (fst (GetElementDofs (pr_hFESpace pr) e')))%nat ->
        (j < GetVSize (pr_lFESpace pr))%nat ->
        nth (qx + tp_Q1D this
                  * (qy + tp_Q1D this * (qz + tp_Q1D this * e)))
            (er_gather_map erh) 0%nat
        = dof_index (nth p (fst (GetElementDofs (pr_hFESpace pr) e')) 0%Z) ->
        tensor_row3D this erl e qx qy qz j
        = scattered_row GetTransferMatrix pr e' 0 p j).

End TensorAgainstDense.

(* ------------------------------------------------------------------ *)
(** ** BilinearForm: the matrix and its elimination companion *)
(* ------------------------------------------------------------------ *)

(** [Operator::DiagonalPolicy]. *)
Inductive DiagonalPolicy : Type := DIAG_ZERO | DIAG_ONE | DIAG_KEEP.

Section BilinearForm.
Context {R : Type} {SR : Scalar R}.

(** Modelled from the spec: [SparseMatrix] (linalg/sparsemat.cpp), "the
    assembled matrix, built incrementally by element insertion": the list
    of its stored entries [(row, column, value)]; entries of one position
    add up. *)
Record SparseMatrix : Type := {
  sm_height : nat;
  sm_width : nat;
  sm_entries : list (nat * nat * R)
}.

(** Modelled from the spec: [SparseMatrix::AddMult(x, y)], [y += A x]. *)
Definition SparseMatrix_AddMult (A : SparseMatrix) (x y : Vector R)
  : Vector R :=
  fold_left
    (fun y (e : nat * nat * R) =>
       let '(i, j, v) := e in add_at i (v * nth j x rO)%S y)
    (sm_entries A) y.

(** Modelled from the spec: [SparseMatrix::Mult(x, y)], [y = A x]. *)
Definition SparseMatrix_Mult (A : SparseMatrix) (x y : Vector R) : Vector R :=
  SparseMatrix_AddMult A x (map (fun _ => rO) y).

(** What the stored entry [e] adds to entry [k] of [A x], in a vector of
    [n] entries. *)
Definition entry_action (x : Vector R) (n : nat) (e : nat * nat * R)
  (k : nat) : R :=
  let '(i, j, v) := e in
  if Nat.eqb i k && Nat.ltb k n then (v * nth j x rO)%S else rO.

(** Modelled from the spec: [SparseMatrix::EliminateRowCol(rc, Ae,
    dpolicy)].  "Moves the to-be-eliminated rows/columns into the
    elimination companion matrix, leaving the live operator consistent with
    a zero-valued boundary"; "diagonal entries for eliminated DOFs follow
    the Diagonal Policy": kept, or replaced by zero or by one.  The pair is
    the live matrix and its companion. *)
Definition EliminateRowCol (rc : nat) (dpolicy : DiagonalPolicy)
  (A_Ae : SparseMatrix * SparseMatrix) : SparseMatrix * SparseMatrix :=
  let '(A, Ae) := A_Ae in
  let split (e : nat * nat * R) : (nat * nat * R) * list (nat * nat * R) :=
    let '(i, j, v) := e in
    if Nat.eqb i rc && Nat.eqb j rc then
      match dpolicy with
      | DIAG_ONE => ((i, j, rI), [(i, j, (v - rI)%S)])
      | DIAG_ZERO => ((i, j, rO), [(i, j, v)])
      | DIAG_KEEP => ((i, j, v), [])
      end
    else if Nat.eqb i rc || Nat.eqb j rc then ((i, j, rO), [(i, j, v)])
    else ((i, j, v), []) in
  ({| sm_height := sm_height A; sm_width := sm_width A;
      sm_entries := map (fun e => fst (split e)) (sm_entries A) |},
   {| sm_height := sm_height Ae; sm_width := sm_width Ae;
      sm_entries := sm_entries Ae
                    ++ flat_map (fun e => snd (split e)) (sm_entries A) |}).

(** The members of [BilinearForm] that the products and the elimination
    use. *)
Record BilinearForm : Type := {
  bf_height : nat;
  mat : option SparseMatrix;
  mat_e : option SparseMatrix;
  diag_policy : DiagonalPolicy
}.

(** [BilinearForm::FullMult(x, y)]. *)
Definition FullMult (this : BilinearForm) (x y : Vector R)
  : Result (Vector R) :=
  m <- deref (mat this) ;;
  let y := SparseMatrix_Mult m x y in
  me <- deref (mat_e this) ;;
  Ok (SparseMatrix_AddMult me x y).

(** [BilinearForm::FullAddMult(x, y)]. *)
Definition FullAddMult (this : BilinearForm) (x y : Vector R)
  : Result (Vector R) :=
  m <- deref (mat this) ;;
  let y := SparseMatrix_AddMult m x y in
  me <- deref (mat_e this) ;;
  Ok (SparseMatrix_AddMult me x y).

(** Modelled from the spec: [BilinearForm::EliminateVDofs(vdofs, dpolicy)]
    of fem/bilinearform.cpp, the matrix-split elimination: the companion
    is created empty when the form has none, and every listed degree of
    freedom, decoded from its sign encoding, is eliminated in turn. *)
Definition EliminateVDofs (vdofs : list Z) (dpolicy : DiagonalPolicy)
  (this : BilinearForm) : Result BilinearForm :=
  m <- deref (mat this) ;;
  let me := match mat_e this with
            | Some me => me
            | None => {| sm_height := bf_height this;
                         sm_width := bf_height this; sm_entries := [] |}
            end in
  let '(m', me') :=
    fold_left (fun A_Ae vdof => EliminateRowCol (dof_index vdof) dpolicy A_Ae)
              vdofs (m, me) in
  Ok {| bf_height := bf_height this; mat := Some m'; mat_e := Some me';
        diag_policy := diag_policy this |}.

End BilinearForm.

Arguments SparseMatrix R : clear implicits.
Arguments BilinearForm R : clear implicits.

(* ------------------------------------------------------------------ *)
(** ** Reference compositions and call sequences *)
(* ------------------------------------------------------------------ *)

Section Reference.
Context {R : Type} {SR : Scalar R}.

(** A chain of three stages in which the first and the last may be absent:
    an absent stage is the identity, so its neighbour reads or writes the
    caller's vector directly; a present stage passes its result on through
    a work vector. *)
Definition chain (act : Operator R -> Vector R -> Vector R -> Vector R)
  (first : option (Operator R))
  (middle : Vector R -> Vector R -> Result (Vector R))
  (last : option (Operator R))
  (x buf_first buf_middle y : Vector R) : Result (Vector R) :=
  let x1 := match first with
            | Some a => act a x buf_first
            | None => x
            end in
  match last with
  | Some b => h <- middle x1 buf_middle ;; Ok (act b h y)
  | None => middle x1 y
  end.

(** The value part of a result that also returns the object. *)
Definition value_of {A B : Type} (r : Result (A * B)) : Result A :=
  match r with
  | Ok p => Ok (fst p)
  | Abort msg => Abort msg
  end.

(** A call of one of the two setters that [L2ProjectionH1Space] offers. *)
Inductive ToleranceCall : Type :=
| CallSetRelTol (p_rtol_ : float)
| CallSetAbsTol (p_atol_ : float).

Definition call (this : L2ProjectionH1Space R) (c : ToleranceCall)
  : L2ProjectionH1Space R :=
  match c with
  | CallSetRelTol v => L2ProjectionH1Space_SetRelTol v this
  | CallSetAbsTol v => L2ProjectionH1Space_SetAbsTol v this
  end.

Definition calls (cs : list ToleranceCall) (this : L2ProjectionH1Space R)
  : L2ProjectionH1Space R :=
  fold_left call cs this.

Definition is_H1Space (f : L2Projection R) : bool :=
  match f with
  | H1Space _ _ => true
  | L2Space _ => false
  end.

End Reference.

(** The space [fes] with its element transformations replaced. *)
Definition with_transformations {R : Type} (fes : FiniteElementSpace R)
  (el_tr : nat -> ElementTransformation R) : FiniteElementSpace R :=
  {| GetMesh := GetMesh fes; GetVDim := GetVDim fes;
     GetNDofs := GetNDofs fes; GetOrdering := GetOrdering fes;
     GetTrueVSize := GetTrueVSize fes;
     IsVariableOrder := IsVariableOrder fes;
     GetContType := GetContType fes; GetFE := GetFE fes;
     GetElementDofs := GetElementDofs fes;
     GetElementTransformation := el_tr;
     GetProlongationMatrix := GetProlongationMatrix fes;
     GetRestrictionMatrix := GetRestrictionMatrix fes;
     GetHpRestrictionMatrix := GetHpRestrictionMatrix fes;
     GetRestrictionOperator := GetRestrictionOperator fes;
     RestrictionBooleanMult := RestrictionBooleanMult fes |}.

(* ------------------------------------------------------------------ *)
(** ** Small concrete spaces over the integers *)
(* ------------------------------------------------------------------ *)

(** A linear element on the unit segment and the quadratic one. *)
Definition segment_P1 : FiniteElement Z :=
  {| GetOrder := 1; GetDof := 2;
     CalcShape := fun ip => [(1 - ip_x ip)%Z; ip_x ip];
     IsTensorBasisElement := true |}.

Definition segment_P2 : FiniteElement Z :=
  {| GetOrder := 2; GetDof := 3;
     CalcShape := fun ip =>
       [((1 - ip_x ip) * (1 - 2 * ip_x ip))%Z;
        (ip_x ip * (2 * ip_x ip - 1))%Z;
        (4 * ip_x ip * (1 - ip_x ip))%Z];
     IsTensorBasisElement := true |}.

Definition unit_transformation : ElementTransformation Z :=
  {| OrderW := 0; Weight := fun _ => 1%Z |}.

(** A mesh of [ne] segments, each the only child of itself, reported with
    the dimension [dim]. *)
Definition segments (dim ne : nat) : Mesh Z :=
  {| mesh_GetNE := ne; Dimension := dim;
     GetElementBaseGeometry := fun _ => SEGMENT;
     GetRefinementTransforms :=
       {| embeddings := map (fun i => {| parent := i; matrix := 0 |})
                            (seq 0 ne);
          point_matrices := fun _ => [DenseMatrix_zero 1 2] |} |}.

(** The continuous space of the element [fe] on [segments dim ne]: element
    [i] owns the vertices [i] and [i+1] and, for the quadratic element, the
    interior node [ne+1+i]. *)
Definition segment_space (dim ne : nat) (fe : FiniteElement Z)
  : FiniteElementSpace Z :=
  {| GetMesh := segments dim ne;
     GetVDim := 1;
     GetNDofs := (ne + 1 + (GetDof fe - 2) * ne)%nat;
     GetOrdering := byNODES;
     GetTrueVSize := (ne + 1 + (GetDof fe - 2) * ne)%nat;
     IsVariableOrder := false;
     GetContType := CONTINUOUS;
     GetFE := fun _ => fe;
     GetElementDofs := fun i =>
       (Z.of_nat i :: Z.of_nat (i + 1)
        :: (if Nat.eqb (GetDof fe) 3 then [Z.of_nat (ne + 1 + i)] else []),
        None);
     GetElementTransformation := fun _ => unit_transformation;
     GetProlongationMatrix := None;
     GetRestrictionMatrix := None;
     GetHpRestrictionMatrix := None;
     GetRestrictionOperator := None;
     RestrictionBooleanMult := fun m => m |}.

(** The trivial choices for the numerical collaborators. *)
Definition no_points : Geometry -> nat -> list (IntegrationPoint Z) :=
  fun _ _ => [].

Definition unit_mass
  : FiniteElement Z -> ElementTransformation Z -> DenseMatrix Z :=
  fun fe _ =>
    DenseMatrix_of (GetDof fe) (GetDof fe)
                   (fun i j => if Nat.eqb i j then 1%Z else 0%Z).

Definition same_matrix : DenseMatrix Z -> DenseMatrix Z := fun m => m.

Definition identity_embedding
  : Geometry -> DenseMatrix Z -> IntegrationPointTransformation Z :=
  fun _ _ => {| Transform := fun ip => ip |}.


(** The element restriction of [segment_space dim ne fe], element after
    element, and a table of one-dimensional basis values. *)
Definition segment_restriction (fes : FiniteElementSpace Z)
  : option ElementRestriction :=
  Some {| er_ne := GetNE fes;
          er_dof := GetDof (GetFE fes 0);
          er_ndofs := GetNDofs fes;
          er_gather_map :=
            flat_map (fun i => map Z.to_nat (fst (GetElementDofs fes i)))
                     (seq 0 (GetNE fes));
          er_is_ElementRestriction := true |}.

Definition segment_maps (l_fe h_fe : FiniteElement Z) : DofToQuad Z :=
  {| ndof := GetDof l_fe; nqpt := GetDof h_fe;
     dq_B := filled (GetDof l_fe * GetDof h_fe) 1%Z;
     dq_Bt := filled (GetDof l_fe * GetDof h_fe) 1%Z |}.

Definition zero_memory : nat -> Z := fun _ => 0%Z.


(** An operator that copies its argument, and the trivial sparse
    collaborators of the continuous strategy. *)
Definition copy_operator (n : nat) : Operator Z :=
  {| op_Height := n; op_Width := n;
     op_Mult := fun x _ => x; op_MultTranspose := fun x _ => x |}.

Definition default_pcg : CGSolver Z :=
  {| print_level := (-1)%Z; max_iter := 10%Z; rel_tol := 0%float;
     abs_tol := 0%float; prec := None; oper := None |}.

Definition segment_H1Space (fes_ho fes_lor : FiniteElementSpace Z)
  : L2ProjectionH1Space Z :=
  L2ProjectionH1Space_new
    (fun fes_ho fes_lor =>
       (copy_operator (GetNDofs fes_ho), copy_operator (GetNDofs fes_ho)))
    (fun a _ => a) (fun _ a _ => a) (fun a _ => a) (fun a => a)
    (fun _ => None) default_pcg fes_ho fes_lor.


(** Twice the interpolation matrix from the linear to the quadratic
    element of the segment (twice, to stay within the integers). *)
Definition segment_transfer (h_fe l_fe : FiniteElement Z) : DenseMatrix Z :=
  DenseMatrix_of (GetDof h_fe) (GetDof l_fe)
    (fun p k =>
       if Nat.ltb p 2 then (if Nat.eqb p k then 2%Z else 0%Z) else 1%Z).

(** A space with a conforming prolongation and restriction attached. *)
Definition with_conforming (fes : FiniteElementSpace Z)
  : FiniteElementSpace Z :=
  {| GetMesh := GetMesh fes; GetVDim := GetVDim fes;
     GetNDofs := GetNDofs fes; GetOrdering := GetOrdering fes;
     GetTrueVSize := GetTrueVSize fes;
     IsVariableOrder := IsVariableOrder fes;
     GetContType := GetContType fes; GetFE := GetFE fes;
     GetElementDofs := GetElementDofs fes;
     GetElementTransformation := GetElementTransformation fes;
     GetProlongationMatrix := Some (copy_operator (GetNDofs fes));
     GetRestrictionMatrix := Some (copy_operator (GetNDofs fes));
     GetHpRestrictionMatrix := None;
     GetRestrictionOperator := Some (copy_operator (GetNDofs fes));
     RestrictionBooleanMult := RestrictionBooleanMult fes |}.

Definition segment_TrueTransferOperator_new
  (lFESpace_ hFESpace_ : FiniteElementSpace Z)
  : Result (TrueTransferOperator Z) :=
  TrueTransferOperator_new zero_memory segment_maps segment_restriction
    (fun _ _ => false) (fun _ fes => copy_operator (GetNDofs fes))
    lFESpace_ hFESpace_.


(** A two-point rule on the unit segment, with integer nodes. *)
Definition two_points : Geometry -> nat -> list (IntegrationPoint Z) :=
  fun _ order =>
    [ {| ip_x := 0%Z; ip_y := 0%Z; ip_z := 0%Z; weight := Z.of_nat order |};
      {| ip_x := 1%Z; ip_y := 0%Z; ip_z := 0%Z; weight := 1%Z |} ].


(** The stiffness-like matrix of three unknowns in a row, and a form that
    holds it and has no elimination companion yet. *)
Definition small_matrix : SparseMatrix Z :=
  {| sm_height := 3; sm_width := 3;
     sm_entries :=
       [(0%nat, 0%nat, 4%Z); (0%nat, 1%nat, (-1)%Z); (1%nat, 0%nat, (-1)%Z);
        (1%nat, 1%nat, 4%Z); (1%nat, 2%nat, (-1)%Z); (2%nat, 1%nat, (-1)%Z);
        (2%nat, 2%nat, 4%Z)] |}.

Definition small_form : BilinearForm Z :=
  {| bf_height := 3; mat := Some small_matrix; mat_e := None;
     diag_policy := DIAG_ONE |}.


(** The dense transfer from the linear to the quadratic space on two
    segments. *)
Definition segment_prefinement : PRefinementTransferOperator Z :=
  PRefinementTransferOperator_new (segment_space 1 2 segment_P1)
                                  (segment_space 1 2 segment_P2).


(** A row of [ne] squares: the positions of the nodes of the element of
    degree [k] in its own order (the corners counterclockwise, then the
    edges, then the interior), the bilinear and the biquadratic element,
    and the continuous space, whose nodes are numbered row after row. *)
Definition square_nodes (k : nat) : list (nat * nat) :=
  if Nat.eqb k 1
  then [(0, 0); (1, 0); (1, 1); (0, 1)]%nat
  else [(0, 0); (2, 0); (2, 2); (0, 2); (1, 0); (2, 1); (1, 2); (0, 1);
        (1, 1)]%nat.

Definition line_shape (k i : nat) (t : Z) : Z :=
  if Nat.eqb k 1
  then (if Nat.eqb i 0 then 1 - t else t)%Z
  else match i with
       | 0%nat => ((1 - t) * (1 - 2 * t))%Z
       | 1%nat => (4 * t * (1 - t))%Z
       | _ => (t * (2 * t - 1))%Z
       end.

Definition square_element (k : nat) : FiniteElement Z :=
  {| GetOrder := k; GetDof := ((k + 1) * (k + 1))%nat;
     CalcShape := fun ip =>
       map (fun n => (line_shape k (fst n) (ip_x ip)
                      * line_shape k (snd n) (ip_y ip))%Z)
           (square_nodes k);
     IsTensorBasisElement := true |}.

Definition squares (ne : nat) : Mesh Z :=
  {| mesh_GetNE := ne; Dimension := 2;
     GetElementBaseGeometry := fun _ => SQUARE;
     GetRefinementTransforms :=
       {| embeddings := map (fun i => {| parent := i; matrix := 0 |})
                            (seq 0 ne);
          point_matrices := fun _ => [DenseMatrix_zero 2 4] |} |}.

Definition square_space (ne k : nat) : FiniteElementSpace Z :=
  {| GetMesh := squares ne;
     GetVDim := 1;
     GetNDofs := ((k * ne + 1) * (k + 1))%nat;
     GetOrdering := byNODES;
     GetTrueVSize := ((k * ne + 1) * (k + 1))%nat;
     IsVariableOrder := false;
     GetContType := CONTINUOUS;
     GetFE := fun _ => square_element k;
     GetElementDofs := fun e =>
       (map (fun n => Z.of_nat (k * e + fst n + (k * ne + 1) * snd n))
            (square_nodes k),
        None);
     GetElementTransformation := fun _ => unit_transformation;
     GetProlongationMatrix := None;
     GetRestrictionMatrix := None;
     GetHpRestrictionMatrix := None;
     GetRestrictionOperator := None;
     RestrictionBooleanMult := fun m => m |}.

(** The lexicographic element restriction of [square_space ne k]. *)
Definition square_restriction (fes : FiniteElementSpace Z)
  : option ElementRestriction :=
  let k := GetOrder (GetFE fes 0) in
  let ne := GetNE fes in
  Some {| er_ne := ne;
          er_dof := ((k + 1) * (k + 1))%nat;
          er_ndofs := GetNDofs fes;
          er_gather_map :=
            flat_map
              (fun e =>
                 map (fun s => (k * e + s mod (k + 1)
                                + (k * ne + 1) * (s / (k + 1)))%nat)
                     (seq 0 ((k + 1) * (k + 1))))
              (seq 0 ne);
          er_is_ElementRestriction := true |}.

(** Twice the values of the linear basis of the segment at the nodes of
    the quadratic element, as [B] and as its transpose. *)
Definition square_maps (l_fe h_fe : FiniteElement Z) : DofToQuad Z :=
  {| ndof := (GetOrder l_fe + 1)%nat; nqpt := (GetOrder h_fe + 1)%nat;
     dq_B := [2; 1; 0; 0; 1; 2]%Z;
     dq_Bt := [2; 0; 1; 1; 0; 2]%Z |}.

(** Four times the interpolation matrix from the bilinear to the
    biquadratic element, in the order of the elements' own nodes. *)
Definition square_transfer (h_fe l_fe : FiniteElement Z) : DenseMatrix Z :=
  DenseMatrix_of (GetDof h_fe) (GetDof l_fe)
    (fun p k =>
       let hn := nth p (square_nodes (GetOrder h_fe)) (0, 0)%nat in
       let ln := nth k (square_nodes (GetOrder l_fe)) (0, 0)%nat in
       (nth (fst hn + 3 * fst ln) [2; 1; 0; 0; 1; 2] 0
        * nth (snd hn + 3 * snd ln) [2; 1; 0; 0; 1; 2] 0)%Z).

(** The two transfers from the bilinear to the biquadratic space on two
    squares. *)
Definition square_prefinement : PRefinementTransferOperator Z :=
  PRefinementTransferOperator_new (square_space 2 1) (square_space 2 2).

Definition square_coarse_restriction : ElementRestriction :=
  match square_restriction (square_space 2 1) with
  | Some er => er
  | None => {| er_ne := 0; er_dof := 0; er_ndofs := 0; er_gather_map := [];
               er_is_ElementRestriction := false |}
  end.

Definition square_fine_restriction : ElementRestriction :=
  match square_restriction (square_space 2 2) with
  | Some er => er
  | None => {| er_ne := 0; er_dof := 0; er_ndofs := 0; er_gather_map := [];
               er_is_ElementRestriction := false |}
  end.

Definition square_tensor : TensorProductPRefinementTransferOperator Z :=
  {| tp_lFESpace := square_space 2 1; tp_hFESpace := square_space 2 2;
     tp_dim := 2; tp_NE := 2; tp_D1D := 2; tp_Q1D := 3;
     tp_B := [2; 1; 0; 0; 1; 2]%Z; tp_Bt := [2; 0; 1; 1; 0; 2]%Z;
     elem_restrict_lex_l := Some square_coarse_restriction;
     elem_restrict_lex_h := Some square_fine_restriction;
     tp_localL := scratch zero_memory (er_Height square_coarse_restriction);
     tp_localH := scratch zero_memory (er_Height square_fine_restriction);
     tp_mask := BooleanMask square_fine_restriction |}.


(** A space reported as one of variable order. *)
Definition with_variable_order {R : Type} (fes : FiniteElementSpace R)
  : FiniteElementSpace R :=
  {| GetMesh := GetMesh fes; GetVDim := GetVDim fes;
     GetNDofs := GetNDofs fes; GetOrdering := GetOrdering fes;
     GetTrueVSize := GetTrueVSize fes;
     IsVariableOrder := true;
     GetContType := GetContType fes; GetFE := GetFE fes;
     GetElementDofs := GetElementDofs fes;
     GetElementTransformation := GetElementTransformation fes;
     GetProlongationMatrix := GetProlongationMatrix fes;
     GetRestrictionMatrix := GetRestrictionMatrix fes;
     GetHpRestrictionMatrix := GetHpRestrictionMatrix fes;
     GetRestrictionOperator := GetRestrictionOperator fes;
     RestrictionBooleanMult := RestrictionBooleanMult fes |}.


(** The inner product of the first [n] entries of two vectors. *)
Definition dot {R : Type} {SR : Scalar R} (n : nat) (a b : Vector R) : R :=
  sumn n (fun i => (nth i a rO * nth i b rO)%S).


(* ------------------------------------------------------------------ *)
(** ** The discontinuous strategy applied, and the blocks of its
       constructor *)
(* ------------------------------------------------------------------ *)

Section L2ProjectionApply.
Context {R : Type} {SR : Scalar R}.
Variable IntRules_Get : Geometry -> nat -> list (IntegrationPoint R).
Variable AssembleElementMatrix :
  FiniteElement R -> ElementTransformation R -> DenseMatrix R.
Variable Inverse : DenseMatrix R -> DenseMatrix R.
Variable EmbeddingTransformation :
  Geometry -> DenseMatrix R -> IntegrationPointTransformation R.

(** [L2ProjectionL2Space::Mult(x, y)]. *)
Definition L2ProjectionL2Space_Mult (this : L2ProjectionL2Space R)
  (x y : Vector R) : Vector R :=
  let fes_ho := l2_fes_ho this in
  let fes_lor := l2_fes_lor this in
  let vdim := GetVDim fes_ho in
  fold_left
    (fun y iho =>
       let lor_els := nth iho (l2_ho2lor this) [] in
       let nref := length lor_els in
       let ndof_ho := GetDof (GetFE fes_ho iho) in
       let ndof_lor := GetDof (GetFE fes_lor (nth 0 lor_els 0%nat)) in
       let R_iho := view (l2_R this) (nth iho (l2_offsets this) 0%nat)
                         (ndof_lor * nref) ndof_ho in
       let xel_mat :=
         {| Height := ndof_ho; Width := vdim;
            Data := GetSubVector (GetElementVDofs fes_ho iho) x |} in
       let yel_mat := MatMult R_iho xel_mat in
       L2_place_lor fes_lor vdim lor_els ndof_lor yel_mat y)
    (seq 0 (GetNE fes_ho)) y.

(** [L2ProjectionL2Space::MultTranspose(x, y)]. *)
Definition L2ProjectionL2Space_MultTranspose (this : L2ProjectionL2Space R)
  (x y : Vector R) : Vector R :=
  let fes_ho := l2_fes_ho this in
  let fes_lor := l2_fes_lor this in
  let vdim := GetVDim fes_ho in
  fold_left
    (fun y iho =>
       let lor_els := nth iho (l2_ho2lor this) [] in
       let nref := length lor_els in
       let ndof_ho := GetDof (GetFE fes_ho iho) in
       let ndof_lor := GetDof (GetFE fes_lor (nth 0 lor_els 0%nat)) in
       let R_iho := view (l2_R this) (nth iho (l2_offsets this) 0%nat)
                         (ndof_lor * nref) ndof_ho in
       let xel_mat := L2_extract_lor fes_lor vdim lor_els ndof_lor x
                        (DenseMatrix_zero (ndof_lor * nref) vdim) in
       let yel_mat := MultAtB R_iho xel_mat in
       AddElementVector (GetElementVDofs fes_ho iho) (Data yel_mat) y)
    (seq 0 (GetNE fes_ho)) (map (fun _ => rO) y).

(** The number of entries of the block of the coarse element [iho] in [R]
    and in [P]: [fe_ho.GetDof()*fe_lor.GetDof()*nref]. *)
Definition L2_block (fes_ho fes_lor : FiniteElementSpace R)
  (ho2lor : list (list nat)) (iho : nat) : nat :=
  (GetDof (GetFE fes_ho iho)
   * GetDof (GetFE fes_lor (nth 0 (nth iho ho2lor []) 0%nat))
   * length (nth iho ho2lor []))%nat.

(** The matrices of the coarse element [iho] in the constructor, named:
    [Minv_lor], [M_lor] and [M_mixed] after the loop over the fine
    elements of the patch, then [R_iho], [RtMlor], [RtMlorR] and
    [P_iho]. *)
Definition L2_patch_blocks (fes_ho fes_lor : FiniteElementSpace R)
  (ho2lor : list (list nat)) (iho : nat)
  : DenseMatrix R * DenseMatrix R * DenseMatrix R :=
  let mesh_ho := GetMesh fes_ho in
  let cf_tr := GetRefinementTransforms (GetMesh fes_lor) in
  let lor_els := nth iho ho2lor [] in
  let nref := length lor_els in
  let geom := GetElementBaseGeometry mesh_ho iho in
  let fe_ho := GetFE fes_ho iho in
  let fe_lor := GetFE fes_lor (nth 0 lor_els 0%nat) in
  let ndof_ho := GetDof fe_ho in
  let ndof_lor := GetDof fe_lor in
  let pmats := point_matrices cf_tr geom in
  fold_left
    (fun (st : DenseMatrix R * DenseMatrix R * DenseMatrix R) iref =>
       let '(Minv_lor, M_lor, M_mixed) := st in
       let ilor := nth iref lor_els 0%nat in
       let el_tr := GetElementTransformation fes_lor ilor in
       let M_lor_el := AssembleElementMatrix fe_lor el_tr in
       let M_lor := CopyMN M_lor_el (iref * ndof_lor) (iref * ndof_lor)
                           M_lor in
       let Minv_lor := CopyMN (Inverse M_lor_el) (iref * ndof_lor)
                              (iref * ndof_lor) Minv_lor in
       let emb := nth ilor (embeddings cf_tr)
                      {| parent := 0; matrix := 0 |} in
       let ip_tr := EmbeddingTransformation geom
                      (nth (matrix emb) pmats (DenseMatrix_zero 0 0)) in
       let M_mixed_el := ElemMixedMass IntRules_Get geom fe_ho fe_lor el_tr
                           ip_tr (DenseMatrix_zero ndof_lor ndof_ho) in
       let M_mixed := CopyMN M_mixed_el (iref * ndof_lor) 0 M_mixed in
       (Minv_lor, M_lor, M_mixed))
    (seq 0 nref)
    (DenseMatrix_zero (ndof_lor * nref) (ndof_lor * nref),
     DenseMatrix_zero (ndof_lor * nref) (ndof_lor * nref),
     DenseMatrix_zero (ndof_lor * nref) ndof_ho).

Definition L2_R_iho (fes_ho fes_lor : FiniteElementSpace R)
  (ho2lor : list (list nat)) (iho : nat) : DenseMatrix R :=
  let '(Minv_lor, M_lor, M_mixed) :=
    L2_patch_blocks fes_ho fes_lor ho2lor iho in
  MatMult Minv_lor M_mixed.

Definition L2_RtMlor (fes_ho fes_lor : FiniteElementSpace R)
  (ho2lor : list (list nat)) (iho : nat) : DenseMatrix R :=
  let '(Minv_lor, M_lor, M_mixed) :=
    L2_patch_blocks fes_ho fes_lor ho2lor iho in
  MultAtB (L2_R_iho fes_ho fes_lor ho2lor iho) M_lor.

Definition L2_RtMlorR (fes_ho fes_lor : FiniteElementSpace R)
  (ho2lor : list (list nat)) (iho : nat) : DenseMatrix R :=
  MatMult (L2_RtMlor fes_ho fes_lor ho2lor iho)
          (L2_R_iho fes_ho fes_lor ho2lor iho).

Definition L2_P_iho (fes_ho fes_lor : FiniteElementSpace R)
  (ho2lor : list (list nat)) (iho : nat) : DenseMatrix R :=
  MatMult (Inverse (L2_RtMlorR fes_ho fes_lor ho2lor iho))
          (L2_RtMlor fes_ho fes_lor ho2lor iho).

(** The identity matrix of size [n]. *)
Definition DenseMatrix_identity (n : nat) : DenseMatrix R :=
  DenseMatrix_of n n (fun i j => if Nat.eqb i j then rI else rO).

End L2ProjectionApply.

(** A rule with the two ends of the unit segment as points, of weight
    one. *)
Definition unit_points : Geometry -> nat -> list (IntegrationPoint Z) :=
  fun _ _ =>
    [ {| ip_x := 0%Z; ip_y := 0%Z; ip_z := 0%Z; weight := 1%Z |};
      {| ip_x := 1%Z; ip_y := 0%Z; ip_z := 0%Z; weight := 1%Z |} ].

(** A mesh of [ne] segments that refines one of [ne / 2]: the fine
    elements [2 i] and [2 i + 1] are the children of the coarse element
    [i], with a point matrix each. *)
Definition halved_segments (ne : nat) : Mesh Z :=
  {| mesh_GetNE := ne; Dimension := 1;
     GetElementBaseGeometry := fun _ => SEGMENT;
     GetRefinementTransforms :=
       {| embeddings :=
            map (fun i => {| parent := (i / 2)%nat; matrix := (i mod 2)%nat |})
                (seq 0 ne);
          point_matrices := fun _ =>
            [DenseMatrix_of 1 2 (fun _ _ => 0%Z);
             DenseMatrix_of 1 2 (fun _ _ => 1%Z)] |} |}.

(** A rule with the left end of the unit segment as its only point, and
    the embedding that sends every point to the first entry of the point
    matrix of the child. *)
Definition left_point : Geometry -> nat -> list (IntegrationPoint Z) :=
  fun _ _ =>
    [ {| ip_x := 0%Z; ip_y := 0%Z; ip_z := 0%Z; weight := 1%Z |} ].

Definition end_embedding
  : Geometry -> DenseMatrix Z -> IntegrationPointTransformation Z :=
  fun _ pm =>
    {| Transform := fun ip =>
         {| ip_x := Elem pm 0 0; ip_y := ip_y ip; ip_z := ip_z ip;
            weight := weight ip |} |}.

(** The discontinuous space of the element [fe] on a mesh of segments:
    element [i] owns the degrees of freedom [GetDof fe * i + k]. *)
Definition broken_space (mesh : Mesh Z) (fe : FiniteElement Z)
  : FiniteElementSpace Z :=
  {| GetMesh := mesh;
     GetVDim := 1;
     GetNDofs := (GetDof fe * mesh_GetNE mesh)%nat;
     GetOrdering := byNODES;
     GetTrueVSize := (GetDof fe * mesh_GetNE mesh)%nat;
     IsVariableOrder := false;
     GetContType := DISCONTINUOUS;
     GetFE := fun _ => fe;
     GetElementDofs := fun i =>
       (map (fun k => Z.of_nat (GetDof fe * i + k)) (seq 0 (GetDof fe)),
        None);
     GetElementTransformation := fun _ => unit_transformation;
     GetProlongationMatrix := None;
     GetRestrictionMatrix := None;
     GetHpRestrictionMatrix := None;
     GetRestrictionOperator := None;
     RestrictionBooleanMult := fun m => m |}.

(* ------------------------------------------------------------------ *)
(** ** BilinearForm: access to the two matrices *)
(* ------------------------------------------------------------------ *)

Section BilinearFormAccess.
Context {R : Type} {SR : Scalar R}.

(** [BilinearForm::SpMat()]. *)
Definition SpMat (this : BilinearForm R) : Result (SparseMatrix R) :=
  MFEM_VERIFY (match mat this with Some _ => true | None => false end)
              "mat is NULL and can't be dereferenced" ;;;
  deref (mat this).

(** [BilinearForm::HasSpMat()]. *)
Definition HasSpMat (this : BilinearForm R) : bool :=
  match mat this with
  | Some _ => true
  | None => false
  end.

(** [BilinearForm::LoseMat()]: the pointer it returns, and the form
    afterwards. *)
Definition LoseMat (this : BilinearForm R)
  : option (SparseMatrix R) * BilinearForm R :=
  let tmp := mat this in
  (tmp, {| bf_height := bf_height this; mat := None; mat_e := mat_e this;
           diag_policy := diag_policy this |}).

(** [BilinearForm::SpMatElim()]. *)
Definition SpMatElim (this : BilinearForm R) : Result (SparseMatrix R) :=
  MFEM_VERIFY (match mat_e this with Some _ => true | None => false end)
              "mat_e is NULL and can't be dereferenced" ;;;
  deref (mat_e this).

(** [BilinearForm::HasSpMatElim()]. *)
Definition HasSpMatElim (this : BilinearForm R) : bool :=
  match mat_e this with
  | Some _ => true
  | None => false
  end.

End BilinearFormAccess.

(* ------------------------------------------------------------------ *)
(** ** convert-dc: the choice of the data collection *)
(* ------------------------------------------------------------------ *)

(** [std::string::substr(pos, len)], for [pos] inside the string. *)
Definition substr (s : string) (pos len : nat) : string := substring pos len s.

(** [std::string::find(pat)]; [None] is [npos]. *)
Definition string_find (s pat : string) : option nat := index 0 pat s.

(** The data collections that the tool creates.  [comm] tells whether the
    constructor was given [MPI_COMM_WORLD]; [protocol] is [None] until
    [SetProtocol] is called. *)
Inductive DataCollection : Type :=
| VisItDataCollection (comm : bool) (name : string)
| SidreDataCollection (name : string)
| ConduitDataCollection (comm : bool) (name : string)
    (protocol : option string)
| FMSDataCollection (name : string) (protocol : option string).

Definition SetProtocol (protocol : string) (dc : DataCollection)
  : DataCollection :=
  match dc with
  | ConduitDataCollection comm name _ =>
      ConduitDataCollection comm name (Some protocol)
  | FMSDataCollection name _ => FMSDataCollection name (Some protocol)
  | _ => dc
  end.

Section ConvertDC.

(** The build options that the function tests. *)
Variables MFEM_USE_MPI MFEM_USE_SIDRE MFEM_USE_CONDUIT MFEM_USE_FMS : bool.

(** [create_data_collection(dc_name, dc_type)] of
    miniapps/tools/convert-dc.cpp. *)
Definition create_data_collection (dc_name dc_type : string)
  : Result DataCollection :=
  if String.eqb dc_type "visit" then
    Ok (VisItDataCollection MFEM_USE_MPI dc_name)
  else if String.eqb dc_type "sidre" || String.eqb dc_type "sidre_hdf5" then
    if MFEM_USE_SIDRE then Ok (SidreDataCollection dc_name)
    else Abort "Must build with MFEM_USE_SIDRE=YES for sidre support."
  else if String.eqb dc_type "json" || String.eqb dc_type "conduit_json"
          || String.eqb dc_type "conduit_bin" || String.eqb dc_type "hdf5"
  then
    if MFEM_USE_CONDUIT then
      let conduit_dc := ConduitDataCollection MFEM_USE_MPI dc_name None in
      Ok (SetProtocol dc_type conduit_dc)
    else Abort "Must build with MFEM_USE_CONDUIT=YES for conduit support."
  else if String.eqb (substr dc_type 0 3) "fms" then
    if MFEM_USE_FMS then
      let fms_dc := FMSDataCollection dc_name None in
      match string_find dc_type "_" with
      | Some pos =>
          let fms_protocol :=
            substr dc_type (pos + 1) (String.length dc_type - pos - 1) in
          Ok (SetProtocol fms_protocol fms_dc)
      | None => Ok fms_dc
      end
    else Abort "Must build with MFEM_USE_FMS=YES for FMS support."
  else Abort ("Unsupported Data Collection type:" ++ dc_type).

End ConvertDC.

(** A form of three unknowns that holds a matrix and an elimination
    companion. *)
Definition split_form : BilinearForm Z :=
  {| bf_height := 3;
     mat := Some {| sm_height := 3; sm_width := 3;
                    sm_entries := [(0%nat, 1%nat, 1%Z); (2%nat, 2%nat, 3%Z)] |};
     mat_e := Some {| sm_height := 3; sm_width := 3;
                      sm_entries := [(0%nat, 0%nat, 2%Z); (1%nat, 0%nat, 1%Z)] |};
     diag_policy := DIAG_ZERO |}.

(* ------------------------------------------------------------------ *)
(** ** The operators that the grid transfers hand out *)
(* ------------------------------------------------------------------ *)

(** [Operator::Type]: the values that transfer.cpp names, and
    [OtherType id] for any other value of the enumeration, [id] being its
    number. *)
Inductive OperatorType : Type :=
| ANY_TYPE | MFEM_SPARSEMAT | Hypre_ParCSR | OtherType (id : nat).

(** Modelled from the spec: the number of a type, which is what
    [<< oper_type] prints; the enumeration of linalg/operator.hpp starts
    with [ANY_TYPE], [MFEM_SPARSEMAT], [Hypre_ParCSR]. *)
Definition Type_number (t : OperatorType) : nat :=
  match t with
  | ANY_TYPE => 0
  | MFEM_SPARSEMAT => 1
  | Hypre_ParCSR => 2
  | OtherType id => id
  end.

(** The text of [MFEM_ABORT("Operator::Type is not supported: " <<
    oper_type)]. *)
Definition type_message (t : OperatorType) : string :=
  ("Operator::Type is not supported: "
   ++ NilEmpty.string_of_uint (Nat.to_uint (Type_number t)))%string.

(** [FiniteElement::MapType]. *)
Inductive MapType : Type :=
| UNKNOWN_MAP_TYPE | VALUE | INTEGRAL | H_DIV | H_CURL.

(** The mass integrators that [BackwardOperator] creates, and one that the
    caller has set. *)
Inductive BilinearFormIntegrator : Type :=
| MassIntegrator | VectorFEMassIntegrator | CallerIntegrator (id : nat).

Section GridTransferOperators.
Context {R : Type} {SR : Scalar R}.

Variable MFEM_USE_MPI : bool.
Variable IntRules_Get : Geometry -> nat -> list (IntegrationPoint R).
Variable AssembleElementMatrix :
  FiniteElement R -> ElementTransformation R -> DenseMatrix R.
Variable Inverse : DenseMatrix R -> DenseMatrix R.
Variable EmbeddingTransformation :
  Geometry -> DenseMatrix R -> IntegrationPointTransformation R.
Variable H1Space_new :
  FiniteElementSpace R -> FiniteElementSpace R -> L2ProjectionH1Space R.
Variable ParH1Space_new :
  FiniteElementSpace R -> FiniteElementSpace R -> L2ProjectionH1Space R.
Variable CGSolver_Mult :
  CGSolver R -> Vector R -> Vector R -> Vector R * bool.

(** [FiniteElement::GetMapType()]. *)
Variable GetMapType : FiniteElement R -> MapType.

(** The virtual call [L2Projection::Prolongate(x, y)]. *)
Definition L2Projection_Prolongate (f : L2Projection R) (x y : Vector R)
  : Result (Vector R) :=
  match f with
  | H1Space _ h => Ok (L2ProjectionH1Space_Prolongate CGSolver_Mult h x y)
  | L2Space l => L2ProjectionL2Space_Prolongate l x y
  end.

(** Modelled from the spec: [L2ProjectionGridTransfer::L2Prolongation] of
    fem/transfer.hpp, the operator that keeps a reference to a projection
    and whose [Mult] is the [Prolongate] of that projection. *)
Record L2Prolongation : Type := {
  l2proj : L2Projection R
}.

Definition L2Prolongation_Mult (this : L2Prolongation) (x y : Vector R)
  : Result (Vector R) :=
  L2Projection_Prolongate (l2proj this) x y.

(** [L2ProjectionGridTransfer] with its member [B]. *)
Record L2ProjectionGridTransferObject : Type := {
  members : L2ProjectionGridTransfer R;
  B : option L2Prolongation
}.

Local Abbreviation BuildF' :=
  (BuildF MFEM_USE_MPI IntRules_Get AssembleElementMatrix Inverse
     EmbeddingTransformation H1Space_new ParH1Space_new).

(** [L2ProjectionGridTransfer::ForwardOperator()]: the operator returned,
    and the object afterwards. *)
Definition L2ProjectionGridTransfer_ForwardOperator
  (this : L2ProjectionGridTransferObject)
  : Result (L2Projection R * L2ProjectionGridTransferObject) :=
  let this :=
    match F (members this) with
    | None => {| members := BuildF' (members this); B := B this |}
    | Some _ => this
    end in
  f <- deref (F (members this)) ;;
  Ok (f, this).

(** [L2ProjectionGridTransfer::BackwardOperator()]. *)
Definition L2ProjectionGridTransfer_BackwardOperator
  (this : L2ProjectionGridTransferObject)
  : Result (L2Prolongation * L2ProjectionGridTransferObject) :=
  match B this with
  | None =>
      let this :=
        match F (members this) with
        | None => {| members := BuildF' (members this); B := B this |}
        | Some _ => this
        end in
      f <- deref (F (members this)) ;;
      let this := {| members := members this;
                     B := Some {| l2proj := f |} |} in
      b <- deref (B this) ;;
      Ok (b, this)
  | Some b => Ok (b, this)
  end.

(** The operators that [InterpolationGridTransfer] builds:
    [FiniteElementSpace::RefinementOperator], the matrix returned by
    [RefinementMatrix_main], and
    [FiniteElementSpace::DerefinementOperator], each with the arguments of
    its construction. *)
Inductive InterpolationOperator : Type :=
| RefinementOperator (fespace coarse_fes : FiniteElementSpace R)
| RefinementMatrix (fespace coarse_fes : FiniteElementSpace R)
| DerefinementOperator (f_fes c_fes : FiniteElementSpace R)
    (mass_integ : option BilinearFormIntegrator).

(** [InterpolationGridTransfer]: the members of [GridTransfer] that the
    two operators use, and its own. *)
Record InterpolationGridTransfer : Type := {
  igt_dom_fes : FiniteElementSpace R;
  igt_ran_fes : FiniteElementSpace R;
  oper_type : OperatorType;
  igt_F : option InterpolationOperator;
  igt_B : option InterpolationOperator;
  mass_integ : option BilinearFormIntegrator;
  own_mass_integ : bool
}.

(** Modelled from the spec: [GridTransfer::SetOperatorType(type)] of
    fem/transfer.hpp, which stores the type. *)
Definition SetOperatorType (type : OperatorType)
  (this : InterpolationGridTransfer) : InterpolationGridTransfer :=
  {| igt_dom_fes := igt_dom_fes this; igt_ran_fes := igt_ran_fes this;
     oper_type := type; igt_F := igt_F this; igt_B := igt_B this;
     mass_integ := mass_integ this; own_mass_integ := own_mass_integ this |}.

(** [InterpolationGridTransfer::SetMassIntegrator(mass_integ_,
    own_mass_integ_)]. *)
Definition SetMassIntegrator (mass_integ_ : option BilinearFormIntegrator)
  (own_mass_integ_ : bool) (this : InterpolationGridTransfer)
  : InterpolationGridTransfer :=
  {| igt_dom_fes := igt_dom_fes this; igt_ran_fes := igt_ran_fes this;
     oper_type := oper_type this; igt_F := igt_F this; igt_B := igt_B this;
     mass_integ := mass_integ_; own_mass_integ := own_mass_integ_ |}.

(** [InterpolationGridTransfer::ForwardOperator()]. *)
Definition InterpolationGridTransfer_ForwardOperator
  (this : InterpolationGridTransfer)
  : Result (InterpolationOperator * InterpolationGridTransfer) :=
  match igt_F this with
  | Some f => Ok (f, this)
  | None =>
      let set_F f :=
        {| igt_dom_fes := igt_dom_fes this; igt_ran_fes := igt_ran_fes this;
           oper_type := oper_type this; igt_F := Some f;
           igt_B := igt_B this; mass_integ := mass_integ this;
           own_mass_integ := own_mass_integ this |} in
      match oper_type this with
      | ANY_TYPE =>
          let this :=
            set_F (RefinementOperator (igt_ran_fes this) (igt_dom_fes this)) in
          f <- deref (igt_F this) ;; Ok (f, this)
      | MFEM_SPARSEMAT =>
          let this :=
            set_F (RefinementMatrix (igt_ran_fes this) (igt_dom_fes this)) in
          f <- deref (igt_F this) ;; Ok (f, this)
      | _ => Abort (type_message (oper_type this))
      end
  end.

(** [InterpolationGridTransfer::BackwardOperator()]. *)
Definition InterpolationGridTransfer_BackwardOperator
  (this : InterpolationGridTransfer)
  : Result (InterpolationOperator * InterpolationGridTransfer) :=
  match igt_B this with
  | Some b => Ok (b, this)
  | None =>
      let set_mass mi :=
        {| igt_dom_fes := igt_dom_fes this; igt_ran_fes := igt_ran_fes this;
           oper_type := oper_type this; igt_F := igt_F this;
           igt_B := igt_B this; mass_integ := Some mi;
           own_mass_integ := true |} in
      this <-
        (match mass_integ this with
         | None =>
             if Nat.ltb 0 (GetNE (igt_ran_fes this)) then
               let f_fe_0 := GetFE (igt_ran_fes this) 0 in
               match GetMapType f_fe_0 with
               | VALUE | INTEGRAL => Ok (set_mass MassIntegrator)
               | H_DIV | H_CURL => Ok (set_mass VectorFEMassIntegrator)
               | _ => Abort "unknown type of FE space"
               end
             else Ok this
         | Some _ => Ok this
         end) ;;
      match oper_type this with
      | ANY_TYPE =>
          let this :=
            {| igt_dom_fes := igt_dom_fes this;
               igt_ran_fes := igt_ran_fes this;
               oper_type := oper_type this; igt_F := igt_F this;
               igt_B := Some (DerefinementOperator (igt_ran_fes this)
                                (igt_dom_fes this) (mass_integ this));
               mass_integ := mass_integ this;
               own_mass_integ := own_mass_integ this |} in
          b <- deref (igt_B this) ;; Ok (b, this)
      | _ => Abort (type_message (oper_type this))
      end
  end.

End GridTransferOperators.

Arguments L2Prolongation R : clear implicits.
Arguments L2ProjectionGridTransferObject R : clear implicits.
Arguments InterpolationOperator R : clear implicits.
Arguments InterpolationGridTransfer R : clear implicits.

(** A solver that leaves the iterate as it is, an element map type, and a
    transfer between two discontinuous spaces on segments that has built
    nothing yet. *)
Definition idle_solver
  : CGSolver Z -> Vector Z -> Vector Z -> Vector Z * bool :=
  fun _ _ x => (x, true).

Definition value_map : FiniteElement Z -> MapType := fun _ => VALUE.

Definition broken_transfer : L2ProjectionGridTransferObject Z :=
  {| members :=
       {| dom_fes := broken_space (segments 1 2) segment_P2;
          ran_fes := broken_space (halved_segments 4) segment_P1;
          parallel := false; force_l2_space := false; F := None |};
     B := None |}.

Definition segment_interpolation (t : OperatorType)
  : InterpolationGridTransfer Z :=
  {| igt_dom_fes := segment_space 1 2 segment_P1;
     igt_ran_fes := segment_space 1 2 segment_P2;
     oper_type := t; igt_F := None; igt_B := None;
     mass_integ := None; own_mass_integ := false |}.

(* ------------------------------------------------------------------ *)
(** ** The scratch plane of the three-dimensional kernels *)
(* ------------------------------------------------------------------ *)

Section ScratchPlane.
Context {R : Type} {SR : Scalar R}.

(** The capacity of a line of the scratch array, and the indeterminate
    content of the array before it is written. *)
Variable MAX_1D : nat.
Variable uninit : nat -> R.

(** The array [sol_xy] of the three-dimensional kernels after the loops
    that fill it, for the values [X i j] that the kernel reads along the
    line [j]: [D1D] lines are read, and [Q1D] by [Q1D] entries written. *)
Definition plane_of (D1D Q1D : nat) (B : list R) (X : nat -> nat -> R)
  : list R :=
  fold_left
    (fun sol_xy dy =>
       fold_left
         (fun sol_xy qy =>
            fold_left
              (fun sol_xy qx =>
                 add_at (qy * MAX_1D + qx)
                   (B_at Q1D B qy dy
                    * nth qx
                        (line_values MAX_1D uninit D1D Q1D B
                           (fun dx => X dx dy))
                        rO)%S
                   sol_xy)
              (seq 0 Q1D) sol_xy)
         (seq 0 Q1D) sol_xy)
    (seq 0 D1D)
    (fold_left
       (fun sol_xy qy =>
          fold_left (fun sol_xy qx => upd (qy * MAX_1D + qx) rO sol_xy)
                    (seq 0 Q1D) sol_xy)
       (seq 0 Q1D) (scratch uninit (MAX_1D * MAX_1D))).

End ScratchPlane.

(* ------------------------------------------------------------------ *)
(** ** Loops that overwrite, and spaces whose elements share nothing *)
(* ------------------------------------------------------------------ *)

Section Stores.
Context {R : Type} {SR : Scalar R}.

(** How a loop of stores acts on an array of length [n]: an entry [k] for
    which [W k v] holds ends with the value [v], and the entries that the
    loop does not name keep their value. *)
Definition stores (n : nat) (f : list R -> list R) (W : nat -> R -> Prop)
  : Prop :=
  forall a, length a = n ->
    length (f a) = n
    /\ (forall k v, W k v -> nth k (f a) rO = v)
    /\ (forall k, (forall v, ~ W k v) -> nth k (f a) rO = nth k a rO).

(** The elements of a discontinuous space own their degrees of freedom:
    the table of an element has one entry per basis function, the entries
    are degrees of freedom of the space, and no degree of freedom occurs
    twice, neither within a table nor in the tables of two elements. *)
Record distinct_dofs (fes : FiniteElementSpace R) : Prop := {
  dd_range : forall e p,
    (e < GetNE fes)%nat ->
    (p < length (fst (GetElementDofs fes e)))%nat ->
    (dof_index (nth p (fst (GetElementDofs fes e)) 0%Z) < GetNDofs fes)%nat;
  dd_inj : forall e e' p p',
    (e < GetNE fes)%nat -> (e' < GetNE fes)%nat ->
    (p < length (fst (GetElementDofs fes e)))%nat ->
    (p' < length (fst (GetElementDofs fes e')))%nat ->
    dof_index (nth p (fst (GetElementDofs fes e)) 0%Z)
    = dof_index (nth p' (fst (GetElementDofs fes e')) 0%Z) ->
    e = e' /\ p = p'
}.

End Stores.

(* ------------------------------------------------------------------ *)
(** ** The continuous strategy: the sparsity pattern of [R] *)
(* ------------------------------------------------------------------ *)

(** A [Table] as the two arrays [I] and [J] of its compressed rows:
    [Table::GetRow(i)] is [J[I[i]] .. J[I[i+1]-1]]. *)
Definition Table_GetRow (I J : list nat) (i : nat) : list nat :=
  firstn (nth (S i) I 0 - nth i I 0)%nat (skipn (nth i I 0%nat) J).

(** Modelled from the spec: [Transpose(A, At, ncols_A)] of
    general/table.cpp, for a table given by the list of its rows: row [j]
    of the transpose lists the rows of [A] that contain [j], in
    increasing order, once for every occurrence. *)
Definition Table_Transpose (A : list (list nat)) (ncols_A : nat)
  : list (list nat) :=
  map (fun j =>
         flat_map (fun i => map (fun _ => i) (filter (Nat.eqb j) (nth i A [])))
                  (seq 0 (length A)))
      (seq 0 ncols_A).

Section AllocR.
Context {R : Type} {SR : Scalar R}.

(** [fes.GetElementToDofTable()], the list of the rows of the table. *)
Variable GetElementToDofTable : FiniteElementSpace R -> list (list nat).

(** [Table::SortRows()] on the arrays [I] and [J]: the new [J]. *)
Variable SortRows : list nat -> list nat -> list nat.

(** The first loop nest of [AllocR]: the marker array [dof_used_ho] and
    [sizeJ] after it. *)
Definition AllocR_count (elem_dof_ho dof_elem_lor : list (list nat))
  (cf_tr : CoarseFineTransformations R) (ndof_ho ndof_lor : nat)
  : list Z * nat :=
  fold_left
    (fun st ilor =>
       fold_left
         (fun st el_lor =>
            let iho := parent (nth el_lor (embeddings cf_tr)
                                   {| parent := 0; matrix := 0 |}) in
            fold_left
              (fun (st : list Z * nat) dof_ho =>
                 let '(dof_used_ho, sizeJ) := st in
                 if negb (Z.eqb (nth dof_ho dof_used_ho 0%Z) (Z.of_nat ilor))
                 then (upd dof_ho (Z.of_nat ilor) dof_used_ho, S sizeJ)
                 else st)
              (nth iho elem_dof_ho []) st)
         (nth ilor dof_elem_lor []) st)
    (seq 0 ndof_lor) (filled ndof_ho (-1)%Z, 0%nat).

(** The loops of one row of the second nest: [dof_used_ho], [sizeJ] and
    [dof_dofJ] after the row [ilor]. *)
Definition AllocR_row (elem_dof_ho dof_elem_lor : list (list nat))
  (cf_tr : CoarseFineTransformations R) (ilor : nat)
  (st : list Z * nat * list nat) : list Z * nat * list nat :=
  fold_left
    (fun st el_lor =>
       let iho := parent (nth el_lor (embeddings cf_tr)
                              {| parent := 0; matrix := 0 |}) in
       fold_left
         (fun (st : list Z * nat * list nat) dof_ho =>
            let '(dof_used_ho, sizeJ, dof_dofJ) := st in
            if negb (Z.eqb (nth dof_ho dof_used_ho 0%Z) (Z.of_nat ilor))
            then (upd dof_ho (Z.of_nat ilor) dof_used_ho, S sizeJ,
                  upd sizeJ dof_ho dof_dofJ)
            else st)
         (nth iho elem_dof_ho []) st)
    (nth ilor dof_elem_lor []) st.

(** [AllocR] up to the call of [SortRows]: the arrays [I] and [J] of
    [dof_lor_dof_ho].  [SetDims(ndof_lor, sizeJ)] allocates them and sets
    [I[0] = 0] and [I[ndof_lor] = sizeJ]; the entries that it leaves
    uninitialised are zero here. *)
Definition AllocR_pattern (fes_ho fes_lor : FiniteElementSpace R)
  : list nat * list nat :=
  let elem_dof_ho := GetElementToDofTable fes_ho in
  let elem_dof_lor := GetElementToDofTable fes_lor in
  let ndof_ho := GetNDofs fes_ho in
  let ndof_lor := GetNDofs fes_lor in
  let dof_elem_lor := Table_Transpose elem_dof_lor ndof_lor in
  let cf_tr := GetRefinementTransforms (GetMesh fes_lor) in
  let '(dof_used_ho, sizeJ) :=
    AllocR_count elem_dof_ho dof_elem_lor cf_tr ndof_ho ndof_lor in
  let dof_dofI := upd ndof_lor sizeJ (upd 0 0%nat (filled (S ndof_lor) 0%nat)) in
  let dof_dofJ := filled sizeJ 0%nat in
  let dof_used_ho :=
    fold_left (fun u i => upd i (-1)%Z u) (seq 0 ndof_ho) dof_used_ho in
  let '(dof_used_ho, sizeJ, dof_dofI, dof_dofJ) :=
    fold_left
      (fun (st : list Z * nat * list nat * list nat) ilor =>
         let '(dof_used_ho, sizeJ, dof_dofI, dof_dofJ) := st in
         let dof_dofI := upd ilor sizeJ dof_dofI in
         let '(dof_used_ho, sizeJ, dof_dofJ) :=
           AllocR_row elem_dof_ho dof_elem_lor cf_tr ilor
                      (dof_used_ho, sizeJ, dof_dofJ) in
         (dof_used_ho, sizeJ, dof_dofI, dof_dofJ))
      (seq 0 ndof_lor) (dof_used_ho, 0%nat, dof_dofI, dof_dofJ) in
  (dof_dofI, dof_dofJ).

(** [L2ProjectionH1Space::AllocR()]: the matrix with the sorted pattern
    and all values zero. *)
Definition AllocR (fes_ho fes_lor : FiniteElementSpace R) : SparseMatrix R :=
  let '(dof_dofI, dof_dofJ) := AllocR_pattern fes_ho fes_lor in
  let dof_dofJ := SortRows dof_dofI dof_dofJ in
  {| sm_height := GetNDofs fes_lor; sm_width := GetNDofs fes_ho;
     sm_entries :=
       flat_map (fun i => map (fun j => (i, j, rO))
                              (Table_GetRow dof_dofI dof_dofJ i))
                (seq 0 (GetNDofs fes_lor)) |}.

End AllocR.

(** The element tables of the two spaces of segments, read off their
    element dofs. *)
Definition segment_tables (fes : FiniteElementSpace Z) : list (list nat) :=
  map (fun e => map dof_index (fst (GetElementDofs fes e)))
      (seq 0 (GetNE fes)).


(** The space [fes] on another mesh. *)
Definition on_mesh {R : Type} (mesh : Mesh R) (fes : FiniteElementSpace R)
  : FiniteElementSpace R :=
  {| GetMesh := mesh; GetVDim := GetVDim fes;
     GetNDofs := GetNDofs fes; GetOrdering := GetOrdering fes;
     GetTrueVSize := GetTrueVSize fes;
     IsVariableOrder := IsVariableOrder fes;
     GetContType := GetContType fes; GetFE := GetFE fes;
     GetElementDofs := GetElementDofs fes;
     GetElementTransformation := GetElementTransformation fes;
     GetProlongationMatrix := GetProlongationMatrix fes;
     GetRestrictionMatrix := GetRestrictionMatrix fes;
     GetHpRestrictionMatrix := GetHpRestrictionMatrix fes;
     GetRestrictionOperator := GetRestrictionOperator fes;
     RestrictionBooleanMult := RestrictionBooleanMult fes |}.

(* ================================================================== *)
(** * Properties *)
(* ================================================================== *)

(** ** Arrays *)

Lemma length_upd {A : Type} (i : nat) (v : A) (a : list A) :
  length (upd i v a) = length a.
Proof.
  revert i; induction a as [|h t IH]; intros [|j]; simpl; auto.
Qed.

Lemma nth_upd_eq {A : Type} (i : nat) (v d : A) (a : list A) :
  (i < length a)%nat -> nth i (upd i v a) d = v.
Proof.
  revert i; induction a as [|h t IH]; intros [|j] Hi; simpl in *;
    try lia; auto.
  apply IH; lia.
Qed.

Lemma nth_upd_neq {A : Type} (i j : nat) (v d : A) (a : list A) :
  i <> j -> nth j (upd i v a) d = nth j a d.
Proof.
  revert i j; induction a as [|h t IH]; intros [|i] [|j] Hij; simpl;
    try congruence; auto.
Qed.

Lemma nth_upd {A : Type} (i j : nat) (v d : A) (a : list A) :
  nth j (upd i v a) d =
  if (Nat.eqb i j && Nat.ltb j (length a))%bool then v else nth j a d.
Proof.
  destruct (Nat.eqb_spec i j) as [->|Hne]; simpl.
  - destruct (Nat.ltb_spec j (length a)) as [Hlt|Hge].
    + now apply nth_upd_eq.
    + rewrite !nth_overflow; auto. now rewrite length_upd.
  - now apply nth_upd_neq.
Qed.

Lemma upd_overflow {A : Type} (i : nat) (v : A) (a : list A) :
  (length a <= i)%nat -> upd i v a = a.
Proof.
  revert i; induction a as [|h t IH]; intros [|j] Hi; simpl in *;
    try lia; auto.
  f_equal; apply IH; lia.
Qed.

Lemma length_filled {A : Type} (n : nat) (v : A) : length (filled n v) = n.
Proof. apply repeat_length. Qed.

Lemma nth_filled {A : Type} (n i : nat) (v : A) : nth i (filled n v) v = v.
Proof.
  unfold filled. revert i; induction n; intros [|i]; simpl; auto.
Qed.

Lemma nth_map_seq {A : Type} (f : nat -> A) (n i : nat) (d : A) :
  (i < n)%nat -> nth i (map f (seq 0 n)) d = f i.
Proof.
  intros Hi. rewrite (nth_indep _ d (f 0%nat)) by (now rewrite length_map, length_seq).
  rewrite (map_nth f (seq 0 n) 0%nat i), seq_nth; auto.
Qed.

Lemma nth_map_const {A B : Type} (c : B) (l : list A) (k : nat) :
  nth k (map (fun _ => c) l) c = c.
Proof.
  revert k; induction l as [|a l IH]; intros [|k]; simpl; auto.
Qed.

(** Two lists of one length with the same entries are equal. *)
Lemma list_eq_nth {A : Type} (d : A) (l1 l2 : list A) :
  length l1 = length l2 ->
  (forall i, (i < length l1)%nat -> nth i l1 d = nth i l2 d) ->
  l1 = l2.
Proof.
  revert l2; induction l1 as [|a l1 IH]; intros [|b l2] Hlen Hnth;
    simpl in *; try lia; auto.
  f_equal.
  - apply (Hnth 0%nat); lia.
  - apply IH; [lia|]. intros i Hi. apply (Hnth (S i)); lia.
Qed.

(** A loop whose every step keeps the length keeps the length. *)
Lemma length_fold_left {A T : Type} (step : list A -> T -> list A)
  (l : list T) (a : list A) :
  (forall a t, length (step a t) = length a) ->
  length (fold_left step l a) = length a.
Proof.
  intros Hstep. revert a; induction l as [|t l IH]; intros a; simpl; auto.
  rewrite IH; apply Hstep.
Qed.

(** ** The failure monad *)

Lemma bind_Ok {A B : Type} (a : A) (k : A -> Result B) : bind (Ok a) k = k a.
Proof. reflexivity. Qed.

Lemma MFEM_VERIFY_Ok (cond : bool) (msg : string) :
  MFEM_VERIFY cond msg = Ok tt -> cond = true.
Proof. destruct cond; simpl; [reflexivity|discriminate]. Qed.

(* ------------------------------------------------------------------ *)
(** ** The choice of the projection strategy *)
(* ------------------------------------------------------------------ *)

Lemma ContType_eqb_eq (a b : ContType) : ContType_eqb a b = true <-> a = b.
Proof. destruct a, b; simpl; split; congruence. Qed.

(** C4.  [L2ProjectionGridTransfer::BuildF] always leaves a strategy in
    [F]; it is the continuous-space strategy [L2ProjectionH1Space] exactly
    when the collection of the domain space is [CONTINUOUS] and
    [force_l2_space] is not set, and in every other case it is the
    [L2ProjectionL2Space] built from the domain and the range space. *)
Theorem BuildF_selects_strategy {R : Type} {SR : Scalar R}
  (MFEM_USE_MPI : bool)
  (IntRules_Get : Geometry -> nat -> list (IntegrationPoint R))
  (AssembleElementMatrix :
     FiniteElement R -> ElementTransformation R -> DenseMatrix R)
  (Inverse : DenseMatrix R -> DenseMatrix R)
  (EmbeddingTransformation :
     Geometry -> DenseMatrix R -> IntegrationPointTransformation R)
  (H1Space_new ParH1Space_new :
     FiniteElementSpace R -> FiniteElementSpace R -> L2ProjectionH1Space R)
  (this : L2ProjectionGridTransfer R) :
  exists f : L2Projection R,
    F (BuildF MFEM_USE_MPI IntRules_Get AssembleElementMatrix Inverse
         EmbeddingTransformation H1Space_new ParH1Space_new this) = Some f
    /\ (is_H1Space f = true <->
        (force_l2_space this = false
         /\ GetContType (dom_fes this) = CONTINUOUS))
    /\ (is_H1Space f = false ->
        f = L2Space (L2ProjectionL2Space_new IntRules_Get
                       AssembleElementMatrix Inverse EmbeddingTransformation
                       (dom_fes this) (ran_fes this))).
Proof.
  unfold BuildF, Parallel.
  destruct (force_l2_space this) eqn:Hforce; simpl.
  - eexists; split; [reflexivity|]. simpl. split; [|auto].
    split; [discriminate|]. intros [Hf _]; discriminate.
  - destruct (ContType_eqb (GetContType (dom_fes this)) CONTINUOUS) eqn:Hc.
    + apply ContType_eqb_eq in Hc.
      destruct MFEM_USE_MPI, (parallel this); simpl;
        (eexists; split; [reflexivity|]); simpl;
        (split; [split; auto|discriminate]).
    + eexists; split; [reflexivity|]. simpl. split; [|auto].
      split; [discriminate|]. intros [_ Hcont].
      apply ContType_eqb_eq in Hcont. congruence.
Qed.

(* ------------------------------------------------------------------ *)
(** ** The discontinuous strategy: when the prolongation exists *)
(* ------------------------------------------------------------------ *)

Section L2SpaceFacts.
Context {R : Type} {SR : Scalar R}.
Variable IntRules_Get : Geometry -> nat -> list (IntegrationPoint R).
Variable AssembleElementMatrix :
  FiniteElement R -> ElementTransformation R -> DenseMatrix R.
Variable Inverse : DenseMatrix R -> DenseMatrix R.
Variable EmbeddingTransformation :
  Geometry -> DenseMatrix R -> IntegrationPointTransformation R.

Local Abbreviation new :=
  (L2ProjectionL2Space_new IntRules_Get AssembleElementMatrix Inverse
     EmbeddingTransformation).

Lemma length_write_at (off : nat) (blk : list R) (v : Vector R) :
  length (write_at off blk v) = length v.
Proof.
  unfold write_at. apply length_fold_left. intros; apply length_upd.
Qed.

Lemma length_L2_patch_P fes_ho fes_lor ho2lor offsets build_P RP iho :
  length (snd (L2_patch IntRules_Get AssembleElementMatrix Inverse
                 EmbeddingTransformation fes_ho fes_lor ho2lor offsets
                 build_P RP iho)) = length (snd RP).
Proof.
  unfold L2_patch.
  destruct (fold_left _ _ _) as [[Minv_lor M_lor] M_mixed].
  destruct build_P; simpl; auto. apply length_write_at.
Qed.

Lemma length_L2_patches_P fes_ho fes_lor ho2lor offsets build_P l RP :
  length (snd (fold_left
                 (L2_patch IntRules_Get AssembleElementMatrix Inverse
                    EmbeddingTransformation fes_ho fes_lor ho2lor offsets
                    build_P) l RP)) = length (snd RP).
Proof.
  revert RP; induction l as [|iho l IH]; intros RP; simpl; auto.
  rewrite IH. apply length_L2_patch_P.
Qed.

(** The size of [P] after the constructor. *)
Lemma length_P_new (fes_ho fes_lor : FiniteElementSpace R) :
  length (l2_P (new fes_ho fes_lor)) =
  if Nat.eqb (mesh_GetNE (GetMesh fes_ho)) 0 then 0%nat
  else if Nat.leb (GetTrueVSize fes_ho) (GetTrueVSize fes_lor)
       then nth (mesh_GetNE (GetMesh fes_ho))
                (l2_offsets (new fes_ho fes_lor)) 0%nat
       else 0%nat.
Proof.
  unfold L2ProjectionL2Space_new.
  destruct (Nat.eqb (mesh_GetNE (GetMesh fes_ho)) 0); simpl; auto.
  rewrite length_L2_patches_P. simpl.
  destruct (Nat.leb _ _); simpl; auto. apply length_filled.
Qed.

Lemma fes_ho_new (fes_ho fes_lor : FiniteElementSpace R) :
  l2_fes_ho (new fes_ho fes_lor) = fes_ho.
Proof.
  unfold L2ProjectionL2Space_new.
  destruct (Nat.eqb (mesh_GetNE (GetMesh fes_ho)) 0); reflexivity.
Qed.

(** C9.  When the coarse space has no element, the constructor leaves [P]
    empty, and [Prolongate] and [ProlongateTranspose] return at once: the
    output vector is the one they were given and nothing fails. *)
Theorem Prolongate_on_empty_mesh (fes_ho fes_lor : FiniteElementSpace R)
  (x y : Vector R) :
  mesh_GetNE (GetMesh fes_ho) = 0%nat ->
  l2_P (new fes_ho fes_lor) = []
  /\ L2ProjectionL2Space_Prolongate (new fes_ho fes_lor) x y = Ok y
  /\ L2ProjectionL2Space_ProlongateTranspose (new fes_ho fes_lor) x y = Ok y.
Proof.
  intros Hne.
  unfold L2ProjectionL2Space_Prolongate,
    L2ProjectionL2Space_ProlongateTranspose, GetNE.
  rewrite fes_ho_new, Hne. simpl.
  unfold L2ProjectionL2Space_new. rewrite Hne. simpl. auto.
Qed.

(** C2, as the code has it.  On a coarse mesh with at least one element
    and a non-empty restriction, the constructor gives [P] a positive size
    exactly when the fine space has at least as many true degrees of
    freedom as the coarse one; when [P] is empty, [Prolongate] and
    [ProlongateTranspose] fail, at the call, with "Prolongation not
    supported for these spaces.", and otherwise they return a vector. *)
Theorem Prolongate_needs_P (fes_ho fes_lor : FiniteElementSpace R)
  (x y : Vector R) :
  mesh_GetNE (GetMesh fes_ho) <> 0%nat ->
  (0 < nth (mesh_GetNE (GetMesh fes_ho))
           (l2_offsets (new fes_ho fes_lor)) 0)%nat ->
  ((0 < length (l2_P (new fes_ho fes_lor)))%nat <->
   (GetTrueVSize fes_ho <= GetTrueVSize fes_lor)%nat)
  /\ (length (l2_P (new fes_ho fes_lor)) = 0%nat ->
      L2ProjectionL2Space_Prolongate (new fes_ho fes_lor) x y
      = Abort "Prolongation not supported for these spaces."
      /\ L2ProjectionL2Space_ProlongateTranspose (new fes_ho fes_lor) x y
         = Abort "Prolongation not supported for these spaces.")
  /\ ((0 < length (l2_P (new fes_ho fes_lor)))%nat ->
      exists y1 y2,
        L2ProjectionL2Space_Prolongate (new fes_ho fes_lor) x y = Ok y1
        /\ L2ProjectionL2Space_ProlongateTranspose (new fes_ho fes_lor) x y
           = Ok y2).
Proof.
  intros Hne Hoff.
  apply Nat.eqb_neq in Hne.
  pose proof (length_P_new fes_ho fes_lor) as HP. rewrite Hne in HP.
  unfold L2ProjectionL2Space_Prolongate,
    L2ProjectionL2Space_ProlongateTranspose, GetNE.
  rewrite fes_ho_new, Hne.
  split; [|split].
  - rewrite HP. destruct (Nat.leb_spec (GetTrueVSize fes_ho)
                                        (GetTrueVSize fes_lor)); lia.
  - intros H0. rewrite H0. simpl. auto.
  - intros Hpos. apply Nat.ltb_lt in Hpos. rewrite Hpos. simpl. eauto.
Qed.

End L2SpaceFacts.

Lemma Prolongate_on_empty_mesh_witness :
  mesh_GetNE (GetMesh (segment_space 1 0 segment_P2)) = 0%nat
  /\ L2ProjectionL2Space_Prolongate
       (L2ProjectionL2Space_new no_points unit_mass same_matrix
          identity_embedding (segment_space 1 0 segment_P2)
          (segment_space 1 0 segment_P1))
       [5%Z] [7%Z] = Ok [7%Z].
Proof.
  split; [reflexivity|].
  apply (Prolongate_on_empty_mesh no_points unit_mass same_matrix
           identity_embedding (segment_space 1 0 segment_P2)
           (segment_space 1 0 segment_P1) [5%Z] [7%Z]).
  reflexivity.
Defined.

Lemma Prolongate_needs_P_witness :
  L2ProjectionL2Space_Prolongate
    (L2ProjectionL2Space_new no_points unit_mass same_matrix
       identity_embedding (segment_space 1 2 segment_P2)
       (segment_space 1 2 segment_P1))
    [1%Z; 2%Z; 3%Z] [0%Z; 0%Z; 0%Z; 0%Z; 0%Z]
  = Abort "Prolongation not supported for these spaces.".
Proof.
  apply (Prolongate_needs_P no_points unit_mass same_matrix
           identity_embedding (segment_space 1 2 segment_P2)
           (segment_space 1 2 segment_P1)
           [1%Z; 2%Z; 3%Z] [0%Z; 0%Z; 0%Z; 0%Z; 0%Z]).
  - vm_compute; discriminate.
  - vm_compute; lia.
  - vm_compute; reflexivity.
Defined.

(** C2 fails as stated when the coarse mesh is empty: the fine space has as
    many true degrees of freedom as the coarse one, yet [P] is not built,
    and [Prolongate] and [ProlongateTranspose] succeed. *)
Lemma Prolongate_without_P_on_empty_mesh :
  let this :=
    L2ProjectionL2Space_new no_points unit_mass same_matrix
      identity_embedding (segment_space 1 0 segment_P1)
      (segment_space 1 0 segment_P1) in
  (GetTrueVSize (segment_space 1 0 segment_P1)
   <= GetTrueVSize (segment_space 1 0 segment_P1))%nat
  /\ l2_P this = []
  /\ L2ProjectionL2Space_Prolongate this [5%Z] [7%Z] = Ok [7%Z]
  /\ L2ProjectionL2Space_ProlongateTranspose this [5%Z] [7%Z] = Ok [7%Z].
Proof.
  vm_compute. repeat split; auto.
Qed.

(* ------------------------------------------------------------------ *)
(** ** The tensor-product operator: supported dimensions *)
(* ------------------------------------------------------------------ *)

Section TensorProductDimension.
Context {R : Type} {SR : Scalar R}.
Variable MAX_D1D : nat.
Variable MAX_Q1D : nat.
Variable uninit : nat -> R.
Variable GetDofToQuad : FiniteElement R -> FiniteElement R -> DofToQuad R.
Variable GetElementRestriction :
  FiniteElementSpace R -> option ElementRestriction.

(** What a successful construction on a non-empty mesh establishes. *)
Lemma TensorProduct_new_Ok (lFESpace_ hFESpace_ : FiniteElementSpace R)
  (this : TensorProductPRefinementTransferOperator R) :
  TensorProductPRefinementTransferOperator_new uninit GetDofToQuad
    GetElementRestriction lFESpace_ hFESpace_ = Ok this ->
  mesh_GetNE (GetMesh lFESpace_) <> 0%nat ->
  tp_lFESpace this = lFESpace_
  /\ tp_hFESpace this = hFESpace_
  /\ tp_dim this = Dimension (GetMesh lFESpace_)
  /\ tp_NE this = GetNE lFESpace_
  /\ tp_D1D this = ndof (GetDofToQuad (GetFE lFESpace_ 0) (GetFE hFESpace_ 0))
  /\ tp_Q1D this = nqpt (GetDofToQuad (GetFE lFESpace_ 0) (GetFE hFESpace_ 0))
  /\ tp_B this = dq_B (GetDofToQuad (GetFE lFESpace_ 0) (GetFE hFESpace_ 0))
  /\ exists erl erh,
       GetElementRestriction lFESpace_ = Some erl
       /\ GetElementRestriction hFESpace_ = Some erh
       /\ elem_restrict_lex_l this = Some erl
       /\ elem_restrict_lex_h this = Some erh
       /\ tp_localH this = scratch uninit (er_Height erh)
       /\ tp_localL this = scratch uninit (er_Height erl)
       /\ tp_mask this = BooleanMask erh.
Proof.
  unfold TensorProductPRefinementTransferOperator_new.
  intros Hnew Hne. apply Nat.eqb_neq in Hne. rewrite Hne in Hnew.
  destruct (IsTensorBasisElement (GetFE lFESpace_ 0)); simpl in Hnew;
    [|discriminate].
  destruct (IsTensorBasisElement (GetFE hFESpace_ 0)); simpl in Hnew;
    [|discriminate].
  destruct (GetElementRestriction lFESpace_) as [erl|]; simpl in Hnew;
    [|discriminate].
  destruct (GetElementRestriction hFESpace_) as [erh|]; simpl in Hnew;
    [|discriminate].
  destruct (er_is_ElementRestriction erh); simpl in Hnew; [|discriminate].
  injection Hnew as <-. simpl.
  repeat (split; [reflexivity|]).
  exists erl, erh. repeat split; reflexivity.
Qed.

(** C7.  An operator constructed on a non-empty mesh whose dimension is
    above three fails in [Mult] and in [MultTranspose] with the "not
    implemented for dim" diagnostic. *)
Theorem TensorProduct_unsupported_dimension
  (lFESpace_ hFESpace_ : FiniteElementSpace R)
  (this : TensorProductPRefinementTransferOperator R) (x y : Vector R) :
  TensorProductPRefinementTransferOperator_new uninit GetDofToQuad
    GetElementRestriction lFESpace_ hFESpace_ = Ok this ->
  mesh_GetNE (GetMesh lFESpace_) <> 0%nat ->
  (3 < Dimension (GetMesh lFESpace_))%nat ->
  TensorProductPRefinementTransferOperator_Mult MAX_Q1D uninit this x y
  = Abort (dim_message "Mult" (Dimension (GetMesh lFESpace_)))
  /\ TensorProductPRefinementTransferOperator_MultTranspose MAX_D1D uninit
       this x y
     = Abort (dim_message "MultTranspose" (Dimension (GetMesh lFESpace_))).
Proof.
  intros Hnew Hne Hdim.
  destruct (TensorProduct_new_Ok _ _ Hnew Hne)
    as (Hl & _ & Hd & _ & _ & _ & _ & erl & erh & _ & _ & Hel & Heh & _).
  unfold TensorProductPRefinementTransferOperator_Mult,
    TensorProductPRefinementTransferOperator_MultTranspose.
  rewrite Hl, Hel, Heh, Hd. apply Nat.eqb_neq in Hne. rewrite Hne. simpl.
  destruct (Nat.eqb_spec (Dimension (GetMesh lFESpace_)) 2); [lia|].
  destruct (Nat.eqb_spec (Dimension (GetMesh lFESpace_)) 3); [lia|].
  simpl. auto.
Qed.

End TensorProductDimension.

Lemma TensorProduct_unsupported_dimension_witness :
  exists this,
    TensorProductPRefinementTransferOperator_new zero_memory segment_maps
      segment_restriction (segment_space 4 2 segment_P1)
      (segment_space 4 2 segment_P2) = Ok this
    /\ TensorProductPRefinementTransferOperator_Mult 14 zero_memory this
         [1%Z; 2%Z; 3%Z] [0%Z; 0%Z; 0%Z; 0%Z; 0%Z]
       = Abort "TensorProductPRefinementTransferOperator::Mult not implemented for dim = 4".
Proof.
  eexists. split; [vm_compute; reflexivity|].
  apply (TensorProduct_unsupported_dimension 14 14 zero_memory segment_maps
           segment_restriction (segment_space 4 2 segment_P1)
           (segment_space 4 2 segment_P2)).
  - vm_compute; reflexivity.
  - vm_compute; discriminate.
  - vm_compute; lia.
Defined.

(* ------------------------------------------------------------------ *)
(** ** The continuous strategy: the settings of the PCG solver *)
(* ------------------------------------------------------------------ *)

Lemma fold_left_ext {A B : Type} (f g : A -> B -> A) (l : list B) (a : A) :
  (forall a b, f a b = g a b) -> fold_left f l a = fold_left g l a.
Proof.
  intros Hfg. revert a; induction l as [|b l IH]; intros a; simpl; auto.
  rewrite Hfg. apply IH.
Qed.

Section PCGSettings.
Context {R : Type} {SR : Scalar R}.
Variable ComputeSparseRAndM_LH :
  FiniteElementSpace R -> FiniteElementSpace R -> Operator R * Operator R.
Variable SparseMult : Operator R -> Operator R -> Operator R.
Variable RAP : Operator R -> Operator R -> Operator R -> Operator R.
Variable TransposeMult : Operator R -> Operator R -> Operator R.
Variable DSmoother : Operator R -> Operator R.
Variable ScalarConformingProlongation :
  FiniteElementSpace R -> option (Operator R).

Local Abbreviation new :=
  (L2ProjectionH1Space_new ComputeSparseRAndM_LH SparseMult RAP
     TransposeMult DSmoother ScalarConformingProlongation).

Lemma SetupPCG_settings (this : L2ProjectionH1Space R) :
  max_iter (h1_pcg (SetupPCG this)) = 1000%Z
  /\ rel_tol (h1_pcg (SetupPCG this)) = 1e-13%float
  /\ abs_tol (h1_pcg (SetupPCG this)) = 1e-13%float.
Proof. repeat split. Qed.

Lemma new_is_SetupPCG pcg0 fes_ho fes_lor :
  exists this, new pcg0 fes_ho fes_lor = SetupPCG this.
Proof.
  unfold L2ProjectionH1Space_new.
  destruct (ComputeSparseRAndM_LH fes_ho fes_lor) as [R_mat M_LH_mat].
  destruct (ScalarConformingProlongation fes_ho),
    (ScalarConformingProlongation fes_lor); eexists; reflexivity.
Qed.

(** No sequence of calls of the two setters changes the iteration cap. *)
Lemma calls_keep_max_iter (cs : list ToleranceCall)
  (this : L2ProjectionH1Space R) :
  max_iter (h1_pcg (calls cs this)) = max_iter (h1_pcg this).
Proof.
  unfold calls. revert this; induction cs as [|c cs IH]; intros this;
    simpl; auto.
  rewrite IH. destruct c; reflexivity.
Qed.

(** C8, as the code has it.  The constructor leaves the PCG solver with an
    iteration cap of 1000 and relative and absolute tolerances of 1e-13;
    [SetRelTol] and [SetAbsTol] replace the tolerance they name and nothing
    else, so the cap stays at 1000 under any sequence of their calls; and
    the vectors that [Prolongate] and [ProlongateTranspose] return are
    those of the solver's iterate, whatever its convergence flag says. *)
Theorem PCG_settings_and_silence (pcg0 : CGSolver R)
  (fes_ho fes_lor : FiniteElementSpace R) :
  max_iter (h1_pcg (new pcg0 fes_ho fes_lor)) = 1000%Z
  /\ rel_tol (h1_pcg (new pcg0 fes_ho fes_lor)) = 1e-13%float
  /\ abs_tol (h1_pcg (new pcg0 fes_ho fes_lor)) = 1e-13%float
  /\ (forall v,
        rel_tol (h1_pcg (L2ProjectionH1Space_SetRelTol v
                           (new pcg0 fes_ho fes_lor))) = v
        /\ abs_tol (h1_pcg (L2ProjectionH1Space_SetRelTol v
                              (new pcg0 fes_ho fes_lor))) = 1e-13%float)
  /\ (forall v,
        abs_tol (h1_pcg (L2ProjectionH1Space_SetAbsTol v
                           (new pcg0 fes_ho fes_lor))) = v
        /\ rel_tol (h1_pcg (L2ProjectionH1Space_SetAbsTol v
                              (new pcg0 fes_ho fes_lor))) = 1e-13%float)
  /\ (forall cs,
        max_iter (h1_pcg (calls cs (new pcg0 fes_ho fes_lor))) = 1000%Z)
  /\ (forall (solve1 solve2 :
                CGSolver R -> Vector R -> Vector R -> Vector R * bool)
             (this : L2ProjectionH1Space R) (x y : Vector R),
        (forall pcg b x0, fst (solve1 pcg b x0) = fst (solve2 pcg b x0)) ->
        L2ProjectionH1Space_Prolongate solve1 this x y
        = L2ProjectionH1Space_Prolongate solve2 this x y
        /\ L2ProjectionH1Space_ProlongateTranspose solve1 this x y
           = L2ProjectionH1Space_ProlongateTranspose solve2 this x y).
Proof.
  destruct (new_is_SetupPCG pcg0 fes_ho fes_lor) as [this0 ->].
  split; [reflexivity|]. split; [reflexivity|]. split; [reflexivity|].
  split; [intros v; split; reflexivity|].
  split; [intros v; split; reflexivity|].
  split.
  - intros cs. rewrite calls_keep_max_iter. reflexivity.
  - intros solve1 solve2 this x y Hsame. split.
    + unfold L2ProjectionH1Space_Prolongate. f_equal.
      apply fold_left_ext. intros Y d. now rewrite Hsame.
    + unfold L2ProjectionH1Space_ProlongateTranspose. f_equal.
      apply fold_left_ext. intros Y d. now rewrite Hsame.
Qed.

End PCGSettings.

(** C8 fails as stated where it makes the cap adjustable: no sequence of
    calls of [SetRelTol] and [SetAbsTol], the setters that the class
    defines, leaves the solver with a cap other than 1000. *)
Lemma max_iter_not_adjustable :
  ~ (exists (cs : list ToleranceCall) (fes_ho fes_lor : FiniteElementSpace Z),
       max_iter (h1_pcg (calls cs (segment_H1Space fes_ho fes_lor)))
       <> 1000%Z).
Proof.
  intros (cs & fes_ho & fes_lor & Hne). apply Hne.
  rewrite calls_keep_max_iter. reflexivity.
Qed.

(* ------------------------------------------------------------------ *)
(** ** TrueTransferOperator: the three cases *)
(* ------------------------------------------------------------------ *)

Section TrueTransfer.
Context {R : Type} {SR : Scalar R}.
Variable MAX_D1D : nat.
Variable MAX_Q1D : nat.
Variable uninit : nat -> R.
Variable GetTransferMatrix :
  FiniteElement R -> FiniteElement R -> DenseMatrix R.
Variable GetDofToQuad : FiniteElement R -> FiniteElement R -> DofToQuad R.
Variable GetElementRestriction :
  FiniteElementSpace R -> option ElementRestriction.
Variable same_FEColl : FiniteElementSpace R -> FiniteElementSpace R -> bool.
Variable GetTransferOperator :
  FiniteElementSpace R -> FiniteElementSpace R -> Operator R.

Local Abbreviation new :=
  (TrueTransferOperator_new uninit GetDofToQuad GetElementRestriction
     same_FEColl GetTransferOperator).
Local Abbreviation Mult :=
  (TrueTransferOperator_Mult MAX_Q1D uninit GetTransferMatrix).
Local Abbreviation MultTranspose :=
  (TrueTransferOperator_MultTranspose MAX_D1D uninit GetTransferMatrix).
Local Abbreviation local_Mult :=
  (TransferOperator_Mult MAX_Q1D uninit GetTransferMatrix).
Local Abbreviation local_MultTranspose :=
  (TransferOperator_MultTranspose MAX_D1D uninit GetTransferMatrix).

(** The constructor fails unless [R] is there whenever [P] is. *)
Lemma TrueTransferOperator_new_Ok
  (lFESpace_ hFESpace_ : FiniteElementSpace R)
  (this : TrueTransferOperator R) :
  new lFESpace_ hFESpace_ = Ok this ->
  tt_P this = GetProlongationMatrix lFESpace_
  /\ tt_R this = (if IsVariableOrder hFESpace_
                  then GetHpRestrictionMatrix hFESpace_
                  else GetRestrictionMatrix hFESpace_)
  /\ (tt_P this <> None -> tt_R this <> None).
Proof.
  unfold TrueTransferOperator_new. intros Hnew.
  destruct (TransferOperator_new _ _ _ _ _ _ _) as [local|msg];
    simpl in Hnew; [|discriminate].
  destruct (GetProlongationMatrix lFESpace_) as [P|];
    destruct (if IsVariableOrder hFESpace_
              then GetHpRestrictionMatrix hFESpace_
              else GetRestrictionMatrix hFESpace_) as [R_|];
    simpl in Hnew; try discriminate;
    injection Hnew as <-; simpl; repeat split; congruence.
Qed.


End TrueTransfer.


(* ------------------------------------------------------------------ *)
(** ** Sums over a commutative ring *)
(* ------------------------------------------------------------------ *)

Section Sums.
Context {R : Type} {SR : Scalar R}.
Add Ring scalar_ring_sums : (@scalar_ring R SR).

Lemma sum_list_app (l1 l2 : list R) :
  sum_list (l1 ++ l2) = (sum_list l1 + sum_list l2)%S.
Proof.
  induction l1 as [|a l1 IH]; simpl.
  - ring.
  - rewrite IH. ring.
Qed.

Lemma sum_list_map_ext {T : Type} (f g : T -> R) (l : list T) :
  (forall t, In t l -> f t = g t) ->
  sum_list (map f l) = sum_list (map g l).
Proof.
  induction l as [|t l IH]; intros Hfg; simpl; auto.
  rewrite (Hfg t) by (now left). rewrite IH; auto.
  intros u Hu. apply Hfg. now right.
Qed.

Lemma sum_list_map_zero {T : Type} (l : list T) :
  sum_list (map (fun _ => rO) l) = rO.
Proof.
  induction l as [|t l IH]; simpl; auto. rewrite IH. ring.
Qed.

Lemma sum_list_map_add {T : Type} (f g : T -> R) (l : list T) :
  sum_list (map (fun t => (f t + g t)%S) l)
  = (sum_list (map f l) + sum_list (map g l))%S.
Proof.
  induction l as [|t l IH]; simpl.
  - ring.
  - rewrite IH. ring.
Qed.

Lemma sum_list_map_mul_l {T : Type} (c : R) (f : T -> R) (l : list T) :
  sum_list (map (fun t => (c * f t)%S) l) = (c * sum_list (map f l))%S.
Proof.
  induction l as [|t l IH]; simpl.
  - ring.
  - rewrite IH. ring.
Qed.

Lemma sum_list_map_mul_r {T : Type} (c : R) (f : T -> R) (l : list T) :
  sum_list (map (fun t => (f t * c)%S) l) = (sum_list (map f l) * c)%S.
Proof.
  induction l as [|t l IH]; simpl.
  - ring.
  - rewrite IH. ring.
Qed.

(** The order of two summations can be exchanged. *)
Lemma sum_list_swap {T U : Type} (f : T -> U -> R) (l : list T) (m : list U) :
  sum_list (map (fun t => sum_list (map (fun u => f t u) m)) l)
  = sum_list (map (fun u => sum_list (map (fun t => f t u) l)) m).
Proof.
  induction l as [|t l IH]; simpl.
  - now rewrite sum_list_map_zero.
  - rewrite IH, <- sum_list_map_add. reflexivity.
Qed.

Lemma sum_list_flat_map {T U : Type} (f : U -> R) (g : T -> list U)
  (l : list T) :
  sum_list (map f (flat_map g l))
  = sum_list (map (fun t => sum_list (map f (g t))) l).
Proof.
  induction l as [|t l IH]; simpl; auto.
  now rewrite map_app, sum_list_app, IH.
Qed.

(** A sum all of whose terms vanish. *)
Lemma sum_list_map_all_zero {T : Type} (f : T -> R) (l : list T) :
  (forall t, In t l -> f t = rO) -> sum_list (map f l) = rO.
Proof.
  intros Hf. rewrite (sum_list_map_ext f (fun _ => rO)); auto.
  apply sum_list_map_zero.
Qed.

(** A sum over a list without repetition in which one term survives. *)
Lemma sum_list_map_single {T : Type} (f : T -> R) (l : list T) (t0 : T) :
  NoDup l -> In t0 l -> (forall t, In t l -> t <> t0 -> f t = rO) ->
  sum_list (map f l) = f t0.
Proof.
  induction l as [|t l IH]; intros Hnd Hin Hz; [contradiction|].
  inversion Hnd as [|? ? Hnotin Hnd']; subst. simpl.
  destruct Hin as [->|Hin].
  - rewrite sum_list_map_all_zero; [ring|].
    intros u Hu. apply Hz; [now right|]. intros ->. contradiction.
  - rewrite (Hz t); [|now left|intros ->; contradiction].
    rewrite IH; auto; [ring|]. intros u Hu. apply Hz. now right.
Qed.

Lemma sumn_ext (n : nat) (f g : nat -> R) :
  (forall i, (i < n)%nat -> f i = g i) -> sumn n f = sumn n g.
Proof.
  intros Hfg. apply sum_list_map_ext. intros i Hi.
  apply in_seq in Hi. apply Hfg; lia.
Qed.

Lemma sumn_single (n : nat) (f : nat -> R) (j : nat) :
  (j < n)%nat -> (forall i, (i < n)%nat -> i <> j -> f i = rO) ->
  sumn n f = f j.
Proof.
  intros Hj Hz. apply sum_list_map_single.
  - apply seq_NoDup.
  - apply in_seq; lia.
  - intros i Hi. apply in_seq in Hi. apply Hz; lia.
Qed.

Lemma sumn_all_zero (n : nat) (f : nat -> R) :
  (forall i, (i < n)%nat -> f i = rO) -> sumn n f = rO.
Proof.
  intros Hz. apply sum_list_map_all_zero. intros i Hi.
  apply in_seq in Hi. apply Hz; lia.
Qed.

Lemma sumn_S (n : nat) (f : nat -> R) :
  sumn (S n) f = (sumn n f + f n)%S.
Proof.
  unfold sumn. rewrite seq_S, map_app, sum_list_app. simpl. ring.
Qed.

(** ** Loops that accumulate into an array *)

Lemma length_add_at (i : nat) (v : R) (a : list R) :
  length (add_at i v a) = length a.
Proof. apply length_upd. Qed.

Lemma length_mul_at (i : nat) (v : R) (a : list R) :
  length (mul_at i v a) = length a.
Proof. apply length_upd. Qed.

Lemma nth_add_at (i k : nat) (v : R) (a : list R) :
  nth k (add_at i v a) rO
  = (nth k a rO
     + (if Nat.eqb i k && Nat.ltb k (length a) then v else rO))%S.
Proof.
  unfold add_at. rewrite nth_upd.
  destruct (Nat.eqb_spec i k) as [->|]; simpl; [|ring].
  destruct (Nat.ltb k (length a)); ring.
Qed.

(** A loop whose every step adds to the entries of an array amounts that
    do not depend on the array adds up these amounts. *)
Lemma nth_fold_additive {T : Type} (step : list R -> T -> list R)
  (g : T -> nat -> R) (n : nat) :
  (forall a t, length a = n ->
     length (step a t) = n
     /\ forall k, nth k (step a t) rO = (nth k a rO + g t k)%S) ->
  forall l a, length a = n ->
    length (fold_left step l a) = n
    /\ forall k, nth k (fold_left step l a) rO
                 = (nth k a rO + sum_list (map (fun t => g t k) l))%S.
Proof.
  intros Hstep. induction l as [|t l IH]; intros a Ha; simpl.
  - split; auto. intros k. ring.
  - destruct (Hstep a t Ha) as [Hlen Hnth].
    destruct (IH (step a t) Hlen) as [Hlen' Hnth'].
    split; auto. intros k. rewrite Hnth', Hnth. ring.
Qed.

End Sums.

(* ------------------------------------------------------------------ *)
(** ** The mixed mass matrix *)
(* ------------------------------------------------------------------ *)

(** The column-major position determines the row and the column. *)
Lemma column_major_inj (h i j i' j' : nat) :
  (i < h)%nat -> (i' < h)%nat -> (i + j * h = i' + j' * h)%nat ->
  i = i' /\ j = j'.
Proof.
  intros Hi Hi' Heq.
  assert (j = j') by nia. subst. lia.
Qed.

Section MixedMass.
Context {R : Type} {SR : Scalar R}.
Add Ring scalar_ring_mixed : (@scalar_ring R SR).
Variable IntRules_Get : Geometry -> nat -> list (IntegrationPoint R).

Lemma Elem_zero (h w i j : nat) : Elem (@DenseMatrix_zero R SR h w) i j = rO.
Proof. unfold Elem, DenseMatrix_zero. simpl. apply nth_filled. Qed.

(** [AddMultVWt] adds the outer product, entry by entry, and keeps the
    shape of the matrix. *)
Lemma AddMultVWt_spec (v w : Vector R) (M : DenseMatrix R) :
  length v = Height M -> length w = Width M ->
  length (Data M) = (Height M * Width M)%nat ->
  Height (AddMultVWt v w M) = Height M
  /\ Width (AddMultVWt v w M) = Width M
  /\ length (Data (AddMultVWt v w M)) = (Height M * Width M)%nat
  /\ forall i j, (i < Height M)%nat -> (j < Width M)%nat ->
       Elem (AddMultVWt v w M) i j
       = (Elem M i j + nth i v rO * nth j w rO)%S.
Proof.
  intros Hv Hw HM. unfold AddMultVWt, Elem; simpl.
  split; [reflexivity|]. split; [reflexivity|].
  set (n := (Height M * Width M)%nat) in *.
  assert (Hinner : forall (a : list R) (j : nat), length a = n ->
            length (fold_left
                      (fun d i =>
                         upd (i + j * Height M)
                             (nth (i + j * Height M) d rO
                              + nth i v rO * nth j w rO)%S d)
                      (seq 0 (length v)) a) = n
            /\ forall k,
                 nth k (fold_left
                          (fun d i =>
                             upd (i + j * Height M)
                                 (nth (i + j * Height M) d rO
                                  + nth i v rO * nth j w rO)%S d)
                          (seq 0 (length v)) a) rO
                 = (nth k a rO
                    + sum_list
                        (map (fun i =>
                                if Nat.eqb (i + j * Height M) k
                                   && Nat.ltb k n
                                then (nth i v rO * nth j w rO)%S else rO)
                             (seq 0 (length v))))%S).
  { intros a j Ha.
    apply (nth_fold_additive
             (fun d i =>
                add_at (i + j * Height M) (nth i v rO * nth j w rO)%S d)
             (fun i k =>
                if Nat.eqb (i + j * Height M) k && Nat.ltb k n
                then (nth i v rO * nth j w rO)%S else rO)); auto.
    intros b i Hb. split; [now rewrite length_add_at|].
    intros k. rewrite nth_add_at, Hb. reflexivity. }
  destruct (nth_fold_additive
              (fun d j =>
                 fold_left
                   (fun d i =>
                      upd (i + j * Height M)
                          (nth (i + j * Height M) d rO
                           + nth i v rO * nth j w rO)%S d)
                   (seq 0 (length v)) d)
              (fun j k =>
                 sum_list
                   (map (fun i =>
                           if Nat.eqb (i + j * Height M) k && Nat.ltb k n
                           then (nth i v rO * nth j w rO)%S else rO)
                        (seq 0 (length v))))
              (n := n) Hinner (seq 0 (length w)) (Data M) HM)
    as [Hlen Hnth].
  split; [exact Hlen|].
  intros i j Hi Hj. rewrite Hnth. f_equal.
  fold (sumn (length w)
          (fun j0 =>
             sum_list
               (map (fun i0 =>
                       if Nat.eqb (i0 + j0 * Height M) (i + j * Height M)
                          && Nat.ltb (i + j * Height M) n
                       then (nth i0 v rO * nth j0 w rO)%S else rO)
                    (seq 0 (length v))))).
  rewrite (@sumn_single _ _ _ _ j);
    [|lia|intros j0 Hj0 Hne; apply sumn_all_zero; intros i0 Hi0;
          destruct (Nat.eqb_spec (i0 + j0 * Height M) (i + j * Height M))
            as [E|]; simpl; auto;
          apply column_major_inj in E; lia].
  fold (sumn (length v)
          (fun i0 =>
             if Nat.eqb (i0 + j * Height M) (i + j * Height M)
                && Nat.ltb (i + j * Height M) n
             then (nth i0 v rO * nth j w rO)%S else rO)).
  rewrite (@sumn_single _ _ _ _ i);
    [|lia|intros i0 Hi0 Hne;
          destruct (Nat.eqb_spec (i0 + j * Height M) (i + j * Height M))
            as [E|]; simpl; auto; lia].
  rewrite Nat.eqb_refl. simpl.
  assert (Hlt : (i + j * Height M < n)%nat) by (unfold n; nia).
  apply Nat.ltb_lt in Hlt. now rewrite Hlt.
Qed.

Variable AssembleElementMatrix :
  FiniteElement R -> ElementTransformation R -> DenseMatrix R.
Variable Inverse : DenseMatrix R -> DenseMatrix R.
Variable EmbeddingTransformation :
  Geometry -> DenseMatrix R -> IntegrationPointTransformation R.

(** The quadrature loop of [ElemMixedMass], from any matrix of the right
    shape. *)
Lemma mixed_mass_loop (fe_ho fe_lor : FiniteElement R)
  (el_tr : ElementTransformation R) (ip_tr : IntegrationPointTransformation R)
  (ir : list (IntegrationPoint R)) (M : DenseMatrix R) :
  Height M = GetDof fe_lor -> Width M = GetDof fe_ho ->
  length (Data M) = (Height M * Width M)%nat ->
  (forall ip, length (CalcShape fe_lor ip) = GetDof fe_lor) ->
  (forall ip, length (CalcShape fe_ho ip) = GetDof fe_ho) ->
  forall i j, (i < GetDof fe_lor)%nat -> (j < GetDof fe_ho)%nat ->
    Elem (fold_left
            (fun M ip_lor =>
               AddMultVWt
                 (scale (Weight el_tr ip_lor * weight ip_lor)%S
                        (CalcShape fe_lor ip_lor))
                 (CalcShape fe_ho (Transform ip_tr ip_lor)) M)
            ir M) i j
    = (Elem M i j
       + sum_list
           (map (fun ip =>
                   nth i (CalcShape fe_lor ip) rO
                   * (Weight el_tr ip * weight ip)
                   * nth j (CalcShape fe_ho (Transform ip_tr ip)) rO)
                ir))%S.
Proof.
  intros HH HW HD Hlor Hho i j Hi Hj.
  revert M HH HW HD. induction ir as [|ip ir IH]; intros M HH HW HD; simpl.
  - ring.
  - destruct (AddMultVWt_spec
                (scale (Weight el_tr ip * weight ip)%S (CalcShape fe_lor ip))
                (CalcShape fe_ho (Transform ip_tr ip)) M)
      as (HH' & HW' & HD' & HE).
    + unfold scale. rewrite length_map, Hlor. auto.
    + rewrite Hho. auto.
    + exact HD.
    + rewrite IH by (rewrite ?HH', ?HW'; auto).
      rewrite HE by lia. unfold scale.
      rewrite (nth_indep _ rO (rO * (Weight el_tr ip * weight ip))%S)
        by (rewrite length_map, Hlor; lia).
      rewrite (map_nth (fun c => (c * (Weight el_tr ip * weight ip))%S)).
      ring.
Qed.

(** C5.  Entry [(i, j)] of the matrix that [ElemMixedMass] leaves is the
    sum, over the points of the rule of order [fe_lor order + fe_ho order
    + OrderW] for the geometry, of the fine shape function [i] at the point
    times the coarse shape function [j] at the embedded point, weighted by
    the weight of the transformation it was given times the weight of the
    point; and the constructor gives it the transformations of the fine
    space only: replacing those of the coarse space leaves [R] and [P]
    as they are. *)
Theorem ElemMixedMass_quadrature (geom : Geometry)
  (fe_ho fe_lor : FiniteElement R) (el_tr : ElementTransformation R)
  (ip_tr : IntegrationPointTransformation R) (M_mixed_el : DenseMatrix R)
  (i j : nat) :
  Height M_mixed_el = GetDof fe_lor -> Width M_mixed_el = GetDof fe_ho ->
  (forall ip, length (CalcShape fe_lor ip) = GetDof fe_lor) ->
  (forall ip, length (CalcShape fe_ho ip) = GetDof fe_ho) ->
  (i < GetDof fe_lor)%nat -> (j < GetDof fe_ho)%nat ->
  Elem (ElemMixedMass IntRules_Get geom fe_ho fe_lor el_tr ip_tr M_mixed_el)
       i j
  = sum_list
      (map (fun ip =>
              nth i (CalcShape fe_lor ip) rO
              * (Weight el_tr ip * weight ip)
              * nth j (CalcShape fe_ho (Transform ip_tr ip)) rO)%S
           (IntRules_Get geom
              (GetOrder fe_lor + GetOrder fe_ho + OrderW el_tr)%nat))
  /\ forall (fes_ho fes_lor : FiniteElementSpace R)
            (other : nat -> ElementTransformation R),
       l2_R (L2ProjectionL2Space_new IntRules_Get AssembleElementMatrix
               Inverse EmbeddingTransformation
               (with_transformations fes_ho other) fes_lor)
       = l2_R (L2ProjectionL2Space_new IntRules_Get AssembleElementMatrix
                 Inverse EmbeddingTransformation fes_ho fes_lor)
       /\ l2_P (L2ProjectionL2Space_new IntRules_Get AssembleElementMatrix
                  Inverse EmbeddingTransformation
                  (with_transformations fes_ho other) fes_lor)
          = l2_P (L2ProjectionL2Space_new IntRules_Get AssembleElementMatrix
                    Inverse EmbeddingTransformation fes_ho fes_lor).
Proof.
  intros HH HW Hlor Hho Hi Hj. split.
  - unfold ElemMixedMass.
    rewrite (mixed_mass_loop fe_ho fe_lor el_tr ip_tr); auto.
    + rewrite Elem_zero. ring.
    + simpl. apply length_filled.
  - intros fes_ho fes_lor other.
    unfold L2ProjectionL2Space_new. simpl.
    destruct (Nat.eqb (mesh_GetNE (GetMesh fes_ho)) 0); split; reflexivity.
Qed.

End MixedMass.

Lemma ElemMixedMass_quadrature_witness :
  Elem (ElemMixedMass two_points SEGMENT segment_P2 segment_P1
          unit_transformation
          (identity_embedding SEGMENT (DenseMatrix_zero 0 0))
          (DenseMatrix_zero 2 3)) 0 0 = 3%Z.
Proof.
  destruct (@ElemMixedMass_quadrature Z _ two_points unit_mass same_matrix
              identity_embedding SEGMENT segment_P2 segment_P1
              unit_transformation
              (identity_embedding SEGMENT (DenseMatrix_zero 0 0))
              (DenseMatrix_zero 2 3) 0 0) as [Hentry _].
  - reflexivity.
  - reflexivity.
  - intros ip; reflexivity.
  - intros ip; reflexivity.
  - simpl; lia.
  - simpl; lia.
  - rewrite Hentry. reflexivity.
Defined.

(* ------------------------------------------------------------------ *)
(** ** Elimination keeps the full operator *)
(* ------------------------------------------------------------------ *)

Section Elimination.
Context {R : Type} {SR : Scalar R}.
Add Ring scalar_ring_elim : (@scalar_ring R SR).

Lemma SparseMatrix_AddMult_spec (A : SparseMatrix R) (x y : Vector R) :
  length (SparseMatrix_AddMult A x y) = length y
  /\ forall k,
       nth k (SparseMatrix_AddMult A x y) rO
       = (nth k y rO
          + sum_list (map (fun e => entry_action x (length y) e k)
                          (sm_entries A)))%S.
Proof.
  unfold SparseMatrix_AddMult.
  apply (nth_fold_additive
           (fun y (e : nat * nat * R) =>
              let '(i, j, v) := e in add_at i (v * nth j x rO)%S y)
           (fun e k => entry_action x (length y) e k)); auto.
  intros a [[i j] v] Ha. split; [now rewrite length_add_at|].
  intros k. rewrite nth_add_at, Ha. reflexivity.
Qed.

(** Eliminating one row and column moves entries between the matrix and
    its companion without changing what the two add up to. *)
Lemma EliminateRowCol_keeps_sum (rc : nat) (dpolicy : DiagonalPolicy)
  (A Ae : SparseMatrix R) (x : Vector R) (n k : nat) :
  (sum_list (map (fun e => entry_action x n e k)
                 (sm_entries (fst (EliminateRowCol rc dpolicy (A, Ae)))))
   + sum_list (map (fun e => entry_action x n e k)
                   (sm_entries (snd (EliminateRowCol rc dpolicy (A, Ae))))))%S
  = (sum_list (map (fun e => entry_action x n e k) (sm_entries A))
     + sum_list (map (fun e => entry_action x n e k) (sm_entries Ae)))%S.
Proof.
  unfold EliminateRowCol; simpl.
  rewrite map_app, sum_list_app.
  induction (sm_entries A) as [|[[i j] v] es IH]; simpl.
  - ring.
  - rewrite map_app, sum_list_app.
    match goal with
    | |- (?a + ?s1 + (?se + (?b + ?s2)))%S = (?c + ?s3 + ?se)%S =>
        transitivity ((a + b) + (s1 + (se + s2)))%S; [ring|];
        rewrite IH;
        transitivity ((a + b) + (s3 + se))%S; [reflexivity|];
        assert (Hab : (a + b)%S = c); [|rewrite Hab; ring]
    end.
    unfold entry_action.
    destruct (Nat.eqb i rc && Nat.eqb j rc); [destruct dpolicy|];
      simpl; try destruct (Nat.eqb i rc || Nat.eqb j rc); simpl;
      destruct (Nat.eqb i k && Nat.ltb k n); ring.
Qed.

Lemma EliminateRowCol_fold_keeps_sum (dpolicy : DiagonalPolicy)
  (vdofs : list Z) (A Ae : SparseMatrix R) (x : Vector R) (n k : nat) :
  (sum_list
     (map (fun e => entry_action x n e k)
          (sm_entries
             (fst (fold_left
                     (fun A_Ae vdof =>
                        EliminateRowCol (dof_index vdof) dpolicy A_Ae)
                     vdofs (A, Ae)))))
   + sum_list
       (map (fun e => entry_action x n e k)
            (sm_entries
               (snd (fold_left
                       (fun A_Ae vdof =>
                          EliminateRowCol (dof_index vdof) dpolicy A_Ae)
                       vdofs (A, Ae))))))%S
  = (sum_list (map (fun e => entry_action x n e k) (sm_entries A))
     + sum_list (map (fun e => entry_action x n e k) (sm_entries Ae)))%S.
Proof.
  revert A Ae; induction vdofs as [|vdof vdofs IH]; intros A Ae;
    [reflexivity|].
  cbn [fold_left].
  destruct (EliminateRowCol (dof_index vdof) dpolicy (A, Ae)) as [A1 Ae1] eqn:E.
  rewrite IH.
  pose proof (EliminateRowCol_keeps_sum (dof_index vdof) dpolicy A Ae x n k)
    as H. rewrite E in H. exact H.
Qed.

(** The product with the matrix followed by the added product with the
    companion. *)
Lemma full_action (A Ae : SparseMatrix R) (x y : Vector R) :
  length (SparseMatrix_AddMult Ae x (SparseMatrix_Mult A x y)) = length y
  /\ forall k,
       nth k (SparseMatrix_AddMult Ae x (SparseMatrix_Mult A x y)) rO
       = (sum_list (map (fun e => entry_action x (length y) e k)
                        (sm_entries A))
          + sum_list (map (fun e => entry_action x (length y) e k)
                          (sm_entries Ae)))%S.
Proof.
  unfold SparseMatrix_Mult.
  destruct (SparseMatrix_AddMult_spec A x (map (fun _ => rO) y)) as [L1 N1].
  destruct (SparseMatrix_AddMult_spec Ae x
              (SparseMatrix_AddMult A x (map (fun _ => rO) y))) as [L2 N2].
  rewrite length_map in L1. split; [congruence|].
  intros k. rewrite N2, N1, L1, length_map.
  rewrite nth_map_const. ring.
Qed.

(** C1.  In matrix-split mode, for every diagonal policy, every list of
    degrees of freedom and every vector [x], [FullMult] after
    [EliminateVDofs] returns what [Mult] with the matrix before the
    elimination returns; and when the form already had a companion,
    [FullMult] returns after the elimination what it returned before. *)
Theorem FullMult_after_EliminateVDofs (this : BilinearForm R)
  (M : SparseMatrix R) (vdofs : list Z) (dpolicy : DiagonalPolicy)
  (x y : Vector R) :
  mat this = Some M ->
  exists this',
    EliminateVDofs vdofs dpolicy this = Ok this'
    /\ (mat_e this = None ->
        FullMult this' x y = Ok (SparseMatrix_Mult M x y))
    /\ (mat_e this <> None -> FullMult this' x y = FullMult this x y).
Proof.
  intros HM. unfold EliminateVDofs. rewrite HM. simpl.
  set (me := match mat_e this with
             | Some me => me
             | None => {| sm_height := bf_height this;
                          sm_width := bf_height this; sm_entries := [] |}
             end).
  destruct (fold_left _ vdofs (M, me)) as [m' me'] eqn:E.
  eexists. split; [reflexivity|].
  assert (Hfull : SparseMatrix_AddMult me' x (SparseMatrix_Mult m' x y)
                  = SparseMatrix_AddMult me x (SparseMatrix_Mult M x y)).
  { destruct (full_action m' me' x y) as [L1 N1].
    destruct (full_action M me x y) as [L2 N2].
    apply (list_eq_nth rO); [congruence|].
    intros k _. rewrite N1, N2.
    pose proof (EliminateRowCol_fold_keeps_sum dpolicy vdofs M me x
                  (length y) k) as H.
    rewrite E in H. exact H. }
  unfold FullMult; simpl. rewrite Hfull, HM. split.
  - intros Hnone. unfold me. rewrite Hnone. reflexivity.
  - intros Hsome. unfold me.
    destruct (mat_e this); [reflexivity|congruence].
Qed.

End Elimination.

Lemma FullMult_after_EliminateVDofs_witness :
  exists this',
    EliminateVDofs [0%Z; (-3)%Z] DIAG_ONE small_form = Ok this'
    /\ FullMult this' [1%Z; 2%Z; 3%Z] [0%Z; 0%Z; 0%Z]
       = Ok [2%Z; 4%Z; 10%Z].
Proof.
  destruct (@FullMult_after_EliminateVDofs Z _ small_form small_matrix
              [0%Z; (-3)%Z] DIAG_ONE [1%Z; 2%Z; 3%Z] [0%Z; 0%Z; 0%Z]
              eq_refl) as (this' & Helim & Hfresh & _).
  exists this'. split; [exact Helim|].
  rewrite Hfresh; reflexivity.
Defined.

(* ------------------------------------------------------------------ *)
(** ** Gathering and scattering through index lists *)
(* ------------------------------------------------------------------ *)

Lemma fold_left_seq_S {A : Type} (f : A -> nat -> A) (n : nat) (a : A) :
  fold_left f (seq 0 (S n)) a = f (fold_left f (seq 0 n) a) n.
Proof. now rewrite seq_S, fold_left_app. Qed.

Lemma nth_map_dof_index (dofs : list Z) (p : nat) :
  nth p (map dof_index dofs) 0%nat = dof_index (nth p dofs 0%Z).
Proof. apply (map_nth dof_index dofs 0%Z p). Qed.

(** In a list of indices without repetition, positions are determined by
    the index they hold. *)
Lemma NoDup_dof_index_inj (dofs : list Z) (p q : nat) :
  NoDup (map dof_index dofs) ->
  (p < length dofs)%nat -> (q < length dofs)%nat ->
  dof_index (nth p dofs 0%Z) = dof_index (nth q dofs 0%Z) -> p = q.
Proof.
  intros Hnd Hp Hq Heq.
  apply (proj1 (NoDup_nth (map dof_index dofs) 0%nat) Hnd);
    rewrite ?length_map; auto.
  now rewrite !nth_map_dof_index.
Qed.

Lemma In_dof_index (dofs : list Z) (k : nat) :
  In k (map dof_index dofs) <->
  exists p, (p < length dofs)%nat /\ dof_index (nth p dofs 0%Z) = k.
Proof.
  split.
  - intros Hin. apply (In_nth _ _ 0%nat) in Hin.
    destruct Hin as (p & Hp & Hnth). rewrite length_map in Hp.
    exists p. split; auto. now rewrite <- nth_map_dof_index.
  - intros (p & Hp & <-). rewrite <- nth_map_dof_index.
    apply nth_In. now rewrite length_map.
Qed.

Section Scatter.
Context {R : Type} {SR : Scalar R}.
Add Ring scalar_ring_scatter : (@scalar_ring R SR).

Lemma signed_sg (dof : Z) (v : R) : signed dof v = (sg dof * v)%S.
Proof. unfold signed, sg. destruct (0 <=? dof)%Z; ring. Qed.

Lemma length_GetSubVector (dofs : list Z) (x : Vector R) :
  length (GetSubVector dofs x) = length dofs.
Proof. unfold GetSubVector. apply length_map. Qed.

Lemma nth_GetSubVector (dofs : list Z) (x : Vector R) (p : nat) :
  (p < length dofs)%nat ->
  nth p (GetSubVector dofs x) rO
  = (sg (nth p dofs 0%Z) * nth (dof_index (nth p dofs 0%Z)) x rO)%S.
Proof.
  intros Hp. unfold GetSubVector.
  rewrite (nth_indep _ rO
             ((fun j => signed j (nth (dof_index j) x rO)) 0%Z))
    by (now rewrite length_map).
  rewrite (map_nth (fun j => signed j (nth (dof_index j) x rO))).
  apply signed_sg.
Qed.

(** A loop that stores [val i] at [idx i] for [i = 0 .. n-1]. *)
Lemma fold_store_spec (idx : nat -> nat) (val : nat -> R) (n : nat)
  (y : list R) :
  length (fold_left (fun y i => upd (idx i) (val i) y) (seq 0 n) y)
  = length y
  /\ (forall k, (forall p, (p < n)%nat -> idx p <> k) ->
        nth k (fold_left (fun y i => upd (idx i) (val i) y) (seq 0 n) y) rO
        = nth k y rO)
  /\ ((forall p q, (p < n)%nat -> (q < n)%nat -> idx p = idx q -> p = q) ->
      forall p, (p < n)%nat -> (idx p < length y)%nat ->
        nth (idx p)
            (fold_left (fun y i => upd (idx i) (val i) y) (seq 0 n) y) rO
        = val p).
Proof.
  induction n as [|n IH].
  - simpl. repeat split; auto. intros _ p Hp; lia.
  - rewrite fold_left_seq_S. destruct IH as (Hlen & Hmiss & Hhit).
    split; [|split].
    + now rewrite length_upd.
    + intros k Hk. rewrite nth_upd_neq by (apply Hk; lia).
      apply Hmiss. intros p Hp. apply Hk; lia.
    + intros Hinj p Hp Hin.
      destruct (Nat.eq_dec p n) as [->|Hne].
      * apply nth_upd_eq. now rewrite Hlen.
      * rewrite nth_upd_neq.
        -- apply Hhit;
             [intros p' q' Hp' Hq'; apply Hinj; lia|lia|exact Hin].
        -- intros Heq. apply Hne. symmetry. apply Hinj; auto; lia.
Qed.

Lemma length_SetSubVector (dofs : list Z) (ev y : Vector R) :
  length (SetSubVector dofs ev y) = length y.
Proof.
  unfold SetSubVector.
  apply (fold_store_spec (fun i => dof_index (nth i dofs 0%Z))
           (fun i => signed (nth i dofs 0%Z) (nth i ev rO))).
Qed.

Lemma nth_SetSubVector_miss (dofs : list Z) (ev y : Vector R) (k : nat) :
  ~ In k (map dof_index dofs) ->
  nth k (SetSubVector dofs ev y) rO = nth k y rO.
Proof.
  intros Hnot. unfold SetSubVector.
  apply (fold_store_spec (fun i => dof_index (nth i dofs 0%Z))
           (fun i => signed (nth i dofs 0%Z) (nth i ev rO))).
  intros p Hp Heq. apply Hnot. apply In_dof_index. eauto.
Qed.

Lemma nth_SetSubVector_hit (dofs : list Z) (ev y : Vector R) (p : nat) :
  NoDup (map dof_index dofs) -> (p < length dofs)%nat ->
  (dof_index (nth p dofs 0%Z) < length y)%nat ->
  nth (dof_index (nth p dofs 0%Z)) (SetSubVector dofs ev y) rO
  = (sg (nth p dofs 0%Z) * nth p ev rO)%S.
Proof.
  intros Hnd Hp Hin. unfold SetSubVector. rewrite <- signed_sg.
  apply (fold_store_spec (fun i => dof_index (nth i dofs 0%Z))
           (fun i => signed (nth i dofs 0%Z) (nth i ev rO))); auto.
  intros a b Ha Hb. now apply NoDup_dof_index_inj.
Qed.

Lemma AddElementVector_spec (dofs : list Z) (ev y : Vector R) :
  length (AddElementVector dofs ev y) = length y
  /\ forall k,
       nth k (AddElementVector dofs ev y) rO
       = (nth k y rO
          + sumn (length dofs)
              (fun p =>
                 if Nat.eqb (dof_index (nth p dofs 0%Z)) k
                    && Nat.ltb k (length y)
                 then (sg (nth p dofs 0%Z) * nth p ev rO)%S else rO))%S.
Proof.
  unfold AddElementVector, sumn.
  apply (nth_fold_additive
           (fun y i =>
              add_at (dof_index (nth i dofs 0%Z))
                     (signed (nth i dofs 0%Z) (nth i ev rO)) y)
           (fun p k =>
              if Nat.eqb (dof_index (nth p dofs 0%Z)) k
                 && Nat.ltb k (length y)
              then (sg (nth p dofs 0%Z) * nth p ev rO)%S else rO)); auto.
  intros a i Ha. split; [now rewrite length_add_at|].
  intros k. rewrite nth_add_at, Ha, signed_sg. reflexivity.
Qed.

End Scatter.

(* ------------------------------------------------------------------ *)
(** ** Vector indices and dense matrices *)
(* ------------------------------------------------------------------ *)

Lemma dof_index_of_nat (n : nat) : dof_index (Z.of_nat n) = n.
Proof.
  unfold dof_index, DecodeDof.
  destruct (Z.leb_spec 0 (Z.of_nat n)); lia.
Qed.

Lemma dof_index_negative (n : nat) : dof_index (-1 - Z.of_nat n) = n.
Proof.
  unfold dof_index, DecodeDof.
  destruct (Z.leb_spec 0 (-1 - Z.of_nat n)); lia.
Qed.

Section VDofs.
Context {R : Type} {SR : Scalar R}.
Add Ring scalar_ring_vdofs : (@scalar_ring R SR).

Lemma length_DofsToVDofs (fes : FiniteElementSpace R) (vd : nat)
  (dofs : list Z) :
  length (DofsToVDofs fes vd dofs) = length dofs.
Proof. unfold DofsToVDofs. apply length_map. Qed.

(** [DofsToVDofs] moves every index to its component and keeps its
    sign. *)
Lemma nth_DofsToVDofs (fes : FiniteElementSpace R) (vd : nat)
  (dofs : list Z) (p : nat) :
  (p < length dofs)%nat ->
  dof_index (nth p (DofsToVDofs fes vd dofs) 0%Z)
  = DofToVDof fes (dof_index (nth p dofs 0%Z)) vd
  /\ @sg R SR (nth p (DofsToVDofs fes vd dofs) 0%Z)
     = sg (nth p dofs 0%Z).
Proof.
  intros Hp. unfold DofsToVDofs.
  set (f := fun dof : Z =>
              if (0 <=? dof)%Z
              then Z.of_nat (DofToVDof fes (Z.to_nat dof) vd)
              else (-1 - Z.of_nat (DofToVDof fes (Z.to_nat (-1 - dof)) vd))%Z).
  rewrite (nth_indep _ 0%Z (f 0%Z)) by (now rewrite length_map).
  rewrite (map_nth f). unfold f. set (d := nth p dofs 0%Z).
  assert (Hidx : dof_index d
                 = if (0 <=? d)%Z then Z.to_nat d else Z.to_nat (-1 - d))
    by (unfold dof_index, DecodeDof; destruct (0 <=? d)%Z; reflexivity).
  rewrite Hidx. unfold sg.
  destruct (Z.leb_spec 0 d).
  - rewrite dof_index_of_nat. split; auto.
    destruct (Z.leb_spec 0 (Z.of_nat (DofToVDof fes (Z.to_nat d) vd)));
      auto; lia.
  - rewrite dof_index_negative. split; auto.
    destruct (Z.leb_spec 0
                (-1 - Z.of_nat (DofToVDof fes (Z.to_nat (-1 - d)) vd)));
      auto; lia.
Qed.

Lemma DofToVDof_inj (fes : FiniteElementSpace R) (dof dof' vd vd' : nat) :
  (dof < GetNDofs fes)%nat -> (dof' < GetNDofs fes)%nat ->
  (vd < GetVDim fes)%nat -> (vd' < GetVDim fes)%nat ->
  DofToVDof fes dof vd = DofToVDof fes dof' vd' -> dof = dof' /\ vd = vd'.
Proof.
  unfold DofToVDof. intros Hd Hd' Hv Hv' Heq.
  destruct (GetOrdering fes).
  - assert (vd = vd') by nia. subst. lia.
  - assert (dof = dof') by nia. subst. lia.
Qed.

Lemma DofToVDof_lt (fes : FiniteElementSpace R) (dof vd : nat) :
  (dof < GetNDofs fes)%nat -> (vd < GetVDim fes)%nat ->
  (DofToVDof fes dof vd < GetVSize fes)%nat.
Proof.
  unfold DofToVDof, GetVSize. intros Hd Hv.
  destruct (GetOrdering fes); nia.
Qed.

(** The entries of a matrix given by a function. *)
Lemma nth_blocks {A : Type} (g : nat -> nat -> A) (h w s i j : nat) (d : A) :
  (i < h)%nat -> (j < w)%nat ->
  nth (i + j * h) (flat_map (fun c => map (g c) (seq 0 h)) (seq s w)) d
  = g (s + j)%nat i.
Proof.
  intros Hi. revert s j. induction w as [|w IH]; intros s j Hj; [lia|].
  simpl. destruct j as [|j].
  - rewrite app_nth1 by (rewrite length_map, length_seq; lia).
    rewrite Nat.add_0_r. simpl. rewrite Nat.add_0_r.
    now apply nth_map_seq.
  - rewrite app_nth2 by (rewrite length_map, length_seq; simpl; lia).
    rewrite length_map, length_seq.
    replace (i + S j * h - h)%nat with (i + j * h)%nat by (simpl; lia).
    rewrite IH by lia. f_equal. lia.
Qed.

Lemma Elem_of (h w : nat) (f : nat -> nat -> R) (i j : nat) :
  (i < h)%nat -> (j < w)%nat -> Elem (DenseMatrix_of h w f) i j = f i j.
Proof.
  intros Hi Hj. unfold Elem, DenseMatrix_of. simpl.
  now rewrite (nth_blocks (fun c r => f r c)).
Qed.

Lemma length_DenseMatrix_Mult (A : DenseMatrix R) (v : Vector R) :
  length (DenseMatrix_Mult A v) = Height A.
Proof. unfold DenseMatrix_Mult. now rewrite length_map, length_seq. Qed.

Lemma nth_DenseMatrix_Mult (A : DenseMatrix R) (v : Vector R) (i : nat) :
  (i < Height A)%nat ->
  nth i (DenseMatrix_Mult A v) rO
  = sumn (Width A) (fun j => Elem A i j * nth j v rO)%S.
Proof.
  intros Hi. unfold DenseMatrix_Mult.
  now rewrite (nth_map_seq (fun i => sumn (Width A) _)).
Qed.

Lemma nth_Mult_Transpose (A : DenseMatrix R) (v : Vector R) (k : nat) :
  (k < Width A)%nat ->
  nth k (DenseMatrix_Mult (DenseMatrix_Transpose A) v) rO
  = sumn (Height A) (fun p => Elem A p k * nth p v rO)%S.
Proof.
  intros Hk. rewrite nth_DenseMatrix_Mult by (simpl; exact Hk).
  simpl. apply sumn_ext. intros p Hp.
  unfold DenseMatrix_Transpose. now rewrite Elem_of.
Qed.

Lemma nth_unit_vector (n j i : nat) :
  (j < n)%nat ->
  nth i (@unit_vector R SR n j) rO = if Nat.eqb i j then rI else rO.
Proof.
  intros Hj. unfold unit_vector.
  destruct (Nat.lt_ge_cases i n) as [Hi|Hi].
  - now rewrite (nth_map_seq (fun k => if Nat.eqb k j then rI else rO)).
  - rewrite nth_overflow by (now rewrite length_map, length_seq).
    destruct (Nat.eqb_spec i j); auto; lia.
Qed.

End VDofs.

(* ------------------------------------------------------------------ *)
(** ** The processed marker *)
(* ------------------------------------------------------------------ *)

Lemma length_mark_processed (h_dofs : list Z) (processed : list bool) :
  length (mark_processed h_dofs processed) = length processed.
Proof.
  unfold mark_processed. apply length_fold_left. intros; apply length_upd.
Qed.

(** After the marking loop an entry is set exactly when it was set before
    or is the index of a listed degree of freedom. *)
Lemma mark_processed_spec (h_dofs : list Z) (processed : list bool)
  (k : nat) :
  nth k (mark_processed h_dofs processed) false = true <->
  nth k processed false = true
  \/ ((k < length processed)%nat /\ In k (map dof_index h_dofs)).
Proof.
  unfold mark_processed. rewrite In_dof_index.
  induction (length h_dofs) as [|n IH].
  - simpl. split; [auto|]. intros [H|(_ & p & Hp & _)]; [auto|lia].
  - rewrite fold_left_seq_S, nth_upd, length_fold_left
      by (intros; apply length_upd).
    destruct (Nat.eqb_spec (dof_index (nth n h_dofs 0%Z)) k) as [E|E];
      simpl.
    + destruct (Nat.ltb_spec k (length processed)) as [Hlt|Hge].
      * split; auto. intros _. right. split; auto. exists n. split; auto.
      * rewrite IH. split.
        -- intros [H|(Hlt & _)]; [auto|lia].
        -- intros [H|(Hlt & _)]; [auto|lia].
    + rewrite IH. split.
      * intros [H|(Hlt & p & Hp & Hidx)]; auto.
        right. split; auto. exists p. split; auto.
      * intros [H|(Hlt & p & Hp & Hidx)]; auto.
        right. split; auto. exists p. split; auto.
        destruct (Nat.eq_dec p n) as [->|]; [contradiction|lia].
Qed.

Section ZeroProcessed.
Context {R : Type} {SR : Scalar R}.

Lemma length_zero_processed (h_dofs : list Z) (processed : list bool)
  (subX : Vector R) :
  length (zero_processed h_dofs processed subX) = length subX.
Proof.
  unfold zero_processed. apply length_fold_left.
  intros a p. destruct (nth _ processed false); auto. apply length_upd.
Qed.

(** The zeroing loop clears the entries of the marked degrees of freedom
    and leaves the others. *)
Lemma nth_zero_processed (h_dofs : list Z) (processed : list bool)
  (subX : Vector R) (p : nat) :
  (p < length h_dofs)%nat ->
  nth p (zero_processed h_dofs processed subX) rO
  = if nth (dof_index (nth p h_dofs 0%Z)) processed false
    then rO else nth p subX rO.
Proof.
  unfold zero_processed.
  assert (Hlen : forall n,
             length (fold_left
                       (fun subX q =>
                          if nth (dof_index (nth q h_dofs 0%Z)) processed false
                          then upd q rO subX else subX)
                       (seq 0 n) subX) = length subX).
  { intros n. apply length_fold_left. intros a q.
    destruct (nth (dof_index (nth q h_dofs 0%Z)) processed false); auto.
    apply length_upd. }
  assert (H : forall n,
             nth p (fold_left
                      (fun subX q =>
                         if nth (dof_index (nth q h_dofs 0%Z)) processed false
                         then upd q rO subX else subX)
                      (seq 0 n) subX) rO
             = if Nat.ltb p n
                  && nth (dof_index (nth p h_dofs 0%Z)) processed false
               then rO else nth p subX rO).
  { induction n as [|n IH]; [reflexivity|].
    rewrite fold_left_seq_S.
    destruct (Nat.eq_dec n p) as [->|Hne].
    - replace (Nat.ltb p (S p)) with true
        by (symmetry; apply Nat.ltb_lt; lia).
      replace (Nat.ltb p p) with false in IH
        by (symmetry; apply Nat.ltb_ge; lia).
      simpl in *.
      destruct (nth (dof_index (nth p h_dofs 0%Z)) processed false); auto.
      rewrite nth_upd, Hlen, Nat.eqb_refl. simpl.
      destruct (Nat.ltb_spec p (length subX)); auto.
      rewrite IH. now apply nth_overflow.
    - replace (Nat.ltb p (S n)) with (Nat.ltb p n)
        by (destruct (Nat.ltb_spec p n), (Nat.ltb_spec p (S n)); auto; lia).
      rewrite <- IH.
      destruct (nth (dof_index (nth n h_dofs 0%Z)) processed false); auto.
      now apply nth_upd_neq. }
  intros Hp. rewrite H.
  apply Nat.ltb_lt in Hp. now rewrite Hp.
Qed.

End ZeroProcessed.

(* ------------------------------------------------------------------ *)
(** ** Sums over the entries that a scatter changes *)
(* ------------------------------------------------------------------ *)

Section SumUpdate.
Context {R : Type} {SR : Scalar R}.
Add Ring scalar_ring_update : (@scalar_ring R SR).

Lemma sumn_add (n : nat) (f g : nat -> R) :
  sumn n (fun i => (f i + g i)%S) = (sumn n f + sumn n g)%S.
Proof. apply sum_list_map_add. Qed.

Lemma sumn_mul_l (n : nat) (c : R) (f : nat -> R) :
  sumn n (fun i => (c * f i)%S) = (c * sumn n f)%S.
Proof. apply sum_list_map_mul_l. Qed.

Lemma sumn_mul_r (n : nat) (c : R) (f : nat -> R) :
  sumn n (fun i => (f i * c)%S) = (sumn n f * c)%S.
Proof. apply sum_list_map_mul_r. Qed.

Lemma sumn_swap (n m : nat) (f : nat -> nat -> R) :
  sumn n (fun i => sumn m (fun j => f i j))
  = sumn m (fun j => sumn n (fun i => f i j)).
Proof. apply sum_list_swap. Qed.

(** The sum of a function changed at one place. *)
Lemma sumn_update_one (n i : nat) (f f' : nat -> R) :
  (i < n)%nat -> (forall d, (d < n)%nat -> d <> i -> f' d = f d) ->
  sumn n f' = (sumn n f + (f' i - f i))%S.
Proof.
  intros Hi Hsame.
  rewrite (@sumn_ext _ _ n f' (fun d => (f d + (f' d - f d))%S))
    by (intros; ring).
  rewrite sumn_add. f_equal.
  rewrite (@sumn_single _ _ n _ i); auto.
  intros d Hd Hne. rewrite Hsame by auto. ring.
Qed.

(** The sum of a function changed at the places [idx 0 .. idx (m-1)],
    which are distinct. *)
Lemma sumn_update_image (n m : nat) (idx : nat -> nat) (f f' : nat -> R) :
  (forall p q, (p < m)%nat -> (q < m)%nat -> idx p = idx q -> p = q) ->
  (forall p, (p < m)%nat -> (idx p < n)%nat) ->
  (forall d, (d < n)%nat -> (forall p, (p < m)%nat -> idx p <> d) ->
             f' d = f d) ->
  sumn n f' = (sumn n f + sumn m (fun p => (f' (idx p) - f (idx p))%S))%S.
Proof.
  revert f'. induction m as [|m IH]; intros f' Hinj Hrange Hsame.
  - rewrite (@sumn_ext _ _ n f' f).
    + unfold sumn at 3. simpl. ring.
    + intros d Hd. apply Hsame; auto. intros p Hp; lia.
  - set (f'' := fun d => if Nat.eqb d (idx m) then f d else f' d).
    assert (H1 : sumn n f''
                 = (sumn n f
                    + sumn m (fun p => (f'' (idx p) - f (idx p))%S))%S).
    { apply IH.
      - intros p q Hp Hq. apply Hinj; lia.
      - intros p Hp. apply Hrange; lia.
      - intros d Hd Hmiss. unfold f''.
        destruct (Nat.eqb_spec d (idx m)) as [E|E]; auto.
        apply Hsame; auto. intros p Hp.
        destruct (Nat.eq_dec p m) as [->|]; [congruence|].
        apply Hmiss; lia. }
    assert (H2 : sumn n f'
                 = (sumn n f'' + (f' (idx m) - f'' (idx m)))%S).
    { apply sumn_update_one; [apply Hrange; lia|].
      intros d Hd Hne. unfold f''.
      destruct (Nat.eqb_spec d (idx m)); [contradiction|reflexivity]. }
    rewrite H2, H1, sumn_S.
    rewrite (@sumn_ext _ _ m (fun p => (f'' (idx p) - f (idx p))%S)
               (fun p => (f' (idx p) - f (idx p))%S)).
    + unfold f'' at 1. rewrite Nat.eqb_refl. ring.
    + intros p Hp. unfold f''.
      destruct (Nat.eqb_spec (idx p) (idx m)) as [E|E]; auto.
      apply Hinj in E; lia.
Qed.

End SumUpdate.

(* ------------------------------------------------------------------ *)
(** ** The p-refinement transfer and its transpose *)
(* ------------------------------------------------------------------ *)

Section PRefLoops.
Context {R : Type} {SR : Scalar R}.
Add Ring scalar_ring_pref : (@scalar_ring R SR).
Variable GetTransferMatrix :
  FiniteElement R -> FiniteElement R -> DenseMatrix R.
Variable this : PRefinementTransferOperator R.
Hypothesis WF : PRef_well_formed GetTransferMatrix this.

Local Abbreviation lF := (pr_lFESpace this).
Local Abbreviation hF := (pr_hFESpace this).
Local Abbreviation NE := (mesh_GetNE (GetMesh (pr_hFESpace this))).
Local Abbreviation vdim := (GetVDim (pr_lFESpace this)).
Local Abbreviation h_dofs e := (fst (GetElementDofs (pr_hFESpace this) e)).
Local Abbreviation l_dofs e := (fst (GetElementDofs (pr_lFESpace this) e)).
Local Abbreviation hidx e vd p := (dof_index (nth p (h_vdofs this e vd) 0%Z)).
Local Abbreviation lidx e vd k := (dof_index (nth k (l_vdofs this e vd) 0%Z)).
Local Abbreviation Blk := (loc_prol_at GetTransferMatrix this).

Lemma length_h_vdofs (e vd : nat) : length (h_vdofs this e vd) = length (h_dofs e).
Proof. apply length_DofsToVDofs. Qed.

Lemma length_l_vdofs (e vd : nat) : length (l_vdofs this e vd) = length (l_dofs e).
Proof. apply length_DofsToVDofs. Qed.

Lemma hidx_eq (e vd p : nat) :
  (p < length (h_dofs e))%nat ->
  hidx e vd p = DofToVDof hF (dof_index (nth p (h_dofs e) 0%Z)) vd.
Proof. intros Hp. now apply nth_DofsToVDofs. Qed.

Lemma lidx_eq (e vd k : nat) :
  (k < length (l_dofs e))%nat ->
  lidx e vd k = DofToVDof lF (dof_index (nth k (l_dofs e) 0%Z)) vd.
Proof. intros Hk. now apply nth_DofsToVDofs. Qed.

Lemma hidx_lt (e vd p : nat) :
  (e < NE)%nat -> (vd < vdim)%nat -> (p < length (h_dofs e))%nat ->
  (hidx e vd p < GetVSize hF)%nat.
Proof.
  intros He Hvd Hp. rewrite hidx_eq by auto.
  apply DofToVDof_lt; [now apply (wf_h_range WF)|].
  rewrite (wf_vdim WF). exact Hvd.
Qed.

Lemma lidx_lt (e vd k : nat) :
  (e < NE)%nat -> (vd < vdim)%nat -> (k < length (l_dofs e))%nat ->
  (lidx e vd k < GetVSize lF)%nat.
Proof.
  intros He Hvd Hk. rewrite lidx_eq by auto.
  apply DofToVDof_lt; [now apply (wf_l_range WF)|exact Hvd].
Qed.

(** Two positions of the fine index lists name the same entry only when
    they are the same component of the same degree of freedom. *)
Lemma hidx_inj (e e' vd vd' p p' : nat) :
  (e < NE)%nat -> (e' < NE)%nat -> (vd < vdim)%nat -> (vd' < vdim)%nat ->
  (p < length (h_dofs e))%nat -> (p' < length (h_dofs e'))%nat ->
  hidx e vd p = hidx e' vd' p' ->
  vd = vd'
  /\ dof_index (nth p (h_dofs e) 0%Z) = dof_index (nth p' (h_dofs e') 0%Z).
Proof.
  intros He He' Hvd Hvd' Hp Hp' Heq.
  rewrite !hidx_eq in Heq by auto.
  apply DofToVDof_inj in Heq; try (rewrite (wf_vdim WF); assumption);
    try (now apply (wf_h_range WF)).
  tauto.
Qed.

Lemma hidx_inj_pos (e vd p q : nat) :
  (e < NE)%nat -> (vd < vdim)%nat ->
  (p < length (h_dofs e))%nat -> (q < length (h_dofs e))%nat ->
  hidx e vd p = hidx e vd q -> p = q.
Proof.
  intros He Hvd Hp Hq Heq.
  apply hidx_inj in Heq; auto. destruct Heq as [_ Heq].
  apply (NoDup_dof_index_inj (h_dofs e)); auto.
  now apply (wf_nodup WF).
Qed.

(** *** The loops without the cache *)

Lemma load_transposed (i : nat) (cache : Geometry * DenseMatrix R) :
  load_loc_prol GetTransferMatrix this (@DenseMatrix_Transpose R SR) i
    (fst cache, DenseMatrix_Transpose (snd cache))
  = (fst (load_loc_prol GetTransferMatrix this (fun m => m) i cache),
     DenseMatrix_Transpose
       (snd (load_loc_prol GetTransferMatrix this (fun m => m) i cache))).
Proof.
  unfold load_loc_prol. simpl.
  destruct (negb _ || _); reflexivity.
Qed.

Lemma Mult_prefix (x y : Vector R) (n : nat) :
  (n <= NE)%nat ->
  fold_left (PRef_Mult_element GetTransferMatrix this x) (seq 0 n)
            ((INVALID, DenseMatrix_zero 0 0), y)
  = (fold_left
       (fun cache e => load_loc_prol GetTransferMatrix this (fun m => m) e cache)
       (seq 0 n) (INVALID, DenseMatrix_zero 0 0),
     Mult_state GetTransferMatrix this x n y).
Proof.
  induction n as [|n IH]; intros Hn; [reflexivity|].
  unfold Mult_state in *. rewrite !fold_left_seq_S, IH by lia.
  unfold PRef_Mult_element.
  destruct (wf_doftrans WF (e := n)) as [Hh Hl]; [lia|].
  destruct (GetElementDofs (pr_hFESpace this) n) as [hd dh] eqn:Eh.
  destruct (GetElementDofs (pr_lFESpace this) n) as [ld dl] eqn:El.
  simpl in Hh, Hl. subst dh dl. f_equal.
  apply fold_left_ext. intros a vd.
  unfold Mult_step, h_vdofs, l_vdofs, loc_prol_at.
  rewrite Eh, El, fold_left_seq_S. reflexivity.
Qed.

Lemma MultTranspose_prefix (x y : Vector R) (n : nat) :
  (n <= NE)%nat ->
  fold_left (PRef_MultTranspose_element GetTransferMatrix this x) (seq 0 n)
            ((INVALID, DenseMatrix_zero 0 0), y,
             filled (GetVSize (pr_hFESpace this)) false)
  = ((fst (fold_left
             (fun cache e =>
                load_loc_prol GetTransferMatrix this (fun m => m) e cache)
             (seq 0 n) (INVALID, DenseMatrix_zero 0 0)),
      DenseMatrix_Transpose
        (snd (fold_left
                (fun cache e =>
                   load_loc_prol GetTransferMatrix this (fun m => m) e cache)
                (seq 0 n) (INVALID, DenseMatrix_zero 0 0)))),
     MultTranspose_state GetTransferMatrix this x n y,
     processed_at this n).
Proof.
  induction n as [|n IH]; intros Hn; [reflexivity|].
  unfold MultTranspose_state, processed_at in *.
  rewrite !fold_left_seq_S, IH by lia.
  unfold PRef_MultTranspose_element.
  destruct (wf_doftrans WF (e := n)) as [Hh Hl]; [lia|].
  destruct (GetElementDofs (pr_hFESpace this) n) as [hd dh] eqn:Eh.
  destruct (GetElementDofs (pr_lFESpace this) n) as [ld dl] eqn:El.
  simpl in Hh, Hl. subst dh dl.
  rewrite load_transposed. simpl fst. simpl snd. f_equal. f_equal.
  apply fold_left_ext. intros a vd.
  unfold MultTranspose_step, h_vdofs, l_vdofs, loc_prol_at, processed_at.
  rewrite Eh, El, fold_left_seq_S. reflexivity.
Qed.

(** *** The value an element computes *)

Lemma local_value_sum (x : Vector R) (e vd p : nat) :
  (e < NE)%nat -> (vd < vdim)%nat -> (p < length (h_dofs e))%nat ->
  local_value GetTransferMatrix this x e vd p
  = sumn (GetVSize lF)
      (fun j => (scattered_row GetTransferMatrix this e vd p j
                 * nth j x rO)%S).
Proof.
  intros He Hvd Hp. unfold local_value, scattered_row.
  destruct (wf_shape WF He) as [HH HW].
  rewrite nth_DenseMatrix_Mult by (rewrite HH; exact Hp).
  rewrite HW, length_l_vdofs. symmetry.
  rewrite (@sumn_ext _ _ (GetVSize lF) _
             (fun j =>
                (sg (nth p (h_vdofs this e vd) 0%Z)
                 * sumn (length (l_dofs e))
                     (fun k =>
                        Elem (Blk e) p k
                        * (sg (nth k (l_vdofs this e vd) 0%Z)
                           * (if Nat.eqb (lidx e vd k) j then rI else rO))
                        * nth j x rO))%S))
    by (intros j Hj; rewrite sumn_mul_r; ring).
  rewrite sumn_mul_l. f_equal. rewrite sumn_swap.
  apply sumn_ext. intros k Hk.
  rewrite (@sumn_single _ _ _ _ (lidx e vd k)).
  - rewrite Nat.eqb_refl, nth_GetSubVector by (now rewrite length_l_vdofs).
    ring.
  - now apply lidx_lt.
  - intros j Hj Hne.
    destruct (Nat.eqb_spec (lidx e vd k) j); [congruence|ring].
Qed.

Lemma local_value_unit (e vd p j : nat) :
  (e < NE)%nat -> (vd < vdim)%nat -> (p < length (h_dofs e))%nat ->
  (j < GetVSize lF)%nat ->
  local_value GetTransferMatrix this (unit_vector (GetVSize lF) j) e vd p
  = scattered_row GetTransferMatrix this e vd p j.
Proof.
  intros He Hvd Hp Hj. rewrite local_value_sum by auto.
  rewrite (@sumn_single _ _ _ _ j); auto.
  - rewrite nth_unit_vector, Nat.eqb_refl by auto. ring.
  - intros i Hi Hne. rewrite nth_unit_vector by auto.
    destruct (Nat.eqb_spec i j); [contradiction|ring].
Qed.

Hypothesis Hcons : consistent GetTransferMatrix this.

Lemma local_value_consistent (x : Vector R) (e e' vd vd' p p' : nat) :
  (e < NE)%nat -> (e' < NE)%nat -> (vd < vdim)%nat -> (vd' < vdim)%nat ->
  (p < length (h_dofs e))%nat -> (p' < length (h_dofs e'))%nat ->
  hidx e vd p = hidx e' vd' p' ->
  local_value GetTransferMatrix this x e vd p
  = local_value GetTransferMatrix this x e' vd' p'.
Proof.
  intros He He' Hvd Hvd' Hp Hp' Heq.
  rewrite !local_value_sum by auto.
  apply sumn_ext. intros j Hj. f_equal.
  apply Hcons; auto; now rewrite length_h_vdofs.
Qed.

(** *** The vector of [Mult], step by step *)

Lemma Mult_part_S (x y : Vector R) (n m : nat) :
  Mult_part GetTransferMatrix this x n (S m) y
  = Mult_step GetTransferMatrix this x n
      (Mult_part GetTransferMatrix this x n m y) m.
Proof. unfold Mult_part. apply fold_left_seq_S. Qed.

Lemma Mult_part_next (x y : Vector R) (n : nat) :
  Mult_part GetTransferMatrix this x (S n) 0 y
  = Mult_part GetTransferMatrix this x n vdim y.
Proof.
  unfold Mult_part, Mult_state. rewrite fold_left_seq_S. reflexivity.
Qed.

Lemma earlier_lt (e vd n m : nat) :
  earlier this e vd n m -> (n < NE)%nat -> (m <= vdim)%nat ->
  (e < NE)%nat /\ (vd < vdim)%nat.
Proof. unfold earlier. intros [[H1 H2]|[H1 H2]] Hn Hm; lia. Qed.

Lemma NoDup_h_vdofs (e vd : nat) :
  (e < NE)%nat -> (vd < vdim)%nat ->
  NoDup (map dof_index (h_vdofs this e vd)).
Proof.
  intros He Hvd. apply (NoDup_nth _ 0%nat).
  intros p q Hp Hq. rewrite length_map, length_h_vdofs in Hp, Hq.
  rewrite !nth_map_dof_index. now apply hidx_inj_pos.
Qed.

Lemma Mult_invariant_step (x y0 : Vector R) (n m : nat) :
  length y0 = GetVSize hF -> (n < NE)%nat -> (m < vdim)%nat ->
  Mult_invariant GetTransferMatrix this x y0 n m ->
  Mult_invariant GetTransferMatrix this x y0 n (S m).
Proof.
  intros Hy Hn Hm (Hlen & Hhit & Hmiss).
  unfold Mult_invariant. rewrite Mult_part_S. unfold Mult_step at 1 2 3.
  split; [|split].
  - now rewrite length_SetSubVector.
  - intros e vd p Hearly Hp.
    destruct (earlier_lt Hearly Hn) as [He Hvd]; [lia|].
    destruct (in_dec Nat.eq_dec (hidx e vd p)
                (map dof_index (h_vdofs this n m))) as [Hin|Hnotin].
    + apply In_dof_index in Hin. destruct Hin as (q & Hq & Hsame).
      rewrite length_h_vdofs in Hq.
      rewrite <- Hsame, nth_SetSubVector_hit.
      * apply (local_value_consistent x (e := n) (e' := e)); auto.
      * now apply NoDup_h_vdofs.
      * now rewrite length_h_vdofs.
      * rewrite Hlen, Hy. now apply hidx_lt.
    + rewrite nth_SetSubVector_miss by exact Hnotin.
      apply Hhit; auto.
      destruct Hearly as [[H1 H2]|[H1 H2]]; [left; auto|].
      right. split; auto.
      destruct (Nat.eq_dec vd m) as [->|]; [|lia].
      exfalso. apply Hnotin. apply In_dof_index. subst e.
      exists p. split; auto. now rewrite length_h_vdofs.
  - intros d Hd.
    rewrite nth_SetSubVector_miss.
    + apply Hmiss. intros e vd p Hearly Hp. apply Hd; auto.
      destruct Hearly as [[H1 H2]|[H1 H2]]; [left; auto|right; lia].
    + intros Hin. apply In_dof_index in Hin.
      destruct Hin as (q & Hq & Hsame). rewrite length_h_vdofs in Hq.
      apply (Hd n m q); auto. right. lia.
Qed.

Lemma Mult_invariant_part (x y0 : Vector R) (n m : nat) :
  length y0 = GetVSize hF -> (n < NE)%nat -> (m <= vdim)%nat ->
  Mult_invariant GetTransferMatrix this x y0 n 0 ->
  Mult_invariant GetTransferMatrix this x y0 n m.
Proof.
  intros Hy Hn Hm H0. induction m as [|m IH]; auto.
  apply Mult_invariant_step; auto. apply IH. lia.
Qed.

Lemma Mult_invariant_next (x y0 : Vector R) (n : nat) :
  Mult_invariant GetTransferMatrix this x y0 n vdim ->
  Mult_invariant GetTransferMatrix this x y0 (S n) 0.
Proof.
  intros (Hlen & Hhit & Hmiss).
  unfold Mult_invariant. rewrite Mult_part_next.
  split; [exact Hlen|]. split.
  - intros e vd p Hearly. apply Hhit.
    destruct Hearly as [[H1 H2]|[H1 H2]]; [|lia].
    destruct (Nat.eq_dec e n); [right|left]; lia.
  - intros d Hd. apply Hmiss. intros e vd p Hearly. apply Hd.
    destruct Hearly as [[H1 H2]|[H1 H2]]; left; lia.
Qed.

Lemma Mult_invariant_all (x y0 : Vector R) (n : nat) :
  length y0 = GetVSize hF -> (n <= NE)%nat ->
  Mult_invariant GetTransferMatrix this x y0 n 0.
Proof.
  intros Hy. induction n as [|n IH]; intros Hn.
  - unfold Mult_invariant, Mult_part, Mult_state. simpl.
    split; [reflexivity|]. split; [|reflexivity].
    intros e vd p [[H1 H2]|[H1 H2]]; lia.
  - apply Mult_invariant_next. apply Mult_invariant_part; auto.
    apply IH. lia.
Qed.

(** *** The marker after the first [n] elements *)

Lemma length_processed_at (n : nat) :
  length (processed_at this n) = GetVSize hF.
Proof.
  unfold processed_at.
  rewrite length_fold_left by (intros; apply length_mark_processed).
  apply length_filled.
Qed.

Lemma processed_at_spec (n i : nat) :
  (n <= NE)%nat ->
  (nth i (processed_at this n) false = true <->
   exists e p, (e < n)%nat /\ (p < length (h_dofs e))%nat
               /\ dof_index (nth p (h_dofs e) 0%Z) = i).
Proof.
  induction n as [|n IH]; intros Hn.
  - unfold processed_at. simpl. rewrite nth_filled.
    split; [discriminate|]. intros (e & p & He & _); lia.
  - assert (Hstep : processed_at this (S n)
                    = mark_processed (h_dofs n) (processed_at this n))
      by (unfold processed_at; rewrite fold_left_seq_S; reflexivity).
    rewrite Hstep, mark_processed_spec, IH, length_processed_at,
      In_dof_index by lia.
    split.
    + intros [(e & p & He & Hp & Hi)|(Hlt & p & Hp & Hi)].
      * exists e, p. repeat split; auto.
      * exists n, p. repeat split; auto.
    + intros (e & p & He & Hp & Hi).
      destruct (Nat.eq_dec e n) as [->|Hne].
      * right. split; [|exists p; auto].
        pose proof (wf_h_range WF (e := n) (p := p)) as Hr.
        pose proof (wf_vdim_pos WF) as Hpos.
        pose proof (wf_vdim WF) as Hvd.
        unfold GetVSize. rewrite <- Hi.
        assert (dof_index (nth p (h_dofs n) 0%Z) < GetNDofs hF)%nat
          by (apply Hr; auto; lia).
        nia.
      * left. exists e, p. repeat split; auto. lia.
Qed.

(** *** The vector of [MultTranspose], step by step *)

Lemma MultTranspose_part_S (x y : Vector R) (n m : nat) :
  MultTranspose_part GetTransferMatrix this x n (S m) y
  = MultTranspose_step GetTransferMatrix this x n
      (MultTranspose_part GetTransferMatrix this x n m y) m.
Proof. unfold MultTranspose_part. apply fold_left_seq_S. Qed.

Lemma MultTranspose_part_next (x y : Vector R) (n : nat) :
  MultTranspose_part GetTransferMatrix this x (S n) 0 y
  = MultTranspose_part GetTransferMatrix this x n vdim y.
Proof.
  unfold MultTranspose_part, MultTranspose_state.
  rewrite fold_left_seq_S. reflexivity.
Qed.

Lemma length_MultTranspose_step (x y : Vector R) (n m : nat) :
  length (MultTranspose_step GetTransferMatrix this x n y m) = length y.
Proof. unfold MultTranspose_step. apply AddElementVector_spec. Qed.

Lemma length_MultTranspose_part (x y : Vector R) (n m : nat) :
  length (MultTranspose_part GetTransferMatrix this x n m y) = length y.
Proof.
  unfold MultTranspose_part, MultTranspose_state.
  rewrite length_fold_left by (intros; apply length_MultTranspose_step).
  apply length_fold_left. intros a e.
  apply length_fold_left. intros; apply length_MultTranspose_step.
Qed.

(** One component of one element adds to the coarse entry [j], for every
    fine position that is not yet marked, the input there times the
    coefficient of [j] in the row of that position. *)
Lemma MultTranspose_step_spec (x y : Vector R) (n m j : nat) :
  (n < NE)%nat -> (m < vdim)%nat -> (j < length y)%nat ->
  nth j (MultTranspose_step GetTransferMatrix this x n y m) rO
  = (nth j y rO
     + sumn (length (h_dofs n))
         (fun p =>
            if nth (dof_index (nth p (h_dofs n) 0%Z))
                   (processed_at this n) false
            then rO
            else (nth (hidx n m p) x rO
                  * scattered_row GetTransferMatrix this n m p j)%S))%S.
Proof.
  intros Hn Hm Hj. unfold MultTranspose_step.
  destruct (AddElementVector_spec (l_vdofs this n m)
              (DenseMatrix_Mult (DenseMatrix_Transpose (Blk n))
                 (zero_processed (h_dofs n) (processed_at this n)
                    (GetSubVector (h_vdofs this n m) x))) y) as [_ Hnth].
  rewrite Hnth. f_equal. clear Hnth.
  destruct (wf_shape WF Hn) as [HH HW].
  rewrite length_l_vdofs.
  apply Nat.ltb_lt in Hj. rewrite Hj.
  rewrite (@sumn_ext _ _ (length (l_dofs n)) _
             (fun k =>
                sumn (length (h_dofs n))
                  (fun p =>
                     (if nth (dof_index (nth p (h_dofs n) 0%Z))
                             (processed_at this n) false
                      then rO
                      else nth (hidx n m p) x rO
                           * (sg (nth p (h_vdofs this n m) 0%Z)
                              * (Elem (Blk n) p k
                                 * (sg (nth k (l_vdofs this n m) 0%Z)
                                    * (if Nat.eqb (lidx n m k) j
                                       then rI else rO)))))%S))).
  - rewrite sumn_swap. apply sumn_ext. intros p Hp.
    destruct (nth (dof_index (nth p (h_dofs n) 0%Z))
                  (processed_at this n) false).
    + apply sumn_all_zero. reflexivity.
    + unfold scattered_row. rewrite length_l_vdofs.
      rewrite <- sumn_mul_l. rewrite <- sumn_mul_l. reflexivity.
  - intros k Hk.
    rewrite nth_Mult_Transpose by (rewrite HW; exact Hk).
    rewrite HH, andb_true_r.
    destruct (Nat.eqb (lidx n m k) j).
    + rewrite <- sumn_mul_l. apply sumn_ext. intros p Hp.
      rewrite nth_zero_processed by exact Hp.
      destruct (nth (dof_index (nth p (h_dofs n) 0%Z))
                    (processed_at this n) false); [ring|].
      rewrite nth_GetSubVector by (now rewrite length_h_vdofs). ring.
    + symmetry. apply sumn_all_zero. intros p Hp.
      destruct (nth (dof_index (nth p (h_dofs n) 0%Z))
                    (processed_at this n) false); ring.
Qed.

(** *** The transpose, entry by entry *)

(** After the same number of steps, entry [j] of the vector of
    [MultTranspose] is the product of the input with the vector that
    [Mult] has by then made of the [j]-th unit vector. *)
Lemma adjoint_step (x yL : Vector R) (j n m : nat) :
  length yL = GetVSize lF -> (j < GetVSize lF)%nat ->
  (n < NE)%nat -> (m < vdim)%nat ->
  nth j (MultTranspose_part GetTransferMatrix this x n m
           (map (fun _ => rO) yL)) rO
  = sumn (GetVSize hF)
      (fun d =>
         (nth d x rO
          * nth d (Mult_part GetTransferMatrix this
                     (unit_vector (GetVSize lF) j) n m
                     (filled (GetVSize hF) rO)) rO)%S) ->
  nth j (MultTranspose_part GetTransferMatrix this x n (S m)
           (map (fun _ => rO) yL)) rO
  = sumn (GetVSize hF)
      (fun d =>
         (nth d x rO
          * nth d (Mult_part GetTransferMatrix this
                     (unit_vector (GetVSize lF) j) n (S m)
                     (filled (GetVSize hF) rO)) rO)%S).
Proof.
  intros HyL Hj Hn Hm IH.
  assert (Hz : length (filled (GetVSize hF) (@rO R SR)) = GetVSize hF)
    by apply length_filled.
  assert (Inv : Mult_invariant GetTransferMatrix this
                  (unit_vector (GetVSize lF) j)
                  (filled (GetVSize hF) rO) n m).
  { apply Mult_invariant_part; auto; try lia.
    apply Mult_invariant_all; auto; lia. }
  pose proof (Mult_invariant_step Hz Hn Hm Inv) as Inv'.
  destruct Inv as (_ & Hhit & Hmiss). destruct Inv' as (_ & Hhit' & _).
  rewrite MultTranspose_part_S, MultTranspose_step_spec, IH;
    auto; [|now rewrite length_MultTranspose_part, length_map, HyL].
  rewrite (@sumn_update_image _ _ (GetVSize hF) (length (h_dofs n))
             (fun p => hidx n m p)
             (fun d =>
                (nth d x rO
                 * nth d (Mult_part GetTransferMatrix this
                            (unit_vector (GetVSize lF) j) n m
                            (filled (GetVSize hF) rO)) rO)%S)
             (fun d =>
                (nth d x rO
                 * nth d (Mult_part GetTransferMatrix this
                            (unit_vector (GetVSize lF) j) n (S m)
                            (filled (GetVSize hF) rO)) rO)%S)).
  - f_equal. apply sumn_ext. intros p Hp.
    rewrite (Hhit' n m p) by (auto; right; lia).
    rewrite local_value_unit by auto.
    destruct (nth (dof_index (nth p (h_dofs n) 0%Z))
                  (processed_at this n) false) eqn:Eproc.
    + apply processed_at_spec in Eproc; [|lia].
      destruct Eproc as (e' & p' & He' & Hp' & Hsame).
      assert (Hidx : hidx e' m p' = hidx n m p)
        by (rewrite !hidx_eq by auto; now rewrite Hsame).
      assert (HG : nth (hidx n m p)
                       (Mult_part GetTransferMatrix this
                          (unit_vector (GetVSize lF) j) n m
                          (filled (GetVSize hF) rO)) rO
                   = scattered_row GetTransferMatrix this n m p j).
      { rewrite <- Hidx.
        rewrite (Hhit e' m p') by (auto; left; lia).
        rewrite local_value_unit by (auto; lia).
        apply Hcons; auto; try lia; now rewrite length_h_vdofs. }
      rewrite HG. ring.
    + rewrite Hmiss.
      * rewrite nth_filled. ring.
      * intros e vd q Hearly Hq Heq.
        destruct (earlier_lt Hearly Hn) as [He Hvd]; [lia|].
        apply hidx_inj in Heq; auto. destruct Heq as [-> Hdof].
        destruct Hearly as [[H1 H2]|[H1 H2]]; [|lia].
        assert (Ht : nth (dof_index (nth p (h_dofs n) 0%Z))
                         (processed_at this n) false = true).
        { apply processed_at_spec; [lia|]. exists e, q. auto. }
        congruence.
  - intros p q Hp Hq. now apply hidx_inj_pos.
  - intros p Hp. now apply hidx_lt.
  - intros d Hd Hnot. f_equal.
    rewrite Mult_part_S. unfold Mult_step at 1.
    apply nth_SetSubVector_miss. intros Hin.
    apply In_dof_index in Hin. destruct Hin as (q & Hq & Hsame).
    rewrite length_h_vdofs in Hq. apply (Hnot q); auto.
Qed.

Lemma adjoint_part (x yL : Vector R) (j n m : nat) :
  length yL = GetVSize lF -> (j < GetVSize lF)%nat ->
  (n < NE)%nat -> (m <= vdim)%nat ->
  nth j (MultTranspose_part GetTransferMatrix this x n 0
           (map (fun _ => rO) yL)) rO
  = sumn (GetVSize hF)
      (fun d =>
         (nth d x rO
          * nth d (Mult_part GetTransferMatrix this
                     (unit_vector (GetVSize lF) j) n 0
                     (filled (GetVSize hF) rO)) rO)%S) ->
  nth j (MultTranspose_part GetTransferMatrix this x n m
           (map (fun _ => rO) yL)) rO
  = sumn (GetVSize hF)
      (fun d =>
         (nth d x rO
          * nth d (Mult_part GetTransferMatrix this
                     (unit_vector (GetVSize lF) j) n m
                     (filled (GetVSize hF) rO)) rO)%S).
Proof.
  intros HyL Hj Hn Hm H0. induction m as [|m IH]; auto.
  apply adjoint_step; auto. apply IH. lia.
Qed.

Lemma adjoint_all (x yL : Vector R) (j n : nat) :
  length yL = GetVSize lF -> (j < GetVSize lF)%nat -> (n <= NE)%nat ->
  nth j (MultTranspose_part GetTransferMatrix this x n 0
           (map (fun _ => rO) yL)) rO
  = sumn (GetVSize hF)
      (fun d =>
         (nth d x rO
          * nth d (Mult_part GetTransferMatrix this
                     (unit_vector (GetVSize lF) j) n 0
                     (filled (GetVSize hF) rO)) rO)%S).
Proof.
  intros HyL Hj. induction n as [|n IH]; intros Hn.
  - unfold MultTranspose_part, MultTranspose_state, Mult_part, Mult_state.
    simpl. rewrite nth_map_const. symmetry.
    apply sumn_all_zero. intros d Hd. rewrite nth_filled. ring.
  - rewrite MultTranspose_part_next, Mult_part_next.
    apply adjoint_part; auto. apply IH. lia.
Qed.

Lemma Mult_is_Mult_state (x y : Vector R) :
  PRefinementTransferOperator_Mult GetTransferMatrix this x y
  = Mult_part GetTransferMatrix this x NE 0 y.
Proof.
  unfold PRefinementTransferOperator_Mult. now rewrite Mult_prefix.
Qed.

(** C3.  When the element tables fit the operator and elements that share
    a fine degree of freedom agree on its row, [MultTranspose] returns the
    product of the input with the transpose of the dense global transfer
    matrix, the matrix whose columns are the vectors that [Mult] makes of
    the unit vectors of the coarse space: the marker lets every shared
    degree of freedom contribute from the first element that lists it and
    from no other. *)
Theorem MultTranspose_is_transpose_of_Mult (x y : Vector R) :
  length y = GetVSize (pr_lFESpace this) ->
  PRefinementTransferOperator_MultTranspose GetTransferMatrix this x y
  = DenseMatrix_MultTranspose (GlobalTransferMatrix GetTransferMatrix this) x.
Proof.
  intros Hy. unfold PRefinementTransferOperator_MultTranspose.
  rewrite MultTranspose_prefix by lia. simpl.
  change (MultTranspose_state GetTransferMatrix this x NE
            (map (fun _ => rO) y))
    with (MultTranspose_part GetTransferMatrix this x NE 0
            (map (fun _ => rO) y)).
  apply (list_eq_nth rO).
  - rewrite length_MultTranspose_part, length_map.
    unfold DenseMatrix_MultTranspose.
    now rewrite length_map, length_seq.
  - intros j Hj.
    rewrite length_MultTranspose_part, length_map, Hy in Hj.
    rewrite adjoint_all by auto.
    unfold DenseMatrix_MultTranspose.
    rewrite (nth_map_seq
               (fun j0 =>
                  sumn (Height (GlobalTransferMatrix GetTransferMatrix this))
                       (fun i =>
                          (Elem (GlobalTransferMatrix GetTransferMatrix this)
                                i j0 * nth i x rO)%S)))
      by exact Hj.
    simpl. apply sumn_ext. intros d Hd.
    unfold GlobalTransferMatrix. rewrite Elem_of by auto.
    rewrite Mult_is_Mult_state. ring.
Qed.

End PRefLoops.

(** Case analysis on a number below a numeral. *)
Ltac below :=
  repeat match goal with
         | H : (_ < 0)%nat |- _ => exfalso; inversion H
         | H : (?n < S _)%nat |- _ =>
             destruct n; [clear H|apply (proj2 (Nat.succ_lt_mono _ _)) in H]
         end.

Lemma segment_prefinement_well_formed :
  PRef_well_formed segment_transfer segment_prefinement.
Proof.
  constructor.
  - reflexivity.
  - simpl; lia.
  - intros e He. split; reflexivity.
  - intros e p He Hp. simpl in He. below; simpl in Hp; below;
      vm_compute; lia.
  - intros e k He Hk. simpl in He. below; simpl in Hk; below;
      vm_compute; lia.
  - intros e He. simpl in He. below; vm_compute;
      repeat constructor; simpl; intuition lia.
  - intros e He. simpl in He. below; vm_compute; auto.
Qed.

Lemma segment_prefinement_consistent :
  consistent segment_transfer segment_prefinement.
Proof.
  intros e e' vd vd' p p' j He He' Hvd Hvd' Hp Hp' Hj Hsame.
  simpl in He, He', Hvd, Hvd'. below; simpl in Hp, Hp'; below;
    vm_compute in Hsame; try discriminate;
    vm_compute in Hj; below; reflexivity.
Qed.

Lemma MultTranspose_is_transpose_of_Mult_witness :
  PRefinementTransferOperator_MultTranspose segment_transfer
    segment_prefinement [1%Z; 2%Z; 3%Z; 4%Z; 5%Z] [0%Z; 0%Z; 0%Z]
  = [6%Z; 13%Z; 11%Z].
Proof.
  rewrite (@MultTranspose_is_transpose_of_Mult Z _ segment_transfer
             segment_prefinement segment_prefinement_well_formed
             segment_prefinement_consistent
             [1%Z; 2%Z; 3%Z; 4%Z; 5%Z] [0%Z; 0%Z; 0%Z] eq_refl).
  reflexivity.
Defined.

(* ------------------------------------------------------------------ *)
(** ** The prolongation kernels *)
(* ------------------------------------------------------------------ *)

Section Kernels.
Context {R : Type} {SR : Scalar R}.
Add Ring scalar_ring_kernels : (@scalar_ring R SR).
Variable MAX_Q1D : nat.
Variable uninit : nat -> R.

Lemma Prolongation2D_loops (NE D1D Q1D : nat) (localL localH : Vector R)
  (B : list R) (mask : Vector R) :
  Prolongation2D MAX_Q1D uninit NE D1D Q1D localL localH B mask
  = fold_left
      (fun a e =>
         element2D_mask Q1D mask e
           (element2D_add MAX_Q1D uninit D1D Q1D localL B e a))
      (seq 0 NE) (map (fun _ => rO) localH).
Proof. reflexivity. Qed.

Lemma Prolongation3D_loops (NE D1D Q1D : nat) (localL localH : Vector R)
  (B : list R) (mask : Vector R) :
  Prolongation3D MAX_Q1D uninit NE D1D Q1D localL localH B mask
  = fold_left
      (fun a e =>
         element3D_mask Q1D mask e
           (element3D_add MAX_Q1D uninit D1D Q1D localL B e a))
      (seq 0 NE) (map (fun _ => rO) localH).
Proof. reflexivity. Qed.

Lemma length_scratch (n : nat) : length (scratch uninit n) = n.
Proof. unfold scratch. now rewrite length_map, length_seq. Qed.

Lemma nth_mul_at (j k : nat) (v : R) (a : list R) :
  nth k (mul_at j v a) rO
  = if Nat.eqb j k then (nth k a rO * v)%S else nth k a rO.
Proof.
  unfold mul_at. destruct (Nat.eqb_spec j k) as [->|Hjk].
  - destruct (Nat.lt_ge_cases k (length a)) as [Hk|Hk].
    + now rewrite nth_upd_eq.
    + rewrite upd_overflow by lia. rewrite (nth_overflow a) by lia. ring.
  - now rewrite nth_upd_neq.
Qed.

Lemma existsb_seq_S (f : nat -> bool) (n : nat) :
  existsb f (seq 0 (S n)) = existsb f (seq 0 n) || f n.
Proof.
  rewrite seq_S, existsb_app. simpl. now rewrite orb_false_r.
Qed.

Lemma existsb_seq_true (f : nat -> bool) (n : nat) :
  existsb f (seq 0 n) = true <-> exists t, (t < n)%nat /\ f t = true.
Proof.
  rewrite existsb_exists. split.
  - intros [t [Hin Hf]]. apply in_seq in Hin. exists t. split; [lia|easy].
  - intros [t [Ht Hf]]. exists t. split; [apply in_seq; lia|easy].
Qed.

Lemma existsb_seq_false (f : nat -> bool) (n : nat) :
  (forall t, (t < n)%nat -> f t = false) -> existsb f (seq 0 n) = false.
Proof.
  intros H. destruct (existsb f (seq 0 n)) eqn:E; [|reflexivity].
  apply existsb_seq_true in E. destruct E as [t [Ht Hf]].
  rewrite H in Hf by easy. discriminate.
Qed.

(** A loop whose steps multiply disjoint sets of entries multiplies the
    union of the sets. *)
Lemma fold_mul_hit (step : list R -> nat -> list R)
  (hit : nat -> nat -> bool) (val : nat -> R) (n : nat) :
  (forall a t k,
     nth k (step a t) rO
     = if hit t k then (nth k a rO * val k)%S else nth k a rO) ->
  (forall t t' k, (t < n)%nat -> (t' < n)%nat ->
     hit t k = true -> hit t' k = true -> t = t') ->
  forall a k,
    nth k (fold_left step (seq 0 n) a) rO
    = if existsb (fun t => hit t k) (seq 0 n)
      then (nth k a rO * val k)%S else nth k a rO.
Proof.
  intros Hstep Hdisj a k.
  assert (H : forall m, (m <= n)%nat ->
            nth k (fold_left step (seq 0 m) a) rO
            = if existsb (fun t => hit t k) (seq 0 m)
              then (nth k a rO * val k)%S else nth k a rO).
  { induction m as [|m IH]; intros Hm; [reflexivity|].
    rewrite fold_left_seq_S, Hstep, existsb_seq_S, IH by lia.
    destruct (existsb (fun t => hit t k) (seq 0 m)) eqn:E.
    - simpl. destruct (hit m k) eqn:Hh; [|reflexivity].
      apply existsb_seq_true in E. destruct E as [t [Ht Hf]].
      assert (t = m) by (apply (Hdisj t m k); [lia|lia|easy|easy]). lia.
    - simpl. reflexivity. }
  apply H. lia.
Qed.

Lemma length_fold_mul (step : list R -> nat -> list R) (l : list nat) :
  (forall a t, length (step a t) = length a) ->
  forall a, length (fold_left step l a) = length a.
Proof. intros H a. now apply length_fold_left. Qed.

(** A loop of [a[idx i] += val i]. *)
Lemma fold_add_at_spec (idx : nat -> nat) (val : nat -> R) (n : nat)
  (a : list R) :
  length (fold_left (fun a i => add_at (idx i) (val i) a) (seq 0 n) a)
  = length a
  /\ forall k,
       nth k (fold_left (fun a i => add_at (idx i) (val i) a) (seq 0 n) a) rO
       = (nth k a rO
          + sumn n (fun i =>
                      if Nat.eqb (idx i) k && Nat.ltb k (length a)
                      then val i else rO))%S.
Proof.
  destruct (nth_fold_additive
              (fun a i => add_at (idx i) (val i) a)
              (fun i k => if Nat.eqb (idx i) k && Nat.ltb k (length a)
                          then val i else rO)
              (n := length a)) with (l := seq 0 n) (a := a) as [Hl Hn].
  - intros b t Hb. split; [now rewrite length_add_at|].
    intros k. rewrite nth_add_at, Hb. reflexivity.
  - reflexivity.
  - split; [exact Hl|exact Hn].
Qed.

Lemma line_values_spec (D1D Q1D : nat) (B : list R) (X : nat -> R)
  (qx : nat) :
  (Q1D <= MAX_Q1D)%nat -> (qx < Q1D)%nat ->
  nth qx (line_values MAX_Q1D uninit D1D Q1D B X) rO
  = sumn D1D (fun dx => (B_at Q1D B qx dx * X dx)%S).
Proof.
  intros HQ Hqx. unfold line_values.
  set (Z0 := fold_left (fun sol_x q => upd q rO sol_x) (seq 0 Q1D)
                       (scratch uninit MAX_Q1D)).
  assert (HZ : length Z0 = MAX_Q1D /\ nth qx Z0 rO = rO).
  { destruct (fold_store_spec (fun q => q) (fun _ => rO) Q1D
                (scratch uninit MAX_Q1D)) as [Hl [_ Hhit]].
    fold Z0 in Hl, Hhit. rewrite length_scratch in Hl, Hhit.
    split; [exact Hl|]. apply (Hhit (fun p q _ _ H => H) qx Hqx). lia. }
  destruct HZ as [HZl HZ0].
  destruct (nth_fold_additive
              (fun sol_x dx =>
                 fold_left
                   (fun sol_x qx =>
                      add_at qx (B_at Q1D B qx dx * X dx)%S sol_x)
                   (seq 0 Q1D) sol_x)
              (fun dx k => if Nat.ltb k Q1D
                           then (B_at Q1D B k dx * X dx)%S else rO)
              (n := MAX_Q1D)) with (l := seq 0 D1D) (a := Z0) as [_ Hn].
  - intros a dx Ha.
    destruct (fold_add_at_spec (fun q => q)
                (fun q => (B_at Q1D B q dx * X dx)%S) Q1D a) as [Hl Hk].
    split; [now rewrite Hl|]. intros k. rewrite Hk. f_equal.
    destruct (Nat.ltb_spec k Q1D) as [Hlt|Hge].
    + rewrite (@sumn_single _ _ Q1D _ k); [| exact Hlt |].
      * rewrite Nat.eqb_refl. simpl.
        destruct (Nat.ltb_spec k (length a)); [reflexivity|lia].
      * intros i _ Hik. destruct (Nat.eqb_spec i k); [lia|reflexivity].
    + apply sumn_all_zero. intros i Hi.
      destruct (Nat.eqb_spec i k); [lia|reflexivity].
  - exact HZl.
  - rewrite Hn, HZ0.
    destruct (Nat.ltb_spec qx Q1D); [|lia].
    change (sum_list (map (fun t => (B_at Q1D B qx t * X t)%S) (seq 0 D1D)))
      with (sumn D1D (fun dx => (B_at Q1D B qx dx * X dx)%S)).
    ring.
Qed.

Lemma additive_add_at (n i : nat) (v : R) :
  additive n (add_at i v)
           (fun k => if Nat.eqb i k && Nat.ltb k n then v else rO).
Proof.
  intros a Ha. split; [now rewrite length_add_at|].
  intros k. now rewrite nth_add_at, Ha.
Qed.

Lemma additive_fold (n : nat) (step : list R -> nat -> list R)
  (g : nat -> nat -> R) (m : nat) :
  (forall t, additive n (fun a => step a t) (g t)) ->
  additive n (fun a => fold_left step (seq 0 m) a)
           (fun k => sumn m (fun t => g t k)).
Proof.
  intros H a Ha.
  apply (nth_fold_additive step g (n := n)); [|exact Ha].
  intros b t Hb. apply (H t b Hb).
Qed.

Lemma scaling_mul_at (i : nat) (val : nat -> R) :
  scaling (mul_at i (val i)) (fun k => Nat.eqb i k) val.
Proof.
  intros a. split; [now rewrite length_mul_at|].
  intros k. rewrite nth_mul_at.
  destruct (Nat.eqb_spec i k) as [->|]; reflexivity.
Qed.

Lemma scaling_fold (step : list R -> nat -> list R)
  (hit : nat -> nat -> bool) (val : nat -> R) (m : nat) :
  (forall t, scaling (fun a => step a t) (hit t) val) ->
  (forall t t' k, (t < m)%nat -> (t' < m)%nat ->
     hit t k = true -> hit t' k = true -> t = t') ->
  scaling (fun a => fold_left step (seq 0 m) a)
          (fun k => existsb (fun t => hit t k) (seq 0 m)) val.
Proof.
  intros H Hdisj a. split.
  - apply length_fold_left. intros b t. apply (H t b).
  - intros k. apply fold_mul_hit; [|exact Hdisj].
    intros b t k'. apply (H t b).
Qed.

(** The loop over the elements of a kernel: every element adds to its own
    entries of the zeroed array and then multiplies them by the mask. *)
Lemma kernel_loop (n NE : nat) (addf maskf : nat -> list R -> list R)
  (g : nat -> nat -> R) (hit : nat -> nat -> bool) (val : nat -> R) :
  (forall e, additive n (addf e) (g e)) ->
  (forall e, scaling (maskf e) (hit e) val) ->
  (forall e k, hit e k = false -> g e k = rO) ->
  (forall e e' k, (e < NE)%nat -> (e' < NE)%nat ->
     hit e k = true -> hit e' k = true -> e = e') ->
  forall a0, length a0 = n -> (forall k, nth k a0 rO = rO) ->
  length (fold_left (fun a e => maskf e (addf e a)) (seq 0 NE) a0) = n
  /\ (forall k e, (e < NE)%nat -> hit e k = true ->
        nth k (fold_left (fun a e => maskf e (addf e a)) (seq 0 NE) a0) rO
        = (g e k * val k)%S)
  /\ (forall k, (forall e, (e < NE)%nat -> hit e k = false) ->
        nth k (fold_left (fun a e => maskf e (addf e a)) (seq 0 NE) a0) rO
        = rO).
Proof.
  intros Hadd Hmask Hsupp Hdisj a0 Ha0 Hzero.
  assert (H : forall m, (m <= NE)%nat ->
            length (fold_left (fun a e => maskf e (addf e a)) (seq 0 m) a0)
            = n
            /\ (forall k e, (e < m)%nat -> hit e k = true ->
                  nth k (fold_left (fun a e => maskf e (addf e a))
                                   (seq 0 m) a0) rO
                  = (g e k * val k)%S)
            /\ (forall k, (forall e, (e < m)%nat -> hit e k = false) ->
                  nth k (fold_left (fun a e => maskf e (addf e a))
                                   (seq 0 m) a0) rO
                  = rO)).
  { induction m as [|m IH]; intros Hm.
    - simpl. split; [exact Ha0|]. split; [intros; lia|intros; apply Hzero].
    - destruct IH as [IHl [IHhit IHmiss]]; [lia|].
      rewrite fold_left_seq_S.
      set (st := fold_left (fun a e => maskf e (addf e a)) (seq 0 m) a0)
        in *.
      destruct (Hadd m st IHl) as [Hal Hak].
      destruct (Hmask m (addf m st)) as [Hml Hmk].
      split; [now rewrite Hml|]. split.
      + intros k e He Hh. rewrite Hmk, Hak.
        destruct (hit m k) eqn:Hm'.
        * assert (e = m) by (apply (Hdisj e m k); [lia|lia|easy|easy]).
          subst e. rewrite IHmiss; [ring|].
          intros e' He'. destruct (hit e' k) eqn:E; [|reflexivity].
          assert (e' = m) by (apply (Hdisj e' m k); [lia|lia|easy|easy]).
          lia.
        * assert (e <> m) by (intros ->; congruence).
          rewrite (Hsupp m k Hm'), (IHhit k e) by (lia || easy). ring.
      + intros k Hk. rewrite Hmk, Hak.
        rewrite (Hk m) by lia. rewrite (Hsupp m k) by (apply Hk; lia).
        rewrite IHmiss; [ring|]. intros e He. apply Hk. lia. }
  apply H. lia.
Qed.

(** Sums with a single term. *)
Lemma sumn_if_single (n : nat) (P : nat -> bool) (v : nat -> R) (j : nat) :
  (j < n)%nat -> P j = true ->
  (forall i, (i < n)%nat -> P i = true -> i = j) ->
  sumn n (fun i => if P i then v i else rO) = v j.
Proof.
  intros Hj HP Huniq.
  rewrite (@sumn_single _ _ n _ j); [now rewrite HP|exact Hj|].
  intros i Hi Hne. destruct (P i) eqn:E; [|reflexivity].
  exfalso. apply Hne. now apply Huniq.
Qed.

Lemma sumn_if_none (n : nat) (P : nat -> bool) (v : nat -> R) :
  (forall i, (i < n)%nat -> P i = false) ->
  sumn n (fun i => if P i then v i else rO) = rO.
Proof.
  intros H. apply sumn_all_zero. intros i Hi. now rewrite H.
Qed.

Lemma sumn2_if_single (n1 n2 : nat) (P : nat -> nat -> bool)
  (v : nat -> nat -> R) (j1 j2 : nat) :
  (j1 < n1)%nat -> (j2 < n2)%nat -> P j1 j2 = true ->
  (forall i1 i2, (i1 < n1)%nat -> (i2 < n2)%nat -> P i1 i2 = true ->
     i1 = j1 /\ i2 = j2) ->
  sumn n1 (fun i1 => sumn n2 (fun i2 => if P i1 i2 then v i1 i2 else rO))
  = v j1 j2.
Proof.
  intros H1 H2 HP Huniq.
  rewrite (@sumn_single _ _ n1 _ j1); [|exact H1|].
  - apply sumn_if_single; [exact H2|exact HP|].
    intros i Hi Hp. now destruct (Huniq j1 i H1 Hi Hp).
  - intros i1 Hi1 Hne. apply sumn_if_none. intros i2 Hi2.
    destruct (P i1 i2) eqn:E; [|reflexivity].
    destruct (Huniq i1 i2 Hi1 Hi2 E). contradiction.
Qed.

Lemma sumn2_if_none (n1 n2 : nat) (P : nat -> nat -> bool)
  (v : nat -> nat -> R) :
  (forall i1 i2, (i1 < n1)%nat -> (i2 < n2)%nat -> P i1 i2 = false) ->
  sumn n1 (fun i1 => sumn n2 (fun i2 => if P i1 i2 then v i1 i2 else rO))
  = rO.
Proof.
  intros H. apply sumn_all_zero. intros i1 Hi1.
  apply sumn_if_none. intros i2 Hi2. now apply H.
Qed.

Lemma sumn3_if_single (n1 n2 n3 : nat) (P : nat -> nat -> nat -> bool)
  (v : nat -> nat -> nat -> R) (j1 j2 j3 : nat) :
  (j1 < n1)%nat -> (j2 < n2)%nat -> (j3 < n3)%nat -> P j1 j2 j3 = true ->
  (forall i1 i2 i3, (i1 < n1)%nat -> (i2 < n2)%nat -> (i3 < n3)%nat ->
     P i1 i2 i3 = true -> i1 = j1 /\ i2 = j2 /\ i3 = j3) ->
  sumn n1
    (fun i1 =>
       sumn n2
         (fun i2 =>
            sumn n3 (fun i3 => if P i1 i2 i3 then v i1 i2 i3 else rO)))
  = v j1 j2 j3.
Proof.
  intros H1 H2 H3 HP Huniq.
  rewrite (@sumn_single _ _ n1 _ j1); [|exact H1|].
  - apply sumn2_if_single; [exact H2|exact H3|exact HP|].
    intros i2 i3 Hi2 Hi3 Hp.
    destruct (Huniq j1 i2 i3 H1 Hi2 Hi3 Hp) as [_ [? ?]]. now split.
  - intros i1 Hi1 Hne. apply sumn2_if_none. intros i2 i3 Hi2 Hi3.
    destruct (P i1 i2 i3) eqn:E; [|reflexivity].
    destruct (Huniq i1 i2 i3 Hi1 Hi2 Hi3 E) as [? _]. contradiction.
Qed.

Lemma sumn3_if_none (n1 n2 n3 : nat) (P : nat -> nat -> nat -> bool)
  (v : nat -> nat -> nat -> R) :
  (forall i1 i2 i3, (i1 < n1)%nat -> (i2 < n2)%nat -> (i3 < n3)%nat ->
     P i1 i2 i3 = false) ->
  sumn n1
    (fun i1 =>
       sumn n2
         (fun i2 =>
            sumn n3 (fun i3 => if P i1 i2 i3 then v i1 i2 i3 else rO)))
  = rO.
Proof.
  intros H. apply sumn_all_zero. intros i1 Hi1.
  apply sumn2_if_none. intros i2 i3 Hi2 Hi3. now apply H.
Qed.

End Kernels.

Lemma radix_inj (Q r a r' a' : nat) :
  (r < Q)%nat -> (r' < Q)%nat -> (r + Q * a = r' + Q * a')%nat ->
  r = r' /\ a = a'.
Proof.
  intros Hr Hr' H.
  destruct (Nat.lt_trichotomy a a') as [Hlt|[->|Hgt]]; [nia|lia|nia].
Qed.

Section KernelValues.
Context {R : Type} {SR : Scalar R}.
Add Ring scalar_ring_kernel_values : (@scalar_ring R SR).
Variable MAX_Q1D : nat.
Variable uninit : nat -> R.

Lemma element2D_add_additive (n D1D Q1D : nat) (localL : Vector R)
  (B : list R) (e : nat) :
  additive n (element2D_add MAX_Q1D uninit D1D Q1D localL B e)
    (fun k =>
       sumn D1D
         (fun dy =>
            sumn Q1D
              (fun qy =>
                 sumn Q1D
                   (fun qx =>
                      if Nat.eqb (qx + Q1D * (qy + Q1D * e)) k
                         && Nat.ltb k n
                      then (B_at Q1D B qy dy
                            * nth qx
                                (line_values MAX_Q1D uninit D1D Q1D B
                                   (fun dx =>
                                      nth (dx + D1D * (dy + D1D * e))
                                          localL rO))
                                rO)%S
                      else rO)))).
Proof.
  unfold element2D_add.
  apply additive_fold. intros dy.
  apply additive_fold. intros qy.
  apply additive_fold. intros qx.
  apply additive_add_at.
Qed.

Lemma element2D_mask_scaling (Q1D : nat) (mask : Vector R) (e : nat) :
  scaling (element2D_mask Q1D mask e)
    (fun k =>
       existsb
         (fun qy =>
            existsb (fun qx => Nat.eqb (qx + Q1D * (qy + Q1D * e)) k)
                    (seq 0 Q1D))
         (seq 0 Q1D))
    (fun k => nth k mask rO).
Proof.
  unfold element2D_mask.
  apply scaling_fold.
  - intros qy. apply scaling_fold.
    + intros qx.
      apply (scaling_mul_at (qx + Q1D * (qy + Q1D * e))
                            (fun k => nth k mask rO)).
    + intros qx qx' k _ _ H1 H2.
      apply Nat.eqb_eq in H1, H2. lia.
  - intros qy qy' k _ _ H1 H2.
    apply existsb_seq_true in H1, H2.
    destruct H1 as [qx [Hqx H1]], H2 as [qx' [Hqx' H2]].
    apply Nat.eqb_eq in H1, H2.
    destruct (@radix_inj Q1D qx (qy + Q1D * e) qx' (qy' + Q1D * e))
      as [_ Heq]; lia.
Qed.

Lemma hit2D_true (Q1D e k : nat) :
  existsb
    (fun qy =>
       existsb (fun qx => Nat.eqb (qx + Q1D * (qy + Q1D * e)) k)
               (seq 0 Q1D))
    (seq 0 Q1D) = true
  <-> exists qx qy, (qx < Q1D)%nat /\ (qy < Q1D)%nat
                    /\ (qx + Q1D * (qy + Q1D * e))%nat = k.
Proof.
  rewrite existsb_seq_true. split.
  - intros [qy [Hqy H]]. apply existsb_seq_true in H.
    destruct H as [qx [Hqx H]]. apply Nat.eqb_eq in H.
    exists qx, qy. auto.
  - intros [qx [qy [Hqx [Hqy H]]]]. exists qy. split; [exact Hqy|].
    apply existsb_seq_true. exists qx. split; [exact Hqx|].
    now apply Nat.eqb_eq.
Qed.

Lemma index2D_inj (Q1D qx qy e qx' qy' e' : nat) :
  (qx < Q1D)%nat -> (qy < Q1D)%nat -> (qx' < Q1D)%nat -> (qy' < Q1D)%nat ->
  (qx + Q1D * (qy + Q1D * e) = qx' + Q1D * (qy' + Q1D * e'))%nat ->
  qx = qx' /\ qy = qy' /\ e = e'.
Proof.
  intros Hx Hy Hx' Hy' H.
  destruct (@radix_inj Q1D qx (qy + Q1D * e) qx' (qy' + Q1D * e') Hx Hx' H)
    as [E1 E2].
  destruct (@radix_inj Q1D qy e qy' e' Hy Hy' E2) as [E3 E4]. auto.
Qed.

Lemma index2D_lt (Q1D NE qx qy e : nat) :
  (qx < Q1D)%nat -> (qy < Q1D)%nat -> (e < NE)%nat ->
  (qx + Q1D * (qy + Q1D * e) < Q1D * Q1D * NE)%nat.
Proof. intros. nia. Qed.

Lemma nth_zeroed (k : nat) (a : list R) :
  nth k (map (fun _ => rO) a) rO = rO.
Proof.
  revert k. induction a as [|h t IH]; intros [|k]; simpl; auto.
Qed.

(** The value that [Prolongation2D] leaves at the point [(qx, qy)] of
    element [e]. *)
Lemma Prolongation2D_value (NE D1D Q1D : nat) (localL localH : Vector R)
  (B : list R) (mask : Vector R) (e qx qy : nat) :
  (Q1D <= MAX_Q1D)%nat -> length localH = (Q1D * Q1D * NE)%nat ->
  (e < NE)%nat -> (qx < Q1D)%nat -> (qy < Q1D)%nat ->
  nth (qx + Q1D * (qy + Q1D * e))
      (Prolongation2D MAX_Q1D uninit NE D1D Q1D localL localH B mask) rO
  = (sumn D1D
       (fun dy =>
          B_at Q1D B qy dy
          * sumn D1D
              (fun dx =>
                 B_at Q1D B qx dx
                 * nth (dx + D1D * (dy + D1D * e)) localL rO))
     * nth (qx + Q1D * (qy + Q1D * e)) mask rO)%S.
Proof.
  intros HQ Hlen He Hqx Hqy. rewrite Prolongation2D_loops.
  destruct (@kernel_loop _ _ (Q1D * Q1D * NE) NE
              (fun e a => element2D_add MAX_Q1D uninit D1D Q1D localL B e a)
              (fun e a => element2D_mask Q1D mask e a) _ _ _
              (fun e => @element2D_add_additive (Q1D * Q1D * NE) D1D Q1D
                          localL B e)
              (fun e => @element2D_mask_scaling Q1D mask e))
    with (a0 := map (fun _ : R => rO) localH) as [_ [Hhit _]].
  - intros e0 k Hk. apply sumn_all_zero. intros dy _.
    apply sumn2_if_none. intros qy0 qx0 Hqy0 Hqx0.
    destruct (Nat.eqb_spec (qx0 + Q1D * (qy0 + Q1D * e0)) k) as [E|];
      [|reflexivity].
    assert (Ht : existsb
                   (fun qy =>
                      existsb
                        (fun qx => Nat.eqb (qx + Q1D * (qy + Q1D * e0)) k)
                        (seq 0 Q1D))
                   (seq 0 Q1D) = true)
      by (apply hit2D_true; exists qx0, qy0; auto).
    congruence.
  - intros e0 e1 k _ _ H0 H1. apply hit2D_true in H0, H1.
    destruct H0 as [x0 [y0 [Hx0 [Hy0 E0]]]], H1 as [x1 [y1 [Hx1 [Hy1 E1]]]].
    destruct (@index2D_inj Q1D x0 y0 e0 x1 y1 e1) as [_ [_ E]]; auto. lia.
  - now rewrite length_map.
  - intros k. apply nth_zeroed.
  - rewrite (Hhit _ e He);
      [|apply hit2D_true; exists qx, qy; auto].
    f_equal. apply sumn_ext. intros dy _.
    rewrite (@sumn2_if_single _ _ Q1D Q1D
               (fun qy0 qx0 =>
                  Nat.eqb (qx0 + Q1D * (qy0 + Q1D * e))
                          (qx + Q1D * (qy + Q1D * e))
                  && Nat.ltb (qx + Q1D * (qy + Q1D * e)) (Q1D * Q1D * NE))
               (fun qy0 qx0 =>
                  (B_at Q1D B qy0 dy
                   * nth qx0
                       (line_values MAX_Q1D uninit D1D Q1D B
                          (fun dx =>
                             nth (dx + D1D * (dy + D1D * e)) localL rO))
                       rO)%S)
               qy qx Hqy Hqx).
    + now rewrite line_values_spec.
    + rewrite Nat.eqb_refl. simpl. apply Nat.ltb_lt.
      now apply index2D_lt.
    + intros qy0 qx0 Hqy0 Hqx0 H. apply andb_true_iff in H.
      destruct H as [H _]. apply Nat.eqb_eq in H.
      destruct (@index2D_inj Q1D qx0 qy0 e qx qy e) as [? [? _]]; auto.
Qed.

Lemma length_Prolongation2D (NE D1D Q1D : nat) (localL localH : Vector R)
  (B : list R) (mask : Vector R) :
  length (Prolongation2D MAX_Q1D uninit NE D1D Q1D localL localH B mask)
  = length localH.
Proof.
  rewrite Prolongation2D_loops.
  rewrite length_fold_left; [now rewrite length_map|].
  intros a e.
  destruct (@element2D_mask_scaling Q1D mask e
              (element2D_add MAX_Q1D uninit D1D Q1D localL B e a))
    as [Hl _].
  rewrite Hl.
  destruct (@element2D_add_additive (length a) D1D Q1D localL B e a
              eq_refl) as [Hl' _].
  exact Hl'.
Qed.

Lemma nth_store_zero_keeps (idx : nat -> nat) (l : list nat) (a : list R)
  (k : nat) :
  nth k a rO = rO ->
  nth k (fold_left (fun s i => upd (idx i) rO s) l a) rO = rO.
Proof.
  revert a. induction l as [|i l IH]; intros a Ha; [exact Ha|].
  simpl. apply IH. rewrite nth_upd.
  destruct (Nat.eqb (idx i) k && Nat.ltb k (length a)); [reflexivity|exact Ha].
Qed.

(** The zeroed part of the scratch array [sol_xy]. *)
Lemma plane_zeroed (Q1D qx qy : nat) :
  (Q1D <= MAX_Q1D)%nat -> (qx < Q1D)%nat -> (qy < Q1D)%nat ->
  length
    (fold_left
       (fun sol_xy qy =>
          fold_left (fun sol_xy qx => upd (qy * MAX_Q1D + qx) rO sol_xy)
                    (seq 0 Q1D) sol_xy)
       (seq 0 Q1D) (scratch uninit (MAX_Q1D * MAX_Q1D)))
  = (MAX_Q1D * MAX_Q1D)%nat
  /\ nth (qy * MAX_Q1D + qx)
         (fold_left
            (fun sol_xy qy =>
               fold_left (fun sol_xy qx => upd (qy * MAX_Q1D + qx) rO sol_xy)
                         (seq 0 Q1D) sol_xy)
            (seq 0 Q1D) (scratch uninit (MAX_Q1D * MAX_Q1D))) rO
     = rO.
Proof.
  intros HQ Hqx Hqy.
  assert (Hlen : forall l a,
            length
              (fold_left
                 (fun sol_xy qy =>
                    fold_left
                      (fun sol_xy qx => upd (qy * MAX_Q1D + qx) rO sol_xy)
                      (seq 0 Q1D) sol_xy)
                 l a)
            = length a).
  { intros l a. apply length_fold_left. intros b t.
    apply length_fold_left. intros c u. apply length_upd. }
  split; [now rewrite Hlen, length_scratch|].
  assert (H : forall m, (m <= Q1D)%nat -> (qy < m)%nat ->
            nth (qy * MAX_Q1D + qx)
                (fold_left
                   (fun sol_xy qy =>
                      fold_left
                        (fun sol_xy qx =>
                           upd (qy * MAX_Q1D + qx) rO sol_xy)
                        (seq 0 Q1D) sol_xy)
                   (seq 0 m) (scratch uninit (MAX_Q1D * MAX_Q1D))) rO
            = rO).
  { induction m as [|m IH]; intros Hm Hlt; [lia|].
    rewrite fold_left_seq_S.
    destruct (Nat.eq_dec qy m) as [->|Hne].
    - set (st := fold_left _ (seq 0 m) _).
      destruct (fold_store_spec (fun q => (m * MAX_Q1D + q)%nat)
                  (fun _ => rO) Q1D st) as [_ [_ Hhit]].
      apply Hhit; [intros p q _ _ E; lia|exact Hqx|].
      unfold st. rewrite Hlen, length_scratch. nia.
    - apply (nth_store_zero_keeps (fun q => (m * MAX_Q1D + q)%nat)).
      apply IH; lia. }
  apply H; lia.
Qed.

Lemma plane_values_spec (D1D Q1D : nat) (localL : Vector R) (B : list R)
  (e dz qx qy : nat) :
  (Q1D <= MAX_Q1D)%nat -> (qx < Q1D)%nat -> (qy < Q1D)%nat ->
  nth (qy * MAX_Q1D + qx)
      (plane_values MAX_Q1D uninit D1D Q1D localL B e dz) rO
  = sumn D1D
      (fun dy =>
         (B_at Q1D B qy dy
          * sumn D1D
              (fun dx =>
                 B_at Q1D B qx dx
                 * nth (dx + D1D * (dy + D1D * (dz + D1D * e))) localL rO))%S).
Proof.
  intros HQ Hqx Hqy. unfold plane_values.
  destruct (plane_zeroed HQ Hqx Hqy) as [HZl HZ0].
  set (Z0 := fold_left _ (seq 0 Q1D) (scratch uninit (MAX_Q1D * MAX_Q1D)))
    in *.
  assert (Hadd :
    additive (MAX_Q1D * MAX_Q1D)
      (fun a =>
         fold_left
           (fun sol_xy dy =>
              fold_left
                (fun sol_xy qy =>
                   fold_left
                     (fun sol_xy qx =>
                        add_at (qy * MAX_Q1D + qx)
                          (B_at Q1D B qy dy
                           * nth qx
                               (line_values MAX_Q1D uninit D1D Q1D B
                                  (fun dx =>
                                     nth (dx + D1D
                                               * (dy + D1D * (dz + D1D * e)))
                                         localL rO))
                               rO)%S
                          sol_xy)
                     (seq 0 Q1D) sol_xy)
                (seq 0 Q1D) sol_xy)
           (seq 0 D1D) a)
      (fun k =>
         sumn D1D
           (fun dy =>
              sumn Q1D
                (fun qy =>
                   sumn Q1D
                     (fun qx =>
                        if Nat.eqb (qy * MAX_Q1D + qx) k
                           && Nat.ltb k (MAX_Q1D * MAX_Q1D)
                        then (B_at Q1D B qy dy
                              * nth qx
                                  (line_values MAX_Q1D uninit D1D Q1D B
                                     (fun dx =>
                                        nth (dx + D1D
                                                  * (dy + D1D
                                                          * (dz + D1D * e)))
                                            localL rO))
                                  rO)%S
                        else rO))))).
  { apply additive_fold. intros dy.
    apply additive_fold. intros qy0.
    apply additive_fold. intros qx0.
    apply additive_add_at. }
  destruct (Hadd Z0 HZl) as [_ Hk]. rewrite Hk, HZ0.
  transitivity
    (sumn D1D
       (fun dy =>
          (B_at Q1D B qy dy
           * nth qx
               (line_values MAX_Q1D uninit D1D Q1D B
                  (fun dx =>
                     nth (dx + D1D * (dy + D1D * (dz + D1D * e))) localL rO))
               rO)%S)).
  - match goal with |- (rO + ?a)%S = ?b => assert (E : a = b) end;
      [|rewrite E; ring].
    apply sumn_ext. intros dy _.
    apply (@sumn2_if_single _ _ Q1D Q1D
             (fun qy0 qx0 =>
                Nat.eqb (qy0 * MAX_Q1D + qx0) (qy * MAX_Q1D + qx)
                && Nat.ltb (qy * MAX_Q1D + qx) (MAX_Q1D * MAX_Q1D))
             (fun qy0 qx0 =>
                (B_at Q1D B qy0 dy
                 * nth qx0
                     (line_values MAX_Q1D uninit D1D Q1D B
                        (fun dx =>
                           nth (dx + D1D * (dy + D1D * (dz + D1D * e)))
                               localL rO))
                     rO)%S)
             qy qx Hqy Hqx).
    + rewrite Nat.eqb_refl. simpl. apply Nat.ltb_lt. nia.
    + intros qy0 qx0 Hqy0 Hqx0 H. apply andb_true_iff in H.
      destruct H as [H _]. apply Nat.eqb_eq in H.
      destruct (@radix_inj MAX_Q1D qx0 qy0 qx qy) as [? ?]; lia.
  - apply sumn_ext. intros dy _. now rewrite line_values_spec.
Qed.

Lemma element3D_add_additive (n D1D Q1D : nat) (localL : Vector R)
  (B : list R) (e : nat) :
  additive n (element3D_add MAX_Q1D uninit D1D Q1D localL B e)
    (fun k =>
       sumn D1D
         (fun dz =>
            sumn Q1D
              (fun qz =>
                 sumn Q1D
                   (fun qy =>
                      sumn Q1D
                        (fun qx =>
                           if Nat.eqb
                                (qx + Q1D * (qy + Q1D * (qz + Q1D * e))) k
                              && Nat.ltb k n
                           then (B_at Q1D B qz dz
                                 * nth (qy * MAX_Q1D + qx)
                                       (plane_values MAX_Q1D uninit D1D Q1D
                                          localL B e dz)
                                       rO)%S
                           else rO))))).
Proof.
  unfold element3D_add.
  apply additive_fold. intros dz.
  apply additive_fold. intros qz.
  apply additive_fold. intros qy.
  apply additive_fold. intros qx.
  apply additive_add_at.
Qed.

Lemma hit3D_true (Q1D e k : nat) :
  existsb
    (fun qz =>
       existsb
         (fun qy =>
            existsb
              (fun qx =>
                 Nat.eqb (qx + Q1D * (qy + Q1D * (qz + Q1D * e))) k)
              (seq 0 Q1D))
         (seq 0 Q1D))
    (seq 0 Q1D) = true
  <-> exists qx qy qz, (qx < Q1D)%nat /\ (qy < Q1D)%nat /\ (qz < Q1D)%nat
        /\ (qx + Q1D * (qy + Q1D * (qz + Q1D * e)))%nat = k.
Proof.
  rewrite existsb_seq_true. split.
  - intros [qz [Hqz H]]. apply existsb_seq_true in H.
    destruct H as [qy [Hqy H]]. apply existsb_seq_true in H.
    destruct H as [qx [Hqx H]]. apply Nat.eqb_eq in H.
    exists qx, qy, qz. auto.
  - intros [qx [qy [qz [Hqx [Hqy [Hqz H]]]]]]. exists qz.
    split; [exact Hqz|]. apply existsb_seq_true. exists qy.
    split; [exact Hqy|]. apply existsb_seq_true. exists qx.
    split; [exact Hqx|]. now apply Nat.eqb_eq.
Qed.

Lemma index3D_inj (Q1D qx qy qz e qx' qy' qz' e' : nat) :
  (qx < Q1D)%nat -> (qy < Q1D)%nat -> (qz < Q1D)%nat ->
  (qx' < Q1D)%nat -> (qy' < Q1D)%nat -> (qz' < Q1D)%nat ->
  (qx + Q1D * (qy + Q1D * (qz + Q1D * e))
   = qx' + Q1D * (qy' + Q1D * (qz' + Q1D * e')))%nat ->
  qx = qx' /\ qy = qy' /\ qz = qz' /\ e = e'.
Proof.
  intros Hx Hy Hz Hx' Hy' Hz' H.
  destruct (@radix_inj Q1D qx (qy + Q1D * (qz + Q1D * e))
              qx' (qy' + Q1D * (qz' + Q1D * e')) Hx Hx' H) as [E1 E2].
  destruct (@index2D_inj Q1D qy qz e qy' qz' e' Hy Hz Hy' Hz' E2)
    as [E3 [E4 E5]].
  auto.
Qed.

Lemma index3D_lt (Q1D NE qx qy qz e : nat) :
  (qx < Q1D)%nat -> (qy < Q1D)%nat -> (qz < Q1D)%nat -> (e < NE)%nat ->
  (qx + Q1D * (qy + Q1D * (qz + Q1D * e)) < Q1D * Q1D * Q1D * NE)%nat.
Proof.
  intros Hx Hy Hz He.
  assert (H2 : (qy + Q1D * (qz + Q1D * e) < Q1D * Q1D * NE)%nat)
    by now apply index2D_lt.
  nia.
Qed.

Lemma element3D_mask_scaling (Q1D : nat) (mask : Vector R) (e : nat) :
  scaling (element3D_mask Q1D mask e)
    (fun k =>
       existsb
         (fun qz =>
            existsb
              (fun qy =>
                 existsb
                   (fun qx =>
                      Nat.eqb (qx + Q1D * (qy + Q1D * (qz + Q1D * e))) k)
                   (seq 0 Q1D))
              (seq 0 Q1D))
         (seq 0 Q1D))
    (fun k => nth k mask rO).
Proof.
  unfold element3D_mask.
  apply scaling_fold.
  - intros qz. apply scaling_fold.
    + intros qy. apply scaling_fold.
      * intros qx.
        apply (scaling_mul_at (qx + Q1D * (qy + Q1D * (qz + Q1D * e)))
                              (fun k => nth k mask rO)).
      * intros qx qx' k _ _ H1 H2.
        apply Nat.eqb_eq in H1, H2. lia.
    + intros qy qy' k _ _ H1 H2.
      apply existsb_seq_true in H1, H2.
      destruct H1 as [qx [Hqx H1]], H2 as [qx' [Hqx' H2]].
      apply Nat.eqb_eq in H1, H2.
      destruct (@radix_inj Q1D qx (qy + Q1D * (qz + Q1D * e))
                  qx' (qy' + Q1D * (qz + Q1D * e))) as [_ Heq]; lia.
  - intros qz qz' k Hqz Hqz' H1 H2.
    apply existsb_seq_true in H1, H2.
    destruct H1 as [qy [Hqy H1]], H2 as [qy' [Hqy' H2]].
    apply existsb_seq_true in H1, H2.
    destruct H1 as [qx [Hqx H1]], H2 as [qx' [Hqx' H2]].
    apply Nat.eqb_eq in H1, H2.
    destruct (@index3D_inj Q1D qx qy qz e qx' qy' qz' e)
      as [_ [_ [Heq _]]]; auto; lia.
Qed.

(** The value that [Prolongation3D] leaves at the point [(qx, qy, qz)] of
    element [e]. *)
Lemma Prolongation3D_value (NE D1D Q1D : nat) (localL localH : Vector R)
  (B : list R) (mask : Vector R) (e qx qy qz : nat) :
  (Q1D <= MAX_Q1D)%nat -> length localH = (Q1D * Q1D * Q1D * NE)%nat ->
  (e < NE)%nat -> (qx < Q1D)%nat -> (qy < Q1D)%nat -> (qz < Q1D)%nat ->
  nth (qx + Q1D * (qy + Q1D * (qz + Q1D * e)))
      (Prolongation3D MAX_Q1D uninit NE D1D Q1D localL localH B mask) rO
  = (sumn D1D
       (fun dz =>
          B_at Q1D B qz dz
          * sumn D1D
              (fun dy =>
                 B_at Q1D B qy dy
                 * sumn D1D
                     (fun dx =>
                        B_at Q1D B qx dx
                        * nth (dx + D1D * (dy + D1D * (dz + D1D * e)))
                              localL rO)))
     * nth (qx + Q1D * (qy + Q1D * (qz + Q1D * e))) mask rO)%S.
Proof.
  intros HQ Hlen He Hqx Hqy Hqz. rewrite Prolongation3D_loops.
  destruct (@kernel_loop _ _ (Q1D * Q1D * Q1D * NE) NE
              (fun e a => element3D_add MAX_Q1D uninit D1D Q1D localL B e a)
              (fun e a => element3D_mask Q1D mask e a) _ _ _
              (fun e => @element3D_add_additive (Q1D * Q1D * Q1D * NE)
                          D1D Q1D localL B e)
              (fun e => @element3D_mask_scaling Q1D mask e))
    with (a0 := map (fun _ : R => rO) localH) as [_ [Hhit _]].
  - intros e0 k Hk. apply sumn_all_zero. intros dz _.
    apply sumn3_if_none. intros qz0 qy0 qx0 Hqz0 Hqy0 Hqx0.
    destruct (Nat.eqb_spec
                (qx0 + Q1D * (qy0 + Q1D * (qz0 + Q1D * e0))) k) as [E|];
      [|reflexivity].
    assert (Ht : existsb
                   (fun qz =>
                      existsb
                        (fun qy =>
                           existsb
                             (fun qx =>
                                Nat.eqb
                                  (qx + Q1D * (qy + Q1D * (qz + Q1D * e0)))
                                  k)
                             (seq 0 Q1D))
                        (seq 0 Q1D))
                   (seq 0 Q1D) = true)
      by (apply hit3D_true; exists qx0, qy0, qz0; auto).
    congruence.
  - intros e0 e1 k _ _ H0 H1. apply hit3D_true in H0, H1.
    destruct H0 as [x0 [y0 [z0 [Hx0 [Hy0 [Hz0 E0]]]]]].
    destruct H1 as [x1 [y1 [z1 [Hx1 [Hy1 [Hz1 E1]]]]]].
    destruct (@index3D_inj Q1D x0 y0 z0 e0 x1 y1 z1 e1)
      as [_ [_ [_ E]]]; auto. lia.
  - now rewrite length_map.
  - intros k. apply nth_zeroed.
  - rewrite (Hhit _ e He);
      [|apply hit3D_true; exists qx, qy, qz; auto].
    f_equal. apply sumn_ext. intros dz _.
    rewrite (@sumn3_if_single _ _ Q1D Q1D Q1D
               (fun qz0 qy0 qx0 =>
                  Nat.eqb (qx0 + Q1D * (qy0 + Q1D * (qz0 + Q1D * e)))
                          (qx + Q1D * (qy + Q1D * (qz + Q1D * e)))
                  && Nat.ltb (qx + Q1D * (qy + Q1D * (qz + Q1D * e)))
                             (Q1D * Q1D * Q1D * NE))
               (fun qz0 qy0 qx0 =>
                  (B_at Q1D B qz0 dz
                   * nth (qy0 * MAX_Q1D + qx0)
                         (plane_values MAX_Q1D uninit D1D Q1D localL B e dz)
                         rO)%S)
               qz qy qx Hqz Hqy Hqx).
    + now rewrite plane_values_spec.
    + rewrite Nat.eqb_refl. simpl. apply Nat.ltb_lt.
      now apply index3D_lt.
    + intros qz0 qy0 qx0 Hqz0 Hqy0 Hqx0 H. apply andb_true_iff in H.
      destruct H as [H _]. apply Nat.eqb_eq in H.
      destruct (@index3D_inj Q1D qx0 qy0 qz0 e qx qy qz e)
        as [? [? [? _]]]; auto.
Qed.

Lemma length_Prolongation3D (NE D1D Q1D : nat) (localL localH : Vector R)
  (B : list R) (mask : Vector R) :
  length (Prolongation3D MAX_Q1D uninit NE D1D Q1D localL localH B mask)
  = length localH.
Proof.
  rewrite Prolongation3D_loops.
  rewrite length_fold_left; [now rewrite length_map|].
  intros a e.
  destruct (@element3D_mask_scaling Q1D mask e
              (element3D_add MAX_Q1D uninit D1D Q1D localL B e a))
    as [Hl _].
  rewrite Hl.
  destruct (@element3D_add_additive (length a) D1D Q1D localL B e a
              eq_refl) as [Hl' _].
  exact Hl'.
Qed.

End KernelValues.

(* ------------------------------------------------------------------ *)
(** ** The restrictions and the mask *)
(* ------------------------------------------------------------------ *)

Lemma first_true (P : nat -> bool) (n : nat) :
  (exists s, (s < n)%nat /\ P s = true) ->
  exists s0, (s0 < n)%nat /\ P s0 = true
             /\ forall s, (s < s0)%nat -> P s = false.
Proof.
  induction n as [|n IH]; intros [s [Hs HP]]; [lia|].
  destruct (existsb P (seq 0 n)) eqn:E.
  - apply existsb_seq_true in E. destruct (IH E) as [s0 [H0 [HP0 Hmin]]].
    exists s0. split; [lia|]. split; assumption.
  - exists n. split; [lia|].
    assert (Hall : forall t, (t < n)%nat -> P t = false).
    { intros t Ht. destruct (P t) eqn:Et; [|reflexivity].
      assert (existsb P (seq 0 n) = true)
        by (apply existsb_seq_true; exists t; auto).
      congruence. }
    split; [|exact Hall].
    destruct (Nat.eq_dec s n) as [->|Hne]; [exact HP|].
    rewrite Hall in HP by lia. discriminate.
Qed.

Lemma slot2D_decode (Q1D NE s : nat) :
  (s < NE * (Q1D * (Q1D * 1)))%nat ->
  exists e qx qy, (e < NE)%nat /\ (qx < Q1D)%nat /\ (qy < Q1D)%nat
                  /\ s = (qx + Q1D * (qy + Q1D * e))%nat.
Proof.
  intros Hs. assert (HQ : Q1D <> 0%nat) by nia.
  exists (s / Q1D / Q1D)%nat, (s mod Q1D)%nat, ((s / Q1D) mod Q1D)%nat.
  pose proof (Nat.div_mod s Q1D HQ) as H1.
  pose proof (Nat.div_mod (s / Q1D) Q1D HQ) as H2.
  pose proof (Nat.mod_upper_bound s Q1D HQ) as H3.
  pose proof (Nat.mod_upper_bound (s / Q1D) Q1D HQ) as H4.
  repeat split; try assumption; [|lia].
  apply Nat.Div0.div_lt_upper_bound. apply Nat.Div0.div_lt_upper_bound. nia.
Qed.

Lemma slot3D_decode (Q1D NE s : nat) :
  (s < NE * (Q1D * (Q1D * (Q1D * 1))))%nat ->
  exists e qx qy qz,
    (e < NE)%nat /\ (qx < Q1D)%nat /\ (qy < Q1D)%nat /\ (qz < Q1D)%nat
    /\ s = (qx + Q1D * (qy + Q1D * (qz + Q1D * e)))%nat.
Proof.
  intros Hs. assert (HQ : Q1D <> 0%nat) by nia.
  exists (s / Q1D / Q1D / Q1D)%nat, (s mod Q1D)%nat,
         ((s / Q1D) mod Q1D)%nat, ((s / Q1D / Q1D) mod Q1D)%nat.
  pose proof (Nat.div_mod s Q1D HQ) as H1.
  pose proof (Nat.div_mod (s / Q1D) Q1D HQ) as H2.
  pose proof (Nat.div_mod (s / Q1D / Q1D) Q1D HQ) as H2'.
  pose proof (Nat.mod_upper_bound s Q1D HQ) as H3.
  pose proof (Nat.mod_upper_bound (s / Q1D) Q1D HQ) as H4.
  pose proof (Nat.mod_upper_bound (s / Q1D / Q1D) Q1D HQ) as H5.
  repeat split; try assumption; [|lia].
  apply Nat.Div0.div_lt_upper_bound. apply Nat.Div0.div_lt_upper_bound.
  apply Nat.Div0.div_lt_upper_bound. nia.
Qed.

Lemma DofToVDof_scalar {R : Type} (fes : FiniteElementSpace R) (d : nat) :
  GetVDim fes = 1%nat -> DofToVDof fes d 0 = d.
Proof.
  intros H. unfold DofToVDof. rewrite H. destruct (GetOrdering fes); lia.
Qed.

Section Restrictions.
Context {R : Type} {SR : Scalar R}.
Add Ring scalar_ring_restrictions : (@scalar_ring R SR).

Lemma nth_ElementRestriction_Mult (er : ElementRestriction) (x : Vector R)
  (s : nat) :
  (s < er_Height er)%nat ->
  nth s (ElementRestriction_Mult er x) rO
  = nth (nth s (er_gather_map er) 0%nat) x rO.
Proof.
  intros Hs. unfold ElementRestriction_Mult.
  now rewrite (nth_map_seq
                 (fun s => nth (nth s (er_gather_map er) 0%nat) x rO)).
Qed.

Lemma nth_BooleanMask (er : ElementRestriction) (s : nat) :
  (s < er_Height er)%nat ->
  nth s (BooleanMask (R := R) er) rO
  = if forallb
         (fun s' => negb (Nat.eqb (nth s' (er_gather_map er) 0%nat)
                                  (nth s (er_gather_map er) 0%nat)))
         (seq 0 s)
    then rI else rO.
Proof.
  intros Hs. unfold BooleanMask.
  now rewrite (nth_map_seq
                 (fun s =>
                    if forallb
                         (fun s' =>
                            negb (Nat.eqb (nth s' (er_gather_map er) 0%nat)
                                          (nth s (er_gather_map er) 0%nat)))
                         (seq 0 s)
                    then rI else rO)).
Qed.

Lemma length_ElementRestriction_MultTranspose (er : ElementRestriction)
  (x : Vector R) :
  length (ElementRestriction_MultTranspose er x) = er_ndofs er.
Proof.
  unfold ElementRestriction_MultTranspose.
  now rewrite length_map, length_seq.
Qed.

(** Of the slots of a degree of freedom the mask keeps the first, so that
    [MultTranspose] after the mask returns the value of the first slot. *)
Lemma MultTranspose_masked (er : ElementRestriction) (localH : Vector R)
  (d : nat) :
  (d < er_ndofs er)%nat ->
  (forall s, (s < er_Height er)%nat ->
     nth s (BooleanMask (R := R) er) rO = rO -> nth s localH rO = rO) ->
  (exists s, (s < er_Height er)%nat /\ nth s (er_gather_map er) 0%nat = d) ->
  exists s0, (s0 < er_Height er)%nat
             /\ nth s0 (er_gather_map er) 0%nat = d
             /\ nth s0 (BooleanMask (R := R) er) rO = rI
             /\ nth d (ElementRestriction_MultTranspose er localH) rO
                = nth s0 localH rO.
Proof.
  intros Hd Hval [s [Hs Hg]].
  destruct (@first_true (fun s => Nat.eqb (nth s (er_gather_map er) 0%nat) d)
              (er_Height er)) as [s0 [H0 [HP0 Hmin]]].
  { exists s. split; [exact Hs|]. now apply Nat.eqb_eq. }
  apply Nat.eqb_eq in HP0.
  exists s0. split; [exact H0|]. split; [exact HP0|]. split.
  - rewrite nth_BooleanMask by exact H0. rewrite HP0.
    replace (forallb _ (seq 0 s0)) with true; [reflexivity|].
    symmetry. apply forallb_forall. intros t Ht. apply in_seq in Ht.
    rewrite (Hmin t) by lia. reflexivity.
  - unfold ElementRestriction_MultTranspose.
    rewrite (nth_map_seq
               (fun i => sum_list (map (fun s => nth s localH rO)
                                       (er_slots er i)))) by exact Hd.
    apply (@sum_list_map_single _ _ _ (fun s => nth s localH rO)
             (er_slots er d) s0).
    + unfold er_slots. apply NoDup_filter, seq_NoDup.
    + unfold er_slots. apply filter_In. split; [apply in_seq; lia|].
      now apply Nat.eqb_eq.
    + intros t Ht Hne. unfold er_slots in Ht. apply filter_In in Ht.
      destruct Ht as [Ht HPt]. apply in_seq in Ht. apply Nat.eqb_eq in HPt.
      apply Hval; [lia|]. rewrite nth_BooleanMask by lia.
      replace (forallb _ (seq 0 t)) with false; [reflexivity|].
      symmetry. apply not_true_is_false. intros Hall.
      rewrite forallb_forall in Hall.
      assert (Hlt : (s0 < t)%nat).
      { destruct (Nat.lt_trichotomy s0 t) as [?|[?|Hgt]]; [easy|congruence|].
        pose proof (Hmin t Hgt) as Hf. apply Nat.eqb_neq in Hf. congruence. }
      specialize (Hall s0). rewrite HP0, HPt, Nat.eqb_refl in Hall.
      assert (negb true = true) by (apply Hall; apply in_seq; lia).
      discriminate.
Qed.

(** A coarse value as a sum over the coarse vector. *)
Lemma coarse_value (n g : nat) (x : Vector R) :
  (g < n)%nat ->
  sumn n (fun j => ((if Nat.eqb g j then rI else rO) * nth j x rO)%S)
  = nth g x rO.
Proof.
  intros Hg. rewrite (@sumn_single _ _ n _ g); [|exact Hg|].
  - rewrite Nat.eqb_refl. ring.
  - intros i _ Hne. destruct (Nat.eqb_spec g i); [congruence|ring].
Qed.

Lemma sumn_factor (D N : nat) (b : nat -> R) (c : nat -> nat -> R)
  (x : nat -> R) :
  sumn N (fun j => (sumn D (fun d => b d * c d j) * x j)%S)
  = sumn D (fun d => (b d * sumn N (fun j => c d j * x j))%S).
Proof.
  transitivity (sumn N (fun j => sumn D (fun d => (b d * (c d j * x j))%S))).
  - apply sumn_ext. intros j _. rewrite <- sumn_mul_r.
    apply sumn_ext. intros d _. ring.
  - rewrite sumn_swap. apply sumn_ext. intros d _.
    now rewrite sumn_mul_l.
Qed.

End Restrictions.

(* ------------------------------------------------------------------ *)
(** ** The tensor-product transfer against the dense transfer *)
(* ------------------------------------------------------------------ *)

Section TensorEquivalence.
Context {R : Type} {SR : Scalar R}.
Add Ring scalar_ring_equivalence : (@scalar_ring R SR).
Variable MAX_Q1D : nat.
Variable uninit : nat -> R.
Variable GetTransferMatrix :
  FiniteElement R -> FiniteElement R -> DenseMatrix R.
Variable this : TensorProductPRefinementTransferOperator R.
Variables erl erh : ElementRestriction.
Hypothesis TWF : Tensor_well_formed MAX_Q1D this erl erh.

Local Abbreviation NE := (tp_NE this).
Local Abbreviation D1D := (tp_D1D this).
Local Abbreviation Q1D := (tp_Q1D this).
Local Abbreviation NL := (GetVSize (tp_lFESpace this)).

Lemma tensor_slot2D (x localH mask : Vector R) (e qx qy : nat) :
  tp_dim this = 2%nat -> length localH = er_Height erh ->
  (e < NE)%nat -> (qx < Q1D)%nat -> (qy < Q1D)%nat ->
  nth (qx + Q1D * (qy + Q1D * e))
      (Prolongation2D MAX_Q1D uninit NE D1D Q1D
         (ElementRestriction_Mult erl x) localH (tp_B this) mask) rO
  = (sumn NL (fun j => tensor_row2D this erl e qx qy j * nth j x rO)
     * nth (qx + Q1D * (qy + Q1D * e)) mask rO)%S.
Proof.
  intros Hdim Hlen He Hqx Hqy.
  assert (HlH : length localH = (Q1D * Q1D * NE)%nat).
  { rewrite Hlen. unfold er_Height.
    rewrite (twf_h_ne TWF), (twf_h_dof TWF), Hdim. simpl. lia. }
  assert (HlL : er_Height erl = (NE * (D1D * D1D))%nat).
  { unfold er_Height. rewrite (twf_l_ne TWF), (twf_l_dof TWF), Hdim.
    simpl. lia. }
  rewrite Prolongation2D_value;
    [|exact (twf_Q1D TWF)|exact HlH|exact He|exact Hqx|exact Hqy].
  f_equal. symmetry. unfold tensor_row2D.
  eapply eq_trans;
    [exact (sumn_factor D1D NL
              (fun dy => B_at Q1D (tp_B this) qy dy)
              (fun dy j =>
                 sumn D1D
                   (fun dx =>
                      B_at Q1D (tp_B this) qx dx
                      * (if Nat.eqb (nth (dx + D1D * (dy + D1D * e))
                                         (er_gather_map erl) 0%nat) j
                         then rI else rO))%S)
              (fun j => nth j x rO))|].
  apply sumn_ext. intros dy Hdy. f_equal.
  eapply eq_trans;
    [exact (sumn_factor D1D NL
              (fun dx => B_at Q1D (tp_B this) qx dx)
              (fun dx j =>
                 if Nat.eqb (nth (dx + D1D * (dy + D1D * e))
                                 (er_gather_map erl) 0%nat) j
                 then rI else rO)
              (fun j => nth j x rO))|].
  apply sumn_ext. intros dx Hdx. f_equal.
  assert (Hs : (dx + D1D * (dy + D1D * e) < er_Height erl)%nat)
    by (rewrite HlL; nia).
  rewrite nth_ElementRestriction_Mult by exact Hs.
  apply coarse_value. now apply (twf_l_range TWF).
Qed.

Lemma tensor_slot3D (x localH mask : Vector R) (e qx qy qz : nat) :
  tp_dim this = 3%nat -> length localH = er_Height erh ->
  (e < NE)%nat -> (qx < Q1D)%nat -> (qy < Q1D)%nat -> (qz < Q1D)%nat ->
  nth (qx + Q1D * (qy + Q1D * (qz + Q1D * e)))
      (Prolongation3D MAX_Q1D uninit NE D1D Q1D
         (ElementRestriction_Mult erl x) localH (tp_B this) mask) rO
  = (sumn NL (fun j => tensor_row3D this erl e qx qy qz j * nth j x rO)
     * nth (qx + Q1D * (qy + Q1D * (qz + Q1D * e))) mask rO)%S.
Proof.
  intros Hdim Hlen He Hqx Hqy Hqz.
  assert (HlH : length localH = (Q1D * Q1D * Q1D * NE)%nat).
  { rewrite Hlen. unfold er_Height.
    rewrite (twf_h_ne TWF), (twf_h_dof TWF), Hdim. simpl. lia. }
  assert (HlL : er_Height erl = (NE * (D1D * D1D * D1D))%nat).
  { unfold er_Height. rewrite (twf_l_ne TWF), (twf_l_dof TWF), Hdim.
    simpl. lia. }
  rewrite Prolongation3D_value;
    [|exact (twf_Q1D TWF)|exact HlH|exact He|exact Hqx|exact Hqy|exact Hqz].
  f_equal. symmetry. unfold tensor_row3D.
  eapply eq_trans;
    [exact (sumn_factor D1D NL
              (fun dz => B_at Q1D (tp_B this) qz dz)
              (fun dz j =>
                 sumn D1D
                   (fun dy =>
                      B_at Q1D (tp_B this) qy dy
                      * sumn D1D
                          (fun dx =>
                             B_at Q1D (tp_B this) qx dx
                             * (if Nat.eqb
                                     (nth (dx + D1D
                                                * (dy + D1D * (dz + D1D * e)))
                                          (er_gather_map erl) 0%nat) j
                                then rI else rO)))%S)
              (fun j => nth j x rO))|].
  apply sumn_ext. intros dz Hdz. f_equal.
  eapply eq_trans;
    [exact (sumn_factor D1D NL
              (fun dy => B_at Q1D (tp_B this) qy dy)
              (fun dy j =>
                 sumn D1D
                   (fun dx =>
                      B_at Q1D (tp_B this) qx dx
                      * (if Nat.eqb
                              (nth (dx + D1D * (dy + D1D * (dz + D1D * e)))
                                   (er_gather_map erl) 0%nat) j
                         then rI else rO))%S)
              (fun j => nth j x rO))|].
  apply sumn_ext. intros dy Hdy. f_equal.
  eapply eq_trans;
    [exact (sumn_factor D1D NL
              (fun dx => B_at Q1D (tp_B this) qx dx)
              (fun dx j =>
                 if Nat.eqb (nth (dx + D1D * (dy + D1D * (dz + D1D * e)))
                                 (er_gather_map erl) 0%nat) j
                 then rI else rO)
              (fun j => nth j x rO))|].
  apply sumn_ext. intros dx Hdx. f_equal.
  assert (Hs : (dx + D1D * (dy + D1D * (dz + D1D * e)) < er_Height erl)%nat).
  { rewrite HlL.
    assert (dy + D1D * (dz + D1D * e) < D1D * D1D * NE)%nat
      by now apply index2D_lt.
    nia. }
  rewrite nth_ElementRestriction_Mult by exact Hs.
  apply coarse_value. now apply (twf_l_range TWF).
Qed.

Variable pr : PRefinementTransferOperator R.
Hypothesis Hl : pr_lFESpace pr = tp_lFESpace this.
Hypothesis Hh : pr_hFESpace pr = tp_hFESpace this.
Hypothesis WF : PRef_well_formed GetTransferMatrix pr.
Hypothesis Hcov : covered pr erh.
Hypothesis Hagr : agreement GetTransferMatrix this erl erh pr.

Local Abbreviation h_dofs e := (fst (GetElementDofs (pr_hFESpace pr) e)).
Local Abbreviation kernel x localH mask :=
  (if Nat.eqb (tp_dim this) 2
   then Prolongation2D MAX_Q1D uninit NE D1D Q1D
          (ElementRestriction_Mult erl x) localH (tp_B this) mask
   else Prolongation3D MAX_Q1D uninit NE D1D Q1D
          (ElementRestriction_Mult erl x) localH (tp_B this) mask).

Lemma scalar_hidx (e p : nat) :
  (p < length (h_dofs e))%nat ->
  dof_index (nth p (h_vdofs pr e 0) 0%Z) = dof_index (nth p (h_dofs e) 0%Z).
Proof.
  intros Hp. rewrite hidx_eq by exact Hp.
  apply DofToVDof_scalar.
  rewrite (wf_vdim WF), Hl. exact (twf_vdim TWF).
Qed.

(** Every slot of the fine restriction has a row: the kernel leaves the
    product of the row with the coarse vector in the slot, times the mask,
    and the row is the one of the dense transfer. *)
Lemma slot_row (s : nat) :
  (s < er_Height erh)%nat ->
  exists row : nat -> R,
    (forall e' p j,
       (e' < mesh_GetNE (GetMesh (pr_hFESpace pr)))%nat ->
       (p < length (h_dofs e'))%nat ->
       (j < GetVSize (pr_lFESpace pr))%nat ->
       nth s (er_gather_map erh) 0%nat = dof_index (nth p (h_dofs e') 0%Z) ->
       row j = scattered_row GetTransferMatrix pr e' 0 p j)
    /\ (forall x localH mask,
          length localH = er_Height erh ->
          nth s (kernel x localH mask) rO
          = (sumn NL (fun j => row j * nth j x rO) * nth s mask rO)%S).
Proof.
  intros Hs. unfold er_Height in Hs.
  rewrite (twf_h_ne TWF), (twf_h_dof TWF) in Hs.
  destruct Hagr as [Hagr2 Hagr3].
  destruct (twf_dim TWF) as [Hdim|Hdim]; rewrite Hdim in Hs |- *; simpl in Hs.
  - destruct (@slot2D_decode _ _ _ Hs) as [e [qx [qy [He [Hqx [Hqy ->]]]]]].
    exists (tensor_row2D this erl e qx qy). split.
    + intros e' p j He' Hp Hj Hg. now apply Hagr2.
    + intros x localH mask Hlen. simpl. now apply tensor_slot2D.
  - destruct (@slot3D_decode _ _ _ Hs) as [e [qx [qy [qz [He [Hqx [Hqy [Hqz ->]]]]]]]].
    exists (tensor_row3D this erl e qx qy qz). split.
    + intros e' p j He' Hp Hj Hg. now apply Hagr3.
    + intros x localH mask Hlen. simpl. now apply tensor_slot3D.
Qed.

Lemma agreement_consistent : consistent GetTransferMatrix pr.
Proof.
  intros e e' vd vd' p p' j He He' Hvd Hvd' Hp Hp' Hj Hsame.
  assert (Hv : GetVDim (pr_lFESpace pr) = 1%nat)
    by (rewrite Hl; exact (twf_vdim TWF)).
  rewrite Hv in Hvd, Hvd'.
  assert (vd = 0%nat) by lia. assert (vd' = 0%nat) by lia. subst vd vd'.
  rewrite length_h_vdofs in Hp, Hp'.
  rewrite !scalar_hidx in Hsame by assumption.
  assert (Hd : (dof_index (nth p (h_dofs e) 0%Z)
                < GetVSize (pr_hFESpace pr))%nat).
  { rewrite <- scalar_hidx by exact Hp.
    apply (hidx_lt WF); [exact He|lia|exact Hp]. }
  destruct (Hcov Hd) as [[s [Hs Hg]] _].
  destruct (slot_row Hs) as [row [Hrow _]].
  rewrite <- (Hrow e p j He Hp Hj Hg).
  apply (Hrow e' p' j He' Hp' Hj). congruence.
Qed.

Lemma tensor_Mult_dense (x y : Vector R) :
  mesh_GetNE (GetMesh (tp_lFESpace this)) <> 0%nat ->
  elem_restrict_lex_l this = Some erl ->
  elem_restrict_lex_h this = Some erh ->
  tp_mask this = BooleanMask erh ->
  length (tp_localH this) = er_Height erh ->
  length y = GetVSize (tp_hFESpace this) ->
  TensorProductPRefinementTransferOperator_Mult MAX_Q1D uninit this x y
  = Ok (PRefinementTransferOperator_Mult GetTransferMatrix pr x y).
Proof.
  intros Hne Hel Heh Hmask HlH Hy.
  unfold TensorProductPRefinementTransferOperator_Mult.
  apply Nat.eqb_neq in Hne. rewrite Hne, Hel, Heh. simpl.
  assert (HK : (if Nat.eqb (tp_dim this) 2 then
                  Ok (Prolongation2D MAX_Q1D uninit NE D1D Q1D
                        (ElementRestriction_Mult erl x) (tp_localH this)
                        (tp_B this) (tp_mask this))
                else if Nat.eqb (tp_dim this) 3 then
                  Ok (Prolongation3D MAX_Q1D uninit NE D1D Q1D
                        (ElementRestriction_Mult erl x) (tp_localH this)
                        (tp_B this) (tp_mask this))
                else Abort (dim_message "Mult" (tp_dim this)))
               = Ok (kernel x (tp_localH this) (tp_mask this))).
  { destruct (twf_dim TWF) as [Hd|Hd]; rewrite Hd; reflexivity. }
  rewrite HK. simpl. f_equal.
  rewrite (Mult_is_Mult_state WF).
  destruct (@Mult_invariant_all _ _ GetTransferMatrix pr WF
              agreement_consistent x y
              (mesh_GetNE (GetMesh (pr_hFESpace pr))))
    as [Hlen [Hhit _]]; [now rewrite Hh|lia|].
  apply (list_eq_nth rO).
  - rewrite length_ElementRestriction_MultTranspose, Hlen, Hy.
    exact (twf_h_ndofs TWF).
  - intros d Hd. rewrite length_ElementRestriction_MultTranspose in Hd.
    assert (Hd' : (d < GetVSize (pr_hFESpace pr))%nat)
      by (rewrite Hh, <- (twf_h_ndofs TWF); exact Hd).
    destruct (Hcov Hd') as [Hslot [e' [p [He' [Hp Hdof]]]]].
    destruct (@MultTranspose_masked _ _ erh
                (kernel x (tp_localH this) (tp_mask this)) d Hd)
      as [s0 [Hs0 [Hg0 [Hm0 Hval]]]].
    + intros s Hs Hzero. destruct (slot_row Hs) as [row [_ Hk]].
      rewrite Hk, Hmask, Hzero by exact HlH. ring.
    + exact Hslot.
    + rewrite Hval. destruct (slot_row Hs0) as [row [Hrow Hk]].
      rewrite Hk, Hmask, Hm0 by exact HlH.
      rewrite <- Hdof, <- scalar_hidx by exact Hp.
      rewrite (Hhit e' 0%nat p);
        [|left; split; [exact He'|apply (wf_vdim_pos WF)]|exact Hp].
      rewrite (local_value_sum WF);
        [|exact He'|apply (wf_vdim_pos WF)|exact Hp].
      rewrite Hl.
      match goal with
      | |- (?a * rI)%S = ?b => assert (E : a = b); [|rewrite E; ring]
      end.
      apply sumn_ext. intros j Hj. f_equal.
      apply Hrow; [exact He'|exact Hp|now rewrite Hl|congruence].
Qed.

End TensorEquivalence.

Section TensorProductAgainstDense.
Context {R : Type} {SR : Scalar R}.
Variable MAX_Q1D : nat.
Variable uninit : nat -> R.
Variable GetTransferMatrix :
  FiniteElement R -> FiniteElement R -> DenseMatrix R.
Variable GetDofToQuad : FiniteElement R -> FiniteElement R -> DofToQuad R.
Variable GetElementRestriction :
  FiniteElementSpace R -> option ElementRestriction.

(** C6: for a pair of scalar spaces on the same non-empty mesh of
    dimension two or three, with the same tensor-product element in every
    cell, [TensorProductPRefinementTransferOperator::Mult] (the
    sum-factorized kernel, the mask of the first slot of every fine degree
    of freedom and the transpose of the fine restriction) returns the
    vector that [PRefinementTransferOperator::Mult] computes with the dense
    matrix of every element, for every input vector.  The collaborators
    are related as in the library: the restrictions are lexicographic
    with one block per element and reach every fine degree of freedom,
    the scratch arrays hold a line of points, and the Kronecker product of
    [B] with itself is the dense matrix of the element in the numbering
    of the restrictions.  The arithmetic is exact. *)
Theorem TensorProduct_Mult_is_dense_Mult
  (lFESpace hFESpace : FiniteElementSpace R)
  (this : TensorProductPRefinementTransferOperator R)
  (erl erh : ElementRestriction) (x y : Vector R) :
  TensorProductPRefinementTransferOperator_new uninit GetDofToQuad
    GetElementRestriction lFESpace hFESpace = Ok this ->
  mesh_GetNE (GetMesh lFESpace) <> 0%nat ->
  GetElementRestriction lFESpace = Some erl ->
  GetElementRestriction hFESpace = Some erh ->
  Tensor_well_formed MAX_Q1D this erl erh ->
  PRef_well_formed GetTransferMatrix
    (PRefinementTransferOperator_new lFESpace hFESpace) ->
  covered (PRefinementTransferOperator_new lFESpace hFESpace) erh ->
  agreement GetTransferMatrix this erl erh
    (PRefinementTransferOperator_new lFESpace hFESpace) ->
  length y = GetVSize hFESpace ->
  TensorProductPRefinementTransferOperator_Mult MAX_Q1D uninit this x y
  = Ok (PRefinementTransferOperator_Mult GetTransferMatrix
          (PRefinementTransferOperator_new lFESpace hFESpace) x y).
Proof.
  intros Hnew Hne Hgl Hgh TWF WF Hcov Hagr Hy.
  destruct (@TensorProduct_new_Ok _ _ uninit GetDofToQuad
              GetElementRestriction lFESpace hFESpace this Hnew Hne)
    as (Hl & Hh & _ & _ & _ & _ & _ & erl' & erh' & Hgl' & Hgh' & Hel & Heh
        & HlH & _ & Hmask).
  assert (erl' = erl) by congruence. assert (erh' = erh) by congruence.
  subst erl' erh'.
  apply (@tensor_Mult_dense _ _ MAX_Q1D uninit GetTransferMatrix this erl erh
           TWF (PRefinementTransferOperator_new lFESpace hFESpace)).
  - now rewrite Hl.
  - now rewrite Hh.
  - exact WF.
  - exact Hcov.
  - exact Hagr.
  - now rewrite Hl.
  - exact Hel.
  - exact Heh.
  - exact Hmask.
  - rewrite HlH. apply length_scratch.
  - now rewrite Hh.
Qed.

End TensorProductAgainstDense.

Ltac find_slot :=
  match goal with
  | |- exists s, (s < ?H)%nat /\ nth s ?g 0%nat = ?d =>
      let s0 := eval vm_compute in
                  (match find (fun s => Nat.eqb (nth s g 0%nat) d) (seq 0 H)
                   with Some s => s | None => 0%nat end) in
      exists s0; split; [vm_compute; lia|reflexivity]
  end.

Ltac find_position fes ne :=
  match goal with
  | |- exists e p, _ /\ _ /\ _ = ?d =>
      let ep := eval vm_compute in
                  (match find
                           (fun ep =>
                              Nat.eqb
                                (dof_index
                                   (nth (snd ep)
                                        (fst (GetElementDofs fes (fst ep)))
                                        0%Z))
                                d)
                           (list_prod (seq 0 ne) (seq 0 9))
                   with Some ep => ep | None => (0%nat, 0%nat) end) in
      match ep with
      | (?a, ?b) =>
          exists a, b; split; [vm_compute; lia|];
          split; [vm_compute; lia|reflexivity]
      end
  end.

Lemma square_tensor_well_formed :
  Tensor_well_formed 4 square_tensor square_coarse_restriction
                     square_fine_restriction.
Proof.
  constructor; try reflexivity.
  - left; reflexivity.
  - simpl; lia.
  - intros s Hs. change (s < 8)%nat in Hs. below; vm_compute; lia.
Qed.

Lemma square_prefinement_well_formed :
  PRef_well_formed square_transfer square_prefinement.
Proof.
  constructor.
  - reflexivity.
  - simpl; lia.
  - intros e He. split; reflexivity.
  - intros e p He Hp. simpl in He. below; simpl in Hp; below;
      vm_compute; lia.
  - intros e k He Hk. simpl in He. below; simpl in Hk; below;
      vm_compute; lia.
  - intros e He. simpl in He. below; vm_compute;
      repeat constructor; simpl; intuition lia.
  - intros e He. simpl in He. below; vm_compute; auto.
Qed.

Lemma square_covered : covered square_prefinement square_fine_restriction.
Proof.
  intros d Hd. change (d < 15)%nat in Hd.
  below; (split; [find_slot|find_position (square_space 2 2) 2%nat]).
Qed.

Lemma square_agreement :
  agreement square_transfer square_tensor square_coarse_restriction
            square_fine_restriction square_prefinement.
Proof.
  split.
  - intros _ e qx qy e' p j He Hqx Hqy He' Hp.
    change (e < 2)%nat in He. change (qx < 3)%nat in Hqx.
    change (qy < 3)%nat in Hqy. change (e' < 2)%nat in He'.
    below; simpl in Hp; below; intros Hj Hg;
      vm_compute in Hg; try discriminate Hg;
      change (j < 6)%nat in Hj; below; reflexivity.
  - intros H. discriminate H.
Qed.

Lemma TensorProduct_Mult_is_dense_Mult_witness :
  TensorProductPRefinementTransferOperator_Mult 4 zero_memory square_tensor
    [1%Z; 2%Z; 3%Z; 4%Z; 5%Z; 6%Z] (filled 15 0%Z)
  = Ok [4%Z; 6%Z; 8%Z; 10%Z; 12%Z; 10%Z; 12%Z; 14%Z; 16%Z; 18%Z; 16%Z;
        18%Z; 20%Z; 22%Z; 24%Z].
Proof.
  rewrite (@TensorProduct_Mult_is_dense_Mult Z _ 4%nat zero_memory
             square_transfer square_maps square_restriction
             (square_space 2 1) (square_space 2 2) square_tensor
             square_coarse_restriction square_fine_restriction
             [1%Z; 2%Z; 3%Z; 4%Z; 5%Z; 6%Z] (filled 15 0%Z)
             eq_refl (fun H => O_S 1 (eq_sym H)) eq_refl eq_refl
             square_tensor_well_formed square_prefinement_well_formed
             square_covered square_agreement eq_refl).
  reflexivity.
Defined.

(* ------------------------------------------------------------------ *)
(** ** The construction of the tensor-product transfer *)
(* ------------------------------------------------------------------ *)

Section TensorProductConstruction.
Context {R : Type} {SR : Scalar R}.
Variable MAX_D1D : nat.
Variable MAX_Q1D : nat.
Variable uninit : nat -> R.
Variable GetDofToQuad : FiniteElement R -> FiniteElement R -> DofToQuad R.
Variable GetElementRestriction :
  FiniteElementSpace R -> option ElementRestriction.

Local Abbreviation new :=
  (TensorProductPRefinementTransferOperator_new uninit GetDofToQuad
     GetElementRestriction).


(** X2: on an empty mesh the constructor checks nothing and succeeds, and
    [Mult] and [MultTranspose] of the operator it returns leave the output
    vector as it is and raise no error, whatever the dimension of the
    mesh. *)
Theorem TensorProduct_on_empty_mesh
  (lFESpace hFESpace : FiniteElementSpace R) :
  mesh_GetNE (GetMesh lFESpace) = 0%nat ->
  exists this,
    new lFESpace hFESpace = Ok this
    /\ forall x y,
         TensorProductPRefinementTransferOperator_Mult MAX_Q1D uninit this x y
         = Ok y
         /\ TensorProductPRefinementTransferOperator_MultTranspose MAX_D1D
              uninit this x y = Ok y.
Proof.
  intros Hne. unfold TensorProductPRefinementTransferOperator_new.
  rewrite Hne. simpl. eexists. split; [reflexivity|].
  intros x y.
  unfold TensorProductPRefinementTransferOperator_Mult,
    TensorProductPRefinementTransferOperator_MultTranspose.
  simpl. rewrite Hne. split; reflexivity.
Qed.

End TensorProductConstruction.


Lemma TensorProduct_on_empty_mesh_witness :
  exists this,
    TensorProductPRefinementTransferOperator_new zero_memory segment_maps
      segment_restriction (segment_space 5 0 segment_P1)
      (segment_space 5 0 segment_P2) = Ok this
    /\ forall x y,
         TensorProductPRefinementTransferOperator_Mult 4 zero_memory this x y
         = Ok y
         /\ TensorProductPRefinementTransferOperator_MultTranspose 4
              zero_memory this x y = Ok y.
Proof.
  apply (@TensorProduct_on_empty_mesh Z _ 4%nat 4%nat zero_memory segment_maps
           segment_restriction (segment_space 5 0 segment_P1)
           (segment_space 5 0 segment_P2)).
  reflexivity.
Defined.

(* ------------------------------------------------------------------ *)
(** ** The choice of the transfer and the cached element matrix *)
(* ------------------------------------------------------------------ *)

Lemma Geometry_eqb_eq (a b : Geometry) : Geometry_eqb a b = true <-> a = b.
Proof. destruct a, b; simpl; split; congruence. Qed.

Section TransferConstruction.
Context {R : Type} {SR : Scalar R}.
Variable uninit : nat -> R.
Variable GetTransferMatrix :
  FiniteElement R -> FiniteElement R -> DenseMatrix R.
Variable GetDofToQuad : FiniteElement R -> FiniteElement R -> DofToQuad R.
Variable GetElementRestriction :
  FiniteElementSpace R -> option ElementRestriction.
Variable same_FEColl : FiniteElementSpace R -> FiniteElementSpace R -> bool.
Variable GetTransferOperator :
  FiniteElementSpace R -> FiniteElementSpace R -> Operator R.

Local Abbreviation new :=
  (TransferOperator_new uninit GetDofToQuad GetElementRestriction same_FEColl
     GetTransferOperator).


(** The matrix part of the state of the loop of [Mult] does not depend on
    the vectors. *)
Lemma Mult_cache (this : PRefinementTransferOperator R) (x : Vector R)
  (n : nat) (cache : Geometry * DenseMatrix R) (y : Vector R) :
  fst (fold_left (PRef_Mult_element GetTransferMatrix this x) (seq 0 n)
                 (cache, y))
  = fold_left
      (fun cache e =>
         load_loc_prol GetTransferMatrix this (fun m => m) e cache)
      (seq 0 n) cache.
Proof.
  induction n as [|n IH]; [reflexivity|].
  rewrite !fold_left_seq_S.
  destruct (fold_left (PRef_Mult_element GetTransferMatrix this x) (seq 0 n)
                      (cache, y)) as [c y'] eqn:E.
  simpl in IH. rewrite <- IH.
  unfold PRef_Mult_element.
  destruct (GetElementDofs (pr_hFESpace this) n) as [hd ht].
  destruct (GetElementDofs (pr_lFESpace this) n) as [ld lt].
  reflexivity.
Qed.

Lemma cache_geometry (this : PRefinementTransferOperator R) (e : nat) :
  fst (fold_left
         (fun cache e =>
            load_loc_prol GetTransferMatrix this (fun m => m) e cache)
         (seq 0 (S e)) (INVALID, DenseMatrix_zero 0 0))
  = GetElementBaseGeometry (GetMesh (pr_hFESpace this)) e.
Proof.
  rewrite fold_left_seq_S. unfold load_loc_prol at 1.
  match goal with
  | |- fst (if negb (Geometry_eqb ?g (fst ?c)) || _ then _ else _) = _ =>
      destruct (Geometry_eqb g (fst c)) eqn:E; simpl
  end.
  - destruct (pr_isvar_order this); simpl; [reflexivity|].
    apply Geometry_eqb_eq in E. now rewrite <- E.
  - reflexivity.
Qed.

(** X4: in a space pair without variable order, [Mult] fetches the local
    transfer matrix only where the geometry of the element differs from
    the one before: while it works on element [e] it uses the matrix of
    element [s], the first of the run of elements of one geometry that
    contains [e], also when the elements of the run have different
    orders. *)
Theorem Mult_matrix_of_run (this : PRefinementTransferOperator R)
  (x y : Vector R) (s e : nat) :
  pr_isvar_order this = false ->
  (s <= e)%nat ->
  (forall i, (s <= i <= e)%nat ->
     GetElementBaseGeometry (GetMesh (pr_hFESpace this)) i
     = GetElementBaseGeometry (GetMesh (pr_hFESpace this)) s) ->
  (s = 0%nat ->
   GetElementBaseGeometry (GetMesh (pr_hFESpace this)) 0 <> INVALID) ->
  (s <> 0%nat ->
   GetElementBaseGeometry (GetMesh (pr_hFESpace this)) (s - 1)
   <> GetElementBaseGeometry (GetMesh (pr_hFESpace this)) s) ->
  snd (fst (fold_left (PRef_Mult_element GetTransferMatrix this x)
                      (seq 0 (S e)) ((INVALID, DenseMatrix_zero 0 0), y)))
  = GetTransferMatrix (GetFE (pr_hFESpace this) s) (GetFE (pr_lFESpace this) s).
Proof.
  intros Hvar Hse Hrun H0 Hprev. rewrite Mult_cache.
  assert (Hs : snd (fold_left
                      (fun cache e =>
                         load_loc_prol GetTransferMatrix this (fun m => m) e
                                       cache)
                      (seq 0 (S s)) (INVALID, DenseMatrix_zero 0 0))
               = GetTransferMatrix (GetFE (pr_hFESpace this) s)
                                   (GetFE (pr_lFESpace this) s)).
  { rewrite fold_left_seq_S. unfold load_loc_prol at 1. rewrite Hvar.
    rewrite orb_false_r.
    match goal with
    | |- snd (if negb (Geometry_eqb ?g (fst ?c)) then _ else _) = _ =>
        destruct (Geometry_eqb g (fst c)) eqn:E; simpl; [|reflexivity]
    end.
    exfalso. apply Geometry_eqb_eq in E.
    destruct s as [|s'].
    - simpl in E. now apply H0.
    - rewrite cache_geometry in E. apply Hprev; [lia|].
      replace (S s' - 1)%nat with s' by lia. now symmetry. }
  assert (H : forall k, (s + k <= e)%nat ->
            snd (fold_left
                   (fun cache e =>
                      load_loc_prol GetTransferMatrix this (fun m => m) e
                                    cache)
                   (seq 0 (S (s + k))) (INVALID, DenseMatrix_zero 0 0))
            = GetTransferMatrix (GetFE (pr_hFESpace this) s)
                                (GetFE (pr_lFESpace this) s)).
  { induction k as [|k IH]; intros Hk.
    - now rewrite Nat.add_0_r.
    - replace (s + S k)%nat with (S (s + k)) by lia.
      rewrite (fold_left_seq_S _ (S (s + k))). unfold load_loc_prol at 1.
      rewrite Hvar, orb_false_r, cache_geometry.
      rewrite (Hrun (S (s + k))), (Hrun (s + k)%nat) by lia.
      replace (Geometry_eqb _ _) with true
        by (symmetry; now apply Geometry_eqb_eq).
      simpl. apply IH. lia. }
  replace e with (s + (e - s))%nat by lia. apply H. lia.
Qed.

(** X5: for a pair with a space of variable order the constructor of
    [TransferOperator] takes the dense [PRefinementTransferOperator], and
    its [Mult] fetches the local transfer matrix anew for every element:
    while it works on element [e] it uses the matrix of the two elements
    [e]. *)
Theorem variable_order_transfer
  (lFESpace hFESpace : FiniteElementSpace R) (x y : Vector R) (e : nat) :
  IsVariableOrder lFESpace || IsVariableOrder hFESpace = true ->
  new lFESpace hFESpace
  = Ok (PRefinementTransfer
          (PRefinementTransferOperator_new lFESpace hFESpace))
  /\ snd (fst (fold_left
                 (PRef_Mult_element GetTransferMatrix
                    (PRefinementTransferOperator_new lFESpace hFESpace) x)
                 (seq 0 (S e)) ((INVALID, DenseMatrix_zero 0 0), y)))
     = GetTransferMatrix (GetFE hFESpace e) (GetFE lFESpace e).
Proof.
  intros Hvar. split.
  - unfold TransferOperator_new. rewrite Hvar. simpl.
    rewrite !andb_false_r. reflexivity.
  - rewrite Mult_cache, fold_left_seq_S. unfold load_loc_prol at 1.
    simpl. rewrite Hvar, orb_true_r. reflexivity.
Qed.

End TransferConstruction.


Lemma Mult_matrix_of_run_witness :
  snd (fst (fold_left
              (PRef_Mult_element square_transfer square_prefinement
                 [1%Z; 2%Z; 3%Z; 4%Z; 5%Z; 6%Z])
              (seq 0 2)
              ((INVALID, DenseMatrix_zero 0 0), filled 15 0%Z)))
  = square_transfer (square_element 2) (square_element 1).
Proof.
  apply (@Mult_matrix_of_run Z _ square_transfer square_prefinement
           [1%Z; 2%Z; 3%Z; 4%Z; 5%Z; 6%Z] (filled 15 0%Z) 0%nat 1%nat).
  - reflexivity.
  - lia.
  - intros i Hi. reflexivity.
  - intros _. simpl. discriminate.
  - intros H. now elim H.
Defined.

Lemma variable_order_transfer_witness :
  TransferOperator_new zero_memory square_maps square_restriction
    (fun _ _ => true) (fun _ fes => copy_operator (GetNDofs fes))
    (square_space 2 1) (with_variable_order (square_space 2 2))
  = Ok (PRefinementTransfer
          (PRefinementTransferOperator_new (square_space 2 1)
             (with_variable_order (square_space 2 2))))
  /\ snd (fst (fold_left
                 (PRef_Mult_element square_transfer
                    (PRefinementTransferOperator_new (square_space 2 1)
                       (with_variable_order (square_space 2 2)))
                    [1%Z; 2%Z; 3%Z; 4%Z; 5%Z; 6%Z])
                 (seq 0 2)
                 ((INVALID, DenseMatrix_zero 0 0), filled 15 0%Z)))
     = square_transfer (square_element 2) (square_element 1).
Proof.
  apply (@variable_order_transfer Z _ zero_memory square_transfer square_maps
           square_restriction (fun _ _ => true)
           (fun _ fes => copy_operator (GetNDofs fes))
           (square_space 2 1) (with_variable_order (square_space 2 2))
           [1%Z; 2%Z; 3%Z; 4%Z; 5%Z; 6%Z] (filled 15 0%Z) 1%nat).
  reflexivity.
Defined.

(* ------------------------------------------------------------------ *)
(** ** What [PRefinementTransferOperator::Mult] writes *)
(* ------------------------------------------------------------------ *)

Section MultFrame.
Context {R : Type} {SR : Scalar R}.
Variable GetTransferMatrix :
  FiniteElement R -> FiniteElement R -> DenseMatrix R.
Variable this : PRefinementTransferOperator R.

Lemma Mult_element_frame (x : Vector R) (i d : nat)
  (st : Geometry * DenseMatrix R * Vector R) :
  (forall vd p,
     (vd < GetVDim (pr_lFESpace this))%nat ->
     (p < length (fst (GetElementDofs (pr_hFESpace this) i)))%nat ->
     dof_index (nth p (h_vdofs this i vd) 0%Z) <> d) ->
  length (snd (PRef_Mult_element GetTransferMatrix this x st i))
  = length (snd st)
  /\ nth d (snd (PRef_Mult_element GetTransferMatrix this x st i)) rO
     = nth d (snd st) rO.
Proof.
  intros Hd. destruct st as [cache y]. unfold PRef_Mult_element, h_vdofs in *.
  destruct (GetElementDofs (pr_hFESpace this) i) as [hd ht].
  destruct (GetElementDofs (pr_lFESpace this) i) as [ld lt].
  simpl in *.
  assert (H : forall m, (m <= GetVDim (pr_lFESpace this))%nat ->
            forall y0,
              length
                (fold_left
                   (fun y vd =>
                      SetSubVector (DofsToVDofs (pr_hFESpace this) vd hd)
                        (with_doftrans ht (@TransformPrimal R)
                           (DenseMatrix_Mult
                              (snd (load_loc_prol GetTransferMatrix this
                                      (fun m => m) i cache))
                              (with_doftrans lt (@InvTransformPrimal R)
                                 (GetSubVector
                                    (DofsToVDofs (pr_lFESpace this) vd ld)
                                    x))))
                        y)
                   (seq 0 m) y0)
              = length y0
              /\ nth d
                   (fold_left
                      (fun y vd =>
                         SetSubVector (DofsToVDofs (pr_hFESpace this) vd hd)
                           (with_doftrans ht (@TransformPrimal R)
                              (DenseMatrix_Mult
                                 (snd (load_loc_prol GetTransferMatrix this
                                         (fun m => m) i cache))
                                 (with_doftrans lt (@InvTransformPrimal R)
                                    (GetSubVector
                                       (DofsToVDofs (pr_lFESpace this) vd ld)
                                       x))))
                           y)
                      (seq 0 m) y0) rO
                 = nth d y0 rO).
  { induction m as [|m IH]; intros Hm y0; [split; reflexivity|].
    rewrite fold_left_seq_S.
    destruct (IH ltac:(lia) y0) as [IHl IHn].
    rewrite length_SetSubVector, nth_SetSubVector_miss.
    - split; assumption.
    - intros Hin. apply In_dof_index in Hin. destruct Hin as [p [Hp Hq]].
      rewrite length_DofsToVDofs in Hp.
      apply (Hd m p); [lia|exact Hp|exact Hq]. }
  apply H. lia.
Qed.

(** X6: [PRefinementTransferOperator::Mult] keeps the length of the
    output vector and overwrites only the entries that the tables of the
    fine elements name: an entry that is the index of no component of no
    element is as it was before the call. *)
Theorem Mult_keeps_other_entries (x y : Vector R) (d : nat) :
  (forall e vd p,
     (e < mesh_GetNE (GetMesh (pr_hFESpace this)))%nat ->
     (vd < GetVDim (pr_lFESpace this))%nat ->
     (p < length (fst (GetElementDofs (pr_hFESpace this) e)))%nat ->
     dof_index (nth p (h_vdofs this e vd) 0%Z) <> d) ->
  length (PRefinementTransferOperator_Mult GetTransferMatrix this x y)
  = length y
  /\ nth d (PRefinementTransferOperator_Mult GetTransferMatrix this x y) rO
     = nth d y rO.
Proof.
  intros Hd. unfold PRefinementTransferOperator_Mult.
  assert (H : forall n,
            (n <= mesh_GetNE (GetMesh (pr_hFESpace this)))%nat ->
            length (snd (fold_left (PRef_Mult_element GetTransferMatrix this x)
                                   (seq 0 n)
                                   ((INVALID, DenseMatrix_zero 0 0), y)))
            = length y
            /\ nth d (snd (fold_left
                             (PRef_Mult_element GetTransferMatrix this x)
                             (seq 0 n)
                             ((INVALID, DenseMatrix_zero 0 0), y))) rO
               = nth d y rO).
  { induction n as [|n IH]; intros Hn; [split; reflexivity|].
    rewrite fold_left_seq_S.
    destruct (IH ltac:(lia)) as [IHl IHn].
    destruct (@Mult_element_frame x n d
                (fold_left (PRef_Mult_element GetTransferMatrix this x)
                           (seq 0 n) ((INVALID, DenseMatrix_zero 0 0), y)))
      as [Hl Hk].
    - intros vd p Hvd Hp. apply Hd; [lia|exact Hvd|exact Hp].
    - rewrite Hl, Hk. split; assumption. }
  apply H. lia.
Qed.

End MultFrame.

Lemma Mult_keeps_other_entries_witness :
  length (PRefinementTransferOperator_Mult segment_transfer
            segment_prefinement [1%Z; 2%Z; 3%Z]
            [7%Z; 7%Z; 7%Z; 7%Z; 7%Z; 7%Z; 7%Z]) = 7%nat
  /\ nth 6 (PRefinementTransferOperator_Mult segment_transfer
              segment_prefinement [1%Z; 2%Z; 3%Z]
              [7%Z; 7%Z; 7%Z; 7%Z; 7%Z; 7%Z; 7%Z]) 0%Z = 7%Z.
Proof.
  apply (@Mult_keeps_other_entries Z _ segment_transfer segment_prefinement
           [1%Z; 2%Z; 3%Z] [7%Z; 7%Z; 7%Z; 7%Z; 7%Z; 7%Z; 7%Z] 6%nat).
  intros e vd p He Hvd Hp. simpl in He, Hvd.
  below; simpl in Hp; below; vm_compute; lia.
Defined.

(* ------------------------------------------------------------------ *)
(** ** [PRefinementTransferOperator::Mult] as a matrix *)
(* ------------------------------------------------------------------ *)

Lemma bounded_search (n : nat) (P : nat -> Prop) :
  (forall i, (i < n)%nat -> P i \/ ~ P i) ->
  (exists i, (i < n)%nat /\ P i) \/ (forall i, (i < n)%nat -> ~ P i).
Proof.
  induction n as [|n IH]; intros Hdec; [right; intros; lia|].
  destruct IH as [[i [Hi HP]]|Hnone].
  - intros i Hi. apply Hdec. lia.
  - left. exists i. split; [lia|exact HP].
  - destruct (Hdec n) as [HP|HP]; [lia| |].
    + left. exists n. split; [lia|exact HP].
    + right. intros i Hi. destruct (Nat.eq_dec i n) as [->|]; [exact HP|].
      apply Hnone. lia.
Qed.

Section MultMatrix.
Context {R : Type} {SR : Scalar R}.
Add Ring scalar_ring_mult_matrix : (@scalar_ring R SR).
Variable GetTransferMatrix :
  FiniteElement R -> FiniteElement R -> DenseMatrix R.
Variable this : PRefinementTransferOperator R.
Hypothesis WF : PRef_well_formed GetTransferMatrix this.
Hypothesis Hcons : consistent GetTransferMatrix this.

Local Abbreviation lF := (pr_lFESpace this).
Local Abbreviation hF := (pr_hFESpace this).
Local Abbreviation NE := (mesh_GetNE (GetMesh (pr_hFESpace this))).
Local Abbreviation vdim := (GetVDim (pr_lFESpace this)).
Local Abbreviation h_dofs e := (fst (GetElementDofs (pr_hFESpace this) e)).
Local Abbreviation hidx e vd p := (dof_index (nth p (h_vdofs this e vd) 0%Z)).

Lemma touched_or_not (d : nat) :
  (exists e vd p, (e < NE)%nat /\ (vd < vdim)%nat
                  /\ (p < length (h_dofs e))%nat /\ hidx e vd p = d)
  \/ (forall e vd p, (e < NE)%nat -> (vd < vdim)%nat ->
        (p < length (h_dofs e))%nat -> hidx e vd p <> d).
Proof.
  destruct (@bounded_search NE
              (fun e => exists vd, (vd < vdim)%nat
                          /\ exists p, (p < length (h_dofs e))%nat
                                       /\ hidx e vd p = d))
    as [[e [He [vd [Hvd [p [Hp Hd]]]]]]|Hnone].
  - intros e He.
    destruct (@bounded_search vdim
                (fun vd => exists p, (p < length (h_dofs e))%nat
                                     /\ hidx e vd p = d))
      as [[vd [Hvd HP]]|Hnone].
    + intros vd Hvd.
      destruct (@bounded_search (length (h_dofs e))
                  (fun p => hidx e vd p = d)) as [[p [Hp HP]]|Hnone].
      * intros p Hp. destruct (Nat.eq_dec (hidx e vd p) d); auto.
      * left. exists p. auto.
      * right. intros [p [Hp HP]]. now apply (Hnone p Hp).
    + left. exists vd. auto.
    + right. intros [vd [Hvd HP]]. now apply (Hnone vd Hvd).
  - left. exists e, vd, p. auto.
  - right. intros e vd p He Hvd Hp Hd. apply (Hnone e He).
    exists vd. split; [exact Hvd|]. exists p. auto.
Qed.

(** The entries of [Mult] on a zeroed output vector. *)
Lemma Mult_entry (x : Vector R) (d : nat) :
  (d < GetVSize hF)%nat ->
  nth d (PRefinementTransferOperator_Mult GetTransferMatrix this x
           (filled (GetVSize hF) rO)) rO
  = sumn (GetVSize lF)
      (fun j =>
         (Elem (GlobalTransferMatrix GetTransferMatrix this) d j
          * nth j x rO)%S).
Proof.
  intros Hd.
  assert (Hinv : forall v,
            Mult_invariant GetTransferMatrix this v (filled (GetVSize hF) rO)
                           NE 0).
  { intros v. apply (Mult_invariant_all WF Hcons);
      [apply length_filled|lia]. }
  assert (HG : forall j, (j < GetVSize lF)%nat ->
            Elem (GlobalTransferMatrix GetTransferMatrix this) d j
            = nth d (Mult_part GetTransferMatrix this
                       (unit_vector (GetVSize lF) j) NE 0
                       (filled (GetVSize hF) rO)) rO).
  { intros j Hj. unfold GlobalTransferMatrix. rewrite Elem_of by auto.
    now rewrite (Mult_is_Mult_state WF). }
  rewrite (Mult_is_Mult_state WF).
  destruct (touched_or_not d) as [[e [vd [p [He [Hvd [Hp Hhit]]]]]]|Hmiss].
  - subst d. destruct (Hinv x) as [_ [Hval _]].
    rewrite (Hval e vd p) by (auto; left; auto).
    rewrite (local_value_sum WF) by auto.
    apply sumn_ext. intros j Hj. f_equal.
    rewrite HG by exact Hj.
    destruct (Hinv (unit_vector (GetVSize lF) j)) as [_ [Hval' _]].
    rewrite (Hval' e vd p) by (auto; left; auto).
    symmetry. now apply (local_value_unit WF).
  - destruct (Hinv x) as [_ [_ Hkeep]].
    rewrite Hkeep, nth_filled.
    + symmetry. apply sumn_all_zero. intros j Hj. rewrite HG by exact Hj.
      destruct (Hinv (unit_vector (GetVSize lF) j)) as [_ [_ Hkeep']].
      rewrite Hkeep', nth_filled; [ring|].
      intros e vd p [[He Hvd]|[He Hvd]] Hp; [now apply Hmiss|lia].
    + intros e vd p [[He Hvd]|[He Hvd]] Hp; [now apply Hmiss|lia].
Qed.

(** X7: [PRefinementTransferOperator::Mult] is linear in its input: on a
    zeroed output vector it returns the product of the input with the
    matrix whose column [j] is the image of the [j]-th unit vector, for
    elements without [DofTransformation] whose tables are in range and
    that agree on the degrees of freedom they share. *)
Theorem Mult_is_matrix_product (x : Vector R) :
  PRefinementTransferOperator_Mult GetTransferMatrix this x
    (filled (GetVSize (pr_hFESpace this)) rO)
  = DenseMatrix_Mult (GlobalTransferMatrix GetTransferMatrix this) x.
Proof.
  apply (list_eq_nth rO).
  - rewrite length_DenseMatrix_Mult, (Mult_is_Mult_state WF).
    destruct (@Mult_invariant_all _ _ GetTransferMatrix this WF Hcons x
                (filled (GetVSize hF) rO) NE) as [Hl _];
      [apply length_filled|lia|].
    rewrite Hl. apply length_filled.
  - intros d Hd.
    assert (Hd' : (d < GetVSize hF)%nat).
    { rewrite (Mult_is_Mult_state WF) in Hd.
      destruct (@Mult_invariant_all _ _ GetTransferMatrix this WF Hcons x
                  (filled (GetVSize hF) rO) NE) as [Hl _];
        [apply length_filled|lia|].
      rewrite Hl, length_filled in Hd. exact Hd. }
    rewrite Mult_entry by exact Hd'.
    rewrite nth_DenseMatrix_Mult by exact Hd'. reflexivity.
Qed.

(** The entries of [MultTranspose]. *)
Lemma MultTranspose_entry (z y : Vector R) (j : nat) :
  length y = GetVSize lF -> (j < GetVSize lF)%nat ->
  nth j (PRefinementTransferOperator_MultTranspose GetTransferMatrix this z y)
      rO
  = sumn (GetVSize hF)
      (fun d =>
         (nth d z rO
          * Elem (GlobalTransferMatrix GetTransferMatrix this) d j)%S).
Proof.
  intros Hy Hj. unfold PRefinementTransferOperator_MultTranspose.
  rewrite (MultTranspose_prefix WF) by lia. simpl.
  change (MultTranspose_state GetTransferMatrix this z NE
            (map (fun _ => rO) y))
    with (MultTranspose_part GetTransferMatrix this z NE 0
            (map (fun _ => rO) y)).
  rewrite (adjoint_all WF Hcons) by auto.
  apply sumn_ext. intros d Hd. f_equal.
  unfold GlobalTransferMatrix. rewrite Elem_of by auto.
  now rewrite (Mult_is_Mult_state WF).
Qed.

(** X8: [MultTranspose] is the adjoint of [Mult]: the inner product of
    [Mult x], computed on a zeroed vector, with a fine vector [z] equals
    the inner product of [x] with [MultTranspose z], whatever the output
    vector of [MultTranspose] held before. *)
Theorem Mult_MultTranspose_adjoint (x z y : Vector R) :
  length y = GetVSize (pr_lFESpace this) ->
  dot (GetVSize (pr_hFESpace this))
      (PRefinementTransferOperator_Mult GetTransferMatrix this x
         (filled (GetVSize (pr_hFESpace this)) rO))
      z
  = dot (GetVSize (pr_lFESpace this)) x
        (PRefinementTransferOperator_MultTranspose GetTransferMatrix this z y).
Proof.
  intros Hy. unfold dot.
  transitivity
    (sumn (GetVSize hF)
       (fun d =>
          sumn (GetVSize lF)
            (fun j =>
               (nth j x rO
                * (nth d z rO
                   * Elem (GlobalTransferMatrix GetTransferMatrix this) d j))%S))).
  - apply sumn_ext. intros d Hd. rewrite Mult_entry by exact Hd.
    rewrite <- sumn_mul_r. apply sumn_ext. intros j Hj. ring.
  - rewrite sumn_swap. apply sumn_ext. intros j Hj.
    rewrite MultTranspose_entry by auto.
    now rewrite sumn_mul_l.
Qed.

End MultMatrix.

Lemma Mult_is_matrix_product_witness :
  PRefinementTransferOperator_Mult segment_transfer segment_prefinement
    [1%Z; 2%Z; 3%Z] (filled 5 0%Z)
  = DenseMatrix_Mult (GlobalTransferMatrix segment_transfer segment_prefinement)
      [1%Z; 2%Z; 3%Z].
Proof.
  apply (@Mult_is_matrix_product Z _ segment_transfer segment_prefinement
           segment_prefinement_well_formed segment_prefinement_consistent
           [1%Z; 2%Z; 3%Z]).
Defined.

Lemma Mult_MultTranspose_adjoint_witness :
  dot 5 (PRefinementTransferOperator_Mult segment_transfer segment_prefinement
           [1%Z; 2%Z; 3%Z] (filled 5 0%Z))
      [1%Z; 2%Z; 3%Z; 4%Z; 5%Z]
  = dot 3 [1%Z; 2%Z; 3%Z]
        (PRefinementTransferOperator_MultTranspose segment_transfer
           segment_prefinement [1%Z; 2%Z; 3%Z; 4%Z; 5%Z] [9%Z; 9%Z; 9%Z]).
Proof.
  apply (@Mult_MultTranspose_adjoint Z _ segment_transfer segment_prefinement
           segment_prefinement_well_formed segment_prefinement_consistent
           [1%Z; 2%Z; 3%Z] [1%Z; 2%Z; 3%Z; 4%Z; 5%Z] [9%Z; 9%Z; 9%Z]).
  reflexivity.
Defined.

(* ------------------------------------------------------------------ *)
(** ** The table of children and the offsets of the blocks *)
(* ------------------------------------------------------------------ *)

Lemma concat_insert (a : nat) (k0 : nat) (f : nat -> list nat)
  (ks : list nat) :
  NoDup ks -> In k0 ks ->
  Permutation
    (concat (map (fun k => if Nat.eqb k0 k then a :: f k else f k) ks))
    (a :: concat (map f ks)).
Proof.
  induction ks as [|k ks IH]; intros Hnd Hin; [destruct Hin|].
  inversion Hnd as [|? ? Hnotin Hnd']; subst. simpl.
  destruct (Nat.eqb_spec k0 k) as [->|Hne].
  - simpl. apply perm_skip. apply Permutation_app_head.
    replace (map (fun k0 => if Nat.eqb k k0 then a :: f k0 else f k0) ks)
      with (map f ks); [apply Permutation_refl|].
    apply map_ext_in. intros k' Hk'.
    destruct (Nat.eqb_spec k k'); [congruence|reflexivity].
  - destruct Hin as [->|Hin]; [congruence|].
    eapply Permutation_trans;
      [apply Permutation_app_head, (IH Hnd' Hin)|].
    apply Permutation_sym, Permutation_middle.
Qed.

Lemma concat_filter_by_key (key : nat -> nat) (ks l : list nat) :
  NoDup ks -> (forall a, In a l -> In (key a) ks) ->
  Permutation
    (concat (map (fun k => filter (fun a => Nat.eqb (key a) k) l) ks)) l.
Proof.
  intros Hnd. induction l as [|a l IH]; intros Hkeys.
  - simpl. replace (concat (map (fun _ : nat => @nil nat) ks)) with (@nil nat);
      [constructor|].
    clear. induction ks; simpl; auto.
  - simpl.
    eapply Permutation_trans;
      [|apply perm_skip, IH; intros b Hb; apply Hkeys; now right].
    replace (map (fun k => if Nat.eqb (key a) k
                           then a :: filter (fun a0 => Nat.eqb (key a0) k) l
                           else filter (fun a0 => Nat.eqb (key a0) k) l) ks)
      with (map (fun k => if Nat.eqb (key a) k
                          then a :: (fun k => filter
                                               (fun a0 => Nat.eqb (key a0) k)
                                               l) k
                          else (fun k => filter
                                           (fun a0 => Nat.eqb (key a0) k) l) k)
                ks) by reflexivity.
    apply concat_insert; [exact Hnd|]. apply Hkeys. now left.
Qed.

Lemma list_sum_prefix_le (f : nat -> nat) (a b : nat) :
  (a <= b)%nat ->
  (list_sum (map f (seq 0 a)) <= list_sum (map f (seq 0 b)))%nat.
Proof.
  induction 1 as [|b Hab IH]; [lia|].
  rewrite seq_S, map_app, list_sum_app. simpl. lia.
Qed.

Section Ho2Lor.
Context {R : Type} {SR : Scalar R}.

(** X9: [BuildHo2Lor] sorts the fine elements by their parent: when
    every parent is a coarse element, the rows of [ho2lor], one after the
    other, hold every fine element exactly once. *)
Theorem BuildHo2Lor_partition (nel_ho nel_lor : nat)
  (cf_tr : CoarseFineTransformations R) :
  (forall ilor, (ilor < nel_lor)%nat ->
     (parent (nth ilor (embeddings cf_tr) {| parent := 0; matrix := 0 |})
      < nel_ho)%nat) ->
  Permutation (concat (BuildHo2Lor nel_ho nel_lor cf_tr)) (seq 0 nel_lor).
Proof.
  intros Hpar. unfold BuildHo2Lor.
  apply (concat_filter_by_key
           (fun ilor =>
              parent (nth ilor (embeddings cf_tr)
                          {| parent := 0; matrix := 0 |}))).
  - apply seq_NoDup.
  - intros a Ha. apply in_seq in Ha. apply in_seq.
    specialize (Hpar a). lia.
Qed.

Lemma nth_L2_offsets (fes_ho fes_lor : FiniteElementSpace R)
  (ho2lor : list (list nat)) (nel_ho k : nat) :
  (k <= nel_ho)%nat ->
  nth k (L2_offsets fes_ho fes_lor ho2lor nel_ho) 0%nat
  = list_sum (map (L2_block fes_ho fes_lor ho2lor) (seq 0 k)).
Proof.
  intros Hk. unfold L2_offsets.
  assert (H : forall m, (m <= nel_ho)%nat ->
            length
              (fold_left
                 (fun offsets iho =>
                    upd (S iho)
                        (nth iho offsets 0
                         + GetDof (GetFE fes_ho iho)
                           * GetDof (GetFE fes_lor
                                       (nth 0 (nth iho ho2lor []) 0%nat))
                           * length (nth iho ho2lor []))%nat
                        offsets)
                 (seq 0 m) (filled (S nel_ho) 0%nat))
            = S nel_ho
            /\ forall i, (i <= m)%nat ->
                 nth i
                   (fold_left
                      (fun offsets iho =>
                         upd (S iho)
                             (nth iho offsets 0
                              + GetDof (GetFE fes_ho iho)
                                * GetDof (GetFE fes_lor
                                            (nth 0 (nth iho ho2lor []) 0%nat))
                                * length (nth iho ho2lor []))%nat
                             offsets)
                      (seq 0 m) (filled (S nel_ho) 0%nat)) 0%nat
                 = list_sum (map (L2_block fes_ho fes_lor ho2lor) (seq 0 i))).
  { induction m as [|m IH]; intros Hm.
    - split; [exact (length_filled (S nel_ho) 0%nat)|].
      intros i Hi. assert (i = 0%nat) by lia. subst i.
      exact (nth_filled (S nel_ho) 0 0%nat).
    - destruct (IH ltac:(lia)) as [IHl IHn].
      rewrite fold_left_seq_S. split; [now rewrite length_upd|].
      intros i Hi. rewrite nth_upd.
      destruct (Nat.eqb_spec (S m) i) as [<-|Hne].
      + rewrite IHl.
        replace (Nat.ltb (S m) (S nel_ho)) with true
          by (symmetry; apply Nat.ltb_lt; lia).
        simpl andb. cbv iota.
        rewrite (IHn m) by lia.
        rewrite seq_S, map_app, list_sum_app. simpl.
        unfold L2_block. lia.
      + simpl. apply IHn. lia. }
  destruct (H nel_ho ltac:(lia)) as [_ Hn]. now apply Hn.
Qed.

(** X10: the loop that fills [offsets] leaves the running totals of the
    block sizes: [offsets[k]] is the sum of
    [fe_ho.GetDof()*fe_lor.GetDof()*nref] over the coarse elements before
    [k], so that [offsets[0]] is zero and the blocks follow one another
    without gap or overlap. *)
Theorem L2_offsets_prefix_sums (fes_ho fes_lor : FiniteElementSpace R)
  (ho2lor : list (list nat)) (nel_ho k : nat) :
  (k <= nel_ho)%nat ->
  nth k (L2_offsets fes_ho fes_lor ho2lor nel_ho) 0%nat
  = list_sum (map (L2_block fes_ho fes_lor ho2lor) (seq 0 k))
  /\ nth 0 (L2_offsets fes_ho fes_lor ho2lor nel_ho) 0%nat = 0%nat
  /\ forall i, (i < k)%nat ->
       (nth i (L2_offsets fes_ho fes_lor ho2lor nel_ho) 0
        + L2_block fes_ho fes_lor ho2lor i
        <= nth k (L2_offsets fes_ho fes_lor ho2lor nel_ho) 0)%nat.
Proof.
  intros Hk. split; [now apply nth_L2_offsets|]. split.
  - rewrite nth_L2_offsets by lia. reflexivity.
  - intros i Hi. rewrite !nth_L2_offsets by lia.
    pose proof (list_sum_prefix_le (L2_block fes_ho fes_lor ho2lor)
                  (a := S i) (b := k) ltac:(lia)) as H.
    rewrite seq_S, map_app, list_sum_app in H. simpl in H. lia.
Qed.

End Ho2Lor.

Lemma BuildHo2Lor_partition_witness :
  Permutation
    (concat (BuildHo2Lor 2 4 (GetRefinementTransforms (halved_segments 4))))
    (seq 0 4).
Proof.
  apply (@BuildHo2Lor_partition Z 2 4
           (GetRefinementTransforms (halved_segments 4))).
  intros ilor Hilor. below; vm_compute; lia.
Defined.

Lemma L2_offsets_prefix_sums_witness :
  nth 2 (L2_offsets (broken_space (segments 1 2) segment_P2)
           (broken_space (halved_segments 4) segment_P1)
           (BuildHo2Lor 2 4 (GetRefinementTransforms (halved_segments 4))) 2)
      0%nat
  = 24%nat.
Proof.
  rewrite (proj1 (@L2_offsets_prefix_sums Z
                    (broken_space (segments 1 2) segment_P2)
                    (broken_space (halved_segments 4) segment_P1)
                    (BuildHo2Lor 2 4
                       (GetRefinementTransforms (halved_segments 4)))
                    2 2 (le_n 2))).
  reflexivity.
Defined.

(* ------------------------------------------------------------------ *)
(** ** The blocks that the discontinuous strategy stores *)
(* ------------------------------------------------------------------ *)

Section MatrixProducts.
Context {R : Type} {SR : Scalar R}.
Add Ring scalar_ring_matrix_products : (@scalar_ring R SR).

Lemma length_Data_of (h w : nat) (f : nat -> nat -> R) :
  length (Data (DenseMatrix_of h w f)) = (h * w)%nat.
Proof.
  unfold DenseMatrix_of. simpl.
  induction w as [|w IH]; [simpl; lia|].
  rewrite seq_S, flat_map_app, length_app, IH. simpl.
  rewrite app_nil_r, length_map, length_seq. lia.
Qed.

Lemma DenseMatrix_of_ext (h w : nat) (f g : nat -> nat -> R) :
  (forall i j, (i < h)%nat -> (j < w)%nat -> f i j = g i j) ->
  DenseMatrix_of h w f = DenseMatrix_of h w g.
Proof.
  intros H. unfold DenseMatrix_of. f_equal.
  assert (Hw : forall l, (forall j, In j l -> (j < w)%nat) ->
            flat_map (fun j => map (fun i => f i j) (seq 0 h)) l
            = flat_map (fun j => map (fun i => g i j) (seq 0 h)) l).
  { induction l as [|j l IH]; intros Hl; [reflexivity|]. simpl.
    rewrite IH by (intros; apply Hl; now right). f_equal.
    apply map_ext_in. intros i Hi. apply in_seq in Hi.
    apply H; [lia|apply Hl; now left]. }
  apply Hw. intros j Hj. apply in_seq in Hj. lia.
Qed.

Lemma MatMult_assoc (X Y Z : DenseMatrix R) :
  (Width X <= Height Y)%nat ->
  MatMult (MatMult X Y) Z = MatMult X (MatMult Y Z).
Proof.
  intros Hxy. unfold MatMult at 1 3. simpl.
  apply DenseMatrix_of_ext. intros i j Hi Hj.
  transitivity
    (sumn (Width Y)
       (fun k => sumn (Width X)
                   (fun m => (Elem X i m * (Elem Y m k * Elem Z k j))%S))).
  - apply sumn_ext. intros k Hk. unfold MatMult.
    rewrite Elem_of by auto. rewrite <- sumn_mul_r.
    apply sumn_ext. intros m Hm. ring.
  - rewrite sumn_swap. apply sumn_ext. intros m Hm. unfold MatMult.
    rewrite Elem_of by (auto; lia). now rewrite sumn_mul_l.
Qed.

Lemma nth_write_at_miss (off : nat) (blk : list R) (v : Vector R) (k : nat) :
  (k < off \/ off + length blk <= k)%nat ->
  nth k (write_at off blk v) rO = nth k v rO.
Proof.
  intros Hk. unfold write_at.
  destruct (fold_store_spec (fun i => (off + i)%nat) (fun i => nth i blk rO)
              (length blk) v) as [_ [Hmiss _]].
  apply Hmiss. intros p Hp. lia.
Qed.

Lemma nth_write_at_hit (off : nat) (blk : list R) (v : Vector R) (p : nat) :
  (p < length blk)%nat -> (off + p < length v)%nat ->
  nth (off + p) (write_at off blk v) rO = nth p blk rO.
Proof.
  intros Hp Hv. unfold write_at.
  destruct (fold_store_spec (fun i => (off + i)%nat) (fun i => nth i blk rO)
              (length blk) v) as [_ [_ Hhit]].
  apply (Hhit (fun p q _ _ (E : (off + p = off + q)%nat) =>
                 proj1 (Nat.add_cancel_l p q off) E) p Hp Hv).
Qed.

(** Reading back a block that has been written. *)
Lemma view_of_block (v : Vector R) (off : nat) (M : DenseMatrix R) :
  length (Data M) = (Height M * Width M)%nat ->
  (off + Height M * Width M <= length v)%nat ->
  (forall p, (p < Height M * Width M)%nat ->
     nth (off + p) v rO = nth p (Data M) rO) ->
  view v off (Height M) (Width M) = M.
Proof.
  intros HM Hv Hval. unfold view. destruct M as [h w d]. simpl in *.
  f_equal. apply (list_eq_nth rO).
  - rewrite length_firstn, length_skipn. lia.
  - intros i Hi. rewrite length_firstn, length_skipn in Hi.
    rewrite nth_firstn, nth_skipn.
    replace (Nat.ltb i (h * w)) with true
      by (symmetry; apply Nat.ltb_lt; lia).
    apply Hval. lia.
Qed.

End MatrixProducts.

Section L2Patches.
Context {R : Type} {SR : Scalar R}.
Variable IntRules_Get : Geometry -> nat -> list (IntegrationPoint R).
Variable AssembleElementMatrix :
  FiniteElement R -> ElementTransformation R -> DenseMatrix R.
Variable Inverse : DenseMatrix R -> DenseMatrix R.
Variable EmbeddingTransformation :
  Geometry -> DenseMatrix R -> IntegrationPointTransformation R.
Variables fes_ho fes_lor : FiniteElementSpace R.
Variable ho2lor : list (list nat).

Local Abbreviation new :=
  (L2ProjectionL2Space_new IntRules_Get AssembleElementMatrix Inverse
     EmbeddingTransformation).
Local Abbreviation patch :=
  (L2_patch IntRules_Get AssembleElementMatrix Inverse
     EmbeddingTransformation fes_ho fes_lor ho2lor).
Local Abbreviation blocks :=
  (L2_patch_blocks IntRules_Get AssembleElementMatrix Inverse
     EmbeddingTransformation fes_ho fes_lor ho2lor).
Local Abbreviation R_iho :=
  (L2_R_iho IntRules_Get AssembleElementMatrix Inverse
     EmbeddingTransformation fes_ho fes_lor ho2lor).
Local Abbreviation RtMlor :=
  (L2_RtMlor IntRules_Get AssembleElementMatrix Inverse
     EmbeddingTransformation fes_ho fes_lor ho2lor).
Local Abbreviation RtMlorR :=
  (L2_RtMlorR IntRules_Get AssembleElementMatrix Inverse
     EmbeddingTransformation fes_ho fes_lor ho2lor).
Local Abbreviation P_iho :=
  (L2_P_iho IntRules_Get AssembleElementMatrix Inverse
     EmbeddingTransformation fes_ho fes_lor ho2lor).
Local Abbreviation ndof_ho iho := (GetDof (GetFE fes_ho iho)).
Local Abbreviation ndof_lor iho :=
  (GetDof (GetFE fes_lor (nth 0 (nth iho ho2lor []) 0%nat))).
Local Abbreviation nref iho := (length (nth iho ho2lor [])).
Local Abbreviation block := (L2_block fes_ho fes_lor ho2lor).

Lemma L2_patch_blocks_shape (iho : nat) :
  Height (fst (fst (blocks iho))) = (ndof_lor iho * nref iho)%nat
  /\ Height (snd (fst (blocks iho))) = (ndof_lor iho * nref iho)%nat
  /\ Width (snd (fst (blocks iho))) = (ndof_lor iho * nref iho)%nat
  /\ Height (snd (blocks iho)) = (ndof_lor iho * nref iho)%nat
  /\ Width (snd (blocks iho)) = ndof_ho iho.
Proof.
  unfold L2_patch_blocks.
  match goal with
  | |- context [fold_left ?f (seq 0 ?n) ?a] => set (F := f); set (st0 := a)
  end.
  assert (H : forall l st,
            Height (fst (fst (fold_left F l st))) = Height (fst (fst st))
            /\ Height (snd (fst (fold_left F l st))) = Height (snd (fst st))
            /\ Width (snd (fst (fold_left F l st))) = Width (snd (fst st))
            /\ Height (snd (fold_left F l st)) = Height (snd st)
            /\ Width (snd (fold_left F l st)) = Width (snd st)).
  { induction l as [|iref l IH]; intros [[a b] c]; [simpl; auto|].
    cbn [fold_left].
    destruct (IH (F (a, b, c) iref)) as [H1 [H2 [H3 [H4 H5]]]].
    rewrite H1, H2, H3, H4, H5. unfold F. simpl. auto. }
  destruct (H (seq 0 (nref iho)) st0) as [H1 [H2 [H3 [H4 H5]]]].
  rewrite H1, H2, H3, H4, H5. unfold st0. simpl. auto.
Qed.

Lemma L2_patch_eq (offsets : list nat) (build_P : bool)
  (RP : Vector R * Vector R) (iho : nat) :
  patch offsets build_P RP iho
  = (write_at (nth iho offsets 0%nat) (Data (R_iho iho)) (fst RP),
     if build_P
     then write_at (nth iho offsets 0%nat) (Data (P_iho iho)) (snd RP)
     else snd RP).
Proof.
  unfold L2_patch, L2_P_iho, L2_RtMlorR, L2_RtMlor, L2_R_iho,
    L2_patch_blocks.
  destruct (fold_left _ _ _) as [[a b] c].
  destruct build_P; reflexivity.
Qed.

Lemma R_iho_shape (iho : nat) :
  Height (R_iho iho) = (ndof_lor iho * nref iho)%nat
  /\ Width (R_iho iho) = ndof_ho iho
  /\ length (Data (R_iho iho)) = block iho.
Proof.
  destruct (L2_patch_blocks_shape iho) as [H1 [H2 [H3 [H4 H5]]]].
  unfold L2_R_iho, L2_block.
  destruct (L2_patch_blocks _ _ _ _ _ _ _ _) as [[a b] c].
  cbn [fst snd] in *.
  unfold MatMult. rewrite length_Data_of.
  unfold DenseMatrix_of. cbn [Height Width]. rewrite H1, H5.
  repeat split. lia.
Qed.

Lemma P_iho_shape (iho : nat) :
  Height (Inverse (RtMlorR iho)) = ndof_ho iho ->
  Height (P_iho iho) = ndof_ho iho
  /\ Width (P_iho iho) = (ndof_lor iho * nref iho)%nat
  /\ length (Data (P_iho iho)) = block iho.
Proof.
  intros HI.
  destruct (L2_patch_blocks_shape iho) as [H1 [H2 [H3 [H4 H5]]]].
  assert (HW : Width (RtMlor iho) = (ndof_lor iho * nref iho)%nat).
  { unfold L2_RtMlor.
    destruct (L2_patch_blocks _ _ _ _ _ _ _ _) as [[a b] c].
    cbn [fst snd] in *. unfold MultAtB, DenseMatrix_of. cbn [Width].
    exact H3. }
  unfold L2_P_iho, L2_block. unfold MatMult at 1 2 3.
  rewrite length_Data_of.
  unfold DenseMatrix_of. cbn [Height Width]. rewrite HI, HW.
  repeat split. lia.
Qed.

Lemma block_inside (nel_ho iho : nat) :
  (iho < nel_ho)%nat ->
  (nth iho (L2_offsets fes_ho fes_lor ho2lor nel_ho) 0 + block iho
   <= nth nel_ho (L2_offsets fes_ho fes_lor ho2lor nel_ho) 0)%nat.
Proof.
  intros Hi. rewrite !nth_L2_offsets by lia.
  pose proof (list_sum_prefix_le block (a := S iho) (b := nel_ho)
                ltac:(lia)) as H.
  rewrite seq_S, map_app, list_sum_app in H. simpl in H. lia.
Qed.

Lemma block_before (nel_ho iho m : nat) :
  (iho < m)%nat -> (m <= nel_ho)%nat ->
  (nth iho (L2_offsets fes_ho fes_lor ho2lor nel_ho) 0 + block iho
   <= nth m (L2_offsets fes_ho fes_lor ho2lor nel_ho) 0)%nat.
Proof.
  intros Hi Hm. rewrite !nth_L2_offsets by lia.
  pose proof (list_sum_prefix_le block (a := S iho) (b := m)
                ltac:(lia)) as H.
  rewrite seq_S, map_app, list_sum_app in H. simpl in H. lia.
Qed.

Lemma length_patches (offsets : list nat) (build_P : bool) (l : list nat)
  (RP : Vector R * Vector R) :
  length (fst (fold_left (patch offsets build_P) l RP)) = length (fst RP)
  /\ length (snd (fold_left (patch offsets build_P) l RP))
     = length (snd RP).
Proof.
  revert RP. induction l as [|iho l IH]; intros RP; [auto|].
  cbn [fold_left]. destruct (IH (patch offsets build_P RP iho)) as [H1 H2].
  rewrite H1, H2, L2_patch_eq. cbn [fst snd].
  rewrite length_write_at.
  destruct build_P; [now rewrite length_write_at|auto].
Qed.

(** The entries of the block of [iho] after the loop over the coarse
    elements. *)
Lemma patches_entries (nel_ho : nat) (build_P : bool)
  (R0 P0 : Vector R) (iho p : nat) :
  (iho < nel_ho)%nat -> (p < block iho)%nat ->
  nth (nth iho (L2_offsets fes_ho fes_lor ho2lor nel_ho) 0%nat + p)
      (fst (fold_left
              (patch (L2_offsets fes_ho fes_lor ho2lor nel_ho) build_P)
              (seq 0 nel_ho) (R0, P0))) rO
  = (if Nat.ltb (nth iho (L2_offsets fes_ho fes_lor ho2lor nel_ho) 0%nat + p)
                (length R0)
     then nth p (Data (R_iho iho)) rO
     else rO)
  /\ (build_P = true ->
      length (Data (P_iho iho)) = block iho ->
      nth (nth iho (L2_offsets fes_ho fes_lor ho2lor nel_ho) 0%nat + p)
          (snd (fold_left
                  (patch (L2_offsets fes_ho fes_lor ho2lor nel_ho) build_P)
                  (seq 0 nel_ho) (R0, P0))) rO
      = (if Nat.ltb
              (nth iho (L2_offsets fes_ho fes_lor ho2lor nel_ho) 0%nat + p)
              (length P0)
         then nth p (Data (P_iho iho)) rO
         else rO)).
Proof.
  intros Hi Hp.
  set (offsets := L2_offsets fes_ho fes_lor ho2lor nel_ho).
  assert (H : forall m, (iho < m)%nat -> (m <= nel_ho)%nat ->
            nth (nth iho offsets 0%nat + p)
                (fst (fold_left (patch offsets build_P) (seq 0 m) (R0, P0)))
                rO
            = (if Nat.ltb (nth iho offsets 0%nat + p) (length R0)
               then nth p (Data (R_iho iho)) rO else rO)
            /\ (build_P = true ->
                length (Data (P_iho iho)) = block iho ->
                nth (nth iho offsets 0%nat + p)
                    (snd (fold_left (patch offsets build_P) (seq 0 m)
                                    (R0, P0))) rO
                = (if Nat.ltb (nth iho offsets 0%nat + p) (length P0)
                   then nth p (Data (P_iho iho)) rO else rO))).
  { induction m as [|m IH]; intros Him Hm; [lia|].
    rewrite fold_left_seq_S, L2_patch_eq.
    destruct (length_patches offsets build_P (seq 0 m) (R0, P0))
      as [HlR HlP].
    cbn [fst snd] in HlR, HlP. cbn [fst snd].
    destruct (Nat.eq_dec iho m) as [->|Hne].
    - split.
      + destruct (Nat.ltb_spec (nth m offsets 0%nat + p) (length R0)).
        * apply nth_write_at_hit; [|lia].
          destruct (R_iho_shape m) as [_ [_ HlD]]. lia.
        * rewrite nth_overflow; [reflexivity|].
          rewrite length_write_at. lia.
      + intros HP HlD. subst build_P.
        destruct (Nat.ltb_spec (nth m offsets 0%nat + p) (length P0)).
        * apply nth_write_at_hit; lia.
        * rewrite nth_overflow; [reflexivity|].
          rewrite length_write_at. lia.
    - destruct (IH ltac:(lia) ltac:(lia)) as [IHR IHP].
      pose proof (@block_before nel_ho iho m ltac:(lia) ltac:(lia)) as Hb.
      fold offsets in Hb.
      split.
      + rewrite nth_write_at_miss by lia. exact IHR.
      + intros HP HlD. subst build_P.
        rewrite nth_write_at_miss by lia. now apply IHP. }
  apply H; lia.
Qed.

End L2Patches.

Section L2LeftInverse.
Context {R : Type} {SR : Scalar R}.
Variable IntRules_Get : Geometry -> nat -> list (IntegrationPoint R).
Variable AssembleElementMatrix :
  FiniteElement R -> ElementTransformation R -> DenseMatrix R.
Variable Inverse : DenseMatrix R -> DenseMatrix R.
Variable EmbeddingTransformation :
  Geometry -> DenseMatrix R -> IntegrationPointTransformation R.
Variables fes_ho fes_lor : FiniteElementSpace R.

Local Abbreviation new :=
  (L2ProjectionL2Space_new IntRules_Get AssembleElementMatrix Inverse
     EmbeddingTransformation).
Local Abbreviation RtMlorR :=
  (L2_RtMlorR IntRules_Get AssembleElementMatrix Inverse
     EmbeddingTransformation fes_ho fes_lor).

(** The views that [Mult] and [Prolongate] take of [R] and [P] are the
    blocks that the constructor computed for the coarse element. *)
Lemma views_are_blocks (iho : nat) :
  mesh_GetNE (GetMesh fes_ho) <> 0%nat ->
  (GetTrueVSize fes_ho <= GetTrueVSize fes_lor)%nat ->
  (iho < mesh_GetNE (GetMesh fes_ho))%nat ->
  Height (Inverse (RtMlorR (l2_ho2lor (new fes_ho fes_lor)) iho))
  = GetDof (GetFE fes_ho iho) ->
  let this := new fes_ho fes_lor in
  let lor_els := nth iho (l2_ho2lor this) [] in
  let nref := length lor_els in
  let ndof_ho := GetDof (GetFE fes_ho iho) in
  let ndof_lor := GetDof (GetFE fes_lor (nth 0 lor_els 0%nat)) in
  view (l2_R this) (nth iho (l2_offsets this) 0%nat)
       (ndof_lor * nref) ndof_ho
  = L2_R_iho IntRules_Get AssembleElementMatrix Inverse
      EmbeddingTransformation fes_ho fes_lor (l2_ho2lor this) iho
  /\ view (l2_P this) (nth iho (l2_offsets this) 0%nat)
          ndof_ho (ndof_lor * nref)
     = L2_P_iho IntRules_Get AssembleElementMatrix Inverse
         EmbeddingTransformation fes_ho fes_lor (l2_ho2lor this) iho.
Proof.
  intros Hne HP Hi HH. cbv zeta.
  unfold L2ProjectionL2Space_new in *.
  apply Nat.eqb_neq in Hne. rewrite Hne in *.
  apply Nat.leb_le in HP. rewrite HP. cbn [l2_ho2lor l2_offsets l2_R l2_P] in *.
  set (nel_ho := mesh_GetNE (GetMesh fes_ho)) in *.
  set (ho2lor := BuildHo2Lor nel_ho (mesh_GetNE (GetMesh fes_lor))
                   (GetRefinementTransforms (GetMesh fes_lor))) in *.
  set (offsets := L2_offsets fes_ho fes_lor ho2lor nel_ho).
  set (total := nth nel_ho offsets 0%nat).
  destruct (@R_iho_shape _ _ IntRules_Get AssembleElementMatrix Inverse
              EmbeddingTransformation fes_ho fes_lor ho2lor iho)
    as [HRh [HRw HRl]].
  destruct (@P_iho_shape _ _ IntRules_Get AssembleElementMatrix Inverse
              EmbeddingTransformation fes_ho fes_lor ho2lor iho HH)
    as [HPh [HPw HPl]].
  destruct (@length_patches _ _ IntRules_Get AssembleElementMatrix Inverse
              EmbeddingTransformation fes_ho fes_lor ho2lor offsets true
              (seq 0 nel_ho) (filled total rO, filled total rO))
    as [HlR HlP].
  cbn [fst snd] in HlR, HlP. rewrite length_filled in HlR, HlP.
  pose proof (@block_inside _ fes_ho fes_lor ho2lor nel_ho iho Hi) as Hin.
  change (L2_offsets fes_ho fes_lor ho2lor nel_ho) with offsets in Hin.
  change (nth nel_ho offsets 0%nat) with total in Hin.
  assert (Hblk : L2_block fes_ho fes_lor ho2lor iho
                 = (GetDof (GetFE fes_lor (nth 0 (nth iho ho2lor []) 0%nat))
                    * length (nth iho ho2lor [])
                    * GetDof (GetFE fes_ho iho))%nat)
    by (unfold L2_block; lia).
  assert (HvR :
    view (fst (fold_left
                 (L2_patch IntRules_Get AssembleElementMatrix Inverse
                    EmbeddingTransformation fes_ho fes_lor ho2lor offsets
                    true)
                 (seq 0 nel_ho) (filled total rO, filled total rO)))
         (nth iho offsets 0%nat)
         (Height (L2_R_iho IntRules_Get AssembleElementMatrix Inverse
                    EmbeddingTransformation fes_ho fes_lor ho2lor iho))
         (Width (L2_R_iho IntRules_Get AssembleElementMatrix Inverse
                   EmbeddingTransformation fes_ho fes_lor ho2lor iho))
    = L2_R_iho IntRules_Get AssembleElementMatrix Inverse
        EmbeddingTransformation fes_ho fes_lor ho2lor iho).
  { apply view_of_block.
    - rewrite HRl, HRh, HRw. exact Hblk.
    - rewrite HlR, HRh, HRw, <- Hblk. exact Hin.
    - intros p Hp. rewrite HRh, HRw, <- Hblk in Hp.
      destruct (@patches_entries _ _ IntRules_Get AssembleElementMatrix
                  Inverse EmbeddingTransformation fes_ho fes_lor ho2lor
                  nel_ho true (filled total rO) (filled total rO) iho p Hi Hp)
        as [HR _].
      change (L2_offsets fes_ho fes_lor ho2lor nel_ho) with offsets in HR.
      refine (eq_trans HR _). rewrite length_filled.
      replace (Nat.ltb (nth iho offsets 0%nat + p) total) with true
        by (symmetry; apply Nat.ltb_lt; lia).
      reflexivity. }
  assert (HvP :
    view (snd (fold_left
                 (L2_patch IntRules_Get AssembleElementMatrix Inverse
                    EmbeddingTransformation fes_ho fes_lor ho2lor offsets
                    true)
                 (seq 0 nel_ho) (filled total rO, filled total rO)))
         (nth iho offsets 0%nat)
         (Height (L2_P_iho IntRules_Get AssembleElementMatrix Inverse
                    EmbeddingTransformation fes_ho fes_lor ho2lor iho))
         (Width (L2_P_iho IntRules_Get AssembleElementMatrix Inverse
                   EmbeddingTransformation fes_ho fes_lor ho2lor iho))
    = L2_P_iho IntRules_Get AssembleElementMatrix Inverse
        EmbeddingTransformation fes_ho fes_lor ho2lor iho).
  { apply view_of_block.
    - rewrite HPl, HPh, HPw. unfold L2_block. lia.
    - rewrite HlP, HPh, HPw.
      replace (GetDof (GetFE fes_ho iho)
               * (GetDof (GetFE fes_lor (nth 0 (nth iho ho2lor []) 0%nat))
                  * length (nth iho ho2lor [])))%nat
        with (L2_block fes_ho fes_lor ho2lor iho)
        by (unfold L2_block; lia).
      exact Hin.
    - intros p Hp. rewrite HPh, HPw in Hp.
      assert (Hp' : (p < L2_block fes_ho fes_lor ho2lor iho)%nat)
        by (unfold L2_block; lia).
      destruct (@patches_entries _ _ IntRules_Get AssembleElementMatrix
                  Inverse EmbeddingTransformation fes_ho fes_lor ho2lor
                  nel_ho true (filled total rO) (filled total rO) iho p Hi
                  Hp')
        as [_ HPe].
      change (L2_offsets fes_ho fes_lor ho2lor nel_ho) with offsets in HPe.
      refine (eq_trans (HPe eq_refl HPl) _). rewrite length_filled.
      replace (Nat.ltb (nth iho offsets 0%nat + p) total) with true
        by (symmetry; apply Nat.ltb_lt; lia).
      reflexivity. }
  rewrite HRh, HRw in HvR. rewrite HPh, HPw in HvP.
  split; [exact HvR|exact HvP].
Qed.

(** X11: the constructor of [L2ProjectionL2Space] stores, for every
    coarse element, a prolongation block that is a left inverse of the
    restriction block: the views [P_iho] and [R_iho] that [Prolongate]
    and [Mult] take of [P] and [R] multiply to the identity, provided
    the inverse that [RtMlorR_inv] computes is one for [RtMlorR].  The
    blocks of the other coarse elements, whatever their content, do not
    disturb it. *)
Theorem Prolongation_block_inverts_restriction_block (iho : nat) :
  mesh_GetNE (GetMesh fes_ho) <> 0%nat ->
  (GetTrueVSize fes_ho <= GetTrueVSize fes_lor)%nat ->
  (iho < mesh_GetNE (GetMesh fes_ho))%nat ->
  Width (Inverse (RtMlorR (l2_ho2lor (new fes_ho fes_lor)) iho))
  = GetDof (GetFE fes_ho iho) ->
  MatMult (Inverse (RtMlorR (l2_ho2lor (new fes_ho fes_lor)) iho))
          (RtMlorR (l2_ho2lor (new fes_ho fes_lor)) iho)
  = DenseMatrix_identity (GetDof (GetFE fes_ho iho)) ->
  let this := new fes_ho fes_lor in
  let lor_els := nth iho (l2_ho2lor this) [] in
  let nref := length lor_els in
  let ndof_ho := GetDof (GetFE fes_ho iho) in
  let ndof_lor := GetDof (GetFE fes_lor (nth 0 lor_els 0%nat)) in
  MatMult
    (view (l2_P this) (nth iho (l2_offsets this) 0%nat)
          ndof_ho (ndof_lor * nref))
    (view (l2_R this) (nth iho (l2_offsets this) 0%nat)
          (ndof_lor * nref) ndof_ho)
  = DenseMatrix_identity ndof_ho.
Proof.
  intros Hne HP Hi HW Hinv. cbv zeta.
  assert (HH : Height (Inverse (RtMlorR (l2_ho2lor (new fes_ho fes_lor)) iho))
               = GetDof (GetFE fes_ho iho)).
  { apply (f_equal (@Height R)) in Hinv. exact Hinv. }
  destruct (views_are_blocks Hne HP Hi HH) as [HvR HvP].
  cbv zeta in HvR, HvP. rewrite HvR, HvP.
  destruct (@R_iho_shape _ _ IntRules_Get AssembleElementMatrix Inverse
              EmbeddingTransformation fes_ho fes_lor
              (l2_ho2lor (new fes_ho fes_lor)) iho)
    as [HRh [HRw HRl]].
  unfold L2_P_iho. rewrite MatMult_assoc.
  - exact Hinv.
  - rewrite HW. unfold L2_RtMlor.
    destruct (L2_patch_blocks _ _ _ _ _ _ _ _) as [[a b] c].
    unfold MultAtB, DenseMatrix_of. cbn [Height]. now rewrite HRw.
Qed.

End L2LeftInverse.

Lemma Prolongation_block_inverts_restriction_block_witness :
  let fes_ho := broken_space (segments 1 2) segment_P1 in
  let fes_lor := broken_space (halved_segments 4) segment_P1 in
  let this := L2ProjectionL2Space_new left_point unit_mass same_matrix
                end_embedding fes_ho fes_lor in
  let lor_els := nth 1 (l2_ho2lor this) [] in
  let nref := length lor_els in
  let ndof_ho := GetDof (GetFE fes_ho 1) in
  let ndof_lor := GetDof (GetFE fes_lor (nth 0 lor_els 0%nat)) in
  MatMult
    (view (l2_P this) (nth 1 (l2_offsets this) 0%nat)
          ndof_ho (ndof_lor * nref))
    (view (l2_R this) (nth 1 (l2_offsets this) 0%nat)
          (ndof_lor * nref) ndof_ho)
  = DenseMatrix_identity ndof_ho.
Proof.
  apply (@Prolongation_block_inverts_restriction_block Z _ left_point
           unit_mass same_matrix end_embedding
           (broken_space (segments 1 2) segment_P1)
           (broken_space (halved_segments 4) segment_P1) 1%nat).
  - simpl. discriminate.
  - simpl. lia.
  - simpl. lia.
  - reflexivity.
  - vm_compute. reflexivity.
Defined.

Section L2EmptyMesh.
Context {R : Type} {SR : Scalar R}.
Variable IntRules_Get : Geometry -> nat -> list (IntegrationPoint R).
Variable AssembleElementMatrix :
  FiniteElement R -> ElementTransformation R -> DenseMatrix R.
Variable Inverse : DenseMatrix R -> DenseMatrix R.
Variable EmbeddingTransformation :
  Geometry -> DenseMatrix R -> IntegrationPointTransformation R.

Local Abbreviation new :=
  (L2ProjectionL2Space_new IntRules_Get AssembleElementMatrix Inverse
     EmbeddingTransformation).

(** X12: when the coarse space has no element, [L2ProjectionL2Space::Mult]
    leaves the output vector as it is, while [MultTranspose], which zeroes
    the output before its loop, returns the zero vector: unlike
    [Prolongate] and [ProlongateTranspose] it has no early return. *)
Theorem L2Space_Mult_on_empty_mesh (fes_ho fes_lor : FiniteElementSpace R)
  (x y : Vector R) :
  mesh_GetNE (GetMesh fes_ho) = 0%nat ->
  L2ProjectionL2Space_Mult (new fes_ho fes_lor) x y = y
  /\ L2ProjectionL2Space_MultTranspose (new fes_ho fes_lor) x y
     = map (fun _ => rO) y.
Proof.
  intros Hne.
  unfold L2ProjectionL2Space_Mult, L2ProjectionL2Space_MultTranspose, GetNE.
  rewrite (fes_ho_new IntRules_Get AssembleElementMatrix Inverse
             EmbeddingTransformation), Hne.
  split; reflexivity.
Qed.

End L2EmptyMesh.

Lemma L2Space_Mult_on_empty_mesh_witness :
  L2ProjectionL2Space_Mult
    (L2ProjectionL2Space_new unit_points unit_mass same_matrix
       identity_embedding (broken_space (segments 1 0) segment_P1)
       (broken_space (segments 1 0) segment_P1))
    [1%Z; 2%Z] [5%Z; 6%Z; 7%Z] = [5%Z; 6%Z; 7%Z]
  /\ L2ProjectionL2Space_MultTranspose
       (L2ProjectionL2Space_new unit_points unit_mass same_matrix
          identity_embedding (broken_space (segments 1 0) segment_P1)
          (broken_space (segments 1 0) segment_P1))
       [1%Z; 2%Z] [5%Z; 6%Z; 7%Z]
     = map (fun _ => 0%Z) [5%Z; 6%Z; 7%Z].
Proof.
  exact (@L2Space_Mult_on_empty_mesh Z _ unit_points unit_mass same_matrix
           identity_embedding (broken_space (segments 1 0) segment_P1)
           (broken_space (segments 1 0) segment_P1)
           [1%Z; 2%Z] [5%Z; 6%Z; 7%Z] eq_refl).
Defined.

(* ------------------------------------------------------------------ *)
(** ** The scratch memory of the prolongation kernels *)
(* ------------------------------------------------------------------ *)

Section KernelScratch.
Context {R : Type} {SR : Scalar R}.
Variable MAX_Q1D : nat.

(** X13: the prolongation kernels read no memory that they have not
    written: when the scratch arrays hold a line of points, the result of
    [Prolongation2D] and of [Prolongation3D] depends neither on what the
    scratch arrays [sol_x] and [sol_xy] held before nor on the former
    content of [localH]. *)
Theorem Prolongation_ignores_old_memory (uninit uninit' : nat -> R)
  (NE D1D Q1D : nat) (localL localH localH' : Vector R) (B : list R)
  (mask : Vector R) :
  (Q1D <= MAX_Q1D)%nat -> length localH = length localH' ->
  (length localH = (Q1D * Q1D * NE)%nat ->
   Prolongation2D MAX_Q1D uninit NE D1D Q1D localL localH B mask
   = Prolongation2D MAX_Q1D uninit' NE D1D Q1D localL localH' B mask)
  /\ (length localH = (Q1D * Q1D * Q1D * NE)%nat ->
      Prolongation3D MAX_Q1D uninit NE D1D Q1D localL localH B mask
      = Prolongation3D MAX_Q1D uninit' NE D1D Q1D localL localH' B mask).
Proof.
  intros HQ Hlen. split; intros Hl.
  - apply (list_eq_nth rO); [now rewrite !length_Prolongation2D|].
    intros s Hs. rewrite length_Prolongation2D, Hl in Hs.
    destruct (@slot2D_decode Q1D NE s ltac:(lia))
      as [e [qx [qy [He [Hqx [Hqy ->]]]]]].
    rewrite !Prolongation2D_value by (auto; lia). reflexivity.
  - apply (list_eq_nth rO); [now rewrite !length_Prolongation3D|].
    intros s Hs. rewrite length_Prolongation3D, Hl in Hs.
    destruct (@slot3D_decode Q1D NE s ltac:(lia))
      as [e [qx [qy [qz [He [Hqx [Hqy [Hqz ->]]]]]]]].
    rewrite !Prolongation3D_value by (auto; lia). reflexivity.
Qed.

End KernelScratch.

Lemma Prolongation_ignores_old_memory_witness :
  (length (filled 18 0%Z) = (3 * 3 * 2)%nat ->
   Prolongation2D 4 zero_memory 2 2 3 [1%Z; 2%Z; 3%Z; 4%Z; 5%Z; 6%Z; 7%Z; 8%Z]
     (filled 18 0%Z) [2%Z; 1%Z; 0%Z; 0%Z; 1%Z; 2%Z] (filled 18 1%Z)
   = Prolongation2D 4 (fun i => Z.of_nat i) 2 2 3
       [1%Z; 2%Z; 3%Z; 4%Z; 5%Z; 6%Z; 7%Z; 8%Z]
       (filled 18 5%Z) [2%Z; 1%Z; 0%Z; 0%Z; 1%Z; 2%Z] (filled 18 1%Z))
  /\ (length (filled 18 0%Z) = (3 * 3 * 3 * 2)%nat ->
      Prolongation3D 4 zero_memory 2 2 3
        [1%Z; 2%Z; 3%Z; 4%Z; 5%Z; 6%Z; 7%Z; 8%Z]
        (filled 18 0%Z) [2%Z; 1%Z; 0%Z; 0%Z; 1%Z; 2%Z] (filled 18 1%Z)
      = Prolongation3D 4 (fun i => Z.of_nat i) 2 2 3
          [1%Z; 2%Z; 3%Z; 4%Z; 5%Z; 6%Z; 7%Z; 8%Z]
          (filled 18 5%Z) [2%Z; 1%Z; 0%Z; 0%Z; 1%Z; 2%Z] (filled 18 1%Z)).
Proof.
  apply (@Prolongation_ignores_old_memory Z _ 4%nat zero_memory
           (fun i => Z.of_nat i) 2%nat 2%nat 3%nat
           [1%Z; 2%Z; 3%Z; 4%Z; 5%Z; 6%Z; 7%Z; 8%Z]
           (filled 18 0%Z) (filled 18 5%Z)
           [2%Z; 1%Z; 0%Z; 0%Z; 1%Z; 2%Z] (filled 18 1%Z)).
  - lia.
  - reflexivity.
Defined.

(* ------------------------------------------------------------------ *)
(** ** convert-dc: which type names give which collection *)
(* ------------------------------------------------------------------ *)

Lemma substring_whole (s : string) : substring 0 (String.length s) s = s.
Proof. induction s as [|c s IH]; simpl; [reflexivity|now rewrite IH]. Qed.

(** In [a ++ "_" ++ b] with no underscore in [a], the first underscore is
    at the length of [a], and what follows it is [b]. *)
Lemma find_first_underscore (a b : string) :
  string_find a "_" = None ->
  string_find (a ++ "_" ++ b) "_" = Some (String.length a)
  /\ substr (a ++ "_" ++ b) (String.length a + 1)
            (String.length (a ++ "_" ++ b) - String.length a - 1) = b.
Proof.
  unfold string_find, substr.
  induction a as [|c a IH]; intros Hnone.
  - split.
    + cbn [append index prefix].
      match goal with
      | |- context [Ascii.ascii_dec ?u ?u] =>
          destruct (Ascii.ascii_dec u u) as [_|N]; [|now contradiction N]
      end.
      now destruct b.
    + simpl. rewrite Nat.sub_0_r. apply substring_whole.
  - cbn [index prefix] in Hnone.
    match type of Hnone with
    | context [Ascii.ascii_dec ?u c] =>
        destruct (Ascii.ascii_dec u c) as [E|E];
        [destruct a; discriminate Hnone|]
    end.
    destruct (index 0 "_" a) as [k|] eqn:Ek; [discriminate|].
    destruct (IH eq_refl) as [IH1 IH2]. split.
    + change ((String c a ++ "_" ++ b)%string)
        with (String c (a ++ "_" ++ b)%string).
      cbn [index prefix].
      match goal with
      | |- context [Ascii.ascii_dec ?u c] =>
          destruct (Ascii.ascii_dec u c); [contradiction|]
      end.
      rewrite IH1. reflexivity.
    + change ((String c a ++ "_" ++ b)%string)
        with (String c (a ++ "_" ++ b)%string).
      cbn [String.length Nat.add substring].
      exact IH2.
Qed.

Lemma fms_prefix (s : string) :
  String.eqb (substr s 0 3) "fms" = true
  <-> exists rest, s = ("fms" ++ rest)%string.
Proof.
  unfold substr. split.
  - intros H.
    destruct s as [|c1 [|c2 [|c3 rest]]];
      cbn [substring] in H; apply String.eqb_eq in H; inversion H; subst.
    exists rest. rewrite H. reflexivity.
  - intros [rest ->]. now destruct rest.
Qed.

Lemma substr_fms (rest : string) : substr ("fms" ++ rest) 0 3 = "fms"%string.
Proof. now destruct rest. Qed.

Section ConvertDCFacts.
Variables MFEM_USE_MPI MFEM_USE_SIDRE MFEM_USE_CONDUIT MFEM_USE_FMS : bool.

Local Abbreviation create :=
  (create_data_collection MFEM_USE_MPI MFEM_USE_SIDRE MFEM_USE_CONDUIT
     MFEM_USE_FMS).

(** X14: [create_data_collection] returns a collection exactly for the
    type name "visit", for "sidre" and "sidre_hdf5" in a build with Sidre,
    for "json", "conduit_json", "conduit_bin" and "hdf5" in a build with
    Conduit, and, in a build with FMS, for every name that starts with
    "fms", whatever follows; for every other name, and for a name whose
    library is not built in, it aborts. *)
Theorem create_data_collection_accepts (dc_name dc_type : string) :
  (exists dc,
      create_data_collection MFEM_USE_MPI MFEM_USE_SIDRE MFEM_USE_CONDUIT
        MFEM_USE_FMS dc_name dc_type = Ok dc)
  <-> (dc_type = "visit"
       \/ (MFEM_USE_SIDRE = true
           /\ (dc_type = "sidre" \/ dc_type = "sidre_hdf5"))
       \/ (MFEM_USE_CONDUIT = true
           /\ (dc_type = "json" \/ dc_type = "conduit_json"
               \/ dc_type = "conduit_bin" \/ dc_type = "hdf5"))
       \/ (MFEM_USE_FMS = true
           /\ exists rest, dc_type = ("fms" ++ rest)%string))%string.
Proof.
  unfold create_data_collection.
  destruct (String.eqb_spec dc_type "visit") as [E|Nv].
  { split; [auto|]. intros _. eexists; reflexivity. }
  destruct (String.eqb_spec dc_type "sidre") as [E|Ns1].
  { subst. simpl. destruct MFEM_USE_SIDRE.
    - split; [auto 6|]. intros _. eexists; reflexivity.
    - split; [intros [dc H]; discriminate|].
      intros [H|[[H _]|[[_ [H|[H|[H|H]]]]|[_ [rest H]]]]]; discriminate. }
  destruct (String.eqb_spec dc_type "sidre_hdf5") as [E|Ns2].
  { subst. simpl. destruct MFEM_USE_SIDRE.
    - split; [auto 6|]. intros _. eexists; reflexivity.
    - split; [intros [dc H]; discriminate|].
      intros [H|[[H _]|[[_ [H|[H|[H|H]]]]|[_ [rest H]]]]]; discriminate. }
  cbn [orb].
  destruct (String.eqb_spec dc_type "json") as [E|Nc1];
    [|destruct (String.eqb_spec dc_type "conduit_json") as [E|Nc2];
      [|destruct (String.eqb_spec dc_type "conduit_bin") as [E|Nc3];
        [|destruct (String.eqb_spec dc_type "hdf5") as [E|Nc4]]]];
    cbn [orb].
  1-4: subst; destruct MFEM_USE_CONDUIT;
    [ split; [intros _; right; right; left; split; auto 6
             |intros _; eexists; reflexivity]
    | split; [intros [dc H]; discriminate|];
      intros [H|[[_ [H|H]]|[[H _]|[_ [rest H]]]]]; discriminate ].
  destruct (String.eqb (substr dc_type 0 3) "fms") eqn:Ef.
  - apply fms_prefix in Ef. destruct MFEM_USE_FMS.
    + split; [intros _; right; right; right; auto|].
      intros _. destruct (string_find dc_type "_"); eexists; reflexivity.
    + split; [intros [dc H]; discriminate|].
      intros [H|[[_ [H|H]]|[[_ [H|[H|[H|H]]]]|[H _]]]];
        try contradiction; discriminate.
  - split; [intros [dc H]; discriminate|].
    intros [H|[[_ [H|H]]|[[_ [H|[H|[H|H]]]]|[_ H]]]]; try contradiction.
    apply fms_prefix in H. congruence.
Qed.

(** X15: in a build with FMS, a type name that starts with "fms" gives an
    [FMSDataCollection] whose protocol is everything after the first
    underscore of the name, further underscores included; with no
    underscore in the name no protocol is set. *)
Theorem fms_protocol_after_first_underscore
  (dc_name kind protocol : string) :
  MFEM_USE_FMS = true ->
  string_find kind "_" = None ->
  create dc_name ("fms" ++ kind ++ "_" ++ protocol)
  = Ok (FMSDataCollection dc_name (Some protocol))
  /\ create dc_name ("fms" ++ kind) = Ok (FMSDataCollection dc_name None).
Proof.
  intros HF Hk. unfold create_data_collection. rewrite HF, !substr_fms.
  assert (Hfk : string_find ("fms" ++ kind) "_" = None).
  { unfold string_find in *. simpl. now rewrite Hk. }
  split.
  - destruct (@find_first_underscore ("fms" ++ kind) protocol Hfk)
      as [Hpos Hsub].
    change (("fms" ++ kind) ++ "_" ++ protocol)%string
      with ("fms" ++ kind ++ "_" ++ protocol)%string in Hpos, Hsub.
    rewrite Hpos, Hsub. reflexivity.
  - rewrite Hfk. reflexivity.
Qed.

End ConvertDCFacts.

Lemma fms_protocol_after_first_underscore_witness :
  create_data_collection false false false true "out" "fmsx_json_v2"
  = Ok (FMSDataCollection "out" (Some "json_v2"%string)).
Proof.
  exact (proj1 (@fms_protocol_after_first_underscore false false false true
                  "out" "x" "json_v2" eq_refl eq_refl)).
Defined.

(* ------------------------------------------------------------------ *)
(** ** BilinearForm: the accessors and the added product *)
(* ------------------------------------------------------------------ *)

Section BilinearFormFacts.
Context {R : Type} {SR : Scalar R}.
Add Ring scalar_ring_bf : (@scalar_ring R SR).

(** X16: [SpMat()] returns the matrix exactly when [HasSpMat()] is true
    and fails with "mat is NULL and can't be dereferenced" otherwise, and
    likewise [SpMatElim()] with [HasSpMatElim()].  After [LoseMat()] the
    form has no matrix: [HasSpMat()] is false and [SpMat()] fails, the
    pointer handed out is the matrix [SpMat()] returned before, and the
    companion matrix is untouched. *)
Theorem SpMat_after_LoseMat (this : BilinearForm R) :
  ((exists m, SpMat this = Ok m) <-> HasSpMat this = true)
  /\ (HasSpMat this = false
      -> SpMat this = Abort "mat is NULL and can't be dereferenced")
  /\ ((exists m, SpMatElim this = Ok m) <-> HasSpMatElim this = true)
  /\ (HasSpMatElim this = false
      -> SpMatElim this = Abort "mat_e is NULL and can't be dereferenced")
  /\ HasSpMat (snd (LoseMat this)) = false
  /\ SpMat (snd (LoseMat this))
     = Abort "mat is NULL and can't be dereferenced"
  /\ (forall m, fst (LoseMat this) = Some m <-> SpMat this = Ok m)
  /\ SpMatElim (snd (LoseMat this)) = SpMatElim this
  /\ HasSpMatElim (snd (LoseMat this)) = HasSpMatElim this.
Proof.
  unfold SpMat, SpMatElim, HasSpMat, HasSpMatElim, LoseMat; simpl.
  destruct (mat this) as [m|], (mat_e this) as [me|]; simpl;
    repeat split; intros; eauto; try congruence;
    try (destruct H; congruence).
Qed.

(** X17: [FullAddMult] adds to [y] what [FullMult] writes: the two fail
    together, and otherwise every entry of the result of [FullAddMult] is
    the old entry of [y] plus the entry that [FullMult] puts into a vector
    of the same length, whatever that vector held. *)
Theorem FullAddMult_adds_FullMult (this : BilinearForm R)
  (x y y0 : Vector R) :
  length y0 = length y ->
  match FullMult this x y0, FullAddMult this x y with
  | Ok z, Ok w =>
      length w = length y /\ length z = length y
      /\ forall k, nth k w rO = (nth k y rO + nth k z rO)%S
  | Abort a, Abort b => a = b
  | _, _ => False
  end.
Proof.
  intros Hlen. unfold FullMult, FullAddMult.
  destruct (mat this) as [m|]; simpl; [|reflexivity].
  destruct (mat_e this) as [me|]; simpl; [|reflexivity].
  destruct (full_action m me x y0) as [Lz Nz].
  destruct (SparseMatrix_AddMult_spec m x y) as [L1 N1].
  destruct (SparseMatrix_AddMult_spec me x (SparseMatrix_AddMult m x y))
    as [L2 N2].
  split; [congruence|]. split; [congruence|].
  intros k. rewrite N2, N1, Nz, L1, Hlen. ring.
Qed.

End BilinearFormFacts.

Lemma FullAddMult_adds_FullMult_witness :
  FullMult split_form [1%Z; 2%Z; 3%Z] [7%Z; 7%Z; 7%Z] = Ok [4%Z; 1%Z; 9%Z]
  /\ FullAddMult split_form [1%Z; 2%Z; 3%Z] [10%Z; 20%Z; 30%Z]
     = Ok [14%Z; 21%Z; 39%Z]
  /\ match FullMult split_form [1%Z; 2%Z; 3%Z] [7%Z; 7%Z; 7%Z],
           FullAddMult split_form [1%Z; 2%Z; 3%Z] [10%Z; 20%Z; 30%Z] with
     | Ok z, Ok w =>
         length w = 3%nat /\ length z = 3%nat
         /\ forall k, nth k w 0%Z = (nth k [10%Z; 20%Z; 30%Z] 0 + nth k z 0)%Z
     | Abort a, Abort b => a = b
     | _, _ => False
     end.
Proof.
  split; [reflexivity|]. split; [reflexivity|].
  exact (@FullAddMult_adds_FullMult Z _ split_form [1%Z; 2%Z; 3%Z]
           [10%Z; 20%Z; 30%Z] [7%Z; 7%Z; 7%Z] eq_refl).
Defined.

(* ------------------------------------------------------------------ *)
(** ** The operators that the grid transfers hand out *)
(* ------------------------------------------------------------------ *)

Section GridTransferOperatorFacts.
Context {R : Type} {SR : Scalar R}.
Variable MFEM_USE_MPI : bool.
Variable IntRules_Get : Geometry -> nat -> list (IntegrationPoint R).
Variable AssembleElementMatrix :
  FiniteElement R -> ElementTransformation R -> DenseMatrix R.
Variable Inverse : DenseMatrix R -> DenseMatrix R.
Variable EmbeddingTransformation :
  Geometry -> DenseMatrix R -> IntegrationPointTransformation R.
Variable H1Space_new :
  FiniteElementSpace R -> FiniteElementSpace R -> L2ProjectionH1Space R.
Variable ParH1Space_new :
  FiniteElementSpace R -> FiniteElementSpace R -> L2ProjectionH1Space R.
Variable CGSolver_Mult :
  CGSolver R -> Vector R -> Vector R -> Vector R * bool.
Variable GetMapType : FiniteElement R -> MapType.

Local Abbreviation new :=
  (L2ProjectionL2Space_new IntRules_Get AssembleElementMatrix Inverse
     EmbeddingTransformation).
Local Abbreviation L2Backward :=
  (L2ProjectionGridTransfer_BackwardOperator MFEM_USE_MPI IntRules_Get
     AssembleElementMatrix Inverse EmbeddingTransformation H1Space_new
     ParH1Space_new).
Local Abbreviation Forward := (@InterpolationGridTransfer_ForwardOperator R).
Local Abbreviation Backward :=
  (InterpolationGridTransfer_BackwardOperator GetMapType).

(** X18: on a fresh [L2ProjectionGridTransfer] that takes the
    discontinuous strategy, [BackwardOperator()] always returns an
    operator, whatever [SupportsBackwardsOperator()] says; it is the
    [Mult] of that operator that fails, with "Prolongation not supported
    for these spaces.", and it does so exactly when
    [SupportsBackwardsOperator()] is false (coarse mesh not empty, [R] not
    empty). *)
Theorem BackwardOperator_fails_at_the_call
  (this : L2ProjectionGridTransferObject R) (x y : Vector R) :
  F (members this) = None ->
  B this = None ->
  (force_l2_space (members this) = true
   \/ GetContType (dom_fes (members this)) <> CONTINUOUS) ->
  mesh_GetNE (GetMesh (dom_fes (members this))) <> 0%nat ->
  (0 < nth (mesh_GetNE (GetMesh (dom_fes (members this))))
           (l2_offsets (new (dom_fes (members this))
                            (ran_fes (members this)))) 0)%nat ->
  exists b this',
    L2Backward this = Ok (b, this')
    /\ B this' = Some b
    /\ ((exists y', L2Prolongation_Mult CGSolver_Mult b x y = Ok y')
        <-> SupportsBackwardsOperator (members this) = true)
    /\ (SupportsBackwardsOperator (members this) = false ->
        L2Prolongation_Mult CGSolver_Mult b x y
        = Abort "Prolongation not supported for these spaces.").
Proof.
  intros HF HB Hl2 Hne Hoff.
  unfold L2ProjectionGridTransfer_BackwardOperator. rewrite HB, HF.
  cbn [members B].
  assert (HBuild :
            F (BuildF MFEM_USE_MPI IntRules_Get AssembleElementMatrix Inverse
                 EmbeddingTransformation H1Space_new ParH1Space_new
                 (members this))
            = Some (L2Space (new (dom_fes (members this))
                                 (ran_fes (members this))))).
  { unfold BuildF.
    destruct (force_l2_space (members this)) eqn:Hforce; simpl;
      [reflexivity|].
    destruct Hl2 as [Hl2|Hl2]; [discriminate|].
    destruct (ContType_eqb (GetContType (dom_fes (members this))) CONTINUOUS)
      eqn:Hc; [apply ContType_eqb_eq in Hc; contradiction|reflexivity]. }
  rewrite HBuild. cbn [deref bind B].
  eexists; eexists. split; [reflexivity|]. split; [reflexivity|].
  unfold L2Prolongation_Mult, L2Projection_Prolongate,
    L2ProjectionL2Space_Prolongate, SupportsBackwardsOperator, GetNE.
  cbn [l2proj].
  pose proof (length_P_new IntRules_Get AssembleElementMatrix Inverse
                EmbeddingTransformation (dom_fes (members this))
                (ran_fes (members this))) as HP.
  rewrite fes_ho_new.
  apply Nat.eqb_neq in Hne. rewrite Hne in *.
  destruct (Nat.leb (GetTrueVSize (dom_fes (members this)))
                    (GetTrueVSize (ran_fes (members this)))) eqn:Hle.
  - rewrite HP. apply Nat.ltb_lt in Hoff. rewrite Hoff. simpl.
    split; [|discriminate]. split; [reflexivity|]. intros _. eauto.
  - rewrite HP. simpl. split; [|reflexivity].
    split; [intros [y' H]; discriminate|discriminate].
Qed.

(** X19: [InterpolationGridTransfer::BackwardOperator()] returns an
    operator exactly when [B] is already built, or the operator type is
    [ANY_TYPE] and a mass integrator can be had: one is set, or the fine
    mesh is empty, or element 0 of the fine space has one of the four map
    types.  A freshly built [B] is the [DerefinementOperator] of the
    range and the domain space with the integrator that was set, and
    otherwise with a [MassIntegrator] for [VALUE] and [INTEGRAL], a
    [VectorFEMassIntegrator] for [H_DIV] and [H_CURL], and a null
    integrator on an empty mesh. *)
Theorem Interpolation_BackwardOperator_succeeds_iff
  (this : InterpolationGridTransfer R) :
  ((exists r, Backward this = Ok r)
   <-> (igt_B this <> None
        \/ (oper_type this = ANY_TYPE
            /\ (mass_integ this <> None
                \/ GetNE (igt_ran_fes this) = 0%nat
                \/ GetMapType (GetFE (igt_ran_fes this) 0)
                   <> UNKNOWN_MAP_TYPE))))
  /\ (forall b this',
        igt_B this = None ->
        Backward this = Ok (b, this') ->
        igt_B this' = Some b
        /\ b = DerefinementOperator (igt_ran_fes this) (igt_dom_fes this)
                 (mass_integ this')
        /\ mass_integ this'
           = match mass_integ this with
             | Some mi => Some mi
             | None =>
                 if Nat.eqb (GetNE (igt_ran_fes this)) 0 then None
                 else match GetMapType (GetFE (igt_ran_fes this) 0) with
                      | VALUE | INTEGRAL => Some MassIntegrator
                      | _ => Some VectorFEMassIntegrator
                      end
             end
        /\ own_mass_integ this'
           = match mass_integ this with
             | Some _ => own_mass_integ this
             | None =>
                 if Nat.eqb (GetNE (igt_ran_fes this)) 0
                 then own_mass_integ this else true
             end).
Proof.
  unfold InterpolationGridTransfer_BackwardOperator.
  destruct (igt_B this) as [b0|] eqn:HB.
  { split; [|discriminate]. split; [intros _; left; discriminate|].
    intros _. eexists; reflexivity. }
  destruct (mass_integ this) as [mi|] eqn:Hmi.
  { cbn [bind].
    destruct (oper_type this) eqn:Ht; cbn [bind deref igt_B].
    - split.
      + split; [intros _; right; split; [reflexivity|left; discriminate]|].
        intros _. eexists; reflexivity.
      + intros b this' _ H. injection H as <- <-. cbn. rewrite Hmi. auto.
    - split; [|discriminate]. split; [intros [r H]; discriminate|].
      intros [H|[H _]]; [contradiction|discriminate].
    - split; [|discriminate]. split; [intros [r H]; discriminate|].
      intros [H|[H _]]; [contradiction|discriminate].
    - split; [|discriminate]. split; [intros [r H]; discriminate|].
      intros [H|[H _]]; [contradiction|discriminate]. }
  destruct (GetNE (igt_ran_fes this)) as [|ne] eqn:Hne.
  { cbn [Nat.ltb Nat.leb bind Nat.eqb].
    destruct (oper_type this) eqn:Ht; cbn [bind deref igt_B].
    - split.
      + split; [intros _; right; split; [reflexivity|right; left; reflexivity]|].
        intros _. eexists; reflexivity.
      + intros b this' _ H. injection H as <- <-. cbn. rewrite Hmi. auto.
    - split; [|discriminate]. split; [intros [r H]; discriminate|].
      intros [H|[H _]]; [contradiction|discriminate].
    - split; [|discriminate]. split; [intros [r H]; discriminate|].
      intros [H|[H _]]; [contradiction|discriminate].
    - split; [|discriminate]. split; [intros [r H]; discriminate|].
      intros [H|[H _]]; [contradiction|discriminate]. }
  change (Nat.ltb 0 (S ne)) with true. cbn [Nat.eqb].
  destruct (GetMapType (GetFE (igt_ran_fes this) 0)) eqn:Hmap;
    cbn [bind oper_type mass_integ igt_dom_fes igt_ran_fes igt_F igt_B
         own_mass_integ].
  { split; [|discriminate]. split; [intros [r H]; discriminate|].
    intros [H|[_ [H|[H|H]]]]; try contradiction; discriminate. }
  all: destruct (oper_type this) eqn:Ht; cbn [bind deref igt_B];
    [ split;
      [ split; [intros _; right; split;
                [reflexivity|right; right; discriminate]|];
        intros _; eexists; reflexivity
      | intros b this' _ H; injection H as <- <-; cbn; auto ]
    | split; [|discriminate]; (split; [intros [r H]; discriminate|]);
      intros [H|[H _]]; [contradiction|discriminate] .. ].
Qed.

(** X20: the two operators of [InterpolationGridTransfer] are built once.
    After a call of [ForwardOperator()] or [BackwardOperator()] that
    returned, every later call returns the same operator and leaves the
    object as it is, also after [SetOperatorType] has changed the type to
    one the member does not support, and, for [BackwardOperator()], after
    [SetMassIntegrator] has changed the integrator. *)
Theorem Interpolation_operators_are_built_once
  (this this' : InterpolationGridTransfer R) (op : InterpolationOperator R)
  (type : OperatorType) (mi : option BilinearFormIntegrator) (own : bool) :
  (Forward this = Ok (op, this') ->
   Forward (SetOperatorType type this')
   = Ok (op, SetOperatorType type this'))
  /\ (Backward this = Ok (op, this') ->
      Backward (SetMassIntegrator mi own (SetOperatorType type this'))
      = Ok (op, SetMassIntegrator mi own (SetOperatorType type this'))).
Proof.
  split; intros H.
  - assert (HF : igt_F this' = Some op).
    { unfold InterpolationGridTransfer_ForwardOperator in H.
      destruct (igt_F this) as [f|] eqn:HF.
      - injection H as <- <-. exact HF.
      - destruct (oper_type this); cbn in H; try discriminate;
          injection H as <- <-; reflexivity. }
    unfold InterpolationGridTransfer_ForwardOperator.
    cbn [SetOperatorType igt_F]. rewrite HF. reflexivity.
  - assert (HB : igt_B this' = Some op).
    { unfold InterpolationGridTransfer_BackwardOperator in H.
      destruct (igt_B this) as [b|] eqn:HB.
      - injection H as <- <-. exact HB.
      - destruct (mass_integ this);
          [|destruct (Nat.ltb 0 (GetNE (igt_ran_fes this)));
            [destruct (GetMapType (GetFE (igt_ran_fes this) 0))|]];
          cbn in H; try discriminate;
          destruct (oper_type this); cbn in H; try discriminate;
          injection H as <- <-; reflexivity. }
    unfold InterpolationGridTransfer_BackwardOperator.
    cbn [SetOperatorType SetMassIntegrator igt_B]. rewrite HB. reflexivity.
Qed.

End GridTransferOperatorFacts.

Lemma BackwardOperator_fails_at_the_call_witness :
  exists b this',
    L2ProjectionGridTransfer_BackwardOperator false left_point unit_mass
      same_matrix end_embedding segment_H1Space segment_H1Space
      broken_transfer = Ok (b, this')
    /\ SupportsBackwardsOperator (members broken_transfer) = true
    /\ exists y',
         L2Prolongation_Mult idle_solver b
           [1%Z; 2%Z; 3%Z; 4%Z; 5%Z; 6%Z; 7%Z; 8%Z]
           [0%Z; 0%Z; 0%Z; 0%Z; 0%Z; 0%Z] = Ok y'.
Proof.
  destruct (@BackwardOperator_fails_at_the_call Z _ false left_point
              unit_mass same_matrix end_embedding segment_H1Space
              segment_H1Space idle_solver broken_transfer
              [1%Z; 2%Z; 3%Z; 4%Z; 5%Z; 6%Z; 7%Z; 8%Z]
              [0%Z; 0%Z; 0%Z; 0%Z; 0%Z; 0%Z]
              eq_refl eq_refl
              ltac:(right; discriminate)
              ltac:(vm_compute; discriminate) ltac:(vm_compute; lia))
    as (b & this' & Hb & _ & Hiff & _).
  exists b, this'. split; [exact Hb|]. split; [reflexivity|].
  apply Hiff. reflexivity.
Defined.

(* ------------------------------------------------------------------ *)
(** ** The tensor-product transfer: the restriction kernels are the
       transposes of the prolongation kernels *)
(* ------------------------------------------------------------------ *)

Section SumsOverSlots.
Context {R : Type} {SR : Scalar R}.
Add Ring scalar_ring_slots : (@scalar_ring R SR).

Lemma radd_0_l (a : R) : (rO + a)%S = a.
Proof. ring. Qed.

Lemma sumn_app (n m : nat) (f : nat -> R) :
  sumn (n + m) f = (sumn n f + sumn m (fun i => f (n + i)%nat))%S.
Proof.
  induction m as [|m IH].
  - rewrite Nat.add_0_r. unfold sumn at 3. simpl. ring.
  - rewrite Nat.add_succ_r, !sumn_S, IH. ring.
Qed.

(** A sum over the slots of [b] blocks of [a] slots each. *)
Lemma sumn_radix (a b : nat) (f : nat -> R) :
  sumn (a * b) f = sumn b (fun j => sumn a (fun i => f (i + a * j)%nat)).
Proof.
  induction b as [|b IH].
  - rewrite Nat.mul_0_r. reflexivity.
  - rewrite Nat.mul_succ_r, sumn_app, IH, sumn_S. f_equal.
    apply sumn_ext. intros i _. f_equal. lia.
Qed.

Lemma dot_comm (n : nat) (a b : Vector R) : dot n a b = dot n b a.
Proof. unfold dot. apply sumn_ext. intros i _. ring. Qed.

(** The inner product picks the entry that an indicator names. *)
Lemma sumn_pick (n idx : nat) (c : R) (w : Vector R) :
  (length w <= n)%nat ->
  sumn n (fun k => ((if Nat.eqb idx k && Nat.ltb k n then c else rO)
                    * nth k w rO)%S)
  = (c * nth idx w rO)%S.
Proof.
  intros Hw. destruct (Nat.lt_ge_cases idx n) as [Hlt|Hge].
  - rewrite (@sumn_single _ _ n _ idx); [|exact Hlt|].
    + rewrite Nat.eqb_refl. apply Nat.ltb_lt in Hlt. now rewrite Hlt.
    + intros i _ Hne. destruct (Nat.eqb_spec idx i); [congruence|].
      simpl. ring.
  - rewrite (nth_overflow w) by lia.
    rewrite sumn_all_zero; [ring|]. intros i Hi.
    destruct (Nat.eqb_spec idx i); [lia|]. simpl. ring.
Qed.

Lemma sum_list_filter {T : Type} (f : T -> R) (p : T -> bool) (l : list T) :
  sum_list (map f (filter p l))
  = sum_list (map (fun t => if p t then f t else rO) l).
Proof.
  induction l as [|t l IH]; simpl; [reflexivity|].
  destruct (p t); simpl; rewrite IH; ring.
Qed.

(** [ElementRestriction::MultTranspose] is the transpose of
    [ElementRestriction::Mult]. *)
Lemma ElementRestriction_adjoint (er : ElementRestriction) (u x : Vector R) :
  (length x <= er_ndofs er)%nat ->
  dot (er_ndofs er) (ElementRestriction_MultTranspose er u) x
  = dot (er_Height er) u (ElementRestriction_Mult er x).
Proof.
  intros Hx. unfold dot.
  transitivity
    (sumn (er_ndofs er)
       (fun i =>
          sumn (er_Height er)
            (fun s =>
               ((if Nat.eqb (nth s (er_gather_map er) 0%nat) i
                    && Nat.ltb i (er_ndofs er)
                 then nth s u rO else rO) * nth i x rO)%S))).
  - apply sumn_ext. intros i Hi. unfold ElementRestriction_MultTranspose.
    rewrite (nth_map_seq
               (fun i => sum_list (map (fun s => nth s u rO)
                                       (er_slots er i)))) by exact Hi.
    unfold er_slots. rewrite sum_list_filter.
    change (sum_list (map ?f (seq 0 ?n))) with (sumn n f).
    rewrite <- sumn_mul_r. apply sumn_ext. intros s _.
    apply Nat.ltb_lt in Hi. rewrite Hi, andb_true_r. reflexivity.
  - rewrite sumn_swap. apply sumn_ext. intros s Hs.
    rewrite nth_ElementRestriction_Mult by exact Hs.
    apply sumn_pick. exact Hx.
Qed.

End SumsOverSlots.

Section RestrictionKernels.
Context {R : Type} {SR : Scalar R}.
Add Ring scalar_ring_restriction_kernels : (@scalar_ring R SR).
Variable MAX_D1D : nat.
Variable MAX_Q1D : nat.
Variable uninit : nat -> R.

(** The loops of [Restriction2D]: for every line [qy] of points of an
    element the array [sol_x] is the one that the prolongation kernel
    forms, with the roles of [D1D] and [Q1D] exchanged. *)
Lemma Restriction2D_loops (NE D1D Q1D : nat) (localH localL : Vector R)
  (Bt : list R) (mask : Vector R) :
  Restriction2D MAX_D1D uninit NE D1D Q1D localH localL Bt mask
  = fold_left
      (fun a e =>
         fold_left
           (fun a qy =>
              fold_left
                (fun a dy =>
                   fold_left
                     (fun a dx =>
                        add_at (dx + D1D * (dy + D1D * e))
                          (B_at D1D Bt dy qy
                           * nth dx
                               (line_values MAX_D1D uninit Q1D D1D Bt
                                  (fun qx =>
                                     nth (qx + Q1D * (qy + Q1D * e)) mask rO
                                     * nth (qx + Q1D * (qy + Q1D * e))
                                           localH rO))
                               rO)%S
                          a)
                     (seq 0 D1D) a)
                (seq 0 D1D) a)
           (seq 0 Q1D) a)
      (seq 0 NE) (map (fun _ => rO) localL).
Proof. reflexivity. Qed.

(** The inner product of the result of [Restriction2D] with a coarse
    element vector. *)
Lemma Restriction2D_dot (NE D1D Q1D : nat) (localH localL w : Vector R)
  (Bt : list R) (mask : Vector R) :
  (D1D <= MAX_D1D)%nat -> (length w <= length localL)%nat ->
  dot (length localL)
      (Restriction2D MAX_D1D uninit NE D1D Q1D localH localL Bt mask) w
  = sumn NE
      (fun e =>
         sumn Q1D
           (fun qy =>
              sumn D1D
                (fun dy =>
                   sumn D1D
                     (fun dx =>
                        (B_at D1D Bt dy qy
                         * sumn Q1D
                             (fun qx =>
                                B_at D1D Bt dx qx
                                * (nth (qx + Q1D * (qy + Q1D * e)) mask rO
                                   * nth (qx + Q1D * (qy + Q1D * e))
                                         localH rO))
                         * nth (dx + D1D * (dy + D1D * e)) w rO)%S)))).
Proof.
  intros HD Hw. rewrite Restriction2D_loops.
  set (n := length localL).
  set (val := fun e qy dy dx =>
                (B_at D1D Bt dy qy
                 * nth dx
                     (line_values MAX_D1D uninit Q1D D1D Bt
                        (fun qx =>
                           nth (qx + Q1D * (qy + Q1D * e)) mask rO
                           * nth (qx + Q1D * (qy + Q1D * e)) localH rO))
                     rO)%S).
  assert (Hadd :
    additive n
      (fun a =>
         fold_left
           (fun a e =>
              fold_left
                (fun a qy =>
                   fold_left
                     (fun a dy =>
                        fold_left
                          (fun a dx =>
                             add_at (dx + D1D * (dy + D1D * e))
                                    (val e qy dy dx) a)
                          (seq 0 D1D) a)
                     (seq 0 D1D) a)
                (seq 0 Q1D) a)
           (seq 0 NE) a)
      (fun k =>
         sumn NE
           (fun e =>
              sumn Q1D
                (fun qy =>
                   sumn D1D
                     (fun dy =>
                        sumn D1D
                          (fun dx =>
                             if Nat.eqb (dx + D1D * (dy + D1D * e)) k
                                && Nat.ltb k n
                             then val e qy dy dx else rO)))))).
  { apply additive_fold. intros e. apply additive_fold. intros qy.
    apply additive_fold. intros dy. apply additive_fold. intros dx.
    apply additive_add_at. }
  destruct (Hadd (map (fun _ => rO) localL)) as [_ Hval];
    [now rewrite length_map|].
  unfold dot.
  rewrite (@sumn_ext _ _ n _
             (fun k =>
                sumn NE
                  (fun e =>
                     sumn Q1D
                       (fun qy =>
                          sumn D1D
                            (fun dy =>
                               sumn D1D
                                 (fun dx =>
                                    ((if Nat.eqb (dx + D1D * (dy + D1D * e)) k
                                         && Nat.ltb k n
                                      then val e qy dy dx else rO)
                                     * nth k w rO)%S)))))).
  2:{ intros k _. rewrite Hval, nth_zeroed, radd_0_l.
      rewrite <- sumn_mul_r. apply sumn_ext. intros e _.
      rewrite <- sumn_mul_r. apply sumn_ext. intros qy _.
      rewrite <- sumn_mul_r. apply sumn_ext. intros dy _.
      rewrite <- sumn_mul_r. reflexivity. }
  rewrite sumn_swap. apply sumn_ext. intros e _.
  rewrite sumn_swap. apply sumn_ext. intros qy Hqy.
  rewrite sumn_swap. apply sumn_ext. intros dy _.
  rewrite sumn_swap. apply sumn_ext. intros dx Hdx.
  rewrite sumn_pick by exact Hw. unfold val.
  rewrite line_values_spec by lia. reflexivity.
Qed.

(** The inner product of a fine element vector with the result of
    [Prolongation2D]. *)
Lemma Prolongation2D_dot (NE D1D Q1D : nat) (localL localH v : Vector R)
  (B : list R) (mask : Vector R) :
  (Q1D <= MAX_Q1D)%nat -> length localH = (Q1D * Q1D * NE)%nat ->
  dot (Q1D * Q1D * NE) v
      (Prolongation2D MAX_Q1D uninit NE D1D Q1D localL localH B mask)
  = sumn NE
      (fun e =>
         sumn Q1D
           (fun qy =>
              sumn Q1D
                (fun qx =>
                   (nth (qx + Q1D * (qy + Q1D * e)) v rO
                    * (sumn D1D
                         (fun dy =>
                            B_at Q1D B qy dy
                            * sumn D1D
                                (fun dx =>
                                   B_at Q1D B qx dx
                                   * nth (dx + D1D * (dy + D1D * e))
                                         localL rO))
                       * nth (qx + Q1D * (qy + Q1D * e)) mask rO))%S))).
Proof.
  intros HQ Hlen. unfold dot. rewrite sumn_radix.
  apply sumn_ext. intros e He. rewrite sumn_radix.
  apply sumn_ext. intros qy Hqy. apply sumn_ext. intros qx Hqx.
  replace (qx + Q1D * qy + Q1D * Q1D * e)%nat
    with (qx + Q1D * (qy + Q1D * e))%nat by lia.
  now rewrite Prolongation2D_value.
Qed.

Lemma sumn2_scale (n m : nat) (a : nat -> R) (b : nat -> nat -> R)
  (c d : R) :
  (c * (sumn n (fun i => a i * sumn m (fun j => b i j)) * d))%S
  = sumn n (fun i => sumn m (fun j => (c * a i * b i j * d)%S)).
Proof.
  rewrite <- sumn_mul_r, <- sumn_mul_l. apply sumn_ext. intros i _.
  transitivity ((c * a i * d) * sumn m (fun j => b i j))%S; [ring|].
  rewrite <- sumn_mul_l. apply sumn_ext. intros j _. ring.
Qed.

(** [Restriction2D] with the transposed table is the transpose of
    [Prolongation2D]. *)
Lemma kernel_adjoint2D (NE D1D Q1D : nat) (v w localL localH : Vector R)
  (B Bt : list R) (mask : Vector R) :
  (D1D <= MAX_D1D)%nat -> (Q1D <= MAX_Q1D)%nat ->
  length localH = (Q1D * Q1D * NE)%nat ->
  (length w <= length localL)%nat ->
  (forall d q, (d < D1D)%nat -> (q < Q1D)%nat ->
     nth (d + D1D * q) Bt rO = nth (q + Q1D * d) B rO) ->
  dot (Q1D * Q1D * NE) v
      (Prolongation2D MAX_Q1D uninit NE D1D Q1D w localH B mask)
  = dot (length localL)
        (Restriction2D MAX_D1D uninit NE D1D Q1D v localL Bt mask) w.
Proof.
  intros HD HQ HlH Hw HBt.
  rewrite Prolongation2D_dot by assumption.
  rewrite Restriction2D_dot by assumption.
  apply sumn_ext. intros e _. apply sumn_ext. intros qy Hqy.
  set (F := fun qx dy dx =>
              (nth (qx + Q1D * (qy + Q1D * e)) v rO * B_at Q1D B qy dy
               * (B_at Q1D B qx dx * nth (dx + D1D * (dy + D1D * e)) w rO)
               * nth (qx + Q1D * (qy + Q1D * e)) mask rO)%S).
  transitivity (sumn Q1D (fun qx => sumn D1D (fun dy => sumn D1D (F qx dy)))).
  { apply sumn_ext. intros qx _.
    exact (sumn2_scale D1D D1D (fun dy => B_at Q1D B qy dy)
             (fun dy dx => (B_at Q1D B qx dx
                            * nth (dx + D1D * (dy + D1D * e)) w rO)%S)
             (nth (qx + Q1D * (qy + Q1D * e)) v rO)
             (nth (qx + Q1D * (qy + Q1D * e)) mask rO)). }
  rewrite sumn_swap. apply sumn_ext. intros dy Hdy.
  rewrite sumn_swap. apply sumn_ext. intros dx Hdx.
  transitivity
    ((B_at D1D Bt dy qy * nth (dx + D1D * (dy + D1D * e)) w rO)
     * sumn Q1D
         (fun qx =>
            B_at D1D Bt dx qx
            * (nth (qx + Q1D * (qy + Q1D * e)) mask rO
               * nth (qx + Q1D * (qy + Q1D * e)) v rO)))%S; [|ring].
  rewrite <- sumn_mul_l. apply sumn_ext. intros qx Hqx. unfold F, B_at.
  rewrite !HBt by assumption. ring.
Qed.

(** The entries of the scratch plane. *)
Lemma plane_of_spec (MAX : nat) (D1D Q1D : nat) (B : list R)
  (X : nat -> nat -> R) (qx qy : nat) :
  (Q1D <= MAX)%nat -> (qx < Q1D)%nat -> (qy < Q1D)%nat ->
  nth (qy * MAX + qx) (plane_of MAX uninit D1D Q1D B X) rO
  = sumn D1D
      (fun dy =>
         (B_at Q1D B qy dy
          * sumn D1D (fun dx => B_at Q1D B qx dx * X dx dy))%S).
Proof.
  intros HQ Hqx Hqy. unfold plane_of.
  destruct (@plane_zeroed _ _ MAX uninit Q1D qx qy HQ Hqx Hqy) as [HZl HZ0].
  set (Z0 := fold_left _ (seq 0 Q1D) (scratch uninit (MAX * MAX))) in *.
  assert (Hadd :
    additive (MAX * MAX)
      (fun a =>
         fold_left
           (fun sol_xy dy =>
              fold_left
                (fun sol_xy qy =>
                   fold_left
                     (fun sol_xy qx =>
                        add_at (qy * MAX + qx)
                          (B_at Q1D B qy dy
                           * nth qx
                               (line_values MAX uninit D1D Q1D B
                                  (fun dx => X dx dy))
                               rO)%S
                          sol_xy)
                     (seq 0 Q1D) sol_xy)
                (seq 0 Q1D) sol_xy)
           (seq 0 D1D) a)
      (fun k =>
         sumn D1D
           (fun dy =>
              sumn Q1D
                (fun qy =>
                   sumn Q1D
                     (fun qx =>
                        if Nat.eqb (qy * MAX + qx) k
                           && Nat.ltb k (MAX * MAX)
                        then (B_at Q1D B qy dy
                              * nth qx
                                  (line_values MAX uninit D1D Q1D B
                                     (fun dx => X dx dy))
                                  rO)%S
                        else rO))))).
  { apply additive_fold. intros dy.
    apply additive_fold. intros qy0.
    apply additive_fold. intros qx0.
    apply additive_add_at. }
  destruct (Hadd Z0 HZl) as [_ Hk]. rewrite Hk, HZ0, radd_0_l.
  apply sumn_ext. intros dy _.
  rewrite <- (@line_values_spec _ _ MAX uninit D1D Q1D B
                (fun dx => X dx dy) qx HQ Hqx).
  apply (@sumn2_if_single _ _ Q1D Q1D
           (fun qy0 qx0 =>
              Nat.eqb (qy0 * MAX + qx0) (qy * MAX + qx)
              && Nat.ltb (qy * MAX + qx) (MAX * MAX))
           (fun qy0 qx0 =>
              (B_at Q1D B qy0 dy
               * nth qx0
                   (line_values MAX uninit D1D Q1D B (fun dx => X dx dy))
                   rO)%S)
           qy qx Hqy Hqx).
  - rewrite Nat.eqb_refl. simpl. apply Nat.ltb_lt. nia.
  - intros qy0 qx0 Hqy0 Hqx0 H. apply andb_true_iff in H.
    destruct H as [H _]. apply Nat.eqb_eq in H.
    destruct (@radix_inj MAX qx0 qy0 qx qy) as [? ?]; lia.
Qed.

Lemma Restriction3D_loops (NE D1D Q1D : nat) (localH localL : Vector R)
  (Bt : list R) (mask : Vector R) :
  Restriction3D MAX_D1D uninit NE D1D Q1D localH localL Bt mask
  = fold_left
      (fun a e =>
         fold_left
           (fun a qz =>
              fold_left
                (fun a dz =>
                   fold_left
                     (fun a dy =>
                        fold_left
                          (fun a dx =>
                             add_at (dx + D1D * (dy + D1D * (dz + D1D * e)))
                               (B_at D1D Bt dz qz
                                * nth (dy * MAX_D1D + dx)
                                    (plane_of MAX_D1D uninit Q1D D1D Bt
                                       (fun qx qy =>
                                          nth (qx + Q1D
                                                    * (qy + Q1D
                                                         * (qz + Q1D * e)))
                                              mask rO
                                          * nth (qx + Q1D
                                                      * (qy + Q1D
                                                           * (qz + Q1D * e)))
                                                localH rO))
                                    rO)%S
                               a)
                          (seq 0 D1D) a)
                     (seq 0 D1D) a)
                (seq 0 D1D) a)
           (seq 0 Q1D) a)
      (seq 0 NE) (map (fun _ => rO) localL).
Proof. reflexivity. Qed.

(** The inner product of the result of [Restriction3D] with a coarse
    element vector. *)
Lemma Restriction3D_dot (NE D1D Q1D : nat) (localH localL w : Vector R)
  (Bt : list R) (mask : Vector R) :
  (D1D <= MAX_D1D)%nat -> (length w <= length localL)%nat ->
  dot (length localL)
      (Restriction3D MAX_D1D uninit NE D1D Q1D localH localL Bt mask) w
  = sumn NE
      (fun e =>
         sumn Q1D
           (fun qz =>
              sumn D1D
                (fun dz =>
                   sumn D1D
                     (fun dy =>
                        sumn D1D
                          (fun dx =>
                             (B_at D1D Bt dz qz
                              * sumn Q1D
                                  (fun qy =>
                                     B_at D1D Bt dy qy
                                     * sumn Q1D
                                         (fun qx =>
                                            B_at D1D Bt dx qx
                                            * (nth (qx + Q1D
                                                      * (qy + Q1D
                                                          * (qz + Q1D * e)))
                                                   mask rO
                                               * nth (qx + Q1D
                                                        * (qy + Q1D
                                                            * (qz + Q1D * e)))
                                                     localH rO)))
                              * nth (dx + D1D * (dy + D1D * (dz + D1D * e)))
                                    w rO)%S))))).
Proof.
  intros HD Hw. rewrite Restriction3D_loops.
  set (n := length localL).
  set (val := fun e qz dz dy dx =>
                (B_at D1D Bt dz qz
                 * nth (dy * MAX_D1D + dx)
                     (plane_of MAX_D1D uninit Q1D D1D Bt
                        (fun qx qy =>
                           nth (qx + Q1D * (qy + Q1D * (qz + Q1D * e)))
                               mask rO
                           * nth (qx + Q1D * (qy + Q1D * (qz + Q1D * e)))
                                 localH rO))
                     rO)%S).
  assert (Hadd :
    additive n
      (fun a =>
         fold_left
           (fun a e =>
              fold_left
                (fun a qz =>
                   fold_left
                     (fun a dz =>
                        fold_left
                          (fun a dy =>
                             fold_left
                               (fun a dx =>
                                  add_at
                                    (dx + D1D * (dy + D1D * (dz + D1D * e)))
                                    (val e qz dz dy dx) a)
                               (seq 0 D1D) a)
                          (seq 0 D1D) a)
                     (seq 0 D1D) a)
                (seq 0 Q1D) a)
           (seq 0 NE) a)
      (fun k =>
         sumn NE
           (fun e =>
              sumn Q1D
                (fun qz =>
                   sumn D1D
                     (fun dz =>
                        sumn D1D
                          (fun dy =>
                             sumn D1D
                               (fun dx =>
                                  if Nat.eqb
                                       (dx + D1D
                                             * (dy + D1D * (dz + D1D * e)))
                                       k
                                     && Nat.ltb k n
                                  then val e qz dz dy dx else rO))))))).
  { apply additive_fold. intros e. apply additive_fold. intros qz.
    apply additive_fold. intros dz. apply additive_fold. intros dy.
    apply additive_fold. intros dx. apply additive_add_at. }
  destruct (Hadd (map (fun _ => rO) localL)) as [_ Hval];
    [now rewrite length_map|].
  unfold dot.
  rewrite (@sumn_ext _ _ n _
             (fun k =>
                sumn NE
                  (fun e =>
                     sumn Q1D
                       (fun qz =>
                          sumn D1D
                            (fun dz =>
                               sumn D1D
                                 (fun dy =>
                                    sumn D1D
                                      (fun dx =>
                                         ((if Nat.eqb
                                                (dx + D1D
                                                   * (dy + D1D
                                                       * (dz + D1D * e)))
                                                k
                                              && Nat.ltb k n
                                           then val e qz dz dy dx else rO)
                                          * nth k w rO)%S))))))).
  2:{ intros k _. rewrite Hval, nth_zeroed, radd_0_l.
      rewrite <- sumn_mul_r. apply sumn_ext. intros e _.
      rewrite <- sumn_mul_r. apply sumn_ext. intros qz _.
      rewrite <- sumn_mul_r. apply sumn_ext. intros dz _.
      rewrite <- sumn_mul_r. apply sumn_ext. intros dy _.
      rewrite <- sumn_mul_r. reflexivity. }
  rewrite sumn_swap. apply sumn_ext. intros e _.
  rewrite sumn_swap. apply sumn_ext. intros qz Hqz.
  rewrite sumn_swap. apply sumn_ext. intros dz _.
  rewrite sumn_swap. apply sumn_ext. intros dy Hdy.
  rewrite sumn_swap. apply sumn_ext. intros dx Hdx.
  rewrite sumn_pick by exact Hw. unfold val.
  rewrite plane_of_spec by lia. reflexivity.
Qed.

(** The inner product of a fine element vector with the result of
    [Prolongation3D]. *)
Lemma Prolongation3D_dot (NE D1D Q1D : nat) (localL localH v : Vector R)
  (B : list R) (mask : Vector R) :
  (Q1D <= MAX_Q1D)%nat -> length localH = (Q1D * Q1D * Q1D * NE)%nat ->
  dot (Q1D * Q1D * Q1D * NE) v
      (Prolongation3D MAX_Q1D uninit NE D1D Q1D localL localH B mask)
  = sumn NE
      (fun e =>
         sumn Q1D
           (fun qz =>
              sumn Q1D
                (fun qy =>
                   sumn Q1D
                     (fun qx =>
                        (nth (qx + Q1D * (qy + Q1D * (qz + Q1D * e))) v rO
                         * (sumn D1D
                              (fun dz =>
                                 B_at Q1D B qz dz
                                 * sumn D1D
                                     (fun dy =>
                                        B_at Q1D B qy dy
                                        * sumn D1D
                                            (fun dx =>
                                               B_at Q1D B qx dx
                                               * nth (dx + D1D
                                                        * (dy + D1D
                                                            * (dz + D1D * e)))
                                                     localL rO)))
                            * nth (qx + Q1D * (qy + Q1D * (qz + Q1D * e)))
                                  mask rO))%S)))).
Proof.
  intros HQ Hlen. unfold dot. rewrite sumn_radix.
  apply sumn_ext. intros e He. rewrite sumn_radix.
  apply sumn_ext. intros qz Hqz. rewrite sumn_radix.
  apply sumn_ext. intros qy Hqy. apply sumn_ext. intros qx Hqx.
  replace (qx + Q1D * qy + Q1D * Q1D * qz + Q1D * Q1D * Q1D * e)%nat
    with (qx + Q1D * (qy + Q1D * (qz + Q1D * e)))%nat by lia.
  now rewrite Prolongation3D_value.
Qed.

Lemma sumn3_scale (n m l : nat) (a : nat -> R) (b : nat -> nat -> R)
  (g : nat -> nat -> nat -> R) (c d : R) :
  (c * (sumn n
          (fun i => a i * sumn m (fun j => b i j * sumn l (fun k => g i j k)))
        * d))%S
  = sumn n
      (fun i =>
         sumn m (fun j => sumn l (fun k => (c * a i * b i j * g i j k * d)%S))).
Proof.
  rewrite <- sumn_mul_r, <- sumn_mul_l. apply sumn_ext. intros i _.
  transitivity
    ((c * a i)
     * (sumn m (fun j => b i j * sumn l (fun k => g i j k)) * d))%S; [ring|].
  rewrite (sumn2_scale m l (fun j => b i j) (fun j k => g i j k)
             (c * a i)%S d).
  reflexivity.
Qed.

(** [Restriction3D] with the transposed table is the transpose of
    [Prolongation3D]. *)
Lemma kernel_adjoint3D (NE D1D Q1D : nat) (v w localL localH : Vector R)
  (B Bt : list R) (mask : Vector R) :
  (D1D <= MAX_D1D)%nat -> (Q1D <= MAX_Q1D)%nat ->
  length localH = (Q1D * Q1D * Q1D * NE)%nat ->
  (length w <= length localL)%nat ->
  (forall d q, (d < D1D)%nat -> (q < Q1D)%nat ->
     nth (d + D1D * q) Bt rO = nth (q + Q1D * d) B rO) ->
  dot (Q1D * Q1D * Q1D * NE) v
      (Prolongation3D MAX_Q1D uninit NE D1D Q1D w localH B mask)
  = dot (length localL)
        (Restriction3D MAX_D1D uninit NE D1D Q1D v localL Bt mask) w.
Proof.
  intros HD HQ HlH Hw HBt.
  rewrite Prolongation3D_dot by assumption.
  rewrite Restriction3D_dot by assumption.
  apply sumn_ext. intros e _. apply sumn_ext. intros qz Hqz.
  set (s := fun qx qy => (qx + Q1D * (qy + Q1D * (qz + Q1D * e)))%nat).
  set (t := fun dx dy dz => (dx + D1D * (dy + D1D * (dz + D1D * e)))%nat).
  set (F := fun qy qx dz dy dx =>
              (nth (s qx qy) v rO * B_at Q1D B qz dz * B_at Q1D B qy dy
               * (B_at Q1D B qx dx * nth (t dx dy dz) w rO)
               * nth (s qx qy) mask rO)%S).
  transitivity
    (sumn Q1D
       (fun qy =>
          sumn Q1D
            (fun qx =>
               sumn D1D
                 (fun dz => sumn D1D (fun dy => sumn D1D (F qy qx dz dy)))))).
  { apply sumn_ext. intros qy _. apply sumn_ext. intros qx _.
    exact (sumn3_scale D1D D1D D1D (fun dz => B_at Q1D B qz dz)
             (fun dz dy => B_at Q1D B qy dy)
             (fun dz dy dx => (B_at Q1D B qx dx * nth (t dx dy dz) w rO)%S)
             (nth (s qx qy) v rO) (nth (s qx qy) mask rO)). }
  transitivity
    (sumn D1D
       (fun dz =>
          sumn D1D
            (fun dy =>
               sumn D1D
                 (fun dx =>
                    sumn Q1D (fun qy => sumn Q1D (fun qx => F qy qx dz dy dx)))))).
  { transitivity
      (sumn Q1D
         (fun qy =>
            sumn D1D
              (fun dz =>
                 sumn D1D
                   (fun dy =>
                      sumn D1D
                        (fun dx => sumn Q1D (fun qx => F qy qx dz dy dx)))))).
    - apply sumn_ext. intros qy _.
      rewrite sumn_swap. apply sumn_ext. intros dz _.
      rewrite sumn_swap. apply sumn_ext. intros dy _.
      rewrite sumn_swap. reflexivity.
    - rewrite sumn_swap. apply sumn_ext. intros dz _.
      rewrite sumn_swap. apply sumn_ext. intros dy _.
      rewrite sumn_swap. reflexivity. }
  apply sumn_ext. intros dz Hdz. apply sumn_ext. intros dy Hdy.
  apply sumn_ext. intros dx Hdx.
  transitivity
    ((B_at D1D Bt dz qz * nth (t dx dy dz) w rO)
     * sumn Q1D
         (fun qy =>
            B_at D1D Bt dy qy
            * sumn Q1D
                (fun qx =>
                   B_at D1D Bt dx qx
                   * (nth (s qx qy) mask rO * nth (s qx qy) v rO))))%S;
    [|unfold s, t; ring].
  rewrite <- sumn_mul_l. apply sumn_ext. intros qy Hqy.
  transitivity
    ((B_at D1D Bt dz qz * nth (t dx dy dz) w rO * B_at D1D Bt dy qy)
     * sumn Q1D
         (fun qx =>
            B_at D1D Bt dx qx
            * (nth (s qx qy) mask rO * nth (s qx qy) v rO)))%S; [|ring].
  rewrite <- sumn_mul_l. apply sumn_ext. intros qx Hqx. unfold F, B_at.
  rewrite !HBt by assumption. ring.
Qed.

End RestrictionKernels.

Section TensorProductAdjoint.
Context {R : Type} {SR : Scalar R}.
Variable MAX_D1D : nat.
Variable MAX_Q1D : nat.
Variable uninit : nat -> R.
Variable this : TensorProductPRefinementTransferOperator R.
Variables erl erh : ElementRestriction.

(** X21: [TensorProductPRefinementTransferOperator::MultTranspose] is the
    transpose of [Mult], in two and in three dimensions: for a coarse
    vector [x] and a fine vector [z] both calls return, and the inner
    product of [z] with [Mult x] equals that of [MultTranspose z] with
    [x].  It holds for every mask, under the conditions the kernels rely
    on: the table [Bt] is the transpose of [B], [D1D] and [Q1D] are
    within the capacity of the scratch arrays, and the element vectors
    have [D1D^dim] and [Q1D^dim] slots per element. *)
Theorem TensorProduct_MultTranspose_adjoint (x z y0 x0 : Vector R) :
  mesh_GetNE (GetMesh (tp_lFESpace this)) <> 0%nat ->
  tp_dim this = 2%nat \/ tp_dim this = 3%nat ->
  (tp_D1D this <= MAX_D1D)%nat ->
  (tp_Q1D this <= MAX_Q1D)%nat ->
  elem_restrict_lex_l this = Some erl ->
  elem_restrict_lex_h this = Some erh ->
  er_Height erl = (tp_D1D this ^ tp_dim this * tp_NE this)%nat ->
  er_Height erh = (tp_Q1D this ^ tp_dim this * tp_NE this)%nat ->
  length (tp_localL this) = er_Height erl ->
  length (tp_localH this) = er_Height erh ->
  (forall d q, (d < tp_D1D this)%nat -> (q < tp_Q1D this)%nat ->
     nth (d + tp_D1D this * q) (tp_Bt this) rO
     = nth (q + tp_Q1D this * d) (tp_B this) rO) ->
  length x = er_ndofs erl ->
  length z = er_ndofs erh ->
  exists y xt,
    TensorProductPRefinementTransferOperator_Mult MAX_Q1D uninit this x y0
    = Ok y
    /\ TensorProductPRefinementTransferOperator_MultTranspose MAX_D1D uninit
         this z x0 = Ok xt
    /\ dot (er_ndofs erh) z y = dot (er_ndofs erl) xt x.
Proof.
  intros Hne Hdim HD HQ Hl Hh Hlh Hhh HlL HlH HBt Hx Hz.
  unfold TensorProductPRefinementTransferOperator_Mult,
    TensorProductPRefinementTransferOperator_MultTranspose.
  apply Nat.eqb_neq in Hne. rewrite Hne, Hl, Hh. cbn [deref bind].
  assert (Hw : (length (ElementRestriction_Mult erl x)
                <= length (tp_localL this))%nat).
  { unfold ElementRestriction_Mult. rewrite length_map, length_seq. lia. }
  destruct Hdim as [Hdim|Hdim]; rewrite Hdim in *; cbn [Nat.eqb bind].
  - eexists; eexists. split; [reflexivity|]. split; [reflexivity|].
    rewrite dot_comm, ElementRestriction_adjoint by lia.
    rewrite dot_comm, ElementRestriction_adjoint by lia.
    rewrite <- HlL.
    rewrite <- (@kernel_adjoint2D _ _ MAX_D1D MAX_Q1D uninit (tp_NE this)
                  (tp_D1D this) (tp_Q1D this)
                  (ElementRestriction_Mult erh z)
                  (ElementRestriction_Mult erl x)
                  (tp_localL this) (tp_localH this) (tp_B this) (tp_Bt this)
                  (tp_mask this) HD HQ); [| |exact Hw|exact HBt].
    + f_equal. rewrite Hhh. simpl. lia.
    + rewrite HlH, Hhh. simpl. lia.
  - eexists; eexists. split; [reflexivity|]. split; [reflexivity|].
    rewrite dot_comm, ElementRestriction_adjoint by lia.
    rewrite dot_comm, ElementRestriction_adjoint by lia.
    rewrite <- HlL.
    rewrite <- (@kernel_adjoint3D _ _ MAX_D1D MAX_Q1D uninit (tp_NE this)
                  (tp_D1D this) (tp_Q1D this)
                  (ElementRestriction_Mult erh z)
                  (ElementRestriction_Mult erl x)
                  (tp_localL this) (tp_localH this) (tp_B this) (tp_Bt this)
                  (tp_mask this) HD HQ); [| |exact Hw|exact HBt].
    + f_equal. rewrite Hhh. simpl. lia.
    + rewrite HlH, Hhh. simpl. lia.
Qed.

End TensorProductAdjoint.

Lemma TensorProduct_MultTranspose_adjoint_witness :
  exists y xt,
    TensorProductPRefinementTransferOperator_Mult 4 zero_memory square_tensor
      [1%Z; 2%Z; 3%Z; 4%Z; 5%Z; 6%Z] (filled 15 0%Z) = Ok y
    /\ TensorProductPRefinementTransferOperator_MultTranspose 4 zero_memory
         square_tensor
         [1%Z; 0%Z; 2%Z; 0%Z; 3%Z; 0%Z; 1%Z; 0%Z; 2%Z; 0%Z; 3%Z; 0%Z; 1%Z;
          0%Z; 2%Z]
         (filled 6 0%Z) = Ok xt
    /\ dot 15
         [1%Z; 0%Z; 2%Z; 0%Z; 3%Z; 0%Z; 1%Z; 0%Z; 2%Z; 0%Z; 3%Z; 0%Z; 1%Z;
          0%Z; 2%Z] y
       = dot 6 xt [1%Z; 2%Z; 3%Z; 4%Z; 5%Z; 6%Z].
Proof.
  apply (@TensorProduct_MultTranspose_adjoint Z _ 4%nat 4%nat zero_memory
           square_tensor square_coarse_restriction square_fine_restriction
           [1%Z; 2%Z; 3%Z; 4%Z; 5%Z; 6%Z]
           [1%Z; 0%Z; 2%Z; 0%Z; 3%Z; 0%Z; 1%Z; 0%Z; 2%Z; 0%Z; 3%Z; 0%Z; 1%Z;
            0%Z; 2%Z]
           (filled 15 0%Z) (filled 6 0%Z)).
  - vm_compute; discriminate.
  - left; reflexivity.
  - vm_compute; lia.
  - vm_compute; lia.
  - reflexivity.
  - reflexivity.
  - reflexivity.
  - reflexivity.
  - reflexivity.
  - reflexivity.
  - intros d q Hd Hq. change (d < 2)%nat in Hd. change (q < 3)%nat in Hq.
    destruct d as [|[|d]]; [| |lia];
      (destruct q as [|[|[|q]]]; [| | |lia]); reflexivity.
  - reflexivity.
  - reflexivity.
Defined.

(* ------------------------------------------------------------------ *)
(** ** The discontinuous strategy: prolongation after restriction *)
(* ------------------------------------------------------------------ *)

Section StoreLoops.
Context {R : Type} {SR : Scalar R}.
Add Ring scalar_ring_stores : (@scalar_ring R SR).

Lemma sg_sg (dof : Z) : (@sg R SR dof * sg dof)%S = rI.
Proof. unfold sg. destruct (0 <=? dof)%Z; ring. Qed.

(** A loop of loops of stores that name different entries stores what
    its steps store. *)
Lemma stores_fold (n m : nat) (step : list R -> nat -> list R)
  (W : nat -> nat -> R -> Prop) :
  (forall t, (t < m)%nat -> stores n (fun a => step a t) (W t)) ->
  (forall t t' k v v', (t < m)%nat -> (t' < m)%nat ->
     W t k v -> W t' k v' -> t = t') ->
  stores n (fun a => fold_left step (seq 0 m) a)
         (fun k v => exists t, (t < m)%nat /\ W t k v).
Proof.
  intros Hstep Hdisj.
  induction m as [|m IH]; intros a Ha.
  - simpl. split; [exact Ha|]. split; [|reflexivity].
    intros k v [t [Ht _]]. lia.
  - rewrite fold_left_seq_S.
    destruct (IH (fun t Ht => Hstep t (Nat.lt_lt_succ_r _ _ Ht))
                 (fun t t' k v v' Ht Ht' =>
                    Hdisj t t' k v v' (Nat.lt_lt_succ_r _ _ Ht)
                          (Nat.lt_lt_succ_r _ _ Ht'))
                 a Ha) as [Hl [Hhit Hmiss]].
    destruct (Hstep m (Nat.lt_succ_diag_r m) _ Hl) as [Hl' [Hhit' Hmiss']].
    split; [exact Hl'|]. split.
    + intros k v [t [Ht HW]].
      destruct (Nat.eq_dec t m) as [->|Hne]; [now apply Hhit'|].
      rewrite Hmiss'.
      * apply Hhit. exists t. split; [lia|exact HW].
      * intros v' HW'.
        assert (t = m) by (apply (Hdisj t m k v v'); [lia|lia|easy|easy]).
        contradiction.
    + intros k Hk. rewrite Hmiss'.
      * apply Hmiss. intros v [t [Ht HW]]. apply (Hk v).
        exists t. split; [lia|exact HW].
      * intros v HW. apply (Hk v). exists m. split; [lia|exact HW].
Qed.

Lemma stores_ext (n : nat) (f : list R -> list R)
  (W W' : nat -> R -> Prop) :
  (forall k v, W k v <-> W' k v) -> stores n f W -> stores n f W'.
Proof.
  intros HW Hs a Ha. destruct (Hs a Ha) as [Hl [Hhit Hmiss]].
  split; [exact Hl|]. split.
  - intros k v Hk. apply Hhit. now apply HW.
  - intros k Hk. apply Hmiss. intros v Hv. apply (Hk v). now apply HW.
Qed.

Lemma stores_SetSubVector (n : nat) (dofs : list Z) (ev : Vector R) :
  NoDup (map dof_index dofs) ->
  (forall p, (p < length dofs)%nat -> (dof_index (nth p dofs 0%Z) < n)%nat) ->
  stores n (SetSubVector dofs ev)
         (fun k v => exists p, (p < length dofs)%nat
                               /\ dof_index (nth p dofs 0%Z) = k
                               /\ v = (sg (nth p dofs 0%Z) * nth p ev rO)%S).
Proof.
  intros Hnd Hrange a Ha. split; [now rewrite length_SetSubVector|]. split.
  - intros k v [p [Hp [Hk ->]]]. subst k.
    apply nth_SetSubVector_hit; [exact Hnd|exact Hp|].
    rewrite Ha. now apply Hrange.
  - intros k Hk. apply nth_SetSubVector_miss. intros Hin.
    apply In_dof_index in Hin. destruct Hin as [p [Hp Hpk]].
    apply (Hk (sg (nth p dofs 0%Z) * nth p ev rO)%S). now exists p.
Qed.

Lemma stores_write_at (n off : nat) (blk : list R) :
  (off + length blk <= n)%nat ->
  stores n (write_at off blk)
         (fun k v => exists p, (p < length blk)%nat /\ k = (off + p)%nat
                               /\ v = nth p blk rO).
Proof.
  intros Hn a Ha. split; [|split].
  - unfold write_at. rewrite length_fold_left; [exact Ha|].
    intros b t. apply length_upd.
  - intros k v [p [Hp [-> ->]]]. apply nth_write_at_hit; [exact Hp|lia].
  - intros k Hk. apply nth_write_at_miss.
    destruct (Nat.lt_ge_cases k off) as [Hlt|Hge]; [now left|].
    destruct (Nat.lt_ge_cases k (off + length blk)) as [Hin|Hout];
      [|now right].
    exfalso. apply (Hk (nth (k - off) blk rO)).
    exists (k - off)%nat. repeat split; lia.
Qed.

End StoreLoops.

Section MatrixLoops.
Context {R : Type} {SR : Scalar R}.
Add Ring scalar_ring_matrix_loops : (@scalar_ring R SR).

(** A loop that rewrites the data of a matrix and keeps its size. *)
Lemma fold_matrix_data {T : Type} (g : nat -> T -> list R -> list R)
  (l : list T) (M : DenseMatrix R) :
  fold_left
    (fun xel t =>
       {| Height := Height xel; Width := Width xel;
          Data := g (Height xel) t (Data xel) |})
    l M
  = {| Height := Height M; Width := Width M;
       Data := fold_left (fun d t => g (Height M) t d) l (Data M) |}.
Proof.
  revert M. induction l as [|t l IH]; intros M; simpl.
  - now destruct M.
  - rewrite IH. reflexivity.
Qed.

Lemma Elem_identity (n i k : nat) :
  (i < n)%nat -> (k < n)%nat ->
  Elem (DenseMatrix_identity (R := R) n) i k
  = if Nat.eqb i k then rI else rO.
Proof. intros Hi Hk. unfold DenseMatrix_identity. now rewrite Elem_of. Qed.

(** The product with the identity matrix. *)
Lemma MatMult_identity_l (n : nat) (X : DenseMatrix R) :
  Height X = n -> length (Data X) = (n * Width X)%nat ->
  MatMult (DenseMatrix_identity n) X = X.
Proof.
  intros HH HD. destruct X as [h w d]. cbn [Height Width Data] in *. subst h.
  unfold MatMult.
  change (Height (DenseMatrix_identity (R := R) n)) with n.
  change (Width (DenseMatrix_identity (R := R) n)) with n.
  cbn [Width].
  set (f := fun i j =>
              sumn n
                (fun k =>
                   (Elem (DenseMatrix_identity n) i k
                    * Elem {| Height := n; Width := w; Data := d |} k j)%S)).
  pose proof (length_Data_of n w f) as HL.
  unfold DenseMatrix_of in *. cbn [Data] in HL. f_equal.
  apply (list_eq_nth rO); [lia|].
  intros q Hq. rewrite HL in Hq.
  assert (Hn : n <> 0%nat) by lia.
  pose proof (Nat.div_mod q n Hn) as Hdm.
  pose proof (Nat.mod_upper_bound q n Hn) as Hmod.
  assert (Hdiv : (q / n < w)%nat)
    by (apply Nat.Div0.div_lt_upper_bound; lia).
  replace q with (q mod n + (q / n) * n)%nat at 1 2 by lia.
  rewrite (nth_blocks (fun j i => f i j) 0 rO Hmod Hdiv).
  cbn [Nat.add]. unfold f.
  rewrite (@sumn_single _ _ n _ (q mod n)); [|exact Hmod|].
  - rewrite Elem_identity, Nat.eqb_refl by assumption.
    unfold Elem. cbn [Height Data]. ring.
  - intros k Hk Hne. rewrite Elem_identity by assumption.
    destruct (Nat.eqb_spec (q mod n) k); [congruence|ring].
Qed.

(** The table of all components of an element, position by position. *)
Lemma nth_GetElementVDofs (fes : FiniteElementSpace R) (e vd p : nat) :
  (vd < GetVDim fes)%nat ->
  (p < length (fst (GetElementDofs fes e)))%nat ->
  nth (p + vd * length (fst (GetElementDofs fes e)))
      (GetElementVDofs fes e) 0%Z
  = nth p (DofsToVDofs fes vd (fst (GetElementDofs fes e))) 0%Z.
Proof.
  intros Hvd Hp. unfold GetElementVDofs.
  set (dofs := fst (GetElementDofs fes e)) in *.
  assert (H : forall w v s, (v < w)%nat ->
            nth (p + v * length dofs)
                (flat_map (fun c => DofsToVDofs fes c dofs) (seq s w)) 0%Z
            = nth p (DofsToVDofs fes (s + v) dofs) 0%Z).
  { induction w as [|w IH]; intros v s Hw; [lia|].
    cbn [seq flat_map]. destruct v as [|v].
    - rewrite app_nth1 by (rewrite length_DofsToVDofs; lia).
      now rewrite !Nat.add_0_r.
    - rewrite app_nth2 by (rewrite length_DofsToVDofs; lia).
      rewrite length_DofsToVDofs.
      replace (p + S v * length dofs - length dofs)%nat
        with (p + v * length dofs)%nat by lia.
      rewrite IH by lia. f_equal. f_equal. lia. }
  exact (H (GetVDim fes) vd 0%nat Hvd).
Qed.

Lemma length_GetElementVDofs (fes : FiniteElementSpace R) (e : nat) :
  length (GetElementVDofs fes e)
  = (GetVDim fes * length (fst (GetElementDofs fes e)))%nat.
Proof.
  unfold GetElementVDofs.
  set (dofs := fst (GetElementDofs fes e)).
  generalize 0%nat. induction (GetVDim fes) as [|w IH]; intros s;
    [reflexivity|].
  cbn [seq flat_map]. rewrite length_app, length_DofsToVDofs, IH. lia.
Qed.

Lemma fold_left_seq_ext {A : Type} (f g : A -> nat -> A) (m : nat) (a : A) :
  (forall b t, (t < m)%nat -> f b t = g b t) ->
  fold_left f (seq 0 m) a = fold_left g (seq 0 m) a.
Proof.
  induction m as [|m IH]; intros H; [reflexivity|].
  rewrite !fold_left_seq_S, IH by (intros; apply H; lia).
  apply H. lia.
Qed.

(** In a space whose elements share nothing, a position of the table of
    all components of an element names its entry of the vector, and no
    other position of any element names it. *)
Lemma vdofs_distinct (fes : FiniteElementSpace R) (e e' q q' : nat) :
  distinct_dofs fes ->
  (e < GetNE fes)%nat -> (e' < GetNE fes)%nat ->
  (q < length (GetElementVDofs fes e))%nat ->
  (q' < length (GetElementVDofs fes e'))%nat ->
  (dof_index (nth q (GetElementVDofs fes e) 0%Z) < GetVSize fes)%nat
  /\ (dof_index (nth q (GetElementVDofs fes e) 0%Z)
      = dof_index (nth q' (GetElementVDofs fes e') 0%Z) ->
      e = e' /\ q = q').
Proof.
  intros DD He He' Hq Hq'.
  rewrite length_GetElementVDofs in Hq, Hq'.
  set (len := length (fst (GetElementDofs fes e))) in *.
  set (len' := length (fst (GetElementDofs fes e'))) in *.
  assert (Hl : len <> 0%nat) by lia.
  assert (Hl' : len' <> 0%nat) by lia.
  pose proof (Nat.div_mod q len Hl) as D1.
  pose proof (Nat.mod_upper_bound q len Hl) as M1.
  pose proof (Nat.div_mod q' len' Hl') as D2.
  pose proof (Nat.mod_upper_bound q' len' Hl') as M2.
  assert (V1 : (q / len < GetVDim fes)%nat)
    by (apply Nat.Div0.div_lt_upper_bound; lia).
  assert (V2 : (q' / len' < GetVDim fes)%nat)
    by (apply Nat.Div0.div_lt_upper_bound; lia).
  assert (N1 : nth q (GetElementVDofs fes e) 0%Z
               = nth (q mod len)
                     (DofsToVDofs fes (q / len) (fst (GetElementDofs fes e)))
                     0%Z).
  { rewrite <- nth_GetElementVDofs by assumption. f_equal. fold len. lia. }
  assert (N2 : nth q' (GetElementVDofs fes e') 0%Z
               = nth (q' mod len')
                     (DofsToVDofs fes (q' / len')
                        (fst (GetElementDofs fes e')))
                     0%Z).
  { rewrite <- nth_GetElementVDofs by assumption. f_equal. fold len'. lia. }
  rewrite N1, N2.
  destruct (@nth_DofsToVDofs _ _ fes (q / len)
              (fst (GetElementDofs fes e)) (q mod len) M1) as [E1 _].
  destruct (@nth_DofsToVDofs _ _ fes (q' / len')
              (fst (GetElementDofs fes e')) (q' mod len') M2) as [E2 _].
  rewrite E1, E2. split.
  - apply DofToVDof_lt; [now apply (dd_range DD)|exact V1].
  - intros E.
    destruct (@DofToVDof_inj _ fes _ _ (q / len) (q' / len')
                (dd_range DD He M1) (dd_range DD He' M2) V1 V2 E)
      as [Ed Ev].
    destruct (dd_inj DD He He' M1 M2 Ed) as [Ee Ep].
    split; [exact Ee|]. subst e'. unfold len' in *. fold len in D2, Ep, Ev.
    lia.
Qed.

(** The positions of the table of all components of an element name
    entries of the vectors of the space. *)
Lemma vdofs_range (fes : FiniteElementSpace R) (e q : nat) :
  (forall p, (p < length (fst (GetElementDofs fes e)))%nat ->
     (dof_index (nth p (fst (GetElementDofs fes e)) 0%Z)
      < GetNDofs fes)%nat) ->
  (q < length (GetElementVDofs fes e))%nat ->
  (dof_index (nth q (GetElementVDofs fes e) 0%Z) < GetVSize fes)%nat.
Proof.
  intros Hr Hq. rewrite length_GetElementVDofs in Hq.
  set (len := length (fst (GetElementDofs fes e))) in *.
  assert (Hl : len <> 0%nat) by lia.
  pose proof (Nat.div_mod q len Hl) as D1.
  pose proof (Nat.mod_upper_bound q len Hl) as M1.
  assert (V1 : (q / len < GetVDim fes)%nat)
    by (apply Nat.Div0.div_lt_upper_bound; lia).
  assert (N1 : nth q (GetElementVDofs fes e) 0%Z
               = nth (q mod len)
                     (DofsToVDofs fes (q / len) (fst (GetElementDofs fes e)))
                     0%Z).
  { rewrite <- nth_GetElementVDofs by assumption. f_equal. fold len. lia. }
  rewrite N1.
  destruct (@nth_DofsToVDofs _ _ fes (q / len)
              (fst (GetElementDofs fes e)) (q mod len) M1) as [E1 _].
  rewrite E1. apply DofToVDof_lt; [now apply Hr|exact V1].
Qed.

End MatrixLoops.

Lemma NoDup_flat_map {A B : Type} (f : A -> list B) (l : list A) :
  NoDup l -> (forall a, In a l -> NoDup (f a)) ->
  (forall a a' b, In a l -> In a' l -> In b (f a) -> In b (f a') -> a = a') ->
  NoDup (flat_map f l).
Proof.
  intros Hl. induction Hl as [|a l Ha Hl IH]; intros Hf Hd; [constructor|].
  cbn [flat_map]. apply NoDup_app.
  - apply Hf. now left.
  - apply IH; [intros; apply Hf; now right|].
    intros a1 a2 b H1 H2. apply Hd; now right.
  - intros b Hb Hb'. apply in_flat_map in Hb'.
    destruct Hb' as [a' [Ha' Hb']].
    assert (E : a = a') by (apply (Hd a a' b); auto; [now left|now right]).
    subst a'. contradiction.
Qed.

Lemma NoDup_map_in {A B : Type} (f : A -> B) (l : list A) :
  NoDup l ->
  (forall a a', In a l -> In a' l -> f a = f a' -> a = a') ->
  NoDup (map f l).
Proof.
  intros Hl. induction Hl as [|a l Ha Hl IH]; intros Hinj; cbn [map];
    constructor.
  - intros Hin. apply in_map_iff in Hin. destruct Hin as [a' [E Ha']].
    assert (a' = a) by (apply Hinj; auto; [now right|now left]).
    subst a'. contradiction.
  - apply IH. intros a1 a2 H1 H2. apply Hinj; now right.
Qed.

Section KeySums.
Context {R : Type} {SR : Scalar R}.
Add Ring scalar_ring_key_sums : (@scalar_ring R SR).

(** A sum whose terms vanish off a list of distinct indices is the sum
    over the list. *)
Lemma sumn_over_keys (n : nat) (keys : list nat) :
  NoDup keys -> (forall k, In k keys -> (k < n)%nat) ->
  forall f : nat -> R,
    (forall k, (k < n)%nat -> ~ In k keys -> f k = rO) ->
    sumn n f = sum_list (map f keys).
Proof.
  intros Hnd. induction Hnd as [|k0 keys Hk0 Hnd IH]; intros Hlt f Hz.
  - cbn [map]. apply sumn_all_zero. intros i Hi. apply Hz; auto.
  - cbn [map].
    change (sum_list (f k0 :: map f keys))
      with (f k0 + sum_list (map f keys))%S.
    set (f' := fun k => if Nat.eqb k k0 then rO else f k).
    rewrite (@sumn_update_one _ _ n k0 f' f).
    + rewrite (IH (fun k Hk => Hlt k (or_intror Hk)) f').
      * unfold f' at 2. rewrite Nat.eqb_refl.
        rewrite (@sum_list_map_ext _ _ _ f' f); [ring|].
        intros k Hk. unfold f'.
        destruct (Nat.eqb_spec k k0) as [->|]; [contradiction|reflexivity].
      * intros k Hk Hnin. unfold f'.
        destruct (Nat.eqb_spec k k0) as [->|Hne]; [reflexivity|].
        apply Hz; [exact Hk|]. intros [E|Hin]; [now subst|contradiction].
    + apply Hlt. now left.
    + intros d Hd Hne. unfold f'.
      destruct (Nat.eqb_spec d k0); [contradiction|reflexivity].
Qed.

(** The inner product with a vector after [AddElementVector]. *)
Lemma dot_AddElementVector (n : nat) (dofs : list Z) (ev y x : Vector R) :
  length y = n ->
  (forall p, (p < length dofs)%nat ->
             (dof_index (nth p dofs 0%Z) < n)%nat) ->
  dot n (AddElementVector dofs ev y) x
  = (dot n y x
     + sumn (length dofs)
         (fun p => nth p ev rO * nth p (GetSubVector dofs x) rO))%S.
Proof.
  intros Hy Hr. unfold dot.
  destruct (AddElementVector_spec dofs ev y) as [_ Hk].
  rewrite (@sumn_ext _ _ n _
             (fun k =>
                nth k y rO * nth k x rO
                + sumn (length dofs)
                    (fun p =>
                       (if Nat.eqb (dof_index (nth p dofs 0%Z)) k
                        then sg (nth p dofs 0%Z) * nth p ev rO else rO)
                       * nth k x rO))%S).
  2:{ intros k Hkn. rewrite Hk, Hy.
      apply Nat.ltb_lt in Hkn. rewrite Hkn.
      rewrite sumn_mul_r.
      rewrite (@sumn_ext _ _ (length dofs) _
                 (fun p =>
                    if Nat.eqb (dof_index (nth p dofs 0%Z)) k
                    then (sg (nth p dofs 0%Z) * nth p ev rO)%S else rO)).
      - ring.
      - intros p _. now rewrite andb_true_r. }
  rewrite sumn_add. f_equal. rewrite sumn_swap.
  apply sumn_ext. intros p Hp.
  rewrite (@sumn_single _ _ n _ (dof_index (nth p dofs 0%Z)));
    [| now apply Hr |].
  - rewrite Nat.eqb_refl, nth_GetSubVector by exact Hp. ring.
  - intros k _ Hne.
    destruct (Nat.eqb_spec (dof_index (nth p dofs 0%Z)) k) as [E|_];
      [now subst|ring].
Qed.

End KeySums.

Section L2RoundTrip.
Context {R : Type} {SR : Scalar R}.
Add Ring scalar_ring_round_trip : (@scalar_ring R SR).
Variable this : L2ProjectionL2Space R.

Local Abbreviation fes_ho := (l2_fes_ho this).
Local Abbreviation fes_lor := (l2_fes_lor this).
Local Abbreviation vdim := (GetVDim (l2_fes_ho this)).
Local Abbreviation row iho := (nth iho (l2_ho2lor this) []).
Local Abbreviation nref iho := (length (nth iho (l2_ho2lor this) [])).
Local Abbreviation nl iho :=
  (GetDof (GetFE (l2_fes_lor this) (nth 0 (nth iho (l2_ho2lor this) []) 0%nat))).
Local Abbreviation nh iho := (GetDof (GetFE (l2_fes_ho this) iho)).
Local Abbreviation ldofs ilor := (fst (GetElementDofs (l2_fes_lor this) ilor)).
Local Abbreviation lkey ilor vd p :=
  (DofToVDof (l2_fes_lor this)
     (dof_index (nth p (fst (GetElementDofs (l2_fes_lor this) ilor)) 0%Z)) vd).
Local Abbreviation Rv iho :=
  (view (l2_R this) (nth iho (l2_offsets this) 0%nat)
        (nl iho * nref iho) (nh iho)).
Local Abbreviation Pv iho :=
  (view (l2_P this) (nth iho (l2_offsets this) 0%nat)
        (nh iho) (nl iho * nref iho)).

(** The fine elements of the patches: every row of [ho2lor] lists fine
    elements, none twice, no fine element is in two rows, and the
    elements of a row have as many degrees of freedom as its first. *)
Hypothesis Hrows : forall iho ilor,
  (iho < GetNE fes_ho)%nat -> In ilor (row iho) ->
  (ilor < GetNE fes_lor)%nat /\ length (ldofs ilor) = nl iho.
Hypothesis Hnodup : forall iho, (iho < GetNE fes_ho)%nat -> NoDup (row iho).
Hypothesis Hdisj : forall iho iho' ilor,
  (iho < GetNE fes_ho)%nat -> (iho' < GetNE fes_ho)%nat ->
  In ilor (row iho) -> In ilor (row iho') -> iho = iho'.
Hypothesis DDl : distinct_dofs fes_lor.
Hypothesis Hvdim : GetVDim fes_lor = GetVDim fes_ho.

Lemma lkey_inj (ilor ilor' vd vd' p p' : nat) :
  (ilor < GetNE fes_lor)%nat -> (ilor' < GetNE fes_lor)%nat ->
  (vd < vdim)%nat -> (vd' < vdim)%nat ->
  (p < length (ldofs ilor))%nat -> (p' < length (ldofs ilor'))%nat ->
  lkey ilor vd p = lkey ilor' vd' p' ->
  ilor = ilor' /\ vd = vd' /\ p = p'.
Proof.
  intros Hi Hi' Hv Hv' Hp Hp' E.
  destruct (@DofToVDof_inj _ fes_lor _ _ vd vd'
              (dd_range DDl Hi Hp) (dd_range DDl Hi' Hp')) as [Ed Ev];
    [rewrite Hvdim; exact Hv|rewrite Hvdim; exact Hv'|exact E|].
  destruct (dd_inj DDl Hi Hi' Hp Hp' Ed) as [? ?]. auto.
Qed.

Lemma lkey_lt (ilor vd p : nat) :
  (ilor < GetNE fes_lor)%nat -> (vd < vdim)%nat ->
  (p < length (ldofs ilor))%nat ->
  (lkey ilor vd p < GetVSize fes_lor)%nat.
Proof.
  intros Hi Hv Hp. apply DofToVDof_lt; [now apply (dd_range DDl)|].
  rewrite Hvdim. exact Hv.
Qed.

(** What [SetSubVector] stores for the component [vd] of the fine
    element [ilor]. *)
Lemma stores_component (ilor vd : nat) (ev : Vector R) :
  (ilor < GetNE fes_lor)%nat -> (vd < vdim)%nat ->
  stores (GetVSize fes_lor)
    (SetSubVector (DofsToVDofs fes_lor vd (ldofs ilor)) ev)
    (fun k v => exists p, (p < length (ldofs ilor))%nat
                          /\ lkey ilor vd p = k
                          /\ v = (sg (nth p (ldofs ilor) 0%Z)
                                  * nth p ev rO)%S).
Proof.
  intros Hi Hv.
  apply (@stores_ext _ _ _ _
           (fun k v =>
              exists p,
                (p < length (DofsToVDofs fes_lor vd (ldofs ilor)))%nat
                /\ dof_index (nth p (DofsToVDofs fes_lor vd (ldofs ilor)) 0%Z)
                   = k
                /\ v = (sg (nth p (DofsToVDofs fes_lor vd (ldofs ilor)) 0%Z)
                        * nth p ev rO)%S)).
  - intros k v. rewrite length_DofsToVDofs. split.
    + intros [p [Hp [Hk Hval]]]. exists p.
      destruct (@nth_DofsToVDofs _ _ fes_lor vd (ldofs ilor) p Hp) as [E1 E2].
      rewrite E1 in Hk. rewrite E2 in Hval. auto.
    + intros [p [Hp [Hk Hval]]]. exists p.
      destruct (@nth_DofsToVDofs _ _ fes_lor vd (ldofs ilor) p Hp) as [E1 E2].
      rewrite E1, E2. auto.
  - apply stores_SetSubVector.
    + apply NoDup_nth with (d := 0%nat). intros p q Hp Hq E.
      rewrite length_map, length_DofsToVDofs in Hp, Hq.
      rewrite !nth_map_dof_index in E.
      destruct (@nth_DofsToVDofs _ _ fes_lor vd (ldofs ilor) p Hp) as [E1 _].
      destruct (@nth_DofsToVDofs _ _ fes_lor vd (ldofs ilor) q Hq) as [E2 _].
      rewrite E1, E2 in E.
      now destruct (lkey_inj Hi Hi Hv Hv Hp Hq E) as [_ [_ ?]].
    + intros p Hp. rewrite length_DofsToVDofs in Hp.
      destruct (@nth_DofsToVDofs _ _ fes_lor vd (ldofs ilor) p Hp) as [E1 _].
      rewrite E1. now apply lkey_lt.
Qed.

(** What the loop "Place result correctly into the low-order vector"
    stores for the patch of the coarse element [iho]. *)
Lemma stores_place (iho : nat) (yel : DenseMatrix R) :
  (iho < GetNE fes_ho)%nat ->
  stores (GetVSize fes_lor)
    (L2_place_lor fes_lor vdim (row iho) (nl iho) yel)
    (fun k v =>
       exists iref vd p,
         (iref < nref iho)%nat /\ (vd < vdim)%nat /\ (p < nl iho)%nat
         /\ lkey (nth iref (row iho) 0%nat) vd p = k
         /\ v = (sg (nth p (ldofs (nth iref (row iho) 0%nat)) 0%Z)
                 * nth (iref * nl iho + vd * Height yel + p) (Data yel) rO)%S).
Proof.
  intros Hi. unfold L2_place_lor.
  assert (Hin : forall iref, (iref < nref iho)%nat ->
            (nth iref (row iho) 0%nat < GetNE fes_lor)%nat
            /\ length (ldofs (nth iref (row iho) 0%nat)) = nl iho).
  { intros iref Hiref. apply (@Hrows iho _ Hi). now apply nth_In. }
  apply (@stores_ext _ _ _ _
           (fun k v =>
              exists iref, (iref < nref iho)%nat
                /\ exists vd, (vd < vdim)%nat
                     /\ exists p,
                          (p < length (ldofs (nth iref (row iho) 0%nat)))%nat
                          /\ lkey (nth iref (row iho) 0%nat) vd p = k
                          /\ v = (sg (nth p (ldofs (nth iref (row iho) 0%nat))
                                          0%Z)
                                  * nth p (skipn (iref * nl iho
                                                  + vd * Height yel)
                                                 (Data yel)) rO)%S)).
  - intros k v. split.
    + intros [iref [Hiref [vd [Hvd [p [Hp [Hk Hv]]]]]]].
      destruct (Hin iref Hiref) as [_ Hlen]. rewrite Hlen in Hp.
      rewrite nth_skipn in Hv. exists iref, vd, p. auto.
    + intros [iref [vd [p [Hiref [Hvd [Hp [Hk Hv]]]]]]].
      destruct (Hin iref Hiref) as [_ Hlen].
      exists iref. split; [exact Hiref|]. exists vd. split; [exact Hvd|].
      exists p. rewrite Hlen, nth_skipn. auto.
  - apply (@stores_fold _ _ (GetVSize fes_lor) (nref iho)
             (fun y iref =>
                fold_left
                  (fun y vd =>
                     SetSubVector
                       (DofsToVDofs fes_lor vd
                          (ldofs (nth iref (row iho) 0%nat)))
                       (skipn (iref * nl iho + vd * Height yel) (Data yel)) y)
                  (seq 0 vdim) y)
             (fun iref k v =>
                exists vd, (vd < vdim)%nat
                  /\ exists p,
                       (p < length (ldofs (nth iref (row iho) 0%nat)))%nat
                       /\ lkey (nth iref (row iho) 0%nat) vd p = k
                       /\ v = (sg (nth p (ldofs (nth iref (row iho) 0%nat))
                                       0%Z)
                               * nth p (skipn (iref * nl iho
                                               + vd * Height yel)
                                              (Data yel)) rO)%S)).
    + intros iref Hiref. destruct (Hin iref Hiref) as [Hlt _].
      apply (@stores_fold _ _ (GetVSize fes_lor) vdim
               (fun y vd =>
                  SetSubVector
                    (DofsToVDofs fes_lor vd
                       (ldofs (nth iref (row iho) 0%nat)))
                    (skipn (iref * nl iho + vd * Height yel) (Data yel)) y)
               (fun vd k v =>
                  exists p,
                    (p < length (ldofs (nth iref (row iho) 0%nat)))%nat
                    /\ lkey (nth iref (row iho) 0%nat) vd p = k
                    /\ v = (sg (nth p (ldofs (nth iref (row iho) 0%nat)) 0%Z)
                            * nth p (skipn (iref * nl iho + vd * Height yel)
                                           (Data yel)) rO)%S)).
      * intros vd Hvd. now apply stores_component.
      * intros vd vd' k v v' Hvd Hvd' [p [Hp [Hk _]]] [p' [Hp' [Hk' _]]].
        rewrite <- Hk' in Hk.
        now destruct (lkey_inj Hlt Hlt Hvd Hvd' Hp Hp' Hk) as [_ [? _]].
    + intros iref iref' k v v' Hiref Hiref'
        [vd [Hvd [p [Hp [Hk _]]]]] [vd' [Hvd' [p' [Hp' [Hk' _]]]]].
      destruct (Hin iref Hiref) as [Hlt _].
      destruct (Hin iref' Hiref') as [Hlt' _].
      rewrite <- Hk' in Hk.
      destruct (lkey_inj Hlt Hlt' Hvd Hvd' Hp Hp' Hk) as [E _].
      apply (proj1 (NoDup_nth (row iho) 0%nat) (@Hnodup iho Hi)); assumption.
Qed.

(** What [Mult] stores in the fine vector. *)
Lemma stores_Mult (x : Vector R) :
  stores (GetVSize fes_lor) (L2ProjectionL2Space_Mult this x)
    (fun k v =>
       exists iho iref vd p,
         (iho < GetNE fes_ho)%nat /\ (iref < nref iho)%nat
         /\ (vd < vdim)%nat /\ (p < nl iho)%nat
         /\ lkey (nth iref (row iho) 0%nat) vd p = k
         /\ v = (sg (nth p (ldofs (nth iref (row iho) 0%nat)) 0%Z)
                 * Elem (MatMult (Rv iho)
                           {| Height := nh iho; Width := vdim;
                              Data := GetSubVector
                                        (GetElementVDofs fes_ho iho) x |})
                        (iref * nl iho + p) vd)%S).
Proof.
  unfold L2ProjectionL2Space_Mult.
  apply (@stores_ext _ _ _ _
           (fun k v =>
              exists iho, (iho < GetNE fes_ho)%nat
                /\ exists iref vd p,
                     (iref < nref iho)%nat /\ (vd < vdim)%nat
                     /\ (p < nl iho)%nat
                     /\ lkey (nth iref (row iho) 0%nat) vd p = k
                     /\ v = (sg (nth p (ldofs (nth iref (row iho) 0%nat))
                                     0%Z)
                             * nth (iref * nl iho
                                    + vd * Height
                                             (MatMult (Rv iho)
                                                {| Height := nh iho;
                                                   Width := vdim;
                                                   Data :=
                                                     GetSubVector
                                                       (GetElementVDofs
                                                          fes_ho iho) x |})
                                    + p)
                                   (Data
                                      (MatMult (Rv iho)
                                         {| Height := nh iho; Width := vdim;
                                            Data :=
                                              GetSubVector
                                                (GetElementVDofs fes_ho iho)
                                                x |}))
                                   rO)%S)).
  - intros k v.
    assert (E : forall iho iref vd p,
              nth (iref * nl iho
                   + vd * Height
                            (MatMult (Rv iho)
                               {| Height := nh iho; Width := vdim;
                                  Data := GetSubVector
                                            (GetElementVDofs fes_ho iho) x |})
                   + p)
                  (Data
                     (MatMult (Rv iho)
                        {| Height := nh iho; Width := vdim;
                           Data := GetSubVector
                                     (GetElementVDofs fes_ho iho) x |}))
                  rO
              = Elem (MatMult (Rv iho)
                        {| Height := nh iho; Width := vdim;
                           Data := GetSubVector
                                     (GetElementVDofs fes_ho iho) x |})
                     (iref * nl iho + p) vd).
    { intros iho iref vd p. unfold Elem. f_equal. lia. }
    split.
    + intros [iho [Hi [iref [vd [p [H1 [H2 [H3 [H4 H5]]]]]]]]].
      exists iho, iref, vd, p. rewrite <- E. auto 7.
    + intros [iho [iref [vd [p [Hi [H1 [H2 [H3 [H4 H5]]]]]]]]].
      exists iho. split; [exact Hi|]. exists iref, vd, p. rewrite E. auto.
  - apply (@stores_fold _ _ (GetVSize fes_lor) (GetNE fes_ho)
             (fun y iho =>
                L2_place_lor fes_lor vdim (row iho) (nl iho)
                  (MatMult (Rv iho)
                     {| Height := nh iho; Width := vdim;
                        Data := GetSubVector (GetElementVDofs fes_ho iho) x |})
                  y)
             (fun iho k v =>
                exists iref vd p,
                  (iref < nref iho)%nat /\ (vd < vdim)%nat
                  /\ (p < nl iho)%nat
                  /\ lkey (nth iref (row iho) 0%nat) vd p = k
                  /\ v = (sg (nth p (ldofs (nth iref (row iho) 0%nat)) 0%Z)
                          * nth (iref * nl iho
                                 + vd * Height
                                          (MatMult (Rv iho)
                                             {| Height := nh iho;
                                                Width := vdim;
                                                Data :=
                                                  GetSubVector
                                                    (GetElementVDofs
                                                       fes_ho iho) x |})
                                 + p)
                                (Data
                                   (MatMult (Rv iho)
                                      {| Height := nh iho; Width := vdim;
                                         Data :=
                                           GetSubVector
                                             (GetElementVDofs fes_ho iho)
                                             x |}))
                                rO)%S)).
    + intros iho Hi. now apply stores_place.
    + intros iho iho' k v v' Hi Hi'
        [iref [vd [p [H1 [H2 [H3 [H4 _]]]]]]]
        [iref' [vd' [p' [H1' [H2' [H3' [H4' _]]]]]]].
      assert (Hin : In (nth iref (row iho) 0%nat) (row iho))
        by now apply nth_In.
      assert (Hin' : In (nth iref' (row iho') 0%nat) (row iho'))
        by now apply nth_In.
      destruct (@Hrows iho _ Hi Hin) as [Hlt Hlen].
      destruct (@Hrows iho' _ Hi' Hin') as [Hlt' Hlen'].
      rewrite <- H4' in H4.
      destruct (@lkey_inj _ _ vd vd' p p' Hlt Hlt' H2 H2') as [E _];
        [rewrite Hlen; exact H3|rewrite Hlen'; exact H3'|exact H4|].
      rewrite <- E in Hin'. exact (@Hdisj iho iho' _ Hi Hi' Hin Hin').
Qed.

(** The loop "Extract the LOR DOFs" reads back the matrix that the
    loop "Place result" of [Mult] has stored. *)
Lemma extract_of_placed (iho : nat) (Y : Vector R) (M : DenseMatrix R) :
  (iho < GetNE fes_ho)%nat ->
  Height M = (nl iho * nref iho)%nat -> Width M = vdim ->
  length (Data M) = (nl iho * nref iho * vdim)%nat ->
  (forall iref vd p,
     (iref < nref iho)%nat -> (vd < vdim)%nat -> (p < nl iho)%nat ->
     nth (lkey (nth iref (row iho) 0%nat) vd p) Y rO
     = (sg (nth p (ldofs (nth iref (row iho) 0%nat)) 0%Z)
        * Elem M (iref * nl iho + p) vd)%S) ->
  L2_extract_lor fes_lor vdim (row iho) (nl iho) Y
    (DenseMatrix_zero (nl iho * nref iho) vdim)
  = M.
Proof.
  intros Hi HH HW HD HY. unfold L2_extract_lor.
  set (H0 := (nl iho * nref iho)%nat) in *.
  set (blk := fun iref vd =>
                GetSubVector
                  (DofsToVDofs fes_lor vd (ldofs (nth iref (row iho) 0%nat)))
                  Y).
  assert (Hin : forall iref, (iref < nref iho)%nat ->
            (nth iref (row iho) 0%nat < GetNE fes_lor)%nat
            /\ length (ldofs (nth iref (row iho) 0%nat)) = nl iho).
  { intros iref Hiref. apply (@Hrows iho _ Hi). now apply nth_In. }
  assert (Hblk : forall iref vd, (iref < nref iho)%nat ->
            length (blk iref vd) = nl iho).
  { intros iref vd Hiref. unfold blk.
    rewrite length_GetSubVector, length_DofsToVDofs.
    now destruct (Hin iref Hiref). }
  transitivity
    (fold_left
       (fun xel iref =>
          {| Height := Height xel; Width := Width xel;
             Data :=
               fold_left
                 (fun d vd =>
                    write_at (iref * nl iho + vd * Height xel) (blk iref vd) d)
                 (seq 0 vdim) (Data xel) |})
       (seq 0 (nref iho)) (DenseMatrix_zero H0 vdim)).
  { apply fold_left_ext. intros a iref.
    exact (fold_matrix_data
             (fun H vd d => write_at (iref * nl iho + vd * H) (blk iref vd) d)
             (seq 0 vdim) a). }
  rewrite (fold_matrix_data
             (fun H iref d =>
                fold_left
                  (fun d vd =>
                     write_at (iref * nl iho + vd * H) (blk iref vd) d)
                  (seq 0 vdim) d)
             (seq 0 (nref iho)) (DenseMatrix_zero H0 vdim)).
  cbn [DenseMatrix_zero Height Width Data].
  destruct M as [h w d]. cbn [Height Width Data] in *. subst h w.
  f_equal.
  assert (Hst :
    stores (H0 * vdim)
      (fun d =>
         fold_left
           (fun d iref =>
              fold_left
                (fun d vd =>
                   write_at (iref * nl iho + vd * H0) (blk iref vd) d)
                (seq 0 vdim) d)
           (seq 0 (nref iho)) d)
      (fun k v =>
         exists iref, (iref < nref iho)%nat
           /\ exists vd, (vd < vdim)%nat
                /\ exists p, (p < length (blk iref vd))%nat
                     /\ k = (iref * nl iho + vd * H0 + p)%nat
                     /\ v = nth p (blk iref vd) rO)).
  { apply (@stores_fold _ _ (H0 * vdim) (nref iho)
             (fun d iref =>
                fold_left
                  (fun d vd =>
                     write_at (iref * nl iho + vd * H0) (blk iref vd) d)
                  (seq 0 vdim) d)
             (fun iref k v =>
                exists vd, (vd < vdim)%nat
                  /\ exists p, (p < length (blk iref vd))%nat
                       /\ k = (iref * nl iho + vd * H0 + p)%nat
                       /\ v = nth p (blk iref vd) rO)).
    - intros iref Hiref.
      apply (@stores_fold _ _ (H0 * vdim) vdim
               (fun d vd =>
                  write_at (iref * nl iho + vd * H0) (blk iref vd) d)
               (fun vd k v =>
                  exists p, (p < length (blk iref vd))%nat
                    /\ k = (iref * nl iho + vd * H0 + p)%nat
                    /\ v = nth p (blk iref vd) rO)).
      + intros vd Hvd. apply stores_write_at.
        rewrite Hblk by exact Hiref. unfold H0. nia.
      + intros vd vd' k v v' Hvd Hvd' [p [Hp [Hk _]]] [p' [Hp' [Hk' _]]].
        rewrite Hblk in Hp, Hp' by exact Hiref.
        assert (iref * nl iho + p < H0)%nat by (unfold H0; nia).
        assert (iref * nl iho + p' < H0)%nat by (unfold H0; nia).
        destruct (@radix_inj H0 (iref * nl iho + p) vd
                    (iref * nl iho + p') vd'); lia.
    - intros iref iref' k v v' Hiref Hiref'
        [vd [Hvd [p [Hp [Hk _]]]]] [vd' [Hvd' [p' [Hp' [Hk' _]]]]].
      rewrite Hblk in Hp by exact Hiref. rewrite Hblk in Hp' by exact Hiref'.
      assert (iref * nl iho + p < H0)%nat by (unfold H0; nia).
      assert (iref' * nl iho + p' < H0)%nat by (unfold H0; nia).
      destruct (@radix_inj H0 (iref * nl iho + p) vd
                  (iref' * nl iho + p') vd') as [E _]; [lia|lia|lia|].
      destruct (@radix_inj (nl iho) p iref p' iref'); lia. }
  destruct (Hst (filled (H0 * vdim) rO) (length_filled _ _))
    as [Hlen [Hhit _]].
  apply (list_eq_nth rO); [exact (eq_trans Hlen (eq_sym HD))|].
  intros q Hq0.
  assert (Hq : (q < H0 * vdim)%nat)
    by exact (eq_ind _ (fun n => (q < n)%nat) Hq0 _ Hlen).
  assert (HH0 : H0 <> 0%nat) by lia.
  assert (Hnl : nl iho <> 0%nat) by (unfold H0 in HH0; lia).
  pose proof (Nat.div_mod q H0 HH0) as Hq1.
  pose proof (Nat.mod_upper_bound q H0 HH0) as Hq2.
  pose proof (Nat.div_mod (q mod H0) (nl iho) Hnl) as Hr1.
  pose proof (Nat.mod_upper_bound (q mod H0) (nl iho) Hnl) as Hr2.
  assert (Hvd : (q / H0 < vdim)%nat)
    by (apply Nat.Div0.div_lt_upper_bound; lia).
  assert (Hiref : ((q mod H0) / nl iho < nref iho)%nat)
    by (apply Nat.Div0.div_lt_upper_bound; exact Hq2).
  set (vd := (q / H0)%nat) in *.
  set (iref := ((q mod H0) / nl iho)%nat) in *.
  set (pp := ((q mod H0) mod nl iho)%nat) in *.
  assert (Eq : q = (iref * nl iho + vd * H0 + pp)%nat) by lia.
  refine (eq_trans (Hhit q (nth pp (blk iref vd) rO) _) _).
  - exists iref. split; [exact Hiref|]. exists vd. split; [exact Hvd|].
    exists pp. rewrite Hblk by exact Hiref. auto.
  - unfold blk. destruct (Hin iref Hiref) as [Hlt Hlen'].
    rewrite nth_GetSubVector by (rewrite length_DofsToVDofs; lia).
    destruct (@nth_DofsToVDofs _ _ fes_lor vd
                (ldofs (nth iref (row iho) 0%nat)) pp) as [E1 E2]; [lia|].
    rewrite E1, E2, (HY iref vd pp Hiref Hvd Hr2).
    unfold Elem. cbn [Height Data].
    replace (iref * nl iho + pp + vd * H0)%nat with q by lia.
    transitivity ((sg (nth pp (ldofs (nth iref (row iho) 0%nat)) 0%Z)
                   * sg (nth pp (ldofs (nth iref (row iho) 0%nat)) 0%Z))
                  * nth q d rO)%S; [ring|].
    rewrite sg_sg. ring.
Qed.

(** The coarse elements share nothing, their tables have one entry per
    basis function, and the views that [Prolongate] and [Mult] take of
    [P] and [R] multiply to the identity. *)
Hypothesis DDh : distinct_dofs fes_ho.
Hypothesis Hhlen : forall iho,
  (iho < GetNE fes_ho)%nat ->
  length (fst (GetElementDofs fes_ho iho)) = nh iho.
Hypothesis HPR : forall iho,
  (iho < GetNE fes_ho)%nat ->
  MatMult (Pv iho) (Rv iho) = DenseMatrix_identity (nh iho).
Hypothesis HP : (0 < length (l2_P this))%nat.
Hypothesis Hne : GetNE fes_ho <> 0%nat.

(** [Prolongate] after [Mult] gives back the coarse vector, entry by
    entry. *)
Lemma Prolongate_Mult_views (x y0 y1 : Vector R) :
  length y0 = GetVSize fes_lor ->
  length y1 = GetVSize fes_ho ->
  exists z,
    L2ProjectionL2Space_Prolongate this
      (L2ProjectionL2Space_Mult this x y0) y1 = Ok z
    /\ length z = length y1
    /\ forall e q,
         (e < GetNE fes_ho)%nat ->
         (q < length (GetElementVDofs fes_ho e))%nat ->
         nth (dof_index (nth q (GetElementVDofs fes_ho e) 0%Z)) z rO
         = nth (dof_index (nth q (GetElementVDofs fes_ho e) 0%Z)) x rO.
Proof.
  intros Hy0 Hy1.
  set (Y := L2ProjectionL2Space_Mult this x y0).
  destruct (stores_Mult x y0 Hy0) as [_ [HYhit _]]. fold Y in HYhit.
  unfold L2ProjectionL2Space_Prolongate.
  apply Nat.eqb_neq in Hne. rewrite Hne.
  apply Nat.ltb_lt in HP. rewrite HP. cbn [MFEM_VERIFY bind].
  apply Nat.eqb_neq in Hne.
  set (V := fun iho => GetElementVDofs fes_ho iho).
  rewrite (@fold_left_seq_ext _ _
             (fun y iho =>
                AddElementVector (V iho) (GetSubVector (V iho) x) y)).
  2:{ intros b iho Hi. f_equal.
      set (xel := {| Height := nh iho; Width := vdim;
                     Data := GetSubVector (V iho) x |}).
      assert (HlV : length (V iho) = (vdim * nh iho)%nat).
      { unfold V. rewrite length_GetElementVDofs. now rewrite Hhlen. }
      rewrite (@extract_of_placed iho Y (MatMult (Rv iho) xel) Hi).
      - rewrite <- MatMult_assoc by (cbn [view Height Width]; lia).
        rewrite HPR by exact Hi.
        rewrite MatMult_identity_l; [reflexivity|reflexivity|].
        cbn [xel Data Width]. rewrite length_GetSubVector. lia.
      - reflexivity.
      - reflexivity.
      - unfold MatMult. rewrite length_Data_of. reflexivity.
      - intros iref vd p Hiref Hvd Hp. apply HYhit.
        exists iho, iref, vd, p. auto 7. }
  set (n := length y1).
  destruct (@nth_fold_additive _ _ _
              (fun y iho =>
                 AddElementVector (V iho) (GetSubVector (V iho) x) y)
              (fun iho k =>
                 sumn (length (V iho))
                   (fun q =>
                      if Nat.eqb (dof_index (nth q (V iho) 0%Z)) k
                         && Nat.ltb k n
                      then (sg (nth q (V iho) 0%Z)
                            * nth q (GetSubVector (V iho) x) rO)%S
                      else rO))
              n) with (l := seq 0 (GetNE fes_ho))
                      (a := map (fun _ : R => rO) y1) as [Hlen Hval].
  { intros a iho Ha.
    destruct (AddElementVector_spec (V iho) (GetSubVector (V iho) x) a)
      as [Hl Hk].
    split; [now rewrite Hl|]. intros k. rewrite Hk, Ha. reflexivity. }
  { now rewrite length_map. }
  eexists. split; [reflexivity|]. split; [exact Hlen|].
  intros e q He Hq.
  destruct (@vdofs_distinct _ _ fes_ho e e q q DDh He He Hq Hq) as [Hlt _].
  rewrite Hval, nth_zeroed, radd_0_l.
  change (sum_list (map ?f (seq 0 ?m))) with (sumn m f).
  rewrite (@sumn_single _ _ (GetNE fes_ho) _ e); [|exact He|].
  - rewrite (@sumn_if_single _ _ (length (V e)) _ _ q); [| exact Hq | |].
    + rewrite nth_GetSubVector by exact Hq.
      transitivity ((sg (nth q (V e) 0%Z) * sg (nth q (V e) 0%Z))
                    * nth (dof_index (nth q (V e) 0%Z)) x rO)%S; [ring|].
      rewrite sg_sg. ring.
    + rewrite Nat.eqb_refl. apply Nat.ltb_lt. unfold n. rewrite Hy1.
      exact Hlt.
    + intros q' Hq' H. apply andb_true_iff in H. destruct H as [H _].
      apply Nat.eqb_eq in H.
      destruct (@vdofs_distinct _ _ fes_ho e e q' q DDh He He Hq' Hq)
        as [_ Hinj].
      now destruct (Hinj H).
  - intros e' He' Hne'. apply sumn_if_none. intros q' Hq'.
    destruct (Nat.eqb_spec (dof_index (nth q' (V e') 0%Z))
                (dof_index (nth q (V e) 0%Z))) as [E|]; [|reflexivity].
    destruct (@vdofs_distinct _ _ fes_ho e' e q' q DDh He' He Hq' Hq)
      as [_ Hinj].
    destruct (Hinj E). contradiction.
Qed.

(** ** [MultTranspose] is the transpose of [Mult] *)

Local Abbreviation keys_of iho :=
  (flat_map
     (fun iref =>
        flat_map
          (fun vd =>
             map (fun p => lkey (nth iref (row iho) 0%nat) vd p)
                 (seq 0 (nl iho)))
          (seq 0 vdim))
     (seq 0 (nref iho))).
Local Abbreviation keys :=
  (flat_map (fun iho => keys_of iho) (seq 0 (GetNE fes_ho))).
Local Abbreviation xel x iho :=
  {| Height := nh iho; Width := vdim;
     Data := GetSubVector (GetElementVDofs fes_ho iho) x |}.
Local Abbreviation zel z iho :=
  (L2_extract_lor fes_lor vdim (row iho) (nl iho) z
     (DenseMatrix_zero (nl iho * nref iho) vdim)).

(** The entries of the fine vector that the patches name are named
    once. *)
Lemma key_inj (iho iho' iref iref' vd vd' p p' : nat) :
  (iho < GetNE fes_ho)%nat -> (iho' < GetNE fes_ho)%nat ->
  (iref < nref iho)%nat -> (iref' < nref iho')%nat ->
  (vd < vdim)%nat -> (vd' < vdim)%nat ->
  (p < nl iho)%nat -> (p' < nl iho')%nat ->
  lkey (nth iref (row iho) 0%nat) vd p
  = lkey (nth iref' (row iho') 0%nat) vd' p' ->
  iho = iho' /\ iref = iref' /\ vd = vd' /\ p = p'.
Proof.
  clear HP Hne HPR DDh Hhlen.
  intros Hi Hi' Hr Hr' Hv Hv' Hp Hp' E.
  pose proof (nth_In (row iho) 0%nat Hr) as In1.
  pose proof (nth_In (row iho') 0%nat Hr') as In2.
  destruct (@Hrows iho _ Hi In1) as [L1 Len1].
  destruct (@Hrows iho' _ Hi' In2) as [L2 Len2].
  assert (HP1 : (p < length (ldofs (nth iref (row iho) 0%nat)))%nat)
    by (rewrite Len1; exact Hp).
  assert (HP2 : (p' < length (ldofs (nth iref' (row iho') 0%nat)))%nat)
    by (rewrite Len2; exact Hp').
  destruct (lkey_inj L1 L2 Hv Hv' HP1 HP2 E) as [Ee [Ev Ep]].
  rewrite <- Ee in In2.
  pose proof (@Hdisj iho iho' _ Hi Hi' In1 In2) as Ei. subst iho'.
  split; [reflexivity|]. split; [|auto].
  apply (proj1 (NoDup_nth (row iho) 0%nat) (@Hnodup iho Hi)); auto.
Qed.

Lemma In_keys_of (iho k : nat) :
  In k (keys_of iho)
  <-> exists iref vd p,
        (iref < nref iho)%nat /\ (vd < vdim)%nat /\ (p < nl iho)%nat
        /\ lkey (nth iref (row iho) 0%nat) vd p = k.
Proof.
  clear HP Hne HPR DDh Hhlen Hvdim.
  split.
  - intros H. apply in_flat_map in H. destruct H as [iref [Hr H]].
    apply in_flat_map in H. destruct H as [vd [Hv H]].
    apply in_map_iff in H. destruct H as [p [E Hp]].
    apply in_seq in Hr, Hv, Hp. exists iref, vd, p.
    repeat split; try lia; exact E.
  - intros (iref & vd & p & Hr & Hv & Hp & E).
    apply in_flat_map. exists iref. split; [apply in_seq; lia|].
    apply in_flat_map. exists vd. split; [apply in_seq; lia|].
    apply in_map_iff. exists p. split; [exact E|apply in_seq; lia].
Qed.

Lemma In_keys (k : nat) :
  In k keys
  <-> exists iho iref vd p,
        (iho < GetNE fes_ho)%nat /\ (iref < nref iho)%nat
        /\ (vd < vdim)%nat /\ (p < nl iho)%nat
        /\ lkey (nth iref (row iho) 0%nat) vd p = k.
Proof.
  clear HP Hne HPR DDh Hhlen Hvdim.
  rewrite in_flat_map. split.
  - intros [iho [Hi H]]. apply in_seq in Hi. apply In_keys_of in H.
    destruct H as (iref & vd & p & H). exists iho, iref, vd, p.
    split; [lia|exact H].
  - intros (iho & iref & vd & p & Hi & H). exists iho.
    split; [apply in_seq; lia|]. apply In_keys_of. eauto.
Qed.

Lemma NoDup_keys : NoDup keys.
Proof.
  clear HP Hne HPR DDh Hhlen.
  apply NoDup_flat_map; [apply seq_NoDup| |].
  - intros iho Hi. apply in_seq in Hi.
    apply NoDup_flat_map; [apply seq_NoDup| |].
    + intros iref Hr. apply in_seq in Hr.
      apply NoDup_flat_map; [apply seq_NoDup| |].
      * intros vd Hv. apply in_seq in Hv.
        apply NoDup_map_in; [apply seq_NoDup|].
        intros p p' Hp Hp' E. apply in_seq in Hp, Hp'.
        now destruct (@key_inj iho iho iref iref vd vd p p') as (_ & _ & _ & ?);
          try lia.
      * intros vd vd' k Hv Hv' Hk Hk'. apply in_seq in Hv, Hv'.
        apply in_map_iff in Hk, Hk'.
        destruct Hk as [p [E Hp]], Hk' as [p' [E' Hp']].
        apply in_seq in Hp, Hp'. rewrite <- E' in E.
        now destruct (@key_inj iho iho iref iref vd vd' p p')
          as (_ & _ & ? & _); try lia.
    + intros iref iref' k Hr Hr' Hk Hk'. apply in_seq in Hr, Hr'.
      apply in_flat_map in Hk, Hk'.
      destruct Hk as [vd [Hv Hk]], Hk' as [vd' [Hv' Hk']].
      apply in_seq in Hv, Hv'. apply in_map_iff in Hk, Hk'.
      destruct Hk as [p [E Hp]], Hk' as [p' [E' Hp']].
      apply in_seq in Hp, Hp'. rewrite <- E' in E.
      now destruct (@key_inj iho iho iref iref' vd vd' p p')
        as (_ & ? & _ & _); try lia.
  - intros iho iho' k Hi Hi' Hk Hk'. apply in_seq in Hi, Hi'.
    apply In_keys_of in Hk, Hk'.
    destruct Hk as (iref & vd & p & Hr & Hv & Hp & E).
    destruct Hk' as (iref' & vd' & p' & Hr' & Hv' & Hp' & E').
    rewrite <- E' in E.
    now destruct (@key_inj iho iho' iref iref' vd vd' p p')
      as (? & _ & _ & _); try lia.
Qed.

Lemma keys_lt (k : nat) : In k keys -> (k < GetVSize fes_lor)%nat.
Proof.
  clear HP Hne HPR DDh Hhlen.
  intros H. apply In_keys in H.
  destruct H as (iho & iref & vd & p & Hi & Hr & Hv & Hp & <-).
  destruct (@Hrows iho _ Hi (nth_In (row iho) 0%nat Hr)) as [L1 Len1].
  apply lkey_lt; [exact L1|exact Hv|]. rewrite Len1. exact Hp.
Qed.

(** The entries of the matrix gathered from the fine vector. *)
Lemma Elem_extract (z : Vector R) (iho : nat) :
  (iho < GetNE fes_ho)%nat ->
  Height (zel z iho) = (nl iho * nref iho)%nat
  /\ Width (zel z iho) = vdim
  /\ forall iref vd p,
       (iref < nref iho)%nat -> (vd < vdim)%nat -> (p < nl iho)%nat ->
       Elem (zel z iho) (iref * nl iho + p) vd
       = (sg (nth p (ldofs (nth iref (row iho) 0%nat)) 0%Z)
          * nth (lkey (nth iref (row iho) 0%nat) vd p) z rO)%S.
Proof.
  clear HP Hne HPR DDh Hhlen.
  intros Hi.
  assert (Hdm : forall iref p, (p < nl iho)%nat ->
            ((iref * nl iho + p) / nl iho = iref
             /\ (iref * nl iho + p) mod nl iho = p)%nat).
  { intros i q Hq. replace (i * nl iho + q)%nat with (q + i * nl iho)%nat
      by lia.
    rewrite Nat.div_add by lia. rewrite Nat.Div0.mod_add.
    rewrite Nat.div_small, Nat.mod_small by exact Hq. split; reflexivity. }
  set (M := DenseMatrix_of (nl iho * nref iho) vdim
              (fun r vd =>
                 (sg (nth (r mod nl iho)
                          (ldofs (nth (r / nl iho) (row iho) 0%nat)) 0%Z)
                  * nth (lkey (nth (r / nl iho) (row iho) 0%nat) vd
                              (r mod nl iho)) z rO)%S)).
  assert (HM : forall iref vd p,
            (iref < nref iho)%nat -> (vd < vdim)%nat -> (p < nl iho)%nat ->
            Elem M (iref * nl iho + p) vd
            = (sg (nth p (ldofs (nth iref (row iho) 0%nat)) 0%Z)
               * nth (lkey (nth iref (row iho) 0%nat) vd p) z rO)%S).
  { intros i v q Hi' Hv' Hq. unfold M. rewrite Elem_of by nia.
    destruct (Hdm i q Hq) as [-> ->]. reflexivity. }
  rewrite (@extract_of_placed iho z M Hi).
  - split; [reflexivity|]. split; [reflexivity|exact HM].
  - reflexivity.
  - reflexivity.
  - unfold M. now rewrite length_Data_of.
  - intros i v q Hi' Hv' Hq. rewrite HM by assumption.
    transitivity
      ((sg (nth q (ldofs (nth i (row iho) 0%nat)) 0%Z)
        * sg (nth q (ldofs (nth i (row iho) 0%nat)) 0%Z))
       * nth (lkey (nth i (row iho) 0%nat) v q) z rO)%S; [|ring].
    rewrite sg_sg. ring.
Qed.

(** The inner product of a fine vector with the result of [Mult], patch
    by patch. *)
Lemma dot_Mult (x y0 z : Vector R) :
  length y0 = GetVSize fes_lor ->
  (forall k, (k < GetVSize fes_lor)%nat -> ~ In k keys ->
             nth k y0 rO = rO) ->
  dot (GetVSize fes_lor) z (L2ProjectionL2Space_Mult this x y0)
  = sumn (GetNE fes_ho)
      (fun iho =>
         sumn (nref iho)
           (fun iref =>
              sumn vdim
                (fun vd =>
                   sumn (nl iho)
                     (fun p =>
                        nth (lkey (nth iref (row iho) 0%nat) vd p) z rO
                        * (sg (nth p (ldofs (nth iref (row iho) 0%nat)) 0%Z)
                           * Elem (MatMult (Rv iho) (xel x iho))
                                  (iref * nl iho + p) vd))))%S).
Proof.
  clear HP Hne HPR DDh Hhlen.
  intros Hy0 Hz.
  destruct (stores_Mult x y0 Hy0) as [_ [Hhit Hmiss]].
  unfold dot.
  rewrite (@sumn_over_keys _ _ (GetVSize fes_lor) keys NoDup_keys keys_lt).
  2:{ intros k Hk Hnin. rewrite Hmiss.
      - rewrite (Hz k Hk Hnin). ring.
      - intros v (iho & iref & vd & p & Hi & Hr & Hv & Hp & E & _).
        apply Hnin. apply In_keys. exists iho, iref, vd, p. auto. }
  rewrite sum_list_flat_map.
  change (sum_list (map ?f (seq 0 ?m))) with (sumn m f).
  apply sumn_ext. intros iho Hi.
  rewrite sum_list_flat_map.
  change (sum_list (map ?f (seq 0 ?m))) with (sumn m f).
  apply sumn_ext. intros iref Hr.
  rewrite sum_list_flat_map.
  change (sum_list (map ?f (seq 0 ?m))) with (sumn m f).
  apply sumn_ext. intros vd Hv.
  rewrite map_map.
  change (sum_list (map ?f (seq 0 ?m))) with (sumn m f).
  apply sumn_ext. intros p Hp. f_equal.
  apply Hhit. exists iho, iref, vd, p. auto 7.
Qed.

Hypothesis Hhrange : forall iho p,
  (iho < GetNE fes_ho)%nat ->
  (p < length (fst (GetElementDofs fes_ho iho)))%nat ->
  (dof_index (nth p (fst (GetElementDofs fes_ho iho)) 0%Z)
   < GetNDofs fes_ho)%nat.

(** The inner product of the result of [MultTranspose] with a coarse
    vector, patch by patch. *)
Lemma dot_MultTranspose (z y x : Vector R) :
  length y = GetVSize fes_ho ->
  dot (GetVSize fes_ho) (L2ProjectionL2Space_MultTranspose this z y) x
  = sumn (GetNE fes_ho)
      (fun iho =>
         sumn (length (GetElementVDofs fes_ho iho))
           (fun q =>
              nth q (Data (MultAtB (Rv iho) (zel z iho))) rO
              * nth q (GetSubVector (GetElementVDofs fes_ho iho) x) rO)%S).
Proof.
  clear HP Hne HPR DDh Hhlen Hvdim.
  intros Hy. unfold L2ProjectionL2Space_MultTranspose.
  set (step := fun (y : Vector R) iho =>
                 AddElementVector (GetElementVDofs fes_ho iho)
                   (Data (MultAtB (Rv iho) (zel z iho))) y).
  change (dot (GetVSize fes_ho)
            (fold_left step (seq 0 (GetNE fes_ho)) (map (fun _ => rO) y)) x
          = sumn (GetNE fes_ho)
              (fun iho =>
                 sumn (length (GetElementVDofs fes_ho iho))
                   (fun q =>
                      nth q (Data (MultAtB (Rv iho) (zel z iho))) rO
                      * nth q (GetSubVector (GetElementVDofs fes_ho iho) x)
                            rO)%S)).
  assert (Hlen : forall m,
            length (fold_left step (seq 0 m) (map (fun _ => rO) y))
            = GetVSize fes_ho).
  { intros m. rewrite length_fold_left.
    - now rewrite length_map.
    - intros a t. unfold step.
      now destruct (AddElementVector_spec (GetElementVDofs fes_ho t)
                      (Data (MultAtB (Rv t) (zel z t))) a). }
  assert (H : forall m, (m <= GetNE fes_ho)%nat ->
            dot (GetVSize fes_ho)
              (fold_left step (seq 0 m) (map (fun _ => rO) y)) x
            = sumn m
                (fun iho =>
                   sumn (length (GetElementVDofs fes_ho iho))
                     (fun q =>
                        nth q (Data (MultAtB (Rv iho) (zel z iho))) rO
                        * nth q (GetSubVector (GetElementVDofs fes_ho iho) x)
                              rO)%S)).
  { induction m as [|m IH]; intros Hm.
    - cbn [seq fold_left]. unfold dot. apply sumn_all_zero.
      intros i Hi. rewrite nth_zeroed. ring.
    - rewrite fold_left_seq_S, sumn_S. unfold step at 1.
      rewrite (@dot_AddElementVector _ _ (GetVSize fes_ho)).
      + rewrite IH by lia. reflexivity.
      + apply Hlen.
      + intros q Hq. apply vdofs_range; [|exact Hq].
        intros p Hp. apply Hhrange; [lia|exact Hp]. }
  apply H. lia.
Qed.

(** The two sums of a patch agree. *)
Lemma patch_adjoint (x z : Vector R) (iho : nat) :
  (iho < GetNE fes_ho)%nat ->
  sumn (nref iho)
    (fun iref =>
       sumn vdim
         (fun vd =>
            sumn (nl iho)
              (fun p =>
                 nth (lkey (nth iref (row iho) 0%nat) vd p) z rO
                 * (sg (nth p (ldofs (nth iref (row iho) 0%nat)) 0%Z)
                    * Elem (MatMult (Rv iho) (xel x iho))
                           (iref * nl iho + p) vd))))%S
  = sumn (length (GetElementVDofs fes_ho iho))
      (fun q =>
         nth q (Data (MultAtB (Rv iho) (zel z iho))) rO
         * nth q (GetSubVector (GetElementVDofs fes_ho iho) x) rO)%S.
Proof.
  clear HP Hne HPR DDh Hhrange.
  intros Hi.
  destruct (Elem_extract z Hi) as [HzH [HzW Hzel]].
  set (G := fun vd r =>
              (Elem (zel z iho) r vd
               * sumn (nh iho)
                   (fun j => Elem (Rv iho) r j * Elem (xel x iho) j vd))%S).
  transitivity (sumn vdim (fun vd => sumn (nl iho * nref iho) (G vd))).
  - rewrite (@sumn_ext _ _ (nref iho) _
               (fun iref => sumn vdim
                  (fun vd => sumn (nl iho)
                     (fun p => G vd (p + nl iho * iref)%nat)))).
    + rewrite sumn_swap. apply sumn_ext. intros vd Hv.
      now rewrite sumn_radix.
    + intros iref Hr. apply sumn_ext. intros vd Hv.
      apply sumn_ext. intros p Hp. unfold G.
      replace (p + nl iho * iref)%nat with (iref * nl iho + p)%nat by lia.
      rewrite Hzel by assumption.
      unfold MatMult at 1. rewrite Elem_of; [|cbn [view Height]; nia|exact Hv].
      cbn [view Width]. ring.
  - rewrite length_GetElementVDofs, (Hhlen Hi).
    rewrite (Nat.mul_comm vdim (nh iho)), sumn_radix.
    apply sumn_ext. intros vd Hv.
    rewrite (@sumn_ext _ _ (nh iho) _
               (fun j => sumn (nl iho * nref iho)
                  (fun r => Elem (Rv iho) r j * Elem (zel z iho) r vd
                            * Elem (xel x iho) j vd))%S).
    + rewrite sumn_swap. apply sumn_ext. intros r Hr. unfold G.
      rewrite <- sumn_mul_l. apply sumn_ext. intros j Hj. ring.
    + intros j Hj. rewrite sumn_mul_r. f_equal.
      * transitivity (Elem (MultAtB (Rv iho) (zel z iho)) j vd).
        -- unfold Elem. f_equal. unfold MultAtB.
           cbn [DenseMatrix_of Height view Width]. lia.
        -- unfold MultAtB. rewrite Elem_of.
           ++ reflexivity.
           ++ exact Hj.
           ++ rewrite HzW. exact Hv.
      * unfold Elem. cbn [Height Data]. f_equal. lia.
Qed.

(** ** [ProlongateTranspose] is the transpose of [Prolongate] *)

(** What the loops "Place result correctly into the low-order vector" of
    all patches store, for any matrices placed. *)
Lemma stores_patches (yel : nat -> DenseMatrix R) :
  stores (GetVSize fes_lor)
    (fun y =>
       fold_left
         (fun y iho =>
            L2_place_lor fes_lor vdim (row iho) (nl iho) (yel iho) y)
         (seq 0 (GetNE fes_ho)) y)
    (fun k v =>
       exists iho iref vd p,
         (iho < GetNE fes_ho)%nat /\ (iref < nref iho)%nat
         /\ (vd < vdim)%nat /\ (p < nl iho)%nat
         /\ lkey (nth iref (row iho) 0%nat) vd p = k
         /\ v = (sg (nth p (ldofs (nth iref (row iho) 0%nat)) 0%Z)
                 * nth (iref * nl iho + vd * Height (yel iho) + p)
                       (Data (yel iho)) rO)%S).
Proof.
  clear HP Hne HPR DDh Hhlen.
  apply (@stores_ext _ _ _ _
           (fun k v =>
              exists iho, (iho < GetNE fes_ho)%nat
                /\ exists iref vd p,
                     (iref < nref iho)%nat /\ (vd < vdim)%nat
                     /\ (p < nl iho)%nat
                     /\ lkey (nth iref (row iho) 0%nat) vd p = k
                     /\ v = (sg (nth p (ldofs (nth iref (row iho) 0%nat))
                                     0%Z)
                             * nth (iref * nl iho + vd * Height (yel iho) + p)
                                   (Data (yel iho)) rO)%S)).
  - intros k v. split.
    + intros [iho [Hi [iref [vd [p [H1 [H2 [H3 [H4 H5]]]]]]]]].
      exists iho, iref, vd, p. auto 7.
    + intros [iho [iref [vd [p [Hi [H1 [H2 [H3 [H4 H5]]]]]]]]].
      exists iho. split; [exact Hi|]. exists iref, vd, p. auto.
  - apply (@stores_fold _ _ (GetVSize fes_lor) (GetNE fes_ho)
             (fun y iho =>
                L2_place_lor fes_lor vdim (row iho) (nl iho) (yel iho) y)
             (fun iho k v =>
                exists iref vd p,
                  (iref < nref iho)%nat /\ (vd < vdim)%nat
                  /\ (p < nl iho)%nat
                  /\ lkey (nth iref (row iho) 0%nat) vd p = k
                  /\ v = (sg (nth p (ldofs (nth iref (row iho) 0%nat)) 0%Z)
                          * nth (iref * nl iho + vd * Height (yel iho) + p)
                                (Data (yel iho)) rO)%S)).
    + intros iho Hi. now apply stores_place.
    + intros iho iho' k v v' Hi Hi'
        [iref [vd [p [H1 [H2 [H3 [H4 _]]]]]]]
        [iref' [vd' [p' [H1' [H2' [H3' [H4' _]]]]]]].
      rewrite <- H4' in H4.
      now destruct (@key_inj iho iho' iref iref' vd vd' p p')
        as (? & _ & _ & _).
Qed.

(** The inner product of a fine vector with what the patches placed. *)
Lemma dot_placed (yel : nat -> DenseMatrix R) (y0 z : Vector R) :
  length y0 = GetVSize fes_lor ->
  (forall k, (k < GetVSize fes_lor)%nat -> ~ In k keys ->
             nth k y0 rO = rO) ->
  dot (GetVSize fes_lor) z
      (fold_left
         (fun y iho =>
            L2_place_lor fes_lor vdim (row iho) (nl iho) (yel iho) y)
         (seq 0 (GetNE fes_ho)) y0)
  = sumn (GetNE fes_ho)
      (fun iho =>
         sumn (nref iho)
           (fun iref =>
              sumn vdim
                (fun vd =>
                   sumn (nl iho)
                     (fun p =>
                        nth (lkey (nth iref (row iho) 0%nat) vd p) z rO
                        * (sg (nth p (ldofs (nth iref (row iho) 0%nat)) 0%Z)
                           * Elem (yel iho) (iref * nl iho + p) vd))))%S).
Proof.
  clear HP Hne HPR DDh Hhlen.
  intros Hy0 Hz.
  destruct (stores_patches yel y0 Hy0) as [_ [Hhit Hmiss]].
  unfold dot.
  rewrite (@sumn_over_keys _ _ (GetVSize fes_lor) keys NoDup_keys keys_lt).
  2:{ intros k Hk Hnin. rewrite Hmiss.
      - rewrite (Hz k Hk Hnin). ring.
      - intros v (iho & iref & vd & p & Hi & Hr & Hv & Hp & E & _).
        apply Hnin. apply In_keys. exists iho, iref, vd, p. auto. }
  rewrite sum_list_flat_map.
  change (sum_list (map ?f (seq 0 ?m))) with (sumn m f).
  apply sumn_ext. intros iho Hi.
  rewrite sum_list_flat_map.
  change (sum_list (map ?f (seq 0 ?m))) with (sumn m f).
  apply sumn_ext. intros iref Hr.
  rewrite sum_list_flat_map.
  change (sum_list (map ?f (seq 0 ?m))) with (sumn m f).
  apply sumn_ext. intros vd Hv.
  rewrite map_map.
  change (sum_list (map ?f (seq 0 ?m))) with (sumn m f).
  apply sumn_ext. intros p Hp. f_equal.
  rewrite (Hhit _ (sg (nth p (ldofs (nth iref (row iho) 0%nat)) 0%Z)
                   * nth (iref * nl iho + vd * Height (yel iho) + p)
                         (Data (yel iho)) rO)%S).
  - f_equal. unfold Elem. f_equal. lia.
  - exists iho, iref, vd, p. auto 7.
Qed.

(** The inner product of what [AddElementVector] has gathered from the
    patches with a coarse vector. *)
Lemma dot_added (ev : nat -> Vector R) (y x : Vector R) :
  length y = GetVSize fes_ho ->
  dot (GetVSize fes_ho)
      (fold_left
         (fun y iho =>
            AddElementVector (GetElementVDofs fes_ho iho) (ev iho) y)
         (seq 0 (GetNE fes_ho)) (map (fun _ => rO) y)) x
  = sumn (GetNE fes_ho)
      (fun iho =>
         sumn (length (GetElementVDofs fes_ho iho))
           (fun q =>
              nth q (ev iho) rO
              * nth q (GetSubVector (GetElementVDofs fes_ho iho) x) rO)%S).
Proof.
  clear HP Hne HPR DDh Hhlen Hvdim.
  intros Hy.
  set (step := fun (y : Vector R) iho =>
                 AddElementVector (GetElementVDofs fes_ho iho) (ev iho) y).
  assert (Hlen : forall m,
            length (fold_left step (seq 0 m) (map (fun _ => rO) y))
            = GetVSize fes_ho).
  { intros m. rewrite length_fold_left.
    - now rewrite length_map.
    - intros a t. unfold step.
      now destruct (AddElementVector_spec (GetElementVDofs fes_ho t)
                      (ev t) a). }
  assert (H : forall m, (m <= GetNE fes_ho)%nat ->
            dot (GetVSize fes_ho)
              (fold_left step (seq 0 m) (map (fun _ => rO) y)) x
            = sumn m
                (fun iho =>
                   sumn (length (GetElementVDofs fes_ho iho))
                     (fun q =>
                        nth q (ev iho) rO
                        * nth q (GetSubVector (GetElementVDofs fes_ho iho) x)
                              rO)%S)).
  { induction m as [|m IH]; intros Hm.
    - cbn [seq fold_left]. unfold dot. apply sumn_all_zero.
      intros i Hi. rewrite nth_zeroed. ring.
    - rewrite fold_left_seq_S, sumn_S. unfold step at 1.
      rewrite (@dot_AddElementVector _ _ (GetVSize fes_ho)).
      + rewrite IH by lia. reflexivity.
      + apply Hlen.
      + intros q Hq. apply vdofs_range; [|exact Hq].
        intros p Hp. apply Hhrange; [lia|exact Hp]. }
  apply H. lia.
Qed.

(** The two sums of a patch agree, for [P]. *)
Lemma patch_adjoint_P (x z : Vector R) (iho : nat) :
  (iho < GetNE fes_ho)%nat ->
  sumn (nref iho)
    (fun iref =>
       sumn vdim
         (fun vd =>
            sumn (nl iho)
              (fun p =>
                 nth (lkey (nth iref (row iho) 0%nat) vd p) z rO
                 * (sg (nth p (ldofs (nth iref (row iho) 0%nat)) 0%Z)
                    * Elem (MultAtB (Pv iho) (xel x iho))
                           (iref * nl iho + p) vd))))%S
  = sumn (length (GetElementVDofs fes_ho iho))
      (fun q =>
         nth q (Data (MatMult (Pv iho) (zel z iho))) rO
         * nth q (GetSubVector (GetElementVDofs fes_ho iho) x) rO)%S.
Proof.
  clear HP Hne HPR DDh Hhrange.
  intros Hi.
  destruct (Elem_extract z Hi) as [HzH [HzW Hzel]].
  set (G := fun vd r =>
              (Elem (zel z iho) r vd
               * sumn (nh iho)
                   (fun j => Elem (Pv iho) j r * Elem (xel x iho) j vd))%S).
  transitivity (sumn vdim (fun vd => sumn (nl iho * nref iho) (G vd))).
  - rewrite (@sumn_ext _ _ (nref iho) _
               (fun iref => sumn vdim
                  (fun vd => sumn (nl iho)
                     (fun p => G vd (p + nl iho * iref)%nat)))).
    + rewrite sumn_swap. apply sumn_ext. intros vd Hv.
      now rewrite sumn_radix.
    + intros iref Hr. apply sumn_ext. intros vd Hv.
      apply sumn_ext. intros p Hp. unfold G.
      replace (p + nl iho * iref)%nat with (iref * nl iho + p)%nat by lia.
      rewrite Hzel by assumption.
      unfold MultAtB at 1.
      rewrite Elem_of; [|cbn [view Width]; nia|exact Hv].
      cbn [view Height]. ring.
  - rewrite length_GetElementVDofs, (Hhlen Hi).
    rewrite (Nat.mul_comm vdim (nh iho)), sumn_radix.
    apply sumn_ext. intros vd Hv.
    rewrite (@sumn_ext _ _ (nh iho) _
               (fun j => sumn (nl iho * nref iho)
                  (fun r => Elem (Pv iho) j r * Elem (zel z iho) r vd
                            * Elem (xel x iho) j vd))%S).
    + rewrite sumn_swap. apply sumn_ext. intros r Hr. unfold G.
      rewrite <- sumn_mul_l. apply sumn_ext. intros j Hj. ring.
    + intros j Hj. rewrite sumn_mul_r. f_equal.
      * transitivity (Elem (MatMult (Pv iho) (zel z iho)) j vd).
        -- unfold Elem. f_equal. unfold MatMult.
           cbn [DenseMatrix_of Height view Width]. lia.
        -- unfold MatMult. rewrite Elem_of.
           ++ reflexivity.
           ++ exact Hj.
           ++ rewrite HzW. exact Hv.
      * unfold Elem. cbn [Height Data]. f_equal. lia.
Qed.

End L2RoundTrip.

Section L2MultTransposeAdjoint.
Context {R : Type} {SR : Scalar R}.
Variable this : L2ProjectionL2Space R.

Local Abbreviation fes_ho := (l2_fes_ho this).
Local Abbreviation fes_lor := (l2_fes_lor this).
Local Abbreviation row iho := (nth iho (l2_ho2lor this) []).

(** X24: [L2ProjectionL2Space::MultTranspose] is the transpose of
    [Mult], whatever the array [R] holds: the inner product of a fine
    vector [z] with the result of [Mult] on [x] is the inner product of
    the result of [MultTranspose] on [z] with [x].  The fine space is
    discontinuous, every row of [ho2lor] lists fine elements of the size
    of its first, none twice and none in two rows, the coarse tables
    have [GetDof] entries that are degrees of freedom of the coarse
    space (which need not be discontinuous), both spaces have the same
    number of components, and an entry of [y0] that no patch names is
    zero at the call of [Mult], which leaves it as it is (exact
    arithmetic). *)
Theorem L2Space_MultTranspose_adjoint (x y z y0 : Vector R) :
  GetVDim fes_lor = GetVDim fes_ho ->
  distinct_dofs fes_lor ->
  (forall iho ilor, (iho < GetNE fes_ho)%nat -> In ilor (row iho) ->
     (ilor < GetNE fes_lor)%nat
     /\ length (fst (GetElementDofs fes_lor ilor))
        = GetDof (GetFE fes_lor (nth 0 (row iho) 0%nat))) ->
  (forall iho, (iho < GetNE fes_ho)%nat -> NoDup (row iho)) ->
  (forall iho iho' ilor,
     (iho < GetNE fes_ho)%nat -> (iho' < GetNE fes_ho)%nat ->
     In ilor (row iho) -> In ilor (row iho') -> iho = iho') ->
  (forall iho, (iho < GetNE fes_ho)%nat ->
     length (fst (GetElementDofs fes_ho iho)) = GetDof (GetFE fes_ho iho)) ->
  (forall iho p, (iho < GetNE fes_ho)%nat ->
     (p < length (fst (GetElementDofs fes_ho iho)))%nat ->
     (dof_index (nth p (fst (GetElementDofs fes_ho iho)) 0%Z)
      < GetNDofs fes_ho)%nat) ->
  length y = GetVSize fes_ho ->
  length y0 = GetVSize fes_lor ->
  (forall k, (k < GetVSize fes_lor)%nat ->
     (forall iho ilor vd p,
        (iho < GetNE fes_ho)%nat -> In ilor (row iho) ->
        (vd < GetVDim fes_ho)%nat ->
        (p < length (fst (GetElementDofs fes_lor ilor)))%nat ->
        DofToVDof fes_lor
          (dof_index (nth p (fst (GetElementDofs fes_lor ilor)) 0%Z)) vd
        <> k) ->
     nth k y0 rO = rO) ->
  dot (GetVSize fes_lor) z (L2ProjectionL2Space_Mult this x y0)
  = dot (GetVSize fes_ho) (L2ProjectionL2Space_MultTranspose this z y) x.
Proof.
  intros Hvdim DDl Hrows Hnodup Hdisj Hhlen Hhrange Hy Hy0 Hz.
  rewrite (@dot_Mult R SR this Hrows Hnodup Hdisj DDl Hvdim x y0 z Hy0).
  - rewrite (@dot_MultTranspose R SR this Hhrange z y x Hy).
    apply sumn_ext. intros iho Hi.
    exact (@patch_adjoint R SR this Hrows Hvdim Hhlen x z iho Hi).
  - intros k Hk Hnin. apply Hz; [exact Hk|].
    intros iho ilor vd p Hi Hin Hv Hp E. apply Hnin.
    apply (@In_keys R this).
    destruct (In_nth (row iho) ilor 0%nat Hin) as [iref [Hr Er]].
    destruct (Hrows iho ilor Hi Hin) as [_ Len].
    exists iho, iref, vd, p. rewrite Er. rewrite Len in Hp. auto 7.
Qed.

End L2MultTransposeAdjoint.

Section L2ProlongateTransposeAdjoint.
Context {R : Type} {SR : Scalar R}.
Variable this : L2ProjectionL2Space R.

Local Abbreviation fes_ho := (l2_fes_ho this).
Local Abbreviation fes_lor := (l2_fes_lor this).
Local Abbreviation row iho := (nth iho (l2_ho2lor this) []).
Local Abbreviation Pv iho :=
  (view (l2_P this) (nth iho (l2_offsets this) 0%nat)
        (GetDof (GetFE fes_ho iho))
        (GetDof (GetFE fes_lor (nth 0 (row iho) 0%nat)) * length (row iho))).

(** X25: [L2ProjectionL2Space::ProlongateTranspose] is the transpose of
    [Prolongate], whatever the array [P] holds, as long as it is not
    empty: on a mesh with elements both calls return, and the inner
    product of a fine vector [z] with the result of
    [ProlongateTranspose] on [x] is the inner product of the result of
    [Prolongate] on [z] with [x].  The conditions are those under which
    [MultTranspose] is the transpose of [Mult]; an entry of [y0] that no
    patch names is zero at the call of [ProlongateTranspose], which
    leaves it as it is (exact arithmetic). *)
Theorem L2Space_ProlongateTranspose_adjoint (x y1 z y0 : Vector R) :
  GetNE fes_ho <> 0%nat ->
  (0 < length (l2_P this))%nat ->
  GetVDim fes_lor = GetVDim fes_ho ->
  distinct_dofs fes_lor ->
  (forall iho ilor, (iho < GetNE fes_ho)%nat -> In ilor (row iho) ->
     (ilor < GetNE fes_lor)%nat
     /\ length (fst (GetElementDofs fes_lor ilor))
        = GetDof (GetFE fes_lor (nth 0 (row iho) 0%nat))) ->
  (forall iho, (iho < GetNE fes_ho)%nat -> NoDup (row iho)) ->
  (forall iho iho' ilor,
     (iho < GetNE fes_ho)%nat -> (iho' < GetNE fes_ho)%nat ->
     In ilor (row iho) -> In ilor (row iho') -> iho = iho') ->
  (forall iho, (iho < GetNE fes_ho)%nat ->
     length (fst (GetElementDofs fes_ho iho)) = GetDof (GetFE fes_ho iho)) ->
  (forall iho p, (iho < GetNE fes_ho)%nat ->
     (p < length (fst (GetElementDofs fes_ho iho)))%nat ->
     (dof_index (nth p (fst (GetElementDofs fes_ho iho)) 0%Z)
      < GetNDofs fes_ho)%nat) ->
  length y1 = GetVSize fes_ho ->
  length y0 = GetVSize fes_lor ->
  (forall k, (k < GetVSize fes_lor)%nat ->
     (forall iho ilor vd p,
        (iho < GetNE fes_ho)%nat -> In ilor (row iho) ->
        (vd < GetVDim fes_ho)%nat ->
        (p < length (fst (GetElementDofs fes_lor ilor)))%nat ->
        DofToVDof fes_lor
          (dof_index (nth p (fst (GetElementDofs fes_lor ilor)) 0%Z)) vd
        <> k) ->
     nth k y0 rO = rO) ->
  exists yh yl,
    L2ProjectionL2Space_Prolongate this z y1 = Ok yh
    /\ L2ProjectionL2Space_ProlongateTranspose this x y0 = Ok yl
    /\ dot (GetVSize fes_lor) z yl = dot (GetVSize fes_ho) yh x.
Proof.
  intros Hne HP Hvdim DDl Hrows Hnodup Hdisj Hhlen Hhrange Hy1 Hy0 Hz.
  unfold L2ProjectionL2Space_Prolongate,
    L2ProjectionL2Space_ProlongateTranspose.
  apply Nat.eqb_neq in Hne. rewrite Hne.
  apply Nat.ltb_lt in HP. rewrite HP. cbn [MFEM_VERIFY bind].
  eexists. eexists. split; [reflexivity|]. split; [reflexivity|].
  refine (eq_trans
            (@dot_placed R SR this Hrows Hnodup Hdisj DDl Hvdim
               (fun iho =>
                  MultAtB (Pv iho)
                    {| Height := GetDof (GetFE fes_ho iho);
                       Width := GetVDim fes_ho;
                       Data := GetSubVector (GetElementVDofs fes_ho iho) x |})
               y0 z Hy0 _) _).
  - intros k Hk Hnin. apply Hz; [exact Hk|].
    intros iho ilor vd p Hi Hin Hv Hp E. apply Hnin.
    apply (@In_keys R this).
    destruct (In_nth (row iho) ilor 0%nat Hin) as [iref [Hr Er]].
    destruct (Hrows iho ilor Hi Hin) as [_ Len].
    exists iho, iref, vd, p. rewrite Er. rewrite Len in Hp. auto 7.
  - refine (eq_trans _
              (eq_sym
                 (@dot_added R SR this Hhrange
                    (fun iho =>
                       Data
                         (MatMult (Pv iho)
                            (L2_extract_lor fes_lor (GetVDim fes_ho)
                               (row iho)
                               (GetDof (GetFE fes_lor (nth 0 (row iho) 0%nat)))
                               z
                               (DenseMatrix_zero
                                  (GetDof (GetFE fes_lor
                                             (nth 0 (row iho) 0%nat))
                                   * length (row iho))
                                  (GetVDim fes_ho)))))
                    y1 x Hy1))).
    apply sumn_ext. intros iho Hi.
    exact (@patch_adjoint_P R SR this Hrows Hvdim Hhlen x z iho Hi).
Qed.

End L2ProlongateTransposeAdjoint.

Section L2ProlongateAfterMult.
Context {R : Type} {SR : Scalar R}.
Variable IntRules_Get : Geometry -> nat -> list (IntegrationPoint R).
Variable AssembleElementMatrix :
  FiniteElement R -> ElementTransformation R -> DenseMatrix R.
Variable Inverse : DenseMatrix R -> DenseMatrix R.
Variable EmbeddingTransformation :
  Geometry -> DenseMatrix R -> IntegrationPointTransformation R.
Variables fes_ho fes_lor : FiniteElementSpace R.

Local Abbreviation new :=
  (L2ProjectionL2Space_new IntRules_Get AssembleElementMatrix Inverse
     EmbeddingTransformation).
Local Abbreviation RtMlorR :=
  (L2_RtMlorR IntRules_Get AssembleElementMatrix Inverse
     EmbeddingTransformation fes_ho fes_lor).

(** X22: for two discontinuous spaces, [Prolongate] undoes [Mult]: the
    coarse vector restricted to the fine space by [Mult] and prolongated
    back is the vector itself, at every degree of freedom of every coarse
    element.  The elements of either space share no degree of freedom,
    the fine elements of a patch have the size of its first, both spaces
    have the same number of components, the fine space is the larger,
    and the inverse computed for [RtMlorR] is one (exact arithmetic). *)
Theorem Prolongate_after_Mult (x y0 y1 : Vector R) :
  mesh_GetNE (GetMesh fes_ho) <> 0%nat ->
  (GetTrueVSize fes_ho <= GetTrueVSize fes_lor)%nat ->
  GetVDim fes_lor = GetVDim fes_ho ->
  distinct_dofs fes_ho ->
  distinct_dofs fes_lor ->
  (forall iho, (iho < GetNE fes_ho)%nat ->
     length (fst (GetElementDofs fes_ho iho)) = GetDof (GetFE fes_ho iho)) ->
  (forall iho ilor, (iho < GetNE fes_ho)%nat ->
     In ilor (nth iho (l2_ho2lor (new fes_ho fes_lor)) []) ->
     length (fst (GetElementDofs fes_lor ilor))
     = GetDof (GetFE fes_lor
                 (nth 0 (nth iho (l2_ho2lor (new fes_ho fes_lor)) [])
                      0%nat))) ->
  (forall iho, (iho < GetNE fes_ho)%nat ->
     Width (Inverse (RtMlorR (l2_ho2lor (new fes_ho fes_lor)) iho))
     = GetDof (GetFE fes_ho iho)
     /\ MatMult (Inverse (RtMlorR (l2_ho2lor (new fes_ho fes_lor)) iho))
                (RtMlorR (l2_ho2lor (new fes_ho fes_lor)) iho)
        = DenseMatrix_identity (GetDof (GetFE fes_ho iho))) ->
  (0 < length (l2_P (new fes_ho fes_lor)))%nat ->
  length y0 = GetVSize fes_lor ->
  length y1 = GetVSize fes_ho ->
  exists z,
    L2ProjectionL2Space_Prolongate (new fes_ho fes_lor)
      (L2ProjectionL2Space_Mult (new fes_ho fes_lor) x y0) y1 = Ok z
    /\ length z = length y1
    /\ forall e q,
         (e < GetNE fes_ho)%nat ->
         (q < length (GetElementVDofs fes_ho e))%nat ->
         nth (dof_index (nth q (GetElementVDofs fes_ho e) 0%Z)) z rO
         = nth (dof_index (nth q (GetElementVDofs fes_ho e) 0%Z)) x rO.
Proof.
  intros Hne Hsize Hvdim DDh DDl Hhlen Hllen Hinv HP Hy0 Hy1.
  assert (HPR : forall iho, (iho < GetNE fes_ho)%nat ->
            let this := new fes_ho fes_lor in
            let lor_els := nth iho (l2_ho2lor this) [] in
            MatMult
              (view (l2_P this) (nth iho (l2_offsets this) 0%nat)
                    (GetDof (GetFE fes_ho iho))
                    (GetDof (GetFE fes_lor (nth 0 lor_els 0%nat))
                     * length lor_els))
              (view (l2_R this) (nth iho (l2_offsets this) 0%nat)
                    (GetDof (GetFE fes_lor (nth 0 lor_els 0%nat))
                     * length lor_els)
                    (GetDof (GetFE fes_ho iho)))
            = DenseMatrix_identity (GetDof (GetFE fes_ho iho))).
  { intros iho Hi. cbv zeta. destruct (Hinv iho Hi) as [HW HI].
    assert (HH : Height (Inverse
                           (RtMlorR (l2_ho2lor (new fes_ho fes_lor)) iho))
                 = GetDof (GetFE fes_ho iho)).
    { apply (f_equal (@Height R)) in HI. exact HI. }
    destruct (@views_are_blocks _ _ IntRules_Get AssembleElementMatrix
                Inverse EmbeddingTransformation fes_ho fes_lor iho
                Hne Hsize Hi HH) as [HvR HvP].
    cbv zeta in HvR, HvP. rewrite HvR, HvP.
    destruct (@R_iho_shape _ _ IntRules_Get AssembleElementMatrix Inverse
                EmbeddingTransformation fes_ho fes_lor
                (l2_ho2lor (new fes_ho fes_lor)) iho)
      as [HRh [HRw HRl]].
    unfold L2_P_iho. rewrite MatMult_assoc; [exact HI|].
    rewrite HW. unfold L2_RtMlor.
    destruct (L2_patch_blocks _ _ _ _ _ _ _ _) as [[a b] c].
    unfold MultAtB, DenseMatrix_of. cbn [Height]. now rewrite HRw. }
  cbv zeta in HPR.
  assert (Enew : exists Rv Pv,
            new fes_ho fes_lor
            = {| l2_fes_ho := fes_ho; l2_fes_lor := fes_lor;
                 l2_ho2lor :=
                   BuildHo2Lor (mesh_GetNE (GetMesh fes_ho))
                     (mesh_GetNE (GetMesh fes_lor))
                     (GetRefinementTransforms (GetMesh fes_lor));
                 l2_offsets :=
                   L2_offsets fes_ho fes_lor
                     (BuildHo2Lor (mesh_GetNE (GetMesh fes_ho))
                        (mesh_GetNE (GetMesh fes_lor))
                        (GetRefinementTransforms (GetMesh fes_lor)))
                     (mesh_GetNE (GetMesh fes_ho));
                 l2_R := Rv; l2_P := Pv |}).
  { unfold L2ProjectionL2Space_new. apply Nat.eqb_neq in Hne. rewrite Hne.
    eexists; eexists; reflexivity. }
  destruct Enew as [Rv [Pv Enew]].
  rewrite Enew in *. cbn [l2_fes_ho l2_fes_lor l2_ho2lor l2_offsets l2_R l2_P]
    in *.
  set (ho2lor := BuildHo2Lor (mesh_GetNE (GetMesh fes_ho))
                   (mesh_GetNE (GetMesh fes_lor))
                   (GetRefinementTransforms (GetMesh fes_lor))) in *.
  assert (Hrow : forall iho ilor, (iho < GetNE fes_ho)%nat ->
            In ilor (nth iho ho2lor []) <->
            (ilor < GetNE fes_lor)%nat
            /\ parent (nth ilor
                         (embeddings
                            (GetRefinementTransforms (GetMesh fes_lor)))
                         {| parent := 0; matrix := 0 |}) = iho).
  { intros iho ilor Hi. unfold ho2lor, BuildHo2Lor.
    rewrite (nth_map_seq _ [] Hi), filter_In, in_seq, Nat.eqb_eq.
    unfold GetNE. split; intros [? ?]; split; auto; lia. }
  apply (@Prolongate_Mult_views _ _
           {| l2_fes_ho := fes_ho; l2_fes_lor := fes_lor;
              l2_ho2lor := ho2lor;
              l2_offsets :=
                L2_offsets fes_ho fes_lor ho2lor (mesh_GetNE (GetMesh fes_ho));
              l2_R := Rv; l2_P := Pv |});
    cbn [l2_fes_ho l2_fes_lor l2_ho2lor l2_offsets l2_R l2_P];
    try assumption.
  - intros iho ilor Hi Hin. split; [now apply (Hrow iho ilor Hi)|].
    now apply Hllen.
  - intros iho Hi. unfold ho2lor, BuildHo2Lor.
    rewrite (nth_map_seq _ [] Hi). apply NoDup_filter, seq_NoDup.
  - intros iho iho' ilor Hi Hi' Hin Hin'.
    apply (Hrow iho ilor Hi) in Hin. apply (Hrow iho' ilor Hi') in Hin'.
    destruct Hin as [_ <-], Hin' as [_ <-]. reflexivity.
Qed.

End L2ProlongateAfterMult.

Lemma broken_space_distinct (ne : nat) :
  (ne <= 4)%nat ->
  distinct_dofs
    (broken_space (if Nat.eqb ne 4 then halved_segments 4 else segments 1 ne)
       segment_P1).
Proof.
  intros Hne.
  assert (Hmesh : mesh_GetNE
                    (if Nat.eqb ne 4 then halved_segments 4
                     else segments 1 ne) = ne)
    by (destruct (Nat.eqb_spec ne 4) as [->|]; reflexivity).
  constructor.
  - intros e p He Hp. unfold GetNE in He. cbn [broken_space GetMesh] in He.
    rewrite Hmesh in He.
    cbn [broken_space GetElementDofs GetNDofs fst segment_P1 GetDof] in *.
    rewrite Hmesh. change (p < 2)%nat in Hp.
    destruct p as [|[|p]]; [| |lia]; cbn [map seq nth];
      rewrite dof_index_of_nat; lia.
  - intros e e' p p' He He' Hp Hp' E.
    cbn [broken_space GetElementDofs fst segment_P1 GetDof] in *.
    change (p < 2)%nat in Hp. change (p' < 2)%nat in Hp'.
    destruct p as [|[|p]]; [| |lia]; (destruct p' as [|[|p']]; [| |lia]);
      cbn [map seq nth] in E; rewrite !dof_index_of_nat in E; lia.
Qed.

Lemma Prolongate_after_Mult_witness :
  let fes_ho := broken_space (segments 1 2) segment_P1 in
  let fes_lor := broken_space (halved_segments 4) segment_P1 in
  let this := L2ProjectionL2Space_new left_point unit_mass same_matrix
                end_embedding fes_ho fes_lor in
  exists z,
    L2ProjectionL2Space_Prolongate this
      (L2ProjectionL2Space_Mult this [5%Z; 6%Z; 7%Z; 8%Z] (filled 8 0%Z))
      (filled 4 0%Z) = Ok z
    /\ length z = length (filled 4 0%Z)
    /\ forall e q,
         (e < GetNE fes_ho)%nat ->
         (q < length (GetElementVDofs fes_ho e))%nat ->
         nth (dof_index (nth q (GetElementVDofs fes_ho e) 0%Z)) z 0%Z
         = nth (dof_index (nth q (GetElementVDofs fes_ho e) 0%Z))
               [5%Z; 6%Z; 7%Z; 8%Z] 0%Z.
Proof.
  cbv zeta.
  refine (@Prolongate_after_Mult Z _ left_point unit_mass same_matrix
            end_embedding (broken_space (segments 1 2) segment_P1)
            (broken_space (halved_segments 4) segment_P1)
            [5%Z; 6%Z; 7%Z; 8%Z] (filled 8 0%Z) (filled 4 0%Z)
            _ _ _ _ _ _ _ _ _ _ _).
  - simpl. discriminate.
  - simpl. lia.
  - reflexivity.
  - exact (@broken_space_distinct 2 ltac:(lia)).
  - exact (@broken_space_distinct 4 ltac:(lia)).
  - intros iho Hi. reflexivity.
  - intros iho ilor Hi Hin. reflexivity.
  - intros iho Hi. change (iho < 2)%nat in Hi.
    destruct iho as [|[|iho]]; [| |lia]; vm_compute; split; reflexivity.
  - vm_compute. lia.
  - reflexivity.
  - reflexivity.
Defined.

(* ------------------------------------------------------------------ *)
(** ** The continuous strategy: the sparsity pattern that AllocR builds *)
(* ------------------------------------------------------------------ *)

Lemma fold_left_flat_map {A B C : Type} (f : A -> C -> A) (g : B -> list C)
  (l : list B) (a : A) :
  fold_left f (flat_map g l) a
  = fold_left (fun a x => fold_left f (g x) a) l a.
Proof.
  revert a. induction l as [|x l IH]; intros a; [reflexivity|].
  cbn [flat_map fold_left]. now rewrite fold_left_app, IH.
Qed.

Lemma nth_fold_upd_const {A : Type} (c d : A) (u : list A) (m k : nat) :
  nth k (fold_left (fun u i => upd i c u) (seq 0 m) u) d
  = if Nat.ltb k m && Nat.ltb k (length u) then c else nth k u d.
Proof.
  induction m as [|m IH]; [reflexivity|].
  rewrite fold_left_seq_S, nth_upd, IH.
  rewrite length_fold_left by (intros; apply length_upd).
  destruct (Nat.eqb_spec m k) as [->|Hne].
  - rewrite Nat.ltb_irrefl.
    replace (Nat.ltb k (S k)) with true by (symmetry; apply Nat.ltb_lt; lia).
    now destruct (Nat.ltb k (length u)).
  - cbn [andb].
    destruct (Nat.ltb_spec k m), (Nat.ltb_spec k (S m)); try lia;
      reflexivity.
Qed.

(** The loop that resets every marker. *)
Lemma reset_markers {A : Type} (c : A) (u : list A) :
  fold_left (fun u i => upd i c u) (seq 0 (length u)) u
  = filled (length u) c.
Proof.
  apply (list_eq_nth c).
  - rewrite length_fold_left by (intros; apply length_upd).
    now rewrite length_filled.
  - intros k Hk.
    rewrite length_fold_left in Hk by (intros; apply length_upd).
    rewrite nth_fold_upd_const, nth_filled.
    apply Nat.ltb_lt in Hk. now rewrite Hk.
Qed.

(** A row of the transposed table lists the rows that contain its
    number. *)
Lemma In_Table_Transpose (A : list (list nat)) (ncols_A j i : nat) :
  (j < ncols_A)%nat ->
  In i (nth j (Table_Transpose A ncols_A) [])
  <-> (i < length A)%nat /\ In j (nth i A []).
Proof.
  intros Hj. unfold Table_Transpose.
  rewrite (nth_map_seq _ [] Hj), in_flat_map. split.
  - intros [i' [Hi' Hin]]. apply in_map_iff in Hin.
    destruct Hin as [d [<- Hd]]. apply filter_In in Hd.
    destruct Hd as [Hd E]. apply Nat.eqb_eq in E. subst d.
    apply in_seq in Hi'. split; [lia|exact Hd].
  - intros [Hi Hin]. exists i. split; [apply in_seq; lia|].
    apply in_map_iff. exists j. split; [reflexivity|].
    apply filter_In. split; [exact Hin|apply Nat.eqb_refl].
Qed.

(** The rows of a table whose array [J] is the concatenation of the rows
    and whose array [I] holds the running lengths. *)
Lemma GetRow_of_concat (rows : list (list nat)) (I : list nat) (i : nat) :
  (i < length rows)%nat ->
  nth i I 0%nat = length (concat (firstn i rows)) ->
  nth (S i) I 0%nat = length (concat (firstn (S i) rows)) ->
  Table_GetRow I (concat rows) i = nth i rows [].
Proof.
  intros Hi H0 H1. unfold Table_GetRow. rewrite H0, H1.
  replace (concat rows)
    with (concat (firstn i rows) ++ concat (skipn i rows))
    by (now rewrite <- concat_app, firstn_skipn).
  rewrite skipn_app, skipn_all, Nat.sub_diag. cbn [skipn app].
  assert (E : firstn (S i) rows = firstn i rows ++ [nth i rows []]).
  { clear H0 H1. revert i Hi. induction rows as [|r rows IH]; intros i Hi;
      [simpl in Hi; lia|].
    destruct i as [|i]; [reflexivity|].
    cbn [firstn nth app]. f_equal. apply IH. simpl in Hi. lia. }
  rewrite E, concat_app, length_app. cbn [concat]. rewrite app_nil_r.
  replace (length (concat (firstn i rows)) + length (nth i rows [])
           - length (concat (firstn i rows)))%nat
    with (length (nth i rows [])) by lia.
  assert (E2 : skipn i rows = nth i rows [] :: skipn (S i) rows).
  { clear H0 H1 E. revert i Hi. induction rows as [|r rows IH]; intros i Hi;
      [simpl in Hi; lia|].
    destruct i as [|i]; [reflexivity|].
    cbn [skipn nth]. apply IH. simpl in Hi. lia. }
  rewrite E2. cbn [concat]. rewrite firstn_app, firstn_all, Nat.sub_diag.
  cbn [firstn]. now rewrite app_nil_r.
Qed.

Section AllocRFacts.
Context {R : Type} {SR : Scalar R}.
Variables elem_dof_ho dof_elem_lor : list (list nat).
Variable cf_tr : CoarseFineTransformations R.

Local Abbreviation par el :=
  (parent (nth el (embeddings cf_tr) {| parent := 0; matrix := 0 |})).
Local Abbreviation Lrow ilor :=
  (flat_map (fun el => nth (par el) elem_dof_ho []) (nth ilor dof_elem_lor [])).
Local Abbreviation step1 ilor :=
  (fun (st : list Z * nat) (dof_ho : nat) =>
     let '(dof_used_ho, sizeJ) := st in
     if negb (Z.eqb (nth dof_ho dof_used_ho 0%Z) (Z.of_nat ilor))
     then (upd dof_ho (Z.of_nat ilor) dof_used_ho, S sizeJ)
     else st).
Local Abbreviation step2 ilor :=
  (fun (st : list Z * nat * list nat) (dof_ho : nat) =>
     let '(dof_used_ho, sizeJ, dof_dofJ) := st in
     if negb (Z.eqb (nth dof_ho dof_used_ho 0%Z) (Z.of_nat ilor))
     then (upd dof_ho (Z.of_nat ilor) dof_used_ho, S sizeJ,
           upd sizeJ dof_ho dof_dofJ)
     else st).

(** The loops of a row run over the degrees of freedom of the parents of
    the elements of the row, one after the other. *)
Lemma AllocR_row_flat (ilor : nat) (st : list Z * nat * list nat) :
  AllocR_row elem_dof_ho dof_elem_lor cf_tr ilor st
  = fold_left (step2 ilor) (Lrow ilor) st.
Proof. unfold AllocR_row. now rewrite fold_left_flat_map. Qed.

(** The counting loops do what the filling loops do to the markers and
    to [sizeJ]. *)
Lemma count_of_fill (ilor : nat) (L : list nat) (used : list Z)
  (sizeJ : nat) (J : list nat) :
  fold_left (step1 ilor) L (used, sizeJ)
  = fst (fold_left (step2 ilor) L (used, sizeJ, J)).
Proof.
  revert used sizeJ J. induction L as [|d L IH]; intros used sizeJ J;
    [reflexivity|].
  cbn [fold_left].
  destruct (negb (Z.eqb (nth d used 0%Z) (Z.of_nat ilor))); apply IH.
Qed.

(** One row of the filling loops: the degrees of freedom not yet marked
    for the row are marked and appended to [J], each once. *)
Lemma scan_spec (ilor : nat) (L : list nat) :
  forall (used : list Z) (sizeJ : nat) (J seen : list nat),
    (forall d, In d L -> (d < length used)%nat) ->
    (forall d, (d < length used)%nat ->
       nth d used 0%Z = Z.of_nat ilor <-> In d seen) ->
    NoDup seen ->
    exists new used' J',
      fold_left (step2 ilor) L (used, sizeJ, J)
      = (used', (sizeJ + length new)%nat, J')
      /\ NoDup (seen ++ new)
      /\ (forall d, In d new <-> In d L /\ ~ In d seen)
      /\ length used' = length used
      /\ length J' = length J
      /\ (forall d, (d < length used)%nat ->
            nth d used' 0%Z = Z.of_nat ilor <-> In d (seen ++ new))
      /\ (forall d, nth d used' 0%Z = nth d used 0%Z
                    \/ nth d used' 0%Z = Z.of_nat ilor)
      /\ (forall k, (k < length new)%nat -> (sizeJ + k < length J)%nat ->
            nth (sizeJ + k) J' 0%nat = nth k new 0%nat)
      /\ (forall k, (k < sizeJ)%nat -> nth k J' 0%nat = nth k J 0%nat).
Proof.
  induction L as [|d L IH]; intros used sizeJ J seen Hrange Hmark Hnd.
  - exists [], used, J. cbn [fold_left length]. rewrite Nat.add_0_r, app_nil_r.
    repeat split; auto; try tauto.
    + now apply Hmark.
    + now apply Hmark.
    + intros k Hk. lia.
  - cbn [fold_left].
    assert (Hd : (d < length used)%nat) by (apply Hrange; now left).
    destruct (Z.eqb_spec (nth d used 0%Z) (Z.of_nat ilor)) as [E|E];
      cbn [negb].
    + assert (Hseen : In d seen) by now apply (Hmark d Hd).
      destruct (IH used sizeJ J seen) as
        (new & used' & J' & Hfold & H1 & H2 & H3 & H4 & H5 & H6 & H7 & H8);
        [intros; apply Hrange; now right|exact Hmark|exact Hnd|].
      exists new, used', J'.
      split; [exact Hfold|]. split; [exact H1|]. split.
      { intros d'. rewrite H2. cbn [In]. split.
        - intros [Hin Hn]. split; [now right|exact Hn].
        - intros [[<-|Hin] Hn]; [contradiction|]. now split. }
      repeat (split; [assumption|]). assumption.
    + assert (Hnot : ~ In d seen) by (intros Hin; apply E; now apply Hmark).
      destruct (IH (upd d (Z.of_nat ilor) used) (S sizeJ) (upd sizeJ d J)
                   (seen ++ [d])) as
        (new & used' & J' & Hfold & H1 & H2 & H3 & H4 & H5 & H6 & H7 & H8).
      { intros d' Hd'. rewrite length_upd. apply Hrange. now right. }
      { intros d' Hd'. rewrite length_upd in Hd'. rewrite nth_upd, in_app_iff.
        destruct (Nat.eqb_spec d d') as [->|Hne].
        - apply Nat.ltb_lt in Hd'. rewrite Hd'. cbn [andb In]. tauto.
        - cbn [andb In]. rewrite (Hmark d' Hd'). intuition congruence. }
      { apply NoDup_app; [exact Hnd|repeat constructor; intros []|].
        intros a Ha [<-|[]]. contradiction. }
      rewrite (length_upd d (Z.of_nat ilor) used) in *.
      rewrite (length_upd sizeJ d J) in *.
      exists (d :: new), used', J'.
      rewrite <- app_assoc in H1, H5. cbn [app] in H1, H5.
      split; [rewrite Hfold; cbn [length]; f_equal; f_equal; lia|].
      split; [exact H1|]. split.
      { intros d'. cbn [In]. rewrite H2, in_app_iff. cbn [In]. split.
        - intros [<-|[Hin Hn]]; [split; [now left|exact Hnot]|].
          split; [now right|tauto].
        - intros [[<-|Hin] Hn]; [now left|].
          destruct (Nat.eq_dec d d') as [->|Hne]; [now left|].
          right. split; [exact Hin|]. intros [?|[?|[]]]; [tauto|congruence]. }
      split; [exact H3|]. split; [exact H4|]. split; [exact H5|]. split.
      { intros d'. destruct (H6 d') as [H|H]; [|now right].
        rewrite H, nth_upd.
        destruct (Nat.eqb d d' && Nat.ltb d' (length used)); auto. }
      split.
      { intros k Hk Hlt. cbn [length] in Hk. destruct k as [|k].
        - rewrite Nat.add_0_r, H8 by lia. cbn [nth].
          apply nth_upd_eq. lia.
        - replace (sizeJ + S k)%nat with (S sizeJ + k)%nat by lia.
          cbn [nth]. apply H7; lia. }
      { intros k Hk. rewrite H8 by lia. apply nth_upd_neq. lia. }
Qed.

Variables ndof_ho ndof_lor : nat.

(** The entries of the coarse table are degrees of freedom of the coarse
    space. *)
Hypothesis Hho : forall row d,
  In row elem_dof_ho -> In d row -> (d < ndof_ho)%nat.

Lemma Lrow_range (ilor d : nat) : In d (Lrow ilor) -> (d < ndof_ho)%nat.
Proof.
  intros Hin. apply in_flat_map in Hin. destruct Hin as [el [_ Hd]].
  destruct (Nat.lt_ge_cases (par el) (length elem_dof_ho)) as [Hlt|Hge].
  - apply (Hho (nth (par el) elem_dof_ho []) d); [now apply nth_In|exact Hd].
  - rewrite nth_overflow in Hd by exact Hge. destruct Hd.
Qed.

Local Abbreviation count_step :=
  (fun (st : list Z * nat) ilor =>
     fold_left
       (fun st el_lor =>
          fold_left (step1 ilor) (nth (par el_lor) elem_dof_ho []) st)
       (nth ilor dof_elem_lor []) st).
Local Abbreviation fill_step :=
  (fun (st : list Z * nat * list nat * list nat) ilor =>
     let '(dof_used_ho, sizeJ, dof_dofI, dof_dofJ) := st in
     let dof_dofI := upd ilor sizeJ dof_dofI in
     let '(dof_used_ho, sizeJ, dof_dofJ) :=
       AllocR_row elem_dof_ho dof_elem_lor cf_tr ilor
                  (dof_used_ho, sizeJ, dof_dofJ) in
     (dof_used_ho, sizeJ, dof_dofI, dof_dofJ)).

(** The first loop nest counts what the second one writes. *)
Lemma count_is_fill (m : nat) (st1 : list Z * nat) (I0 J0 : list nat) :
  fold_left count_step (seq 0 m) st1
  = fst (fst (fold_left fill_step (seq 0 m) (fst st1, snd st1, I0, J0))).
Proof.
  induction m as [|m IH]; [now destruct st1|].
  rewrite !fold_left_seq_S, IH.
  destruct (fold_left fill_step (seq 0 m) (fst st1, snd st1, I0, J0))
    as [[[u s] I] J].
  cbn [fst snd]. rewrite AllocR_row_flat.
  rewrite <- (fold_left_flat_map (step1 m)
                (fun el => nth (par el) elem_dof_ho [])).
  rewrite (count_of_fill m (Lrow m) u s J).
  now destruct (fold_left (step2 m) (Lrow m) (u, s, J)) as [[u' s'] J'].
Qed.

(** After [m] rows of the second loop nest: the rows written so far, one
    after the other, fill [J] up to [sizeJ], [I] holds their running
    lengths, every row lists the degrees of freedom of the parents of
    its elements, each once, and every marker is below [m]. *)
Lemma fill_invariant (I0 J0 : list nat) (m : nat) :
  (m <= ndof_lor)%nat -> length I0 = S ndof_lor ->
  exists rows used I J,
    fold_left fill_step (seq 0 m) (filled ndof_ho (-1)%Z, 0%nat, I0, J0)
    = (used, length (concat rows), I, J)
    /\ length rows = m
    /\ length used = ndof_ho
    /\ length I = S ndof_lor
    /\ length J = length J0
    /\ (forall d, (d < ndof_ho)%nat -> (nth d used 0 < Z.of_nat m)%Z)
    /\ (forall i, (i < m)%nat ->
          nth i I 0%nat = length (concat (firstn i rows)))
    /\ (forall i, (m <= i)%nat -> nth i I 0%nat = nth i I0 0%nat)
    /\ (forall k, (k < length (concat rows))%nat -> (k < length J0)%nat ->
          nth k J 0%nat = nth k (concat rows) 0%nat)
    /\ (forall i, (i < m)%nat ->
          NoDup (nth i rows [])
          /\ forall d, In d (nth i rows []) <-> In d (Lrow i)).
Proof.
  intros Hm HI0. induction m as [|m IH].
  - exists [], (filled ndof_ho (-1)%Z), I0, J0. cbn [fold_left seq concat length].
    repeat split; auto; try (intros; lia).
    + apply length_filled.
    + intros d Hd. rewrite (nth_indep _ 0%Z (-1)%Z)
        by (now rewrite length_filled).
      rewrite nth_filled. lia.
  - destruct IH as (rows & used & I & J & Hfold & Hr & Hu & HI & HJ & Hmk
                    & HIi & HIo & HJk & Hrows); [lia|].
    rewrite fold_left_seq_S, Hfold. cbn [fst snd].
    rewrite AllocR_row_flat.
    destruct (@scan_spec m (Lrow m) used (length (concat rows)) J [])
      as (new & used' & J' & Hscan & H1 & H2 & H3 & H4 & H5 & H6 & H7 & H8).
    { intros d Hd. rewrite Hu. now apply Lrow_range with (ilor := m). }
    { intros d Hd. rewrite Hu in Hd. specialize (Hmk d Hd). cbn [In].
      split; [lia|tauto]. }
    { constructor. }
    rewrite Hscan. cbn [app] in H1, H5.
    exists (rows ++ [new]), used', (upd m (length (concat rows)) I), J'.
    assert (Hcat : concat (rows ++ [new]) = concat rows ++ new).
    { rewrite concat_app. cbn [concat]. now rewrite app_nil_r. }
    rewrite Hcat, length_app.
    split; [reflexivity|].
    split; [rewrite length_app; cbn [length]; lia|].
    split; [congruence|].
    split; [now rewrite length_upd|].
    split; [congruence|].
    split.
    { intros d Hd. destruct (H6 d) as [E|E]; rewrite E;
        [specialize (Hmk d Hd)|]; lia. }
    split.
    { intros i Hi. rewrite nth_upd.
      destruct (Nat.eqb_spec m i) as [<-|Hne].
      - replace (Nat.ltb m (length I)) with true
          by (symmetry; apply Nat.ltb_lt; lia).
        cbn [andb]. rewrite firstn_app, Hr, Nat.sub_diag. cbn [firstn].
        rewrite app_nil_r, <- Hr, firstn_all. reflexivity.
      - cbn [andb]. rewrite HIi by lia.
        rewrite firstn_app, Hr.
        replace (i - m)%nat with 0%nat by lia. cbn [firstn].
        now rewrite app_nil_r. }
    split.
    { intros i Hi. rewrite nth_upd_neq by lia. apply HIo. lia. }
    split.
    { intros k Hk HkJ.
      destruct (Nat.lt_ge_cases k (length (concat rows))) as [Hlt|Hge].
      - rewrite app_nth1 by exact Hlt. rewrite H8 by exact Hlt.
        now apply HJk.
      - rewrite app_nth2 by exact Hge.
        replace k with (length (concat rows) + (k - length (concat rows)))%nat
          at 1 by lia.
        apply H7; lia. }
    intros i Hi. destruct (Nat.eq_dec i m) as [->|Hne].
    + rewrite app_nth2 by lia. rewrite Hr, Nat.sub_diag. cbn [nth].
      split; [exact H1|]. intros d. rewrite H2. cbn [In]. tauto.
    + rewrite app_nth1 by lia. apply Hrows. lia.
Qed.

(** The two loop nests together: the array [J] is the concatenation of
    the rows, the array [I] holds their running lengths. *)
Lemma pattern_spec (u1 : list Z) (s1 : nat) (u : list Z) (s : nat)
  (I J : list nat) :
  fold_left count_step (seq 0 ndof_lor) (filled ndof_ho (-1)%Z, 0%nat)
  = (u1, s1) ->
  fold_left fill_step (seq 0 ndof_lor)
    (fold_left (fun u i => upd i (-1)%Z u) (seq 0 ndof_ho) u1, 0%nat,
     upd ndof_lor s1 (upd 0 0%nat (filled (S ndof_lor) 0%nat)),
     filled s1 0%nat)
  = (u, s, I, J) ->
  exists rows,
    length rows = ndof_lor
    /\ J = concat rows
    /\ length I = S ndof_lor
    /\ (forall i, (i <= ndof_lor)%nat ->
          nth i I 0%nat = length (concat (firstn i rows)))
    /\ (forall i, (i < ndof_lor)%nat ->
          NoDup (nth i rows [])
          /\ forall d, In d (nth i rows []) <-> In d (Lrow i)).
Proof.
  intros E1 E2.
  set (I0 := upd ndof_lor s1 (upd 0 0%nat (filled (S ndof_lor) 0%nat))) in *.
  set (J0 := filled s1 0%nat) in *.
  assert (HI0 : length I0 = S ndof_lor).
  { unfold I0. now rewrite !length_upd, length_filled. }
  destruct (@fill_invariant I0 J0 ndof_lor (le_n _) HI0)
    as (rows & used & I' & J' & Hfold & Hr & Hu & HI & HJ & Hmk
        & HIi & HIo & HJk & Hrows).
  assert (Hc : fold_left count_step (seq 0 ndof_lor)
                 (filled ndof_ho (-1)%Z, 0%nat)
               = (used, length (concat rows))).
  { rewrite (count_is_fill ndof_lor (filled ndof_ho (-1)%Z, 0%nat) I0 J0).
    change (fst (filled ndof_ho (-1)%Z, 0%nat)) with (filled ndof_ho (-1)%Z).
    change (snd (filled ndof_ho (-1)%Z, 0%nat)) with 0%nat.
    now rewrite Hfold. }
  rewrite E1 in Hc. injection Hc as -> ->.
  rewrite <- Hu in E2 at 1. rewrite reset_markers, Hu in E2.
  rewrite Hfold in E2. injection E2 as <- <- <- <-.
  assert (HJ0 : length J0 = length (concat rows)).
  { unfold J0. apply length_filled. }
  exists rows. split; [exact Hr|]. split.
  { apply (list_eq_nth 0%nat); [congruence|].
    intros k Hk. apply HJk; lia. }
  split; [exact HI|]. split; [|exact Hrows].
  intros i Hi. destruct (Nat.eq_dec i ndof_lor) as [->|Hne].
  - rewrite HIo by lia. unfold I0.
    rewrite nth_upd_eq
      by (rewrite length_upd, length_filled; lia).
    rewrite <- Hr. now rewrite firstn_all.
  - apply HIi. lia.
Qed.

End AllocRFacts.

Lemma length_concat_firstn_S (rows : list (list nat)) (i : nat) :
  (i < length rows)%nat ->
  length (concat (firstn (S i) rows))
  = (length (concat (firstn i rows)) + length (nth i rows []))%nat.
Proof.
  revert i. induction rows as [|r rows IH]; intros i Hi;
    [simpl in Hi; lia|].
  destruct i as [|i]; [cbn; rewrite length_app; cbn; lia|].
  change (firstn (S (S i)) (r :: rows)) with (r :: firstn (S i) rows).
  change (firstn (S i) (r :: rows)) with (r :: firstn i rows).
  cbn [concat nth]. rewrite !length_app, IH; [lia|].
  simpl in Hi. lia.
Qed.

Section AllocRPattern.
Context {R : Type} {SR : Scalar R}.
Variable GetElementToDofTable : FiniteElementSpace R -> list (list nat).

(** X23: the sparsity pattern that [AllocR] builds, before the rows are
    sorted.  When the table of the coarse space lists degrees of freedom
    of that space, the array [I] has one entry per fine degree of freedom
    and one more, it does not decrease, its last entry is the length of
    [J] (so the second loop nest writes exactly the entries that the
    first one counted), and the row of a fine degree of freedom lists,
    each once, the coarse degrees of freedom of the parents of the fine
    elements that contain it. *)
Theorem AllocR_pattern_rows (fes_ho fes_lor : FiniteElementSpace R) :
  (forall row d, In row (GetElementToDofTable fes_ho) -> In d row ->
                 (d < GetNDofs fes_ho)%nat) ->
  let dof_dofI := fst (AllocR_pattern GetElementToDofTable fes_ho fes_lor) in
  let dof_dofJ := snd (AllocR_pattern GetElementToDofTable fes_ho fes_lor) in
  length dof_dofI = S (GetNDofs fes_lor)
  /\ length dof_dofJ = nth (GetNDofs fes_lor) dof_dofI 0%nat
  /\ forall ilor, (ilor < GetNDofs fes_lor)%nat ->
       (nth ilor dof_dofI 0 <= nth (S ilor) dof_dofI 0)%nat
       /\ NoDup (Table_GetRow dof_dofI dof_dofJ ilor)
       /\ forall dof_ho,
            In dof_ho (Table_GetRow dof_dofI dof_dofJ ilor)
            <-> exists el_lor,
                  (el_lor < length (GetElementToDofTable fes_lor))%nat
                  /\ In ilor (nth el_lor (GetElementToDofTable fes_lor) [])
                  /\ In dof_ho
                       (nth (parent
                               (nth el_lor
                                  (embeddings
                                     (GetRefinementTransforms
                                        (GetMesh fes_lor)))
                                  {| parent := 0; matrix := 0 |}))
                            (GetElementToDofTable fes_ho) []).
Proof.
  intros Hho. unfold AllocR_pattern.
  destruct (AllocR_count _ _ _ _ _) as [u1 s1] eqn:E1.
  match goal with
  | |- context [fold_left ?f (seq 0 (GetNDofs fes_lor)) ?st] =>
      destruct (fold_left f (seq 0 (GetNDofs fes_lor)) st)
        as [[[u s] I] J] eqn:E2
  end.
  cbn [fst snd]. cbv zeta.
  destruct (@pattern_spec R (GetElementToDofTable fes_ho)
              (Table_Transpose (GetElementToDofTable fes_lor)
                               (GetNDofs fes_lor))
              (GetRefinementTransforms (GetMesh fes_lor))
              (GetNDofs fes_ho) (GetNDofs fes_lor) Hho u1 s1 u s I J E1 E2)
    as (rows & Hr & -> & HI & HIi & Hrows).
  split; [exact HI|]. split.
  { rewrite HIi by lia. rewrite <- Hr. now rewrite firstn_all. }
  intros ilor Hilor.
  rewrite (@GetRow_of_concat rows I ilor) by (try apply HIi; lia).
  destruct (Hrows ilor Hilor) as [Hnd Hin].
  split.
  { rewrite !HIi by lia. rewrite length_concat_firstn_S by lia. lia. }
  split; [exact Hnd|].
  intros dof_ho. rewrite Hin, in_flat_map. split.
  - intros [el [Hel Hd]]. apply In_Table_Transpose in Hel; [|exact Hilor].
    exists el. tauto.
  - intros [el [Hel [Hi Hd]]]. exists el. split; [|exact Hd].
    apply In_Table_Transpose; [exact Hilor|tauto].
Qed.

(** X26: the pattern of [AllocR] has a place for every entry of an
    element matrix of a patch: for a fine element [ilor] that
    [BuildHo2Lor] lists in the row of the coarse element [iho], the row
    of the pattern of every degree of freedom of [ilor] holds every
    degree of freedom of [iho].  The two functions read the parents from
    the same embeddings, one through [ho2lor], the other element by
    element. *)
Theorem AllocR_pattern_covers_patches (fes_ho fes_lor : FiniteElementSpace R)
  (nel_ho nel_lor iho ilor dof_lor dof_ho : nat) :
  (forall row d, In row (GetElementToDofTable fes_ho) -> In d row ->
                 (d < GetNDofs fes_ho)%nat) ->
  In ilor (nth iho (BuildHo2Lor nel_ho nel_lor
                      (GetRefinementTransforms (GetMesh fes_lor))) []) ->
  In dof_lor (nth ilor (GetElementToDofTable fes_lor) []) ->
  (dof_lor < GetNDofs fes_lor)%nat ->
  In dof_ho (nth iho (GetElementToDofTable fes_ho) []) ->
  In dof_ho
     (Table_GetRow
        (fst (AllocR_pattern GetElementToDofTable fes_ho fes_lor))
        (snd (AllocR_pattern GetElementToDofTable fes_ho fes_lor))
        dof_lor).
Proof.
  intros Hho Hrow Hlor Hlt Hin.
  assert (Hiho : (iho < nel_ho)%nat).
  { destruct (Nat.lt_ge_cases iho nel_ho) as [H|H]; [exact H|].
    rewrite nth_overflow in Hrow; [destruct Hrow|].
    unfold BuildHo2Lor. now rewrite length_map, length_seq. }
  unfold BuildHo2Lor in Hrow. rewrite (nth_map_seq _ [] Hiho) in Hrow.
  apply filter_In in Hrow. destruct Hrow as [_ Hpar].
  apply Nat.eqb_eq in Hpar.
  assert (Hel : (ilor < length (GetElementToDofTable fes_lor))%nat).
  { destruct (Nat.lt_ge_cases ilor (length (GetElementToDofTable fes_lor)))
      as [H|H]; [exact H|].
    rewrite nth_overflow in Hlor by exact H. destruct Hlor. }
  unfold AllocR_pattern.
  destruct (AllocR_count _ _ _ _ _) as [u1 s1] eqn:E1.
  match goal with
  | |- context [fold_left ?f (seq 0 (GetNDofs fes_lor)) ?st] =>
      destruct (fold_left f (seq 0 (GetNDofs fes_lor)) st)
        as [[[u s] I] J] eqn:E2
  end.
  cbn [fst snd].
  destruct (@pattern_spec R (GetElementToDofTable fes_ho)
              (Table_Transpose (GetElementToDofTable fes_lor)
                               (GetNDofs fes_lor))
              (GetRefinementTransforms (GetMesh fes_lor))
              (GetNDofs fes_ho) (GetNDofs fes_lor) Hho u1 s1 u s I J E1 E2)
    as (rows & Hr & -> & HI & HIi & Hrows).
  rewrite (@GetRow_of_concat rows I dof_lor) by (try apply HIi; lia).
  apply (Hrows dof_lor Hlt). apply in_flat_map. exists ilor. split.
  - apply In_Table_Transpose; [exact Hlt|]. split; [exact Hel|exact Hlor].
  - rewrite Hpar. exact Hin.
Qed.

End AllocRPattern.

Lemma AllocR_pattern_rows_witness :
  let fes_ho := segment_space 1 2 segment_P2 in
  let fes_lor := on_mesh (halved_segments 4) (segment_space 1 4 segment_P1) in
  (forall row d, In row (segment_tables fes_ho) -> In d row ->
                 (d < GetNDofs fes_ho)%nat)
  /\ AllocR_pattern segment_tables fes_ho fes_lor
     = ([0; 3; 6; 11; 14; 17]%nat,
        [0; 1; 3; 0; 1; 3; 0; 1; 3; 2; 4; 1; 2; 4; 1; 2; 4]%nat)
  /\ NoDup (Table_GetRow
              (fst (AllocR_pattern segment_tables fes_ho fes_lor))
              (snd (AllocR_pattern segment_tables fes_ho fes_lor)) 2).
Proof.
  intros fes_ho fes_lor.
  assert (Hho : forall row d, In row (segment_tables fes_ho) -> In d row ->
                              (d < GetNDofs fes_ho)%nat).
  { intros row d Hrow Hd. vm_compute in Hrow.
    repeat (destruct Hrow as [<-|Hrow]);
      vm_compute in Hd; vm_compute; intuition lia. }
  split; [exact Hho|]. split; [vm_compute; reflexivity|].
  exact (proj1 (proj2 (proj2 (proj2
           (@AllocR_pattern_rows Z segment_tables fes_ho fes_lor Hho))
           2%nat ltac:(vm_compute; lia)))).
Defined.

Lemma L2Space_MultTranspose_adjoint_witness :
  let fes_ho := broken_space (segments 1 2) segment_P1 in
  let fes_lor := broken_space (halved_segments 4) segment_P1 in
  let this := L2ProjectionL2Space_new left_point unit_mass same_matrix
                end_embedding fes_ho fes_lor in
  dot (GetVSize fes_lor) [1; 2; 3; 4; 5; 6; 7; 8]%Z
      (L2ProjectionL2Space_Mult this [5; 6; 7; 8]%Z (filled 8 0%Z))
  = dot (GetVSize fes_ho)
        (L2ProjectionL2Space_MultTranspose this
           [1; 2; 3; 4; 5; 6; 7; 8]%Z (filled 4 0%Z))
        [5; 6; 7; 8]%Z.
Proof.
  cbv zeta.
  refine (@L2Space_MultTranspose_adjoint Z _
            (L2ProjectionL2Space_new left_point unit_mass same_matrix
               end_embedding (broken_space (segments 1 2) segment_P1)
               (broken_space (halved_segments 4) segment_P1))
            [5; 6; 7; 8]%Z (filled 4 0%Z) [1; 2; 3; 4; 5; 6; 7; 8]%Z
            (filled 8 0%Z) _ _ _ _ _ _ _ _ _ _).
  - reflexivity.
  - exact (@broken_space_distinct 4 ltac:(lia)).
  - intros iho ilor Hi Hin. change (iho < 2)%nat in Hi.
    destruct iho as [|[|iho]]; [| |lia]; vm_compute in Hin;
      destruct Hin as [<-|[<-|[]]]; vm_compute; split;
      try reflexivity; lia.
  - intros iho Hi. change (iho < 2)%nat in Hi.
    destruct iho as [|[|iho]]; [| |lia]; vm_compute;
      repeat constructor; simpl; intuition lia.
  - intros iho iho' ilor Hi Hi' Hin Hin'.
    change (iho < 2)%nat in Hi. change (iho' < 2)%nat in Hi'.
    destruct iho as [|[|iho]]; [| |lia];
      (destruct iho' as [|[|iho']]; [| |lia]); try reflexivity;
      vm_compute in Hin, Hin'; intuition lia.
  - intros iho Hi. reflexivity.
  - intros iho p Hi Hp.
    exact (dd_range (@broken_space_distinct 2 ltac:(lia)) Hi Hp).
  - reflexivity.
  - reflexivity.
  - intros k Hk _. apply nth_filled.
Defined.

Lemma L2Space_ProlongateTranspose_adjoint_witness :
  let fes_ho := broken_space (segments 1 2) segment_P1 in
  let fes_lor := broken_space (halved_segments 4) segment_P1 in
  let this := L2ProjectionL2Space_new left_point unit_mass same_matrix
                end_embedding fes_ho fes_lor in
  exists yh yl,
    L2ProjectionL2Space_Prolongate this [1; 2; 3; 4; 5; 6; 7; 8]%Z
      (filled 4 9%Z) = Ok yh
    /\ L2ProjectionL2Space_ProlongateTranspose this [5; 6; 7; 8]%Z
         (filled 8 0%Z) = Ok yl
    /\ dot (GetVSize fes_lor) [1; 2; 3; 4; 5; 6; 7; 8]%Z yl
       = dot (GetVSize fes_ho) yh [5; 6; 7; 8]%Z.
Proof.
  cbv zeta.
  refine (@L2Space_ProlongateTranspose_adjoint Z _
            (L2ProjectionL2Space_new left_point unit_mass same_matrix
               end_embedding (broken_space (segments 1 2) segment_P1)
               (broken_space (halved_segments 4) segment_P1))
            [5; 6; 7; 8]%Z (filled 4 9%Z) [1; 2; 3; 4; 5; 6; 7; 8]%Z
            (filled 8 0%Z) _ _ _ _ _ _ _ _ _ _ _ _).
  - vm_compute. discriminate.
  - vm_compute. lia.
  - reflexivity.
  - exact (@broken_space_distinct 4 ltac:(lia)).
  - intros iho ilor Hi Hin. change (iho < 2)%nat in Hi.
    destruct iho as [|[|iho]]; [| |lia]; vm_compute in Hin;
      destruct Hin as [<-|[<-|[]]]; vm_compute; split;
      try reflexivity; lia.
  - intros iho Hi. change (iho < 2)%nat in Hi.
    destruct iho as [|[|iho]]; [| |lia]; vm_compute;
      repeat constructor; simpl; intuition lia.
  - intros iho iho' ilor Hi Hi' Hin Hin'.
    change (iho < 2)%nat in Hi. change (iho' < 2)%nat in Hi'.
    destruct iho as [|[|iho]]; [| |lia];
      (destruct iho' as [|[|iho']]; [| |lia]); try reflexivity;
      vm_compute in Hin, Hin'; intuition lia.
  - intros iho Hi. reflexivity.
  - intros iho p Hi Hp.
    exact (dd_range (@broken_space_distinct 2 ltac:(lia)) Hi Hp).
  - reflexivity.
  - reflexivity.
  - intros k Hk _. apply nth_filled.
Defined.

Lemma AllocR_pattern_covers_patches_witness :
  let fes_ho := segment_space 1 2 segment_P2 in
  let fes_lor := on_mesh (halved_segments 4) (segment_space 1 4 segment_P1) in
  In 4%nat
     (Table_GetRow
        (fst (AllocR_pattern segment_tables fes_ho fes_lor))
        (snd (AllocR_pattern segment_tables fes_ho fes_lor)) 2).
Proof.
  intros fes_ho fes_lor.
  refine (@AllocR_pattern_covers_patches Z segment_tables fes_ho fes_lor
            2 4 1 2 2 4 _ _ _ _ _).
  - intros row d Hrow Hd. vm_compute in Hrow.
    repeat (destruct Hrow as [<-|Hrow]);
      vm_compute in Hd; vm_compute; intuition lia.
  - vm_compute. auto.
  - vm_compute. auto.
  - vm_compute. lia.
  - vm_compute. auto.
Defined.
